(** * Transfer module of hi_class (source/transfer.c)

    A shallow embedding of the grid planner and of the integration engine of
    [source/transfer.c], and the properties of its specification.

    Conventions of the embedding.
    - A C [double] is a real number ([R]): arithmetic is exact, there is no
      rounding, no infinity and no NaN.  [x / 0] is [0] as in the Reals
      library.  Where the code takes the [sqrt] of a number that can be
      negative ([transfer_get_k_list]), the tests on the result are those of
      C on a NaN: they do not fire.
    - A C [int] is an integer ([Z]); overflow is not modelled.  The cast
      [(int) x] is truncation towards zero ([trunc]).
    - A C array is a list; [rd a i] reads [a[i]].
    - A function that returns [_SUCCESS_] or [_FAILURE_] returns a [result]:
      [Ok v] carries the output arguments, [Error msg] the message of the
      [class_test] or [class_stop] that fired.  Allocation never fails.
    - A [while] loop whose exit is not bounded by the code itself runs on
      fuel; [OutOfFuel] says that the fuel did not suffice, and the theorems
      on such loops say how much fuel does. *)

From Stdlib Require Import String Reals Lra Lia ZArith List Bool.
Import ListNotations.

Open Scope Z_scope.
Open Scope R_scope.

(** ** Results of fallible functions *)

Inductive result (A : Type) : Type :=
| Ok (a : A)
| Error (msg : string)
| OutOfFuel.

Arguments Ok {A} a.
Arguments Error {A} msg.
Arguments OutOfFuel {A}.

Definition bind {A B : Type} (r : result A) (f : A -> result B) : result B :=
  match r with
  | Ok a => f a
  | Error msg => Error msg
  | OutOfFuel => OutOfFuel
  end.

Notation "'do' x <- r ; k" := (bind r (fun x => k))
  (at level 10, x pattern, r at level 100, k at level 200).

Definition is_ok {A : Type} (r : result A) : bool :=
  match r with Ok _ => true | _ => false end.

Definition is_error {A : Type} (r : result A) : bool :=
  match r with Error _ => true | _ => false end.

(** [class_test(cond, msg)]: fail with [msg] when [cond] holds. *)
Definition class_test (cond : bool) (msg : string) : result unit :=
  if cond then Error msg else Ok tt.

(** ** Numbers and arrays *)

Definition Rltb (x y : R) : bool := if Rlt_dec x y then true else false.
Definition Rleb (x y : R) : bool := if Rle_dec x y then true else false.
Definition Req_b (x y : R) : bool := if Req_dec_T x y then true else false.

(** The macros MAX and MIN of common.h, on doubles and on ints. *)
Definition MAX (a b : R) : R := if Rlt_dec b a then a else b.
Definition MIN (a b : R) : R := if Rlt_dec a b then a else b.
Definition MAXi (a b : Z) : Z := if (b <? a)%Z then a else b.

(** [(int) x]: truncation towards zero. *)
Definition trunc (x : R) : Z :=
  if Rle_dec 0 x then Int_part x else (- Int_part (- x))%Z.

(** [rd a i] is [a[i]] for an array of doubles, [rdi a i] for an array of
    ints.  Reading outside the array is undefined in C; here it gives 0. *)
Definition rd (a : list R) (i : Z) : R := nth (Z.to_nat i) a 0.
Definition rdi (a : list Z) (i : Z) : Z := nth (Z.to_nat i) a 0%Z.

(** [a[i] = v] on a list. *)
Fixpoint list_set {A : Type} (a : list A) (i : nat) (v : A) : list A :=
  match a, i with
  | [], _ => []
  | _ :: r, O => v :: r
  | x :: r, S j => x :: list_set r j v
  end.

Definition wr {A : Type} (a : list A) (i : Z) (v : A) : list A :=
  list_set a (Z.to_nat i) v.

(** ** The structures (fields used by the functions below) *)

(** [enum selection_type] of perturbations.h. *)
Inductive selection_type : Type := gaussian | tophat | dirac.

Definition selection_eqb (a b : selection_type) : bool :=
  match a, b with
  | gaussian, gaussian | tophat, tophat | dirac, dirac => true
  | _, _ => false
  end.

(** [struct precision]. *)
Record precision : Type := {
  ppr_l_logstep : R;
  ppr_l_linstep : Z;
  ppr_l_switch_limber : R;
  ppr_l_switch_limber_for_cl_density_over_z : R;
  ppr_q_linstep : R;
  ppr_q_logstep_spline : R;
  ppr_q_logstep_open : R;
  ppr_q_logstep_trapzd : R;
  ppr_q_numstep_transition : R;
  ppr_hyper_flat_approximation_nu : R;
  ppr_selection_sampling : R;
  ppr_selection_sampling_bessel : R;
  ppr_selection_cut_at_sigma : R;
  ppr_selection_tophat_edge : R
}.

(** [struct perturbs]. *)
Record perturbs : Type := {
  ppt_has_cls : bool;
  ppt_has_scalars : bool;
  ppt_has_vectors : bool;
  ppt_has_tensors : bool;
  ppt_index_md_scalars : Z;
  ppt_index_md_vectors : Z;
  ppt_index_md_tensors : Z;
  ppt_md_size : Z;
  ppt_has_cl_cmb_temperature : bool;
  ppt_has_cl_cmb_polarization : bool;
  ppt_has_cl_cmb_lensing_potential : bool;
  ppt_has_cl_density : bool;
  ppt_has_cl_lensing_potential : bool;
  ppt_selection : selection_type;
  ppt_selection_num : Z;
  ppt_selection_mean : list R;
  ppt_selection_width : list R;
  ppt_l_scalar_max : Z;
  ppt_l_lss_max : Z;
  ppt_l_tensor_max : Z;
  ppt_k : list R;
  ppt_k_size_cl : Z;
  ppt_tau_size : Z;
  ppt_tau_sampling : list R
}.

(** [struct transfers]. *)
Record transfers : Type := {
  ptr_has_cls : bool;
  ptr_md_size : Z;
  ptr_index_tt_t0 : Z;
  ptr_index_tt_t1 : Z;
  ptr_index_tt_t2 : Z;
  ptr_index_tt_e : Z;
  ptr_index_tt_b : Z;
  ptr_index_tt_lcmb : Z;
  ptr_index_tt_density : Z;
  ptr_index_tt_lensing : Z;
  ptr_tt_size : list Z;
  ptr_l_size_tt : list (list Z);
  ptr_l_size : list Z;
  ptr_l_size_max : Z;
  ptr_l : list Z;
  ptr_q_size : Z;
  ptr_q : list R;
  ptr_k : list (list R);
  ptr_index_q_flat_approximation : Z;
  ptr_angular_rescaling : R
}.

(** The macros [_scalars_], [_vectors_] and [_tensors_] of perturbations.h
    (the header is not part of the sources at hand; this is how the macros
    are used throughout transfer.c: a mode is tested by its flag and its
    index). *)
Definition _scalars_ (ppt : perturbs) (index_md : Z) : bool :=
  ppt_has_scalars ppt && (index_md =? ppt_index_md_scalars ppt)%Z.
Definition _vectors_ (ppt : perturbs) (index_md : Z) : bool :=
  ppt_has_vectors ppt && (index_md =? ppt_index_md_vectors ppt)%Z.
Definition _tensors_ (ppt : perturbs) (index_md : Z) : bool :=
  ppt_has_tensors ppt && (index_md =? ppt_index_md_tensors ppt)%Z.

(** Field updates [ptr->f = v]. *)
Definition set_ptr_has_cls (v : bool) (ptr : transfers) : transfers :=
  let 'Build_transfers f0 f1 f2 f3 f4 f5 f6 f7 f8 f9 f10 f11 f12 f13 f14 f15 f16 f17 f18 f19 := ptr in
  Build_transfers v f1 f2 f3 f4 f5 f6 f7 f8 f9 f10 f11 f12 f13 f14 f15 f16 f17 f18 f19.
Definition set_ptr_md_size (v : Z) (ptr : transfers) : transfers :=
  let 'Build_transfers f0 f1 f2 f3 f4 f5 f6 f7 f8 f9 f10 f11 f12 f13 f14 f15 f16 f17 f18 f19 := ptr in
  Build_transfers f0 v f2 f3 f4 f5 f6 f7 f8 f9 f10 f11 f12 f13 f14 f15 f16 f17 f18 f19.
Definition set_ptr_index_tt_t0 (v : Z) (ptr : transfers) : transfers :=
  let 'Build_transfers f0 f1 f2 f3 f4 f5 f6 f7 f8 f9 f10 f11 f12 f13 f14 f15 f16 f17 f18 f19 := ptr in
  Build_transfers f0 f1 v f3 f4 f5 f6 f7 f8 f9 f10 f11 f12 f13 f14 f15 f16 f17 f18 f19.
Definition set_ptr_index_tt_t1 (v : Z) (ptr : transfers) : transfers :=
  let 'Build_transfers f0 f1 f2 f3 f4 f5 f6 f7 f8 f9 f10 f11 f12 f13 f14 f15 f16 f17 f18 f19 := ptr in
  Build_transfers f0 f1 f2 v f4 f5 f6 f7 f8 f9 f10 f11 f12 f13 f14 f15 f16 f17 f18 f19.
Definition set_ptr_index_tt_t2 (v : Z) (ptr : transfers) : transfers :=
  let 'Build_transfers f0 f1 f2 f3 f4 f5 f6 f7 f8 f9 f10 f11 f12 f13 f14 f15 f16 f17 f18 f19 := ptr in
  Build_transfers f0 f1 f2 f3 v f5 f6 f7 f8 f9 f10 f11 f12 f13 f14 f15 f16 f17 f18 f19.
Definition set_ptr_index_tt_e (v : Z) (ptr : transfers) : transfers :=
  let 'Build_transfers f0 f1 f2 f3 f4 f5 f6 f7 f8 f9 f10 f11 f12 f13 f14 f15 f16 f17 f18 f19 := ptr in
  Build_transfers f0 f1 f2 f3 f4 v f6 f7 f8 f9 f10 f11 f12 f13 f14 f15 f16 f17 f18 f19.
Definition set_ptr_index_tt_b (v : Z) (ptr : transfers) : transfers :=
  let 'Build_transfers f0 f1 f2 f3 f4 f5 f6 f7 f8 f9 f10 f11 f12 f13 f14 f15 f16 f17 f18 f19 := ptr in
  Build_transfers f0 f1 f2 f3 f4 f5 v f7 f8 f9 f10 f11 f12 f13 f14 f15 f16 f17 f18 f19.
Definition set_ptr_index_tt_lcmb (v : Z) (ptr : transfers) : transfers :=
  let 'Build_transfers f0 f1 f2 f3 f4 f5 f6 f7 f8 f9 f10 f11 f12 f13 f14 f15 f16 f17 f18 f19 := ptr in
  Build_transfers f0 f1 f2 f3 f4 f5 f6 v f8 f9 f10 f11 f12 f13 f14 f15 f16 f17 f18 f19.
Definition set_ptr_index_tt_density (v : Z) (ptr : transfers) : transfers :=
  let 'Build_transfers f0 f1 f2 f3 f4 f5 f6 f7 f8 f9 f10 f11 f12 f13 f14 f15 f16 f17 f18 f19 := ptr in
  Build_transfers f0 f1 f2 f3 f4 f5 f6 f7 v f9 f10 f11 f12 f13 f14 f15 f16 f17 f18 f19.
Definition set_ptr_index_tt_lensing (v : Z) (ptr : transfers) : transfers :=
  let 'Build_transfers f0 f1 f2 f3 f4 f5 f6 f7 f8 f9 f10 f11 f12 f13 f14 f15 f16 f17 f18 f19 := ptr in
  Build_transfers f0 f1 f2 f3 f4 f5 f6 f7 f8 v f10 f11 f12 f13 f14 f15 f16 f17 f18 f19.
Definition set_ptr_tt_size (v : list Z) (ptr : transfers) : transfers :=
  let 'Build_transfers f0 f1 f2 f3 f4 f5 f6 f7 f8 f9 f10 f11 f12 f13 f14 f15 f16 f17 f18 f19 := ptr in
  Build_transfers f0 f1 f2 f3 f4 f5 f6 f7 f8 f9 v f11 f12 f13 f14 f15 f16 f17 f18 f19.
Definition set_ptr_l_size_tt (v : list (list Z)) (ptr : transfers) : transfers :=
  let 'Build_transfers f0 f1 f2 f3 f4 f5 f6 f7 f8 f9 f10 f11 f12 f13 f14 f15 f16 f17 f18 f19 := ptr in
  Build_transfers f0 f1 f2 f3 f4 f5 f6 f7 f8 f9 f10 v f12 f13 f14 f15 f16 f17 f18 f19.
Definition set_ptr_l_size (v : list Z) (ptr : transfers) : transfers :=
  let 'Build_transfers f0 f1 f2 f3 f4 f5 f6 f7 f8 f9 f10 f11 f12 f13 f14 f15 f16 f17 f18 f19 := ptr in
  Build_transfers f0 f1 f2 f3 f4 f5 f6 f7 f8 f9 f10 f11 v f13 f14 f15 f16 f17 f18 f19.
Definition set_ptr_l_size_max (v : Z) (ptr : transfers) : transfers :=
  let 'Build_transfers f0 f1 f2 f3 f4 f5 f6 f7 f8 f9 f10 f11 f12 f13 f14 f15 f16 f17 f18 f19 := ptr in
  Build_transfers f0 f1 f2 f3 f4 f5 f6 f7 f8 f9 f10 f11 f12 v f14 f15 f16 f17 f18 f19.
Definition set_ptr_l (v : list Z) (ptr : transfers) : transfers :=
  let 'Build_transfers f0 f1 f2 f3 f4 f5 f6 f7 f8 f9 f10 f11 f12 f13 f14 f15 f16 f17 f18 f19 := ptr in
  Build_transfers f0 f1 f2 f3 f4 f5 f6 f7 f8 f9 f10 f11 f12 f13 v f15 f16 f17 f18 f19.
Definition set_ptr_q_size (v : Z) (ptr : transfers) : transfers :=
  let 'Build_transfers f0 f1 f2 f3 f4 f5 f6 f7 f8 f9 f10 f11 f12 f13 f14 f15 f16 f17 f18 f19 := ptr in
  Build_transfers f0 f1 f2 f3 f4 f5 f6 f7 f8 f9 f10 f11 f12 f13 f14 v f16 f17 f18 f19.
Definition set_ptr_q (v : list R) (ptr : transfers) : transfers :=
  let 'Build_transfers f0 f1 f2 f3 f4 f5 f6 f7 f8 f9 f10 f11 f12 f13 f14 f15 f16 f17 f18 f19 := ptr in
  Build_transfers f0 f1 f2 f3 f4 f5 f6 f7 f8 f9 f10 f11 f12 f13 f14 f15 v f17 f18 f19.
Definition set_ptr_k (v : list (list R)) (ptr : transfers) : transfers :=
  let 'Build_transfers f0 f1 f2 f3 f4 f5 f6 f7 f8 f9 f10 f11 f12 f13 f14 f15 f16 f17 f18 f19 := ptr in
  Build_transfers f0 f1 f2 f3 f4 f5 f6 f7 f8 f9 f10 f11 f12 f13 f14 f15 f16 v f18 f19.
Definition set_ptr_index_q_flat_approximation (v : Z) (ptr : transfers) : transfers :=
  let 'Build_transfers f0 f1 f2 f3 f4 f5 f6 f7 f8 f9 f10 f11 f12 f13 f14 f15 f16 f17 f18 f19 := ptr in
  Build_transfers f0 f1 f2 f3 f4 f5 f6 f7 f8 f9 f10 f11 f12 f13 f14 f15 f16 f17 v f19.
Definition set_ptr_angular_rescaling (v : R) (ptr : transfers) : transfers :=
  let 'Build_transfers f0 f1 f2 f3 f4 f5 f6 f7 f8 f9 f10 f11 f12 f13 f14 f15 f16 f17 f18 f19 := ptr in
  Build_transfers f0 f1 f2 f3 f4 f5 f6 f7 f8 f9 f10 f11 f12 f13 f14 f15 f16 f17 f18 v.

(** ** Type indices (first part of [transfer_indices_of_transfers]) *)

(** The type indices are handed out in sequence: first the types common to
    scalars and tensors, then, for each mode, its own types.  A field whose
    observable is not requested is left as it was. *)
Definition transfer_indices_of_transfers_types
    (ppt : perturbs) (ptr : transfers) : transfers :=
  let ptr := set_ptr_tt_size (repeat 0%Z (Z.to_nat (ptr_md_size ptr))) ptr in
  let index_tt := 0%Z in
  let '(ptr, index_tt) :=
    if ppt_has_cl_cmb_temperature ppt
    then (set_ptr_index_tt_t2 index_tt ptr, (index_tt + 1)%Z) else (ptr, index_tt) in
  let '(ptr, index_tt) :=
    if ppt_has_cl_cmb_polarization ppt
    then (set_ptr_index_tt_e index_tt ptr, (index_tt + 1)%Z) else (ptr, index_tt) in
  let index_tt_common := index_tt in
  (* scalars *)
  let ptr :=
    if ppt_has_scalars ppt then
      let index_tt := index_tt_common in
      let '(ptr, index_tt) :=
        if ppt_has_cl_cmb_temperature ppt
        then (set_ptr_index_tt_t1 (index_tt + 1)%Z (set_ptr_index_tt_t0 index_tt ptr),
              (index_tt + 2)%Z)
        else (ptr, index_tt) in
      let '(ptr, index_tt) :=
        if ppt_has_cl_cmb_lensing_potential ppt
        then (set_ptr_index_tt_lcmb index_tt ptr, (index_tt + 1)%Z) else (ptr, index_tt) in
      let '(ptr, index_tt) :=
        if ppt_has_cl_density ppt
        then (set_ptr_index_tt_density index_tt ptr, (index_tt + ppt_selection_num ppt)%Z)
        else (ptr, index_tt) in
      let '(ptr, index_tt) :=
        if ppt_has_cl_lensing_potential ppt
        then (set_ptr_index_tt_lensing index_tt ptr, (index_tt + ppt_selection_num ppt)%Z)
        else (ptr, index_tt) in
      set_ptr_tt_size (wr (ptr_tt_size ptr) (ppt_index_md_scalars ppt) index_tt) ptr
    else ptr in
  (* vectors *)
  let ptr :=
    if ppt_has_vectors ppt then
      let index_tt := index_tt_common in
      let '(ptr, index_tt) :=
        if ppt_has_cl_cmb_temperature ppt
        then (set_ptr_index_tt_t1 index_tt ptr, (index_tt + 1)%Z) else (ptr, index_tt) in
      let '(ptr, index_tt) :=
        if ppt_has_cl_cmb_polarization ppt
        then (set_ptr_index_tt_b index_tt ptr, (index_tt + 1)%Z) else (ptr, index_tt) in
      set_ptr_tt_size (wr (ptr_tt_size ptr) (ppt_index_md_vectors ppt) index_tt) ptr
    else ptr in
  (* tensors *)
  let ptr :=
    if ppt_has_tensors ppt then
      let index_tt := index_tt_common in
      let '(ptr, index_tt) :=
        if ppt_has_cl_cmb_polarization ppt
        then (set_ptr_index_tt_b index_tt ptr, (index_tt + 1)%Z) else (ptr, index_tt) in
      set_ptr_tt_size (wr (ptr_tt_size ptr) (ppt_index_md_tensors ppt) index_tt) ptr
    else ptr in
  ptr.

(** The tests on the type index that transfer.c repeats for the windowed
    types: [index_tt] is one of the [selection_num] number-count (density)
    types, or one of the [selection_num] galaxy-lensing types. *)
Definition tt_is_density (ppt : perturbs) (ptr : transfers) (index_tt : Z) : bool :=
  ppt_has_cl_density ppt
  && (ptr_index_tt_density ptr <=? index_tt)%Z
  && (index_tt <? ptr_index_tt_density ptr + ppt_selection_num ppt)%Z.

Definition tt_is_lensing (ppt : perturbs) (ptr : transfers) (index_tt : Z) : bool :=
  ppt_has_cl_lensing_potential ppt
  && (ptr_index_tt_lensing ptr <=? index_tt)%Z
  && (index_tt <? ptr_index_tt_lensing ptr + ppt_selection_num ppt)%Z.

Definition tt_is_lcmb (ppt : perturbs) (ptr : transfers) (index_tt : Z) : bool :=
  ppt_has_cl_cmb_lensing_potential ppt && (index_tt =? ptr_index_tt_lcmb ptr)%Z.

(** ** [transfer_use_limber] *)

(** The function always returns [_SUCCESS_]; the model returns the flag
    [*use_limber]. *)
Definition transfer_use_limber
    (ppr : precision) (ppt : perturbs) (ptr : transfers)
    (q_max_bessel : R) (index_md index_tt : Z) (q l : R) : bool :=
  if Rltb q_max_bessel q then true
  else if _scalars_ ppt index_md then
    if tt_is_lcmb ppt ptr index_tt && Rltb (ppr_l_switch_limber ppr) l then true
    else if tt_is_density ppt ptr index_tt
            && Rleb (ppr_l_switch_limber_for_cl_density_over_z ppr
                     * rd (ppt_selection_mean ppt) (index_tt - ptr_index_tt_density ptr)) l
    then (if selection_eqb (ppt_selection ppt) dirac then false else true)
    else if tt_is_lensing ppt ptr index_tt
            && Rleb (ppr_l_switch_limber_for_cl_density_over_z ppr
                     * rd (ppt_selection_mean ppt) (index_tt - ptr_index_tt_lensing ptr)) l
    then true
    else false
  else false.

(** ** [transfer_get_l_list] *)

Section L_list.

Variables (ppr : precision) (ppt : perturbs) (ptr : transfers).

(** The largest multipole needed by any requested class of observables. *)
Definition l_list_l_max : Z :=
  let l_max := 0%Z in
  if ppt_has_cls ppt then
    let l_max :=
      if ppt_has_scalars ppt then
        let l_max :=
          if ppt_has_cl_cmb_temperature ppt || ppt_has_cl_cmb_polarization ppt
             || ppt_has_cl_cmb_lensing_potential ppt
          then MAXi (ppt_l_scalar_max ppt) l_max else l_max in
        if ppt_has_cl_lensing_potential ppt || ppt_has_cl_density ppt
        then MAXi (ppt_l_lss_max ppt) l_max else l_max
      else l_max in
    if ppt_has_tensors ppt then MAXi (ppt_l_tensor_max ppt) l_max else l_max
  else l_max.

(** [MAX((int)(current_l * (pow(ppr->l_logstep,ptr->angular_rescaling)-1.)),1)] *)
Definition l_log_increment (current_l : Z) : Z :=
  MAXi (trunc (IZR current_l
               * (Rpower (ppr_l_logstep ppr) (ptr_angular_rescaling ptr) - 1))) 1.

(** [increment = ppr->l_linstep*ptr->angular_rescaling], stored in an int. *)
Definition l_lin_increment : Z :=
  trunc (IZR (ppr_l_linstep ppr) * ptr_angular_rescaling ptr).

(** [increment < ppr->l_linstep*ptr->angular_rescaling] *)
Definition l_below_linstep (increment : Z) : bool :=
  Rltb (IZR increment) (IZR (ppr_l_linstep ppr) * ptr_angular_rescaling ptr).

(** First pass: the values are only counted.  State: [index_l], [current_l]
    and, in the logarithmic loop, [increment]. *)
Fixpoint l_count_log (fuel : nat) (l_max index_l current_l increment : Z)
  : result (Z * Z) :=
  if (current_l + increment <? l_max)%Z && l_below_linstep increment then
    match fuel with
    | O => OutOfFuel
    | S fuel' =>
        let index_l := (index_l + 1)%Z in
        let current_l := (current_l + increment)%Z in
        l_count_log fuel' l_max index_l current_l (l_log_increment current_l)
    end
  else Ok (index_l, current_l).

Fixpoint l_count_lin (fuel : nat) (l_max increment index_l current_l : Z)
  : result (Z * Z) :=
  if (current_l + increment <=? l_max)%Z then
    match fuel with
    | O => OutOfFuel
    | S fuel' =>
        l_count_lin fuel' l_max increment (index_l + 1)%Z (current_l + increment)%Z
    end
  else Ok (index_l, current_l).

(** The value given to [ptr->l_size_max]. *)
Definition l_count (fuel : nat) (l_max : Z) : result Z :=
  do (index_l, current_l) <- l_count_log fuel l_max 0%Z 2%Z (l_log_increment 2);
  do (index_l, current_l) <- l_count_lin fuel l_max l_lin_increment index_l current_l;
  let index_l := if (current_l =? l_max)%Z then index_l else (index_l + 1)%Z in
  Ok (index_l + 1)%Z.

(** Second pass: the same recurrences, the values now written in [ptr->l].
    The list [l] is the filled part [l[0..index_l]] of the array, so that
    [l[index_l]] is its last element and [index_l ++] followed by the write of
    [l[index_l]] appends one value. *)
Definition l_last (l : list Z) : Z := last l 0%Z.

Fixpoint l_fill_log (fuel : nat) (l_max : Z) (l : list Z) (increment : Z)
  : result (list Z) :=
  if (l_last l + increment <? l_max)%Z && l_below_linstep increment then
    match fuel with
    | O => OutOfFuel
    | S fuel' =>
        let l := l ++ [(l_last l + increment)%Z] in
        l_fill_log fuel' l_max l (l_log_increment (l_last l))
    end
  else Ok l.

Fixpoint l_fill_lin (fuel : nat) (l_max increment : Z) (l : list Z)
  : result (list Z) :=
  if (l_last l + increment <=? l_max)%Z then
    match fuel with
    | O => OutOfFuel
    | S fuel' => l_fill_lin fuel' l_max increment (l ++ [(l_last l + increment)%Z])
    end
  else Ok l.

Definition l_fill (fuel : nat) (l_max : Z) : result (list Z) :=
  do l <- l_fill_log fuel l_max [2%Z] (l_log_increment 2);
  do l <- l_fill_lin fuel l_max l_lin_increment l;
  Ok (if (l_last l =? l_max)%Z then l else l ++ [l_max]).

(** The [l_max] of one (mode, type): the chain of assignments at the head of
    the inner loop.  When no test applies, [l_max] keeps the value it had. *)
Definition l_max_of_type (index_md index_tt l_max : Z) : Z :=
  let l_max :=
    if _scalars_ ppt index_md then
      let l_max :=
        if ppt_has_cl_cmb_temperature ppt
           && ((index_tt =? ptr_index_tt_t0 ptr)%Z || (index_tt =? ptr_index_tt_t1 ptr)%Z
               || (index_tt =? ptr_index_tt_t2 ptr)%Z)
        then ppt_l_scalar_max ppt else l_max in
      let l_max :=
        if ppt_has_cl_cmb_polarization ppt && (index_tt =? ptr_index_tt_e ptr)%Z
        then ppt_l_scalar_max ppt else l_max in
      let l_max := if tt_is_lcmb ppt ptr index_tt then ppt_l_scalar_max ppt else l_max in
      let l_max := if tt_is_density ppt ptr index_tt then ppt_l_lss_max ppt else l_max in
      if tt_is_lensing ppt ptr index_tt then ppt_l_lss_max ppt else l_max
    else l_max in
  if _tensors_ ppt index_md then ppt_l_tensor_max ppt else l_max.

(** [index_l=0; while (ptr->l[index_l] < l_max) index_l++;] over the values
    of [l] from [index_l] on.  The loop stops inside the array whenever some
    value is at least [l_max]; the model stops at the end of the array. *)
Fixpoint l_index_of_l_max (l : list Z) (l_max index_l : Z) : Z :=
  match l with
  | [] => index_l
  | x :: rest =>
      if (x <? l_max)%Z then l_index_of_l_max rest l_max (index_l + 1)%Z else index_l
  end.

(** The size for one type: [index_l+1], enlarged twice by one while it is
    below [l_size_max]. *)
Definition l_size_of_type (l : list Z) (l_size_max l_max : Z) : Z :=
  let s := (l_index_of_l_max l l_max 0 + 1)%Z in
  let s := if (s <? l_size_max)%Z then (s + 1)%Z else s in
  if (s <? l_size_max)%Z then (s + 1)%Z else s.

Definition l_max_error : string :=
  "For mode %d, type %d, asked for l_max=%d greater than in Bessel table where l_max=%d".

(** The loop over the types of one mode; [n] types remain.  [sizes] is the
    filled part of [ptr->l_size_tt[index_md]]. *)
Fixpoint l_size_tt_loop (n : nat) (l : list Z) (l_size_max index_md index_tt l_max : Z)
    (sizes : list Z) (l_size_md : Z) : result (Z * list Z * Z) :=
  match n with
  | O => Ok (l_max, sizes, l_size_md)
  | S n' =>
      let l_max := l_max_of_type index_md index_tt l_max in
      do _ <- class_test (rdi l (l_size_max - 1) <? l_max)%Z l_max_error;
      let s := l_size_of_type l l_size_max l_max in
      l_size_tt_loop n' l l_size_max index_md (index_tt + 1)%Z l_max
        (sizes ++ [s]) (MAXi l_size_md s)
  end.

(** The loop over the modes; [n] modes remain. *)
Fixpoint l_size_md_loop (n : nat) (l : list Z) (l_size_max index_md l_max : Z)
    (l_size_tt : list (list Z)) (l_size : list Z) : result (list (list Z) * list Z) :=
  match n with
  | O => Ok (l_size_tt, l_size)
  | S n' =>
      do (l_max, sizes, l_size_md) <-
        l_size_tt_loop (Z.to_nat (rdi (ptr_tt_size ptr) index_md)) l l_size_max
          index_md 0%Z l_max [] 0%Z;
      l_size_md_loop n' l l_size_max (index_md + 1)%Z l_max
        (l_size_tt ++ [sizes]) (l_size ++ [l_size_md])
  end.

Definition transfer_get_l_list (fuel : nat) : result transfers :=
  let l_max := l_list_l_max in
  do l_size_max <- l_count fuel l_max;
  do l <- l_fill fuel l_max;
  do (l_size_tt, l_size) <-
    l_size_md_loop (Z.to_nat (ppt_md_size ppt)) l l_size_max 0%Z l_max [] [];
  Ok (set_ptr_l_size l_size
        (set_ptr_l_size_tt l_size_tt (set_ptr_l l (set_ptr_l_size_max l_size_max ptr)))).

End L_list.

(** ** [transfer_get_q_list] *)

(** The state of the filling loop.  [qs_q] is the filled part
    [q[0..index_q-1]] of the array, so that [index_q] is its length. *)
Record q_state : Type := {
  qs_q : list R;
  qs_nu : Z;
  qs_last_step : R;
  qs_last_index : Z
}.

Definition q_index (st : q_state) : Z := Z.of_nat (length (qs_q st)).

(** [ptr->q[index_q-1]] *)
Definition q_prev (st : q_state) : R := rd (qs_q st) (q_index st - 1).

Definition q_list_error : string := "buggy q-list definition".

Section Q_list.

Variables (ppr : precision) (ppt : perturbs) (ptr : transfers).
Variables (q_period K : R) (sgnK : Z).

(** First and last value, [(q_min, q_max)].  (In the flat case the code also
    sets its local copy of [K] to zero; no flat path reads it afterwards.) *)
Definition q_list_bounds : R * R :=
  if (sgnK =? 0)%Z then
    (rd (ppt_k ppt) 0, rd (ppt_k ppt) (ppt_k_size_cl ppt - 1))
  else if (sgnK =? -1)%Z then
    let q_min := sqrt (rd (ppt_k ppt) 0 * rd (ppt_k ppt) 0 + K) in
    let k_max := rd (ppt_k ppt) (ppt_k_size_cl ppt - 1) in
    let q_max := sqrt (k_max * k_max + K) in
    let q_max :=
      if ppt_has_vectors ppt then MIN q_max (sqrt (k_max * k_max + 2 * K)) else q_max in
    let q_max :=
      if ppt_has_tensors ppt then MIN q_max (sqrt (k_max * k_max + 3 * K)) else q_max in
    (q_min, q_max)
  else if (sgnK =? 1)%Z then
    let nu_min := 3%Z in
    (IZR nu_min * sqrt K, rd (ppt_k ppt) (ppt_k_size_cl ppt - 1))
  else (0, 0).

(** The parameter of the logarithmic step, adjusted to curvature. *)
Definition q_logstep_spline : R :=
  ppr_q_logstep_spline ppr / Rpower (ptr_angular_rescaling ptr) (ppr_q_logstep_open ppr).

Definition q_logstep_trapzd : R := ppr_q_logstep_trapzd ppr.

(** The conservative size of the array. *)
Definition q_list_size_max (q_min q_max : R) : Z :=
  if (sgnK =? 1)%Z then
    let q_approximation := MIN (ppr_hyper_flat_approximation_nu ppr) (q_max / sqrt K) in
    let q_step := 1 + q_period * ppr_q_logstep_trapzd ppr in
    let q_size_max := (2 * trunc (ln (q_approximation / q_min) / ln q_step))%Z in
    let q_step := q_period * ppr_q_linstep ppr in
    let q_size_max := (q_size_max + 2 * trunc ((q_approximation - q_min) / q_step))%Z in
    let q_step := 1 + q_period * ppr_q_logstep_spline ppr in
    let q_size_max := (q_size_max + 2 * trunc (ln (q_max / q_approximation) / ln q_step))%Z in
    let q_step := q_period * ppr_q_linstep ppr in
    (q_size_max + 2 * trunc ((q_max - q_approximation) / q_step))%Z
  else
    let q_step := 1 + q_period * ppr_q_logstep_spline ppr in
    let q_size_max := (2 * trunc (ln (q_max / q_min) / ln q_step))%Z in
    let q_step := q_period * ppr_q_linstep ppr in
    (q_size_max + 2 * trunc ((q_max - q_min) / q_step))%Z.

(** The step of the flat and open case at [q], with logarithmic parameter
    [logstep]: [q_period * q_linstep * q / (q + q_linstep/logstep)]. *)
Definition q_blend_step (logstep q : R) : R :=
  q_period * ppr_q_linstep ppr * q / (q + ppr_q_linstep ppr / logstep).

(** One turn of the loop: the next value is computed and stored in
    [q[index_q]], and [index_q] is incremented. *)
Definition q_list_step (st : q_state) : q_state :=
  let index_q := q_index st in
  if (sgnK <=? 0)%Z then
    let q := q_prev st + q_blend_step q_logstep_spline (q_prev st) in
    {| qs_q := qs_q st ++ [q]; qs_nu := qs_nu st;
       qs_last_step := qs_last_step st; qs_last_index := qs_last_index st |}
  else if (qs_nu st <? trunc (ppr_hyper_flat_approximation_nu ppr))%Z then
    let q := q_prev st + q_blend_step q_logstep_trapzd (q_prev st) in
    let nu_proposed := trunc (q / sqrt K) in
    let nu := if (nu_proposed <=? qs_nu st + 1)%Z then (qs_nu st + 1)%Z else nu_proposed in
    let q := IZR nu * sqrt K in
    {| qs_q := qs_q st ++ [q]; qs_nu := nu;
       qs_last_step := q - q_prev st; qs_last_index := (index_q + 1)%Z |}
  else
    let q_step := q_blend_step q_logstep_spline (q_prev st) in
    let d := (index_q - qs_last_index st)%Z in
    let q :=
      if (d <? trunc (ppr_q_numstep_transition ppr))%Z then
        q_prev st + (1 - IZR d / ppr_q_numstep_transition ppr) * qs_last_step st
        + IZR d / ppr_q_numstep_transition ppr * q_step
      else q_prev st + q_step in
    {| qs_q := qs_q st ++ [q]; qs_nu := qs_nu st;
       qs_last_step := qs_last_step st; qs_last_index := qs_last_index st |}.

(** [while (ptr->q[index_q-1] < q_max)], with the test on the size of the
    array at the head of the body.  The test bounds the number of turns:
    fuel [q_size_max] is never exhausted. *)
Fixpoint q_list_loop (fuel : nat) (q_max : R) (q_size_max : Z) (st : q_state)
  : result q_state :=
  if Rltb (q_prev st) q_max then
    do _ <- class_test (q_size_max <=? q_index st)%Z q_list_error;
    match fuel with
    | O => OutOfFuel
    | S fuel' => q_list_loop fuel' q_max q_size_max (q_list_step st)
    end
  else Ok st.

Definition q_list_init (q_min : R) : q_state :=
  {| qs_q := [q_min]; qs_nu := 3; qs_last_step := 0; qs_last_index := 0 |}.

(** The array is filled: the state at the exit of the loop. *)
Definition q_list_fill : result q_state :=
  let '(q_min, q_max) := q_list_bounds in
  let q_size_max := q_list_size_max q_min q_max in
  q_list_loop (Z.to_nat q_size_max) q_max q_size_max (q_list_init q_min).

(** The number of values kept: the last one is left out when it overshoots. *)
Definition q_list_size (q_max : R) (st : q_state) : Z :=
  if Rltb q_max (q_prev st) then (q_index st - 1)%Z else q_index st.

(** [for (i=0; i < q_size-1; i++) if (q[i] > q_approximation) break;] with
    [n] turns left. *)
Fixpoint q_flat_approximation_index (n : nat) (q : list R) (q_approximation : R) (i : Z)
  : Z :=
  match n with
  | O => i
  | S n' =>
      if Rltb q_approximation (rd q i) then i
      else q_flat_approximation_index n' q q_approximation (i + 1)%Z
  end.

Definition transfer_get_q_list : result transfers :=
  do st <- q_list_fill;
  let q_size := q_list_size (snd q_list_bounds) st in
  do _ <- class_test (q_size <? 2)%Z q_list_error;
  (* class_realloc: the array is cut to q_size values *)
  let q := firstn (Z.to_nat q_size) (qs_q st) in
  let ptr := set_ptr_q_size q_size (set_ptr_q q ptr) in
  if (sgnK =? 0)%Z then Ok ptr
  else
    let q_approximation := ppr_hyper_flat_approximation_nu ppr * sqrt (IZR sgnK * K) in
    Ok (set_ptr_index_q_flat_approximation
          (q_flat_approximation_index (Z.to_nat (q_size - 1)) q q_approximation 0%Z) ptr).

End Q_list.

(** ** [transfer_get_k_list] *)

Section K_list.

Variables (ppt : perturbs) (ptr : transfers) (K : R).

(** The spin [m] of the mode: each test that applies overwrites it, and when
    none applies it keeps the value of the previous mode. *)
Definition k_list_spin (index_md : Z) (m : R) : R :=
  let m := if _scalars_ ppt index_md then 0 else m in
  let m := if _vectors_ ppt index_md then 1 else m in
  if _tensors_ ppt index_md then 2 else m.

(** [ptr->k[index_md][index_q]] for all [index_q < q_size].  For a negative
    [q^2 - K (m+1)] the [sqrt] of C gives a NaN; no real number stands for it,
    and the properties of the values are stated for non-negative
    [q^2 - K (m+1)]. *)
Definition k_of_q (m : R) : list R :=
  map (fun q => sqrt (q * q - K * (m + 1))) (firstn (Z.to_nat (ptr_q_size ptr)) (ptr_q ptr)).

(** [ptr->k[index_md][index_q]] is a number and not a NaN: the argument of
    its [sqrt] is not negative.  A comparison of C with a NaN is false, so
    that neither test below stops the function on a NaN. *)
Definition k_is_number (m : R) (index_q : Z) : bool :=
  Rleb 0 (rd (ptr_q ptr) index_q * rd (ptr_q ptr) index_q - K * (m + 1)).

Definition k_min_error : string :=
  "bug in k_list calculation: in perturbation module k_min=%e, in transfer module k_min[mode=%d]=%e, interpolation impossible".
Definition k_max_error : string :=
  "bug in k_list calculation: in perturbation module k_max=%e, in transfer module k_max[mode=%d]=%e, interpolation impossible".

(** The loop over the modes; [n] modes remain, [k] is the filled part of
    [ptr->k]. *)
Fixpoint k_list_loop (n : nat) (index_md : Z) (m : R) (k : list (list R))
  : result (list (list R)) :=
  match n with
  | O => Ok k
  | S n' =>
      let m := k_list_spin index_md m in
      let k_md := k_of_q m in
      do _ <- class_test (k_is_number m 0 && Rltb (rd k_md 0) (rd (ppt_k ppt) 0))
                k_min_error;
      do _ <- class_test
                (k_is_number m (ptr_q_size ptr - 1)
                 && Rltb (rd (ppt_k ppt) (ppt_k_size_cl ppt - 1))
                      (rd k_md (ptr_q_size ptr - 1)))
                k_max_error;
      k_list_loop n' (index_md + 1)%Z m (k ++ [k_md])
  end.

Definition transfer_get_k_list : result transfers :=
  do k <- k_list_loop (Z.to_nat (ptr_md_size ptr)) 0%Z 0 [];
  Ok (set_ptr_k k ptr).

End K_list.

(** ** Quadrature and interpolation helpers of tools/arrays.c *)

(** [res = 0; for (i=0; i<n; i++) res += f(i);] *)
Fixpoint sum_upto (f : nat -> R) (n : nat) : R :=
  match n with
  | O => 0
  | S n' => sum_upto f n' + f n'
  end.

(** Modelled from the spec: [array_trapezoidal_integral] of tools/arrays.c is
    not among the sources; it is the trapezoidal quadrature "with the
    precomputed weights", the sum of [integrand[i]*w_trapz[i]] over the [n]
    samples. *)
Definition array_trapezoidal_integral (integrand : list R) (n : Z) (w_trapz : list R) : R :=
  sum_upto (fun i => nth i integrand 0 * nth i w_trapz 0) (Z.to_nat n).

(** Modelled from the spec: [array_trapezoidal_convolution] of tools/arrays.c
    is not among the sources; it is the "convolution integral via trapezoidal
    quadrature with the source's precomputed weights", the sum of
    [integrand1[i]*integrand2[i]*w_trapz[i]] over the [n] samples. *)
Definition array_trapezoidal_convolution
    (integrand1 integrand2 : list R) (n : Z) (w_trapz : list R) : R :=
  sum_upto (fun i => nth i integrand1 0 * nth i integrand2 0 * nth i w_trapz 0)
    (Z.to_nat n).

(** Modelled from the spec: [array_interpolate_parabola] of tools/arrays.c is
    not among the sources; it "fits a local quadratic" [a x^2 + b x + c]
    through [(x1,y1)], [(x2,y2)], [(x3,y3)] and gives its value and its first
    two derivatives at [x]. *)
Definition array_interpolate_parabola (x1 x2 x3 x y1 y2 y3 : R) : R * R * R :=
  let a := ((y1 - y2) / (x1 - x2) - (y3 - y2) / (x3 - x2)) / (x1 - x3) in
  let b := (y1 - y2) / (x1 - x2) - a * (x1 + x2) in
  let c := y2 - b * x2 - a * x2 * x2 in
  (a * x * x + b * x + c, 2 * a * x + b, 2 * a).

(** ** The workspace and the radial functions *)

(** [struct transfer_workspace]; [ptw_pBIS_chi_at_phimin] is
    [ptw->pBIS->chi_at_phimin] and [ptw_HIS_chi_at_phimin] is
    [ptw->HIS.chi_at_phimin]. *)
Record transfer_workspace : Type := {
  ptw_sgnK : Z;
  ptw_K : R;
  ptw_tau_size : Z;
  ptw_tau0_minus_tau : list R;
  ptw_w_trapz : list R;
  ptw_sources : list R;
  ptw_neglect_late_source : bool;
  ptw_tau0_minus_tau_cut : R;
  ptw_pBIS_chi_at_phimin : list R;
  ptw_HIS_chi_at_phimin : list R;
  ptw_HIS_allocated : bool
}.

(** [radial_function_type] of transfer.h. *)
Inductive radial_function_type : Type :=
| SCALAR_TEMPERATURE_0 | SCALAR_TEMPERATURE_1 | SCALAR_TEMPERATURE_2
| SCALAR_POLARISATION_E
| VECTOR_TEMPERATURE_1 | VECTOR_TEMPERATURE_2
| VECTOR_POLARISATION_E | VECTOR_POLARISATION_B
| TENSOR_TEMPERATURE_2
| TENSOR_POLARISATION_E | TENSOR_POLARISATION_B.

(** [transfer_select_radial_function]; it always returns [_SUCCESS_]. *)
Definition transfer_select_radial_function
    (ppt : perturbs) (ptr : transfers) (index_md index_tt : Z) : radial_function_type :=
  let on (c : bool) (v r : radial_function_type) := if c then v else r in
  let temperature := ppt_has_cl_cmb_temperature ppt in
  let polarization := ppt_has_cl_cmb_polarization ppt in
  let is_t0 := (index_tt =? ptr_index_tt_t0 ptr)%Z in
  let is_t1 := (index_tt =? ptr_index_tt_t1 ptr)%Z in
  let is_t2 := (index_tt =? ptr_index_tt_t2 ptr)%Z in
  let is_e := (index_tt =? ptr_index_tt_e ptr)%Z in
  let is_b := (index_tt =? ptr_index_tt_b ptr)%Z in
  let r := SCALAR_TEMPERATURE_0 in
  let r :=
    if _scalars_ ppt index_md then
      let r := on (temperature && is_t0) SCALAR_TEMPERATURE_0 r in
      let r := on (temperature && is_t1) SCALAR_TEMPERATURE_1 r in
      let r := on (temperature && is_t2) SCALAR_TEMPERATURE_2 r in
      on (polarization && is_e) SCALAR_POLARISATION_E r
    else r in
  let r :=
    if _vectors_ ppt index_md then
      let r := on (temperature && is_t1) VECTOR_TEMPERATURE_1 r in
      let r := on (temperature && is_t2) VECTOR_TEMPERATURE_2 r in
      let r := on (polarization && is_e) VECTOR_POLARISATION_E r in
      on (polarization && is_b) VECTOR_POLARISATION_B r
    else r in
  if _tensors_ ppt index_md then
    let r := on (temperature && is_t2) TENSOR_TEMPERATURE_2 r in
    let r := on (polarization && is_e) TENSOR_POLARISATION_E r in
    on (polarization && is_b) TENSOR_POLARISATION_B r
  else r.

(** ** [transfer_limber] *)

(** [index_tau=1; while ((tau0_minus_tau[index_tau] > tau0_minus_tau_limber)
    && (index_tau<tau_size-2)) index_tau++;] with [n] turns left before
    [index_tau] reaches [tau_size-2]. *)
Fixpoint limber_index (n : nat) (tau0_minus_tau : list R) (tau0_minus_tau_limber : R)
    (index_tau : Z) : Z :=
  match n with
  | O => index_tau
  | S n' =>
      if Rltb tau0_minus_tau_limber (rd tau0_minus_tau index_tau)
      then limber_index n' tau0_minus_tau tau0_minus_tau_limber (index_tau + 1)%Z
      else index_tau
  end.

(** The function always returns [_SUCCESS_]; the model returns [*trsf].  The
    arguments [ptr], [index_md] and [index_q] are not read. *)
Definition transfer_limber (tau_size : Z) (l k : R) (tau0_minus_tau sources : list R) : R :=
  let tau0_minus_tau_limber := (l + 0.5) / k in
  if Rltb (rd tau0_minus_tau 0) tau0_minus_tau_limber
     || Rltb tau0_minus_tau_limber (rd tau0_minus_tau (tau_size - 1))
  then 0
  else
    let index_tau :=
      limber_index (Z.to_nat (tau_size - 3)) tau0_minus_tau tau0_minus_tau_limber 1%Z in
    let '(S_, dS, ddS) :=
      if (index_tau <? tau_size - 2)%Z then
        array_interpolate_parabola
          (rd tau0_minus_tau (index_tau - 1)) (rd tau0_minus_tau index_tau)
          (rd tau0_minus_tau (index_tau + 1)) tau0_minus_tau_limber
          (rd sources (index_tau - 1) * rd tau0_minus_tau (index_tau - 1))
          (rd sources index_tau * rd tau0_minus_tau index_tau)
          (rd sources (index_tau + 1) * rd tau0_minus_tau (index_tau + 1))
      else
        array_interpolate_parabola
          (rd tau0_minus_tau (index_tau - 1)) (rd tau0_minus_tau index_tau)
          (rd tau0_minus_tau (index_tau + 1)) tau0_minus_tau_limber
          (rd sources (index_tau - 1) * rd tau0_minus_tau (index_tau - 1))
          (rd sources index_tau * rd tau0_minus_tau index_tau)
          (rd sources index_tau * rd tau0_minus_tau index_tau) in
    sqrt (PI / (2 * l + 1)) * S_ / (l + 0.5).

(** ** [transfer_integrate] *)

(** (a) [while (tau0_minus_tau[index_tau_max] < tau0_minus_tau_min_bessel)
    index_tau_max--;].  The loop is entered only when [tau0_minus_tau[0]] is
    above the bound, so it stops at index 0 at the latest. *)
Fixpoint integrate_index_bessel (tau0_minus_tau : list R) (tau0_minus_tau_min_bessel : R)
    (index_tau_max : nat) : nat :=
  if Rltb (nth index_tau_max tau0_minus_tau 0) tau0_minus_tau_min_bessel then
    match index_tau_max with
    | O => O
    | S i => integrate_index_bessel tau0_minus_tau tau0_minus_tau_min_bessel i
    end
  else index_tau_max.

(** (b) [while (sources[index_tau_max] == 0.) { index_tau_max--; if
    (index_tau_max < 0) return with a null transfer function; }].  [None] is
    that return. *)
Fixpoint integrate_index_source (sources : list R) (index_tau_max : nat) : option nat :=
  if Req_b (nth index_tau_max sources 0) 0 then
    match index_tau_max with
    | O => None
    | S i => integrate_index_source sources i
    end
  else Some index_tau_max.

(** The same descent when late sources are neglected:
    [while (tau0_minus_tau[index_tau_max] < ptw->tau0_minus_tau_cut)]. *)
Fixpoint integrate_index_cut (tau0_minus_tau : list R) (tau0_minus_tau_cut : R)
    (index_tau_max : nat) : option nat :=
  if Rltb (nth index_tau_max tau0_minus_tau 0) tau0_minus_tau_cut then
    match index_tau_max with
    | O => None
    | S i => integrate_index_cut tau0_minus_tau tau0_minus_tau_cut i
    end
  else Some index_tau_max.

(** The smallest [tau0-tau] at which the radial function is known. *)
Definition tau0_minus_tau_min_bessel
    (ptr : transfers) (ptw : transfer_workspace) (index_q : Z) (l : R) (index_l : Z) (k : R)
  : R :=
  if (ptw_sgnK ptw =? 0)%Z then rd (ptw_pBIS_chi_at_phimin ptw) index_l / k
  else if (index_q <? ptr_index_q_flat_approximation ptr)%Z then
    rd (ptw_HIS_chi_at_phimin ptw) index_l / sqrt (IZR (ptw_sgnK ptw) * ptw_K ptw)
  else
    let t := rd (ptw_pBIS_chi_at_phimin ptw) index_l / sqrt (IZR (ptw_sgnK ptw) * ptw_K ptw) in
    let x_turning_point :=
      if (ptw_sgnK ptw =? 1)%Z then
        asin (sqrt (l * (l + 1)) / rd (ptr_q ptr) index_q
              * sqrt (IZR (ptw_sgnK ptw) * ptw_K ptw))
      else
        arcsinh (sqrt (l * (l + 1)) / rd (ptr_q ptr) index_q
                 * sqrt (IZR (ptw_sgnK ptw) * ptw_K ptw)) in
    t * (x_turning_point / sqrt (l * (l + 1))).

(** The index at which the integral is cut: [None] when the function returns
    a null transfer function from one of the two descents, else
    [(index_tau_max_Bessel, index_tau_max)]. *)
Definition integrate_index_tau_max (ptw : transfer_workspace) (tau0_minus_tau_min_bessel : R)
  : option (nat * nat) :=
  let index_tau_max_Bessel :=
    integrate_index_bessel (ptw_tau0_minus_tau ptw) tau0_minus_tau_min_bessel
      (Z.to_nat (ptw_tau_size ptw - 1)) in
  match integrate_index_source (ptw_sources ptw) index_tau_max_Bessel with
  | None => None
  | Some index_tau_max =>
      match
        (if ptw_neglect_late_source ptw
         then integrate_index_cut (ptw_tau0_minus_tau ptw) (ptw_tau0_minus_tau_cut ptw)
                index_tau_max
         else Some index_tau_max)
      with
      | None => None
      | Some index_tau_max => Some (index_tau_max_Bessel, index_tau_max)
      end
  end.

(** The triangle subtracted after a cut by the radial function. *)
Definition integrate_bessel_triangle (ptw : transfer_workspace) (tau0_minus_tau_min_bessel : R)
    (radial_function : list R) (index_tau_max : nat) : R :=
  0.5 * (nth (S index_tau_max) (ptw_tau0_minus_tau ptw) 0 - tau0_minus_tau_min_bessel)
  * nth index_tau_max radial_function 0 * nth index_tau_max (ptw_sources ptw) 0.

Section Integrate.

(** [transfer_radial_function] evaluates the radial kernel through the
    hyperspherical module, which is outside transfer.c: it is a parameter.
    Its arguments are the workspace, [k], [index_q], [index_l], the number
    [x_size] of points and the kernel variant; it gives [x_size] values. *)
Variable transfer_radial_function :
  transfer_workspace -> perturbs -> transfers -> R -> Z -> Z -> Z ->
  radial_function_type -> result (list R).

Definition transfer_integrate
    (ppt : perturbs) (ptr : transfers) (ptw : transfer_workspace)
    (index_q index_md index_tt : Z) (l : R) (index_l : Z) (k : R) : result R :=
  let tau0_minus_tau := ptw_tau0_minus_tau ptw in
  let w_trapz := ptw_w_trapz ptw in
  let sources := ptw_sources ptw in
  let t_min_bessel := tau0_minus_tau_min_bessel ptr ptw index_q l index_l k in
  if Rleb (rd tau0_minus_tau 0) t_min_bessel then Ok 0
  else
    let radial_type := transfer_select_radial_function ppt ptr index_md index_tt in
    if (ptw_tau_size ptw =? 1)%Z then
      do bessel <- transfer_radial_function ptw ppt ptr k index_q index_l 1%Z radial_type;
      Ok (rd sources 0 * rd bessel 0)
    else
      match integrate_index_tau_max ptw t_min_bessel with
      | None => Ok 0
      | Some (index_tau_max_Bessel, index_tau_max) =>
          do radial_function <-
            transfer_radial_function ptw ppt ptr k index_q index_l
              (Z.of_nat index_tau_max + 1)%Z radial_type;
          let trsf :=
            array_trapezoidal_convolution sources radial_function
              (Z.of_nat index_tau_max + 1)%Z w_trapz in
          if negb (Z.of_nat index_tau_max =? ptw_tau_size ptw - 1)%Z
             && (index_tau_max =? index_tau_max_Bessel)%nat
          then Ok (trsf - integrate_bessel_triangle ptw t_min_bessel radial_function
                            index_tau_max)
          else Ok trsf
      end.

(** [transfer_compute_for_each_l]: the value stored in the table at
    [(index_md, index_ic, index_tt, index_l, index_q)].  Note that the Limber
    routine receives [q] where it expects [k]. *)
Definition transfer_compute_for_each_l
    (ptw : transfer_workspace) (ppr : precision) (ppt : perturbs) (ptr : transfers)
    (index_q index_md index_tt index_l : Z) (l q_max_bessel : R) : result R :=
  if (rdi (nth (Z.to_nat index_md) (ptr_l_size_tt ptr) []) index_tt <=? index_l)%Z then Ok 0
  else
    let q := rd (ptr_q ptr) index_q in
    let k := rd (nth (Z.to_nat index_md) (ptr_k ptr) []) index_q in
    if transfer_use_limber ppr ppt ptr q_max_bessel index_md index_tt q l then
      Ok (transfer_limber (ptw_tau_size ptw) l q (ptw_tau0_minus_tau ptw) (ptw_sources ptw))
    else transfer_integrate ppt ptr ptw index_q index_md index_tt l index_l k.

End Integrate.

(** ** Selection functions *)

(** [struct background] (fields read by transfer.c). *)
Record background : Type := {
  pba_conformal_age : R;
  pba_a_today : R;
  pba_K : R;
  pba_sgnK : Z;
  pba_index_bg_a : Z;
  pba_index_bg_H : Z
}.

(** [struct thermo] (fields read by transfer.c). *)
Record thermo : Type := {
  pth_tau_rec : R;
  pth_tau_cut : R;
  pth_angular_rescaling : R
}.

(** [transfer_selection_function]: the arbitrarily normalized [dN/dz(z,bin)].
    The three tests of the code cover the three values of the enumeration, so
    its final [class_stop] is not reached. *)
Definition transfer_selection_function (ppr : precision) (ppt : perturbs) (bin : Z) (z : R) : R :=
  match ppt_selection ppt with
  | dirac => 1
  | gaussian =>
      let x := Rabs (z - rd (ppt_selection_mean ppt) bin) in
      exp (- 0.5 * (x / rd (ppt_selection_width ppt) bin) ^ 2)
      / rd (ppt_selection_width ppt) bin / sqrt (2 * PI)
  | tophat =>
      let x := Rabs (z - rd (ppt_selection_mean ppt) bin) in
      (1 - tanh ((x - rd (ppt_selection_width ppt) bin)
                 / (ppr_selection_tophat_edge ppr * rd (ppt_selection_width ppt) bin))) / 2
  end.

Section Selection.

(** The background module is outside transfer.c: [background_at_tau pba tau]
    gives the vector [pvecback] of background quantities at time [tau], and
    [background_tau_of_z pba z] the conformal time at redshift [z]. *)
Variable background_at_tau : background -> R -> result (list R).
Variable background_tau_of_z : background -> R -> result R.

(** [transfer_selection_times]: [(tau_min, tau_mean, tau_max)] of a bin. *)
Definition transfer_selection_times
    (ppr : precision) (pba : background) (ppt : perturbs) (bin : Z) : result (R * R * R) :=
  let mean := rd (ppt_selection_mean ppt) bin in
  let width := rd (ppt_selection_width ppt) bin in
  let z :=
    match ppt_selection ppt with
    | gaussian => mean + width * ppr_selection_cut_at_sigma ppr
    | tophat =>
        mean + (1 + ppr_selection_cut_at_sigma ppr * ppr_selection_tophat_edge ppr) * width
    | dirac => mean
    end in
  do tau_min <- background_tau_of_z pba z;
  let z :=
    match ppt_selection ppt with
    | gaussian => MAX (mean - width * ppr_selection_cut_at_sigma ppr) 0
    | tophat =>
        MAX (mean - (1 + ppr_selection_cut_at_sigma ppr * ppr_selection_tophat_edge ppr)
                    * width) 0
    | dirac => mean
    end in
  do tau_max <- background_tau_of_z pba z;
  let z := MAX mean 0 in
  do tau_mean <- background_tau_of_z pba z;
  Ok (tau_min, tau_mean, tau_max).

(** [index_tau_min=0; while (ppt->tau_sampling[index_tau_min]<=tau_rec)
    index_tau_min++;] over the samples from [index_tau_min] on. *)
Fixpoint tau_index_after (tau_sampling : list R) (tau_rec : R) (index_tau_min : Z) : Z :=
  match tau_sampling with
  | [] => index_tau_min
  | tau :: rest =>
      if Rleb tau tau_rec then tau_index_after rest tau_rec (index_tau_min + 1)%Z
      else index_tau_min
  end.

(** [transfer_source_tau_size]; [tau_size] is the previous content of the
    output argument, kept when no test applies. *)
Definition transfer_source_tau_size
    (ppr : precision) (pba : background) (ppt : perturbs) (ptr : transfers)
    (tau_rec tau0 : R) (index_md index_tt : Z) (tau_size : Z) : result Z :=
  do tau_size <-
    (if _scalars_ ppt index_md then
       let tau_size :=
         if ppt_has_cl_cmb_temperature ppt
            && ((index_tt =? ptr_index_tt_t0 ptr)%Z || (index_tt =? ptr_index_tt_t1 ptr)%Z
                || (index_tt =? ptr_index_tt_t2 ptr)%Z)
         then ppt_tau_size ppt else tau_size in
       let tau_size :=
         if ppt_has_cl_cmb_polarization ppt && (index_tt =? ptr_index_tt_e ptr)%Z
         then ppt_tau_size ppt else tau_size in
       let tau_size :=
         if tt_is_lcmb ppt ptr index_tt
         then (ppt_tau_size ppt - tau_index_after (ppt_tau_sampling ppt) tau_rec 0)%Z
         else tau_size in
       do tau_size <-
         (if tt_is_density ppt ptr index_tt then
            let bin := (index_tt - ptr_index_tt_density ptr)%Z in
            do (tau_min, tau_mean, tau_max) <- transfer_selection_times ppr pba ppt bin;
            if Req_b tau_min tau_max then Ok 1%Z
            else
              let tau_size := trunc (ppr_selection_sampling ppr) in
              let l_limber :=
                trunc (ppr_l_switch_limber_for_cl_density_over_z ppr
                       * rd (ppt_selection_mean ppt) bin) in
              Ok (trunc (MAX (IZR tau_size)
                           (IZR (trunc ((tau_max - tau_min)
                                        / ((tau0 - tau_mean) / IZR l_limber)))
                            * ppr_selection_sampling_bessel ppr)))
          else Ok tau_size);
       (if tt_is_lensing ppt ptr index_tt then
          let bin := (index_tt - ptr_index_tt_lensing ptr)%Z in
          do (tau_min, tau_mean, tau_max) <- transfer_selection_times ppr pba ppt bin;
          let tau_size := trunc (ppr_selection_sampling ppr) in
          let l_limber :=
            trunc (ppr_l_switch_limber_for_cl_density_over_z ppr
                   * rd (ppt_selection_mean ppt) bin) in
          Ok (trunc (MAX (IZR tau_size)
                       (IZR (trunc ((tau0 - tau_min)
                                    / ((tau0 - tau_mean) / 2 / IZR l_limber)))
                        * ppr_selection_sampling_bessel ppr)))
        else Ok tau_size)
     else Ok tau_size);
  Ok (if _tensors_ ppt index_md then ppt_tau_size ppt else tau_size).

(** In [transfer_sources], the number [tau_sources_size] of times at which
    the selection function of a galaxy-lensing bin is sampled. *)
Definition transfer_sources_tau_sources_size (ppr : precision) (ppt : perturbs) : Z :=
  if selection_eqb (ppt_selection ppt) dirac then 1%Z
  else trunc (ppr_selection_sampling ppr).

Definition selection_sampling_error : string :=
  "for Dirac selection function tau_size should be 1, not %d".

(** [transfer_selection_sampling]: the new values of [tau0-tau]. *)
Definition transfer_selection_sampling
    (ppr : precision) (pba : background) (ppt : perturbs) (bin : Z) (tau_size : Z)
  : result (list R) :=
  do (tau_min, tau_mean, tau_max) <- transfer_selection_times ppr pba ppt bin;
  if Req_b tau_min tau_max then
    do _ <- class_test (negb (tau_size =? 1)%Z) selection_sampling_error;
    Ok [pba_conformal_age pba - tau_mean]
  else
    Ok (map (fun index_tau =>
               pba_conformal_age pba - tau_min
               - INR index_tau / (IZR tau_size - 1) * (tau_max - tau_min))
          (seq 0 (Z.to_nat tau_size))).

(** First loop of [transfer_selection_compute]: [dN/dtau] at each sampled
    time, [dN/dz * H], over the samples that remain. *)
Fixpoint selection_compute_loop
    (ppr : precision) (pba : background) (ppt : perturbs) (tau0 : R) (bin : Z)
    (tau0_minus_tau : list R) : result (list R) :=
  match tau0_minus_tau with
  | [] => Ok []
  | t :: rest =>
      let tau := tau0 - t in
      do pvecback <- background_at_tau pba tau;
      let z := pba_a_today pba / rd pvecback (pba_index_bg_a pba) - 1 in
      let selection := transfer_selection_function ppr ppt bin z in
      let selection := selection * rd pvecback (pba_index_bg_H pba) in
      do others <- selection_compute_loop ppr pba ppt tau0 bin rest;
      Ok (selection :: others)
  end.

(** [transfer_selection_compute]: the normalized selection function at the
    [tau_size] sampled times. *)
Definition transfer_selection_compute
    (ppr : precision) (pba : background) (ppt : perturbs)
    (tau0_minus_tau w_trapz : list R) (tau_size : Z) (tau0 : R) (bin : Z)
  : result (list R) :=
  do selection <-
    selection_compute_loop ppr pba ppt tau0 bin (firstn (Z.to_nat tau_size) tau0_minus_tau);
  let norm := array_trapezoidal_integral selection tau_size w_trapz in
  Ok (map (fun s => s / norm) selection).

End Selection.

(** ** The overtone test of [transfer_update_HIS] *)

Definition update_HIS_error : string :=
  "problem in q list definition in closed case for index_q=%d, nu=%e, nu-int(nu)=%e".

(** The head of [transfer_update_HIS], up to the value of [nu] for which the
    table of hyperspherical functions is then built by the hyperspherical
    module.  [None]: no table is built for this [index_q]. *)
Definition transfer_update_HIS_nu (ptr : transfers) (ptw : transfer_workspace) (index_q : Z)
  : result (option R) :=
  if negb (ptw_sgnK ptw =? 0)%Z && (index_q <? ptr_index_q_flat_approximation ptr)%Z then
    let sqrt_absK := sqrt (IZR (ptw_sgnK ptw) * ptw_K ptw) in
    let nu := rd (ptr_q ptr) index_q / sqrt_absK in
    if (ptw_sgnK ptw =? 1)%Z then
      let int_nu := trunc (nu + 0.2) in
      let new_nu := IZR int_nu in
      do _ <- class_test (Rltb 1e-6 (nu - new_nu)) update_HIS_error;
      Ok (Some new_nu)
    else Ok (Some nu)
  else Ok None.

(** ** [transfer_init] and [transfer_free] *)

(** The arrays that [transfer_init] leaves allocated in the structure. *)
Inductive block : Type :=
| blk_tt_size | blk_l_size | blk_l_size_tt | blk_l_size_tt_md (index_md : nat)
| blk_transfer | blk_transfer_md (index_md : nat)
| blk_q | blk_k | blk_k_md (index_md : nat) | blk_l.

Definition block_eq_dec (a b : block) : {a = b} + {a <> b}.
Proof. decide equality; apply Nat.eq_dec. Defined.

(** The heap: the blocks that are allocated. *)
Definition heap : Type := list block.

Definition alloc (b : block) (h : heap) : heap := b :: h.
Definition free (b : block) (h : heap) : heap := remove block_eq_dec b h.

(** [for (index_md = 0; index_md < md_size; index_md++)] over blocks. *)
Definition for_each_md (md_size : Z) (f : nat -> heap -> heap) (h : heap) : heap :=
  fold_left (fun h index_md => f index_md h) (seq 0 (Z.to_nat md_size)) h.

Section Init.

(** What [transfer_init] does once the grids are known (the splines of the
    sources, the workspaces, the loop over [q] that fills the table) uses the
    perturbation, background and hyperspherical modules; it is a parameter.
    Everything it allocates it frees. *)
Variable transfer_init_table :
  precision -> background -> thermo -> perturbs -> transfers -> result unit.

Definition transfer_indices_of_transfers
    (ppr : precision) (ppt : perturbs) (ptr : transfers) (q_period K : R) (sgnK : Z)
    (fuel : nat) (h : heap) : result (transfers * heap) :=
  let h := alloc blk_tt_size h in
  let ptr := transfer_indices_of_transfers_types ppt ptr in
  let h := alloc blk_l_size h in
  let h := alloc blk_l_size_tt h in
  let h := for_each_md (ptr_md_size ptr) (fun index_md => alloc (blk_l_size_tt_md index_md)) h in
  let h := alloc blk_transfer h in
  do ptr <- transfer_get_q_list ppr ppt ptr q_period K sgnK;
  let h := alloc blk_q h in
  do ptr <- transfer_get_k_list ppt ptr K;
  let h := alloc blk_k h in
  let h := for_each_md (ptr_md_size ptr) (fun index_md => alloc (blk_k_md index_md)) h in
  do ptr <- transfer_get_l_list ppr ppt ptr fuel;
  let h := alloc blk_l h in
  let h := for_each_md (ptr_md_size ptr) (fun index_md => alloc (blk_transfer_md index_md)) h in
  Ok (ptr, h).

Definition transfer_init
    (ppr : precision) (pba : background) (pth : thermo) (ppt : perturbs) (ptr : transfers)
    (fuel : nat) (h : heap) : result (transfers * heap) :=
  if negb (ppt_has_cls ppt) then Ok (set_ptr_has_cls false ptr, h)
  else
    let ptr := set_ptr_has_cls true ptr in
    let ptr := set_ptr_md_size (ppt_md_size ppt) ptr in
    let tau0 := pba_conformal_age pba in
    let tau_rec := pth_tau_rec pth in
    let ptr := set_ptr_angular_rescaling (pth_angular_rescaling pth) ptr in
    let q_period := 2 * PI / (tau0 - tau_rec) * ptr_angular_rescaling ptr in
    do (ptr, h) <-
      transfer_indices_of_transfers ppr ppt ptr q_period (pba_K pba) (pba_sgnK pba) fuel h;
    do _ <- transfer_init_table ppr pba pth ppt ptr;
    Ok (ptr, h).

End Init.

Definition transfer_free (ptr : transfers) (h : heap) : result heap :=
  if ptr_has_cls ptr then
    let h :=
      for_each_md (ptr_md_size ptr)
        (fun index_md h =>
           free (blk_k_md index_md)
             (free (blk_transfer_md index_md) (free (blk_l_size_tt_md index_md) h))) h in
    let h := free blk_tt_size h in
    let h := free blk_l_size_tt h in
    let h := free blk_l_size h in
    let h := free blk_l h in
    let h := free blk_q h in
    let h := free blk_k h in
    let h := free blk_transfer h in
    Ok h
  else Ok h.

(** * Example inputs *)

(** The default precision parameters of CLASS. *)
Definition ppr_default : precision :=
  {| ppr_l_logstep := 1.12;
     ppr_l_linstep := 40;
     ppr_l_switch_limber := 10;
     ppr_l_switch_limber_for_cl_density_over_z := 30;
     ppr_q_linstep := 0.45;
     ppr_q_logstep_spline := 170;
     ppr_q_logstep_open := 6;
     ppr_q_logstep_trapzd := 20;
     ppr_q_numstep_transition := 250;
     ppr_hyper_flat_approximation_nu := 4000;
     ppr_selection_sampling := 50;
     ppr_selection_sampling_bessel := 20;
     ppr_selection_cut_at_sigma := 5;
     ppr_selection_tophat_edge := 0.1 |}.

(** A transfer structure before [transfer_init]. *)
Definition ptr_blank : transfers :=
  {| ptr_has_cls := false; ptr_md_size := 1;
     ptr_index_tt_t0 := 0; ptr_index_tt_t1 := 0; ptr_index_tt_t2 := 0;
     ptr_index_tt_e := 0; ptr_index_tt_b := 0; ptr_index_tt_lcmb := 0;
     ptr_index_tt_density := 0; ptr_index_tt_lensing := 0;
     ptr_tt_size := []; ptr_l_size_tt := []; ptr_l_size := [];
     ptr_l_size_max := 0; ptr_l := []; ptr_q_size := 0; ptr_q := []; ptr_k := [];
     ptr_index_q_flat_approximation := 0; ptr_angular_rescaling := 1 |}.

(** Scalar modes only, galaxy-lensing spectra only, one redshift bin at
    [z = 1] with a Dirac selection function. *)
Definition ppt_lensing_dirac : perturbs :=
  {| ppt_has_cls := true;
     ppt_has_scalars := true; ppt_has_vectors := false; ppt_has_tensors := false;
     ppt_index_md_scalars := 0; ppt_index_md_vectors := 0; ppt_index_md_tensors := 0;
     ppt_md_size := 1;
     ppt_has_cl_cmb_temperature := false; ppt_has_cl_cmb_polarization := false;
     ppt_has_cl_cmb_lensing_potential := false; ppt_has_cl_density := false;
     ppt_has_cl_lensing_potential := true;
     ppt_selection := dirac; ppt_selection_num := 1;
     ppt_selection_mean := [1]; ppt_selection_width := [0.1];
     ppt_l_scalar_max := 2500; ppt_l_lss_max := 300; ppt_l_tensor_max := 500;
     ppt_k := [0.001; 0.01; 0.1; 1]; ppt_k_size_cl := 4;
     ppt_tau_size := 3; ppt_tau_sampling := [100; 5000; 14000] |}.

Definition ptr_lensing_dirac : transfers :=
  transfer_indices_of_transfers_types ppt_lensing_dirac ptr_blank.

(** A radial function that is 1 at every point. *)
Definition radial_unit :
  transfer_workspace -> perturbs -> transfers -> R -> Z -> Z -> Z ->
  radial_function_type -> result (list R) :=
  fun _ _ _ _ _ _ x_size _ => Ok (repeat 1 (Z.to_nat x_size)).

(** A flat workspace with three samples of a constant source; the radial
    function of the multipole of index 0 is known from [chi = 1.5] on. *)
Definition ptw_three : transfer_workspace :=
  {| ptw_sgnK := 0; ptw_K := 0; ptw_tau_size := 3;
     ptw_tau0_minus_tau := [3; 2; 1]; ptw_w_trapz := [0.5; 1; 0.5];
     ptw_sources := [1; 1; 1];
     ptw_neglect_late_source := false; ptw_tau0_minus_tau_cut := 0;
     ptw_pBIS_chi_at_phimin := [1.5]; ptw_HIS_chi_at_phimin := [];
     ptw_HIS_allocated := false |}.

(** A flat workspace with a single sample (Dirac selection function). *)
Definition ptw_one : transfer_workspace :=
  {| ptw_sgnK := 0; ptw_K := 0; ptw_tau_size := 1;
     ptw_tau0_minus_tau := [2]; ptw_w_trapz := [1];
     ptw_sources := [5];
     ptw_neglect_late_source := false; ptw_tau0_minus_tau_cut := 0;
     ptw_pBIS_chi_at_phimin := [1.5]; ptw_HIS_chi_at_phimin := [];
     ptw_HIS_allocated := false |}.

(** The Limber value as the specification words it: the quadratic is fitted
    to the product [source * (tau0-tau)] at the three samples. *)
Definition transfer_limber_as_specified
    (tau_size : Z) (l k : R) (tau0_minus_tau sources : list R) : R :=
  let tau0_minus_tau_limber := (l + 0.5) / k in
  if Rltb (rd tau0_minus_tau 0) tau0_minus_tau_limber
     || Rltb tau0_minus_tau_limber (rd tau0_minus_tau (tau_size - 1))
  then 0
  else
    let index_tau :=
      limber_index (Z.to_nat (tau_size - 3)) tau0_minus_tau tau0_minus_tau_limber 1%Z in
    let '(S_, dS, ddS) :=
      array_interpolate_parabola
        (rd tau0_minus_tau (index_tau - 1)) (rd tau0_minus_tau index_tau)
        (rd tau0_minus_tau (index_tau + 1)) tau0_minus_tau_limber
        (rd sources (index_tau - 1) * rd tau0_minus_tau (index_tau - 1))
        (rd sources index_tau * rd tau0_minus_tau index_tau)
        (rd sources (index_tau + 1) * rd tau0_minus_tau (index_tau + 1)) in
    sqrt (PI / (2 * l + 1)) * S_ / (l + 0.5).

(** A list of integers is strictly increasing. *)
Definition strictly_increasing (l : list Z) : Prop :=
  forall i, (S i < length l)%nat -> (nth i l 0 < nth (S i) l 0)%Z.

(** The [l_max] that the tests at the head of the inner loop of
    [transfer_get_l_list] assign to a (mode, type), when one of them
    applies. *)
Definition l_max_required (ppt : perturbs) (ptr : transfers) (index_md index_tt : Z)
  : option Z :=
  if _tensors_ ppt index_md then Some (ppt_l_tensor_max ppt)
  else if _scalars_ ppt index_md then
    if tt_is_lensing ppt ptr index_tt then Some (ppt_l_lss_max ppt)
    else if tt_is_density ppt ptr index_tt then Some (ppt_l_lss_max ppt)
    else if tt_is_lcmb ppt ptr index_tt then Some (ppt_l_scalar_max ppt)
    else if ppt_has_cl_cmb_polarization ppt && (index_tt =? ptr_index_tt_e ptr)%Z
    then Some (ppt_l_scalar_max ppt)
    else if ppt_has_cl_cmb_temperature ppt
            && ((index_tt =? ptr_index_tt_t0 ptr)%Z || (index_tt =? ptr_index_tt_t1 ptr)%Z
                || (index_tt =? ptr_index_tt_t2 ptr)%Z)
    then Some (ppt_l_scalar_max ppt)
    else None
  else None.

(** Scalar temperature spectra up to [l = 2500], with the flag [has_cls]
    left off: the state in which [transfer_init] returns at once. *)
Definition ppt_no_cls : perturbs :=
  {| ppt_has_cls := false;
     ppt_has_scalars := true; ppt_has_vectors := false; ppt_has_tensors := false;
     ppt_index_md_scalars := 0; ppt_index_md_vectors := 0; ppt_index_md_tensors := 0;
     ppt_md_size := 1;
     ppt_has_cl_cmb_temperature := true; ppt_has_cl_cmb_polarization := false;
     ppt_has_cl_cmb_lensing_potential := false; ppt_has_cl_density := false;
     ppt_has_cl_lensing_potential := false;
     ppt_selection := gaussian; ppt_selection_num := 0;
     ppt_selection_mean := []; ppt_selection_width := [];
     ppt_l_scalar_max := 2500; ppt_l_lss_max := 300; ppt_l_tensor_max := 500;
     ppt_k := [0.001; 0.01; 0.1; 1]; ppt_k_size_cl := 4;
     ppt_tau_size := 3; ppt_tau_sampling := [100; 5000; 14000] |}.

Definition ptr_no_cls : transfers :=
  transfer_indices_of_transfers_types ppt_no_cls ptr_blank.



(** No two successive values of a list are equal: no step is zero. *)
Definition no_zero_step (q : list R) : Prop :=
  forall i, (S i < length q)%nat -> nth (S i) q 0 <> nth i q 0.

(** Every value but the last is below [q_max]. *)
Definition below_but_last (q_max : R) (q : list R) : Prop :=
  forall i, (S i < length q)%nat -> nth i q 0 < q_max.

(** The overtone index from which the values of [q] are no longer rounded:
    [(int)ppr->hyper_flat_approximation_nu]. *)
Definition overtone_threshold (ppr : precision) : Z :=
  trunc (ppr_hyper_flat_approximation_nu ppr).

(** Closed geometry: while the overtone index [nu] is below the threshold,
    the last value of the grid is [nu sqrt(K)]. *)
Definition overtone_inv (ppr : precision) (K : R) (st : q_state) : Prop :=
  qs_q st <> [] /\ (3 <= qs_nu st)%Z
  /\ ((qs_nu st < overtone_threshold ppr)%Z -> q_prev st = IZR (qs_nu st) * sqrt K).

(** Closed geometry with non-negative steps: what the state satisfies
    throughout the loop. *)
Definition closed_inv (ppr : precision) (K : R) (st : q_state) : Prop :=
  overtone_inv ppr K st
  /\ 0 < q_prev st
  /\ 0 <= qs_last_step st
  /\ (qs_last_index st <= q_index st)%Z
  /\ (qs_last_step st = 0 -> (qs_last_index st < q_index st)%Z)
  /\ ((overtone_threshold ppr <= qs_nu st)%Z ->
      IZR (overtone_threshold ppr) * sqrt K <= q_prev st).

(** Closed geometry: a state past the threshold from which the step is
    zero for ever. *)
Definition closed_stuck (ppr : precision) (q_period : R) (st : q_state) : Prop :=
  (overtone_threshold ppr <= qs_nu st)%Z
  /\ q_period * ppr_q_linstep ppr = 0
  /\ (qs_last_step st = 0
      \/ (trunc (ppr_q_numstep_transition ppr) <= q_index st - qs_last_index st)%Z).

(** The next overtone index: the proposed one, or the next integer. *)
Definition next_overtone (ppr : precision) (ptr : transfers) (q_period K : R) (st : q_state)
  : Z :=
  let q := q_prev st + q_blend_step ppr q_period (q_logstep_trapzd ppr) (q_prev st) in
  let nu_proposed := trunc (q / sqrt K) in
  if (nu_proposed <=? qs_nu st + 1)%Z then (qs_nu st + 1)%Z else nu_proposed.

(** The value added past the threshold: the step of the flat case, blended
    with the last rounded step during the transition. *)
Definition next_smooth (ppr : precision) (ptr : transfers) (q_period : R) (st : q_state) : R :=
  let q_step := q_blend_step ppr q_period (q_logstep_spline ppr ptr) (q_prev st) in
  let d := (q_index st - qs_last_index st)%Z in
  if (d <? trunc (ppr_q_numstep_transition ppr))%Z then
    q_prev st + (1 - IZR d / ppr_q_numstep_transition ppr) * qs_last_step st
    + IZR d / ppr_q_numstep_transition ppr * q_step
  else q_prev st + q_step.

(** The state after [n] turns of the filling loop. *)
Definition q_list_run (ppr : precision) (ppt : perturbs) (ptr : transfers)
    (q_period K : R) (sgnK : Z) (n : nat) : q_state :=
  Nat.iter n (q_list_step ppr ptr q_period K sgnK)
    (q_list_init (fst (q_list_bounds ppt K sgnK))).

(** Precision parameters with round numbers for the steps in [q]: with
    [q_period = 1] the step at [q] is [2 q / (q + 2)]. *)
Definition ppr_round : precision :=
  {| ppr_l_logstep := 1.12;
     ppr_l_linstep := 40;
     ppr_l_switch_limber := 10;
     ppr_l_switch_limber_for_cl_density_over_z := 30;
     ppr_q_linstep := 2;
     ppr_q_logstep_spline := 1;
     ppr_q_logstep_open := 0;
     ppr_q_logstep_trapzd := 1;
     ppr_q_numstep_transition := 250;
     ppr_hyper_flat_approximation_nu := 5;
     ppr_selection_sampling := 50;
     ppr_selection_sampling_bessel := 20;
     ppr_selection_cut_at_sigma := 5;
     ppr_selection_tophat_edge := 0.1 |}.

(** Scalar temperature spectra with sources known at the wavenumbers [k]. *)
Definition ppt_with_k (k : list R) : perturbs :=
  {| ppt_has_cls := true;
     ppt_has_scalars := true; ppt_has_vectors := false; ppt_has_tensors := false;
     ppt_index_md_scalars := 0; ppt_index_md_vectors := 0; ppt_index_md_tensors := 0;
     ppt_md_size := 1;
     ppt_has_cl_cmb_temperature := true; ppt_has_cl_cmb_polarization := false;
     ppt_has_cl_cmb_lensing_potential := false; ppt_has_cl_density := false;
     ppt_has_cl_lensing_potential := false;
     ppt_selection := gaussian; ppt_selection_num := 0;
     ppt_selection_mean := []; ppt_selection_width := [];
     ppt_l_scalar_max := 2500; ppt_l_lss_max := 300; ppt_l_tensor_max := 500;
     ppt_k := k; ppt_k_size_cl := Z.of_nat (length k);
     ppt_tau_size := 3; ppt_tau_sampling := [100; 5000; 14000] |}.

(** The state at the exit of the filling loop for [k] from 1 to 3 in flat
    space with the round steps. *)
Definition q_state_round : q_state :=
  {| qs_q := [1; 5 / 3; 85 / 33; 18445 / 4983];
     qs_nu := 3; qs_last_step := 0; qs_last_index := 0 |}.

(** A closed workspace with [K = 1]. *)
Definition ptw_closed : transfer_workspace :=
  {| ptw_sgnK := 1; ptw_K := 1; ptw_tau_size := 3;
     ptw_tau0_minus_tau := [3; 2; 1]; ptw_w_trapz := [0.5; 1; 0.5];
     ptw_sources := [1; 1; 1];
     ptw_neglect_late_source := false; ptw_tau0_minus_tau_cut := 0;
     ptw_pBIS_chi_at_phimin := [1.5]; ptw_HIS_chi_at_phimin := [1.5];
     ptw_HIS_allocated := false |}.

(** A grid of three wavenumbers, all below the index of the flat
    approximation. *)
Definition ptr_with_q (q : list R) : transfers :=
  set_ptr_index_q_flat_approximation (Z.of_nat (length q))
    (set_ptr_q_size (Z.of_nat (length q)) (set_ptr_q q ptr_blank)).

(** ** Auxiliary definitions for the wavenumbers of the modes *)

(** One of the three tests on the mode applies. *)
Definition mode_known (ppt : perturbs) (index_md : Z) : bool :=
  _scalars_ ppt index_md || _vectors_ ppt index_md || _tensors_ ppt index_md.

(** Both tests of [transfer_get_k_list] pass for the mode. *)
Definition k_in_bounds (ppt : perturbs) (ptr : transfers) (K : R) (index_md : Z) : Prop :=
  rd (ppt_k ppt) 0 <= rd (k_of_q ptr K (k_list_spin ppt index_md 0)) 0
  /\ rd (k_of_q ptr K (k_list_spin ppt index_md 0)) (ptr_q_size ptr - 1)
     <= rd (ppt_k ppt) (ppt_k_size_cl ppt - 1).

(** The rows of [ptr->k] for the [n] modes from [index_md] on. *)
Fixpoint k_modes (ppt : perturbs) (ptr : transfers) (K : R) (n : nat) (index_md : Z)
  : list (list R) :=
  match n with
  | O => []
  | S n' => k_of_q ptr K (k_list_spin ppt index_md 0)
            :: k_modes ppt ptr K n' (index_md + 1)%Z
  end.

(** ** Example inputs for the selection functions *)

(** Scalar modes only, number-count spectra only, one redshift bin at
    [z = 1] with a Dirac selection function. *)
Definition ppt_density_dirac : perturbs :=
  {| ppt_has_cls := true;
     ppt_has_scalars := true; ppt_has_vectors := false; ppt_has_tensors := false;
     ppt_index_md_scalars := 0; ppt_index_md_vectors := 0; ppt_index_md_tensors := 0;
     ppt_md_size := 1;
     ppt_has_cl_cmb_temperature := false; ppt_has_cl_cmb_polarization := false;
     ppt_has_cl_cmb_lensing_potential := false; ppt_has_cl_density := true;
     ppt_has_cl_lensing_potential := false;
     ppt_selection := dirac; ppt_selection_num := 1;
     ppt_selection_mean := [1]; ppt_selection_width := [0.1];
     ppt_l_scalar_max := 2500; ppt_l_lss_max := 300; ppt_l_tensor_max := 500;
     ppt_k := [0.001; 0.01; 0.1; 1]; ppt_k_size_cl := 4;
     ppt_tau_size := 3; ppt_tau_sampling := [100; 5000; 14000] |}.

Definition ptr_density_dirac : transfers :=
  transfer_indices_of_transfers_types ppt_density_dirac ptr_blank.

(** A background with [a] at index 0 and [H] at index 1 of [pvecback]. *)
Definition pba_unit : background :=
  {| pba_conformal_age := 14000; pba_a_today := 1; pba_K := 0; pba_sgnK := 0;
     pba_index_bg_a := 0; pba_index_bg_H := 1 |}.

(** A background with [a = 1] and [H = 2] at all times, and a conformal time
    that decreases linearly with redshift. *)
Definition background_at_tau_unit : background -> R -> result (list R) :=
  fun _ _ => Ok [1; 2].

Definition background_tau_of_z_linear : background -> R -> result R :=
  fun pba z => Ok (pba_conformal_age pba - 1000 * z).

(** A thermal history with recombination at [tau = 280]. *)
Definition pth_unit : thermo :=
  {| pth_tau_rec := 280; pth_tau_cut := 300; pth_angular_rescaling := 1 |}.

(** ** Predicates of the statements *)

(** At most one of the three tests on lensing and windowed types holds for a
    type index. *)
Definition tt_exclusive (ppt : perturbs) (ptr : transfers) : Prop :=
  forall index_tt : Z,
    (tt_is_lcmb ppt ptr index_tt = true -> tt_is_density ppt ptr index_tt = false
                                           /\ tt_is_lensing ppt ptr index_tt = false)
    /\ (tt_is_density ppt ptr index_tt = true -> tt_is_lensing ppt ptr index_tt = false).

(** The time range is cut by the validity bound of the radial function, and
    by nothing else: the last sample is below the bound, and at the index
    where descent (a) stops the source does not vanish and (when late sources
    are neglected) the sample is not below the late-time cut. *)
Definition bessel_truncation (ptw : transfer_workspace) (t_min_bessel : R) : Prop :=
  let n := Z.to_nat (ptw_tau_size ptw - 1) in
  let index_tau_max_Bessel := integrate_index_bessel (ptw_tau0_minus_tau ptw) t_min_bessel n in
  nth n (ptw_tau0_minus_tau ptw) 0 < t_min_bessel
  /\ nth index_tau_max_Bessel (ptw_sources ptw) 0 <> 0
  /\ (ptw_neglect_late_source ptw = true ->
      ~ nth index_tau_max_Bessel (ptw_tau0_minus_tau ptw) 0 < ptw_tau0_minus_tau_cut ptw).

(** What the filled part of the array satisfies throughout the second pass. *)
Definition l_grid_inv (l_max : Z) (l : list Z) : Prop :=
  nth 0 l 0%Z = 2%Z /\ l <> [] /\ strictly_increasing l /\ (l_last l <= l_max)%Z.

(** Flat and open geometry: the step depends on the last value only, and it
    is zero. *)
Definition flat_frozen (ppr : precision) (ptr : transfers) (q_period : R) (st : q_state)
  : Prop :=
  q_blend_step ppr q_period (q_logstep_spline ppr ptr) (q_prev st) = 0.

(** * The other functions of transfer.c *)

(** ** [transfer_can_be_neglected] and [transfer_late_source_can_be_neglected] *)

(** [struct precision]: the thresholds read by the two functions. *)
Record precision_neglect : Type := {
  ppr_transfer_neglect_delta_k_S_t0 : R;
  ppr_transfer_neglect_delta_k_S_t1 : R;
  ppr_transfer_neglect_delta_k_S_t2 : R;
  ppr_transfer_neglect_delta_k_S_e : R;
  ppr_transfer_neglect_delta_k_V_t1 : R;
  ppr_transfer_neglect_delta_k_V_t2 : R;
  ppr_transfer_neglect_delta_k_V_e : R;
  ppr_transfer_neglect_delta_k_V_b : R;
  ppr_transfer_neglect_delta_k_T_t2 : R;
  ppr_transfer_neglect_delta_k_T_e : R;
  ppr_transfer_neglect_delta_k_T_b : R;
  ppr_transfer_neglect_late_source : R
}.

(** [transfer_can_be_neglected]; it always returns [_SUCCESS_], the model
    returns the flag [*neglect]. *)
Definition transfer_can_be_neglected
    (ppr : precision_neglect) (ppt : perturbs) (ptr : transfers)
    (index_md index_ic index_tt : Z) (ra_rec k l : R) : bool :=
  let temperature := ppt_has_cl_cmb_temperature ppt in
  let polarization := ppt_has_cl_cmb_polarization ppt in
  let is_t0 := (index_tt =? ptr_index_tt_t0 ptr)%Z in
  let is_t1 := (index_tt =? ptr_index_tt_t1 ptr)%Z in
  let is_t2 := (index_tt =? ptr_index_tt_t2 ptr)%Z in
  let is_e := (index_tt =? ptr_index_tt_e ptr)%Z in
  let is_b := (index_tt =? ptr_index_tt_b ptr)%Z in
  let below (delta_k : R) := Rltb l ((k - delta_k) * ra_rec) in
  if _scalars_ ppt index_md then
    if temperature && is_t0 && below (ppr_transfer_neglect_delta_k_S_t0 ppr) then true
    else if temperature && is_t1 && below (ppr_transfer_neglect_delta_k_S_t1 ppr) then true
    else if temperature && is_t2 && below (ppr_transfer_neglect_delta_k_S_t2 ppr) then true
    else if polarization && is_e && below (ppr_transfer_neglect_delta_k_S_e ppr) then true
    else false
  else if _vectors_ ppt index_md then
    if temperature && is_t1 && below (ppr_transfer_neglect_delta_k_V_t1 ppr) then true
    else if temperature && is_t2 && below (ppr_transfer_neglect_delta_k_V_t2 ppr) then true
    else if polarization && is_e && below (ppr_transfer_neglect_delta_k_V_e ppr) then true
    else if polarization && is_b && below (ppr_transfer_neglect_delta_k_V_b ppr) then true
    else false
  else if _tensors_ ppt index_md then
    if temperature && is_t2 && below (ppr_transfer_neglect_delta_k_T_t2 ppr) then true
    else if polarization && is_e && below (ppr_transfer_neglect_delta_k_T_e ppr) then true
    else if polarization && is_b && below (ppr_transfer_neglect_delta_k_T_b ppr) then true
    else false
  else false.

(** [transfer_late_source_can_be_neglected]; it always returns
    [_SUCCESS_], the model returns the flag [*neglect]. *)
Definition transfer_late_source_can_be_neglected
    (ppr : precision_neglect) (ppt : perturbs) (ptr : transfers)
    (index_md index_tt : Z) (l : R) : bool :=
  let temperature := ppt_has_cl_cmb_temperature ppt in
  let polarization := ppt_has_cl_cmb_polarization ppt in
  let is_t1 := (index_tt =? ptr_index_tt_t1 ptr)%Z in
  let is_t2 := (index_tt =? ptr_index_tt_t2 ptr)%Z in
  let is_e := (index_tt =? ptr_index_tt_e ptr)%Z in
  let is_b := (index_tt =? ptr_index_tt_b ptr)%Z in
  let neglect := false in
  if Rltb (ppr_transfer_neglect_late_source ppr * ptr_angular_rescaling ptr) l then
    if _scalars_ ppt index_md then
      let neglect := if temperature then (if is_t1 || is_t2 then true else neglect)
                     else neglect in
      if polarization then (if is_e then true else neglect) else neglect
    else if _vectors_ ppt index_md then
      let neglect := if temperature then (if is_t1 || is_t2 then true else neglect)
                     else neglect in
      if polarization then (if is_e || is_b then true else neglect) else neglect
    else if _tensors_ ppt index_md then
      if polarization then (if is_e || is_b then true else neglect) else neglect
    else neglect
  else neglect.

(** ** [transfer_get_source_correspondence] *)

(** [struct perturbs]: the indices of the source types. *)
Record perturbs_tp : Type := {
  ppt_index_tp_t0 : Z;
  ppt_index_tp_t1 : Z;
  ppt_index_tp_t2 : Z;
  ppt_index_tp_p : Z;
  ppt_index_tp_g : Z
}.

(** What the body of the two loops leaves in [tp_of_tt[index_md][index_tt]];
    [previous] is the content of the entry before, that of a freshly
    allocated array. *)
Definition source_correspondence_entry
    (ppt : perturbs) (ptp : perturbs_tp) (ptr : transfers) (index_md index_tt : Z)
    (previous : Z) : Z :=
  let on (c : bool) (v r : Z) := if c then v else r in
  let temperature := ppt_has_cl_cmb_temperature ppt in
  let polarization := ppt_has_cl_cmb_polarization ppt in
  let is_t0 := (index_tt =? ptr_index_tt_t0 ptr)%Z in
  let is_t1 := (index_tt =? ptr_index_tt_t1 ptr)%Z in
  let is_t2 := (index_tt =? ptr_index_tt_t2 ptr)%Z in
  let is_e := (index_tt =? ptr_index_tt_e ptr)%Z in
  let is_b := (index_tt =? ptr_index_tt_b ptr)%Z in
  let r := previous in
  let r :=
    if _scalars_ ppt index_md then
      let r := on (temperature && is_t0) (ppt_index_tp_t0 ptp) r in
      let r := on (temperature && is_t1) (ppt_index_tp_t1 ptp) r in
      let r := on (temperature && is_t2) (ppt_index_tp_t2 ptp) r in
      let r := on (polarization && is_e) (ppt_index_tp_p ptp) r in
      let r := on (tt_is_lcmb ppt ptr index_tt) (ppt_index_tp_g ptp) r in
      let r := on (tt_is_density ppt ptr index_tt) (ppt_index_tp_g ptp) r in
      on (tt_is_lensing ppt ptr index_tt) (ppt_index_tp_g ptp) r
    else r in
  let r :=
    if _vectors_ ppt index_md then
      let r := on (temperature && is_t1) (ppt_index_tp_t1 ptp) r in
      let r := on (temperature && is_t2) (ppt_index_tp_t2 ptp) r in
      let r := on (polarization && is_e) (ppt_index_tp_p ptp) r in
      on (polarization && is_b) (ppt_index_tp_p ptp) r
    else r in
  if _tensors_ ppt index_md then
    let r := on (temperature && is_t2) (ppt_index_tp_t2 ptp) r in
    let r := on (polarization && is_e) (ppt_index_tp_p ptp) r in
    on (polarization && is_b) (ppt_index_tp_p ptp) r
  else r.

(** [transfer_get_source_correspondence]: the rows [tp_of_tt[index_md]], of
    [tt_size[index_md]] entries each; [fresh index_md index_tt] is the
    content of the allocated memory. *)
Definition transfer_get_source_correspondence
    (ppt : perturbs) (ptp : perturbs_tp) (ptr : transfers) (fresh : Z -> Z -> Z)
  : list (list Z) :=
  map (fun index_md =>
         map (fun index_tt =>
                source_correspondence_entry ppt ptp ptr (Z.of_nat index_md)
                  (Z.of_nat index_tt) (fresh (Z.of_nat index_md) (Z.of_nat index_tt)))
           (seq 0 (Z.to_nat (rdi (ptr_tt_size ptr) (Z.of_nat index_md)))))
    (seq 0 (Z.to_nat (ptr_md_size ptr))).

(** ** Time steps and samplings *)

(** [for (i = first; i < last; i++) a[i] = f(i);] on the array [a]. *)
Definition array_fill {A : Type} (first last : Z) (f : Z -> A) (a : list A) : list A :=
  fold_left (fun a i => wr a (first + Z.of_nat i)%Z (f (first + Z.of_nat i)%Z))
    (seq 0 (Z.to_nat (last - first))) a.

(** [transfer_integration_time_steps]: the new content of [delta_tau].  The
    indices written are inside the array when it has [tau_size >= 1]
    entries. *)
Definition transfer_integration_time_steps
    (tau0_minus_tau : list R) (tau_size : Z) (delta_tau : list R) : list R :=
  if (tau_size =? 1)%Z then wr delta_tau 0 2
  else
    let delta_tau := wr delta_tau 0 (rd tau0_minus_tau 0 - rd tau0_minus_tau 1) in
    let delta_tau :=
      array_fill 1 (tau_size - 1)
        (fun index_tau => rd tau0_minus_tau (index_tau - 1) - rd tau0_minus_tau (index_tau + 1))
        delta_tau in
    wr delta_tau (tau_size - 1)
      (rd tau0_minus_tau (tau_size - 2) - rd tau0_minus_tau (tau_size - 1)).

Section Sampling.

Variable background_tau_of_z : background -> R -> result R.

(** [transfer_lensing_sampling]: the new values of [tau0-tau], from the
    start of the selection function to today. *)
Definition transfer_lensing_sampling
    (ppr : precision) (pba : background) (ppt : perturbs) (bin : Z) (tau0 : R)
    (tau_size : Z) : result (list R) :=
  do (tau_min, tau_mean, tau_max) <-
    transfer_selection_times background_tau_of_z ppr pba ppt bin;
  Ok (map (fun index_tau =>
             IZR (tau_size - 1 - Z.of_nat index_tau) / IZR (tau_size - 1) * (tau0 - tau_min))
        (seq 0 (Z.to_nat tau_size))).

End Sampling.

(** ** Auxiliary definitions for the type indices *)

(** A flag as a number of types. *)
Definition b2z (b : bool) : Z := if b then 1%Z else 0%Z.

(** The number of types of the scalar mode: three for the temperature, one
    for the polarization, one for the CMB lensing potential, and one per
    redshift bin for the number counts and for the galaxy lensing. *)
Definition scalar_type_count (ppt : perturbs) : Z :=
  (3 * b2z (ppt_has_cl_cmb_temperature ppt) + b2z (ppt_has_cl_cmb_polarization ppt)
   + b2z (ppt_has_cl_cmb_lensing_potential ppt)
   + (b2z (ppt_has_cl_density ppt) + b2z (ppt_has_cl_lensing_potential ppt))
     * ppt_selection_num ppt)%Z.

(** The thresholds of [transfer_can_be_neglected]. *)
Definition neglect_delta_k (ppr : precision_neglect) : list R :=
  [ppr_transfer_neglect_delta_k_S_t0 ppr; ppr_transfer_neglect_delta_k_S_t1 ppr;
   ppr_transfer_neglect_delta_k_S_t2 ppr; ppr_transfer_neglect_delta_k_S_e ppr;
   ppr_transfer_neglect_delta_k_V_t1 ppr; ppr_transfer_neglect_delta_k_V_t2 ppr;
   ppr_transfer_neglect_delta_k_V_e ppr; ppr_transfer_neglect_delta_k_V_b ppr;
   ppr_transfer_neglect_delta_k_T_t2 ppr; ppr_transfer_neglect_delta_k_T_e ppr;
   ppr_transfer_neglect_delta_k_T_b ppr].

(** Thresholds of the order of the defaults of CLASS. *)
Definition ppr_neglect_default : precision_neglect :=
  {| ppr_transfer_neglect_delta_k_S_t0 := 0.15;
     ppr_transfer_neglect_delta_k_S_t1 := 0.04;
     ppr_transfer_neglect_delta_k_S_t2 := 0.15;
     ppr_transfer_neglect_delta_k_S_e := 0.11;
     ppr_transfer_neglect_delta_k_V_t1 := 1;
     ppr_transfer_neglect_delta_k_V_t2 := 1;
     ppr_transfer_neglect_delta_k_V_e := 1;
     ppr_transfer_neglect_delta_k_V_b := 1;
     ppr_transfer_neglect_delta_k_T_t2 := 0.2;
     ppr_transfer_neglect_delta_k_T_e := 0.25;
     ppr_transfer_neglect_delta_k_T_b := 0.1;
     ppr_transfer_neglect_late_source := 400 |}.

(** Scalar and tensor modes; temperature, polarization, CMB lensing, and two
    redshift bins of number counts and of galaxy lensing. *)
Definition ppt_all_types : perturbs :=
  {| ppt_has_cls := true;
     ppt_has_scalars := true; ppt_has_vectors := false; ppt_has_tensors := true;
     ppt_index_md_scalars := 0; ppt_index_md_vectors := 0; ppt_index_md_tensors := 1;
     ppt_md_size := 2;
     ppt_has_cl_cmb_temperature := true; ppt_has_cl_cmb_polarization := true;
     ppt_has_cl_cmb_lensing_potential := true; ppt_has_cl_density := true;
     ppt_has_cl_lensing_potential := true;
     ppt_selection := gaussian; ppt_selection_num := 2;
     ppt_selection_mean := [1; 2]; ppt_selection_width := [0.1; 0.1];
     ppt_l_scalar_max := 2500; ppt_l_lss_max := 300; ppt_l_tensor_max := 500;
     ppt_k := [0.001; 0.01; 0.1; 1]; ppt_k_size_cl := 4;
     ppt_tau_size := 3; ppt_tau_sampling := [100; 5000; 14000] |}.

Definition ptr_all_types : transfers :=
  transfer_indices_of_transfers_types ppt_all_types (set_ptr_md_size 2 ptr_blank).

Definition ptp_default : perturbs_tp :=
  {| ppt_index_tp_t0 := 0; ppt_index_tp_t1 := 1; ppt_index_tp_t2 := 2;
     ppt_index_tp_p := 3; ppt_index_tp_g := 4 |}.

(** The number of tests on the types of the scalar mode that hold for
    [index_tt]. *)
Definition scalar_type_tests (ppt : perturbs) (ptr : transfers) (index_tt : Z) : Z :=
  (b2z (ppt_has_cl_cmb_temperature ppt && (index_tt =? ptr_index_tt_t0 ptr))
   + b2z (ppt_has_cl_cmb_temperature ppt && (index_tt =? ptr_index_tt_t1 ptr))
   + b2z (ppt_has_cl_cmb_temperature ppt && (index_tt =? ptr_index_tt_t2 ptr))
   + b2z (ppt_has_cl_cmb_polarization ppt && (index_tt =? ptr_index_tt_e ptr))
   + b2z (tt_is_lcmb ppt ptr index_tt)
   + b2z (tt_is_density ppt ptr index_tt)
   + b2z (tt_is_lensing ppt ptr index_tt))%Z.

(** ** [transfer_radial_coordinates] *)

(** [transfer_radial_coordinates]: the first [tau_size] entries of the
    arrays [chi], [cscKgen] and [cotKgen] of the workspace; for a [sgnK]
    that is none of 1, 0, -1 the [switch] writes nothing and the arrays keep
    their content. *)
Definition transfer_radial_coordinates
    (ptr : transfers) (ptw : transfer_workspace) (index_md index_q : Z)
    (chi cscKgen cotKgen : list R) : list R * list R * list R :=
  let k := rd (nth (Z.to_nat index_md) (ptr_k ptr) []) index_q in
  let tau0_minus_tau := rd (ptw_tau0_minus_tau ptw) in
  if (ptw_sgnK ptw =? 1)%Z then
    let sqrt_absK := sqrt (ptw_K ptw) in
    let chi :=
      array_fill 0 (ptw_tau_size ptw)
        (fun index_tau => sqrt_absK * tau0_minus_tau index_tau) chi in
    let cscKgen :=
      array_fill 0 (ptw_tau_size ptw)
        (fun index_tau => sqrt_absK / k / sin (rd chi index_tau)) cscKgen in
    let cotKgen :=
      array_fill 0 (ptw_tau_size ptw)
        (fun index_tau => rd cscKgen index_tau * cos (rd chi index_tau)) cotKgen in
    (chi, cscKgen, cotKgen)
  else if (ptw_sgnK ptw =? 0)%Z then
    let chi :=
      array_fill 0 (ptw_tau_size ptw) (fun index_tau => k * tau0_minus_tau index_tau) chi in
    let cscKgen :=
      array_fill 0 (ptw_tau_size ptw) (fun index_tau => 1 / rd chi index_tau) cscKgen in
    let cotKgen :=
      array_fill 0 (ptw_tau_size ptw) (fun index_tau => 1 / rd chi index_tau) cotKgen in
    (chi, cscKgen, cotKgen)
  else if (ptw_sgnK ptw =? -1)%Z then
    let sqrt_absK := sqrt (- ptw_K ptw) in
    let chi :=
      array_fill 0 (ptw_tau_size ptw)
        (fun index_tau => sqrt_absK * tau0_minus_tau index_tau) chi in
    let cscKgen :=
      array_fill 0 (ptw_tau_size ptw)
        (fun index_tau => sqrt_absK / k / sinh (rd chi index_tau)) cscKgen in
    let cotKgen :=
      array_fill 0 (ptw_tau_size ptw)
        (fun index_tau => rd cscKgen index_tau * cosh (rd chi index_tau)) cotKgen in
    (chi, cscKgen, cotKgen)
  else (chi, cscKgen, cotKgen).

(** ** [transfer_interpolate_sources] *)

(** [index_k = 0; while (((index_k+1) < k_size) && (k[index_k+1] < k_q))
    index_k++;] with [n] turns left; the first test stops the loop after
    [k_size-1] turns at most. *)
Fixpoint interpolate_index (n : nat) (k : list R) (k_size : Z) (k_q : R) (index_k : Z) : Z :=
  match n with
  | O => index_k
  | S n' =>
      if ((index_k + 1 <? k_size)%Z && Rltb (rd k (index_k + 1)) k_q)%bool
      then interpolate_index n' k k_size k_q (index_k + 1)%Z
      else index_k
  end.

Definition interpolate_sources_error : string := "stop to avoid division by zero".

(** [transfer_interpolate_sources]: the [ppt->tau_size] values of
    [interpolated_sources].  [k_size] is [ppt->k_size]; [sources] is the
    table [ppt->sources[index_md][index_ic * tp_size + index_type]] of the
    source at every [(index_tau, index_k)], and [source_spline] that of its
    second derivatives with respect to [k]. *)
Definition transfer_interpolate_sources
    (ppt : perturbs) (ptr : transfers) (k_size : Z) (sources source_spline : list R)
    (index_q index_md : Z) : result (list R) :=
  let k := ppt_k ppt in
  let k_q := rd (nth (Z.to_nat index_md) (ptr_k ptr) []) index_q in
  let index_k := interpolate_index (Z.to_nat k_size) k k_size k_q 0 in
  let h := rd k (index_k + 1) - rd k index_k in
  do _ <- class_test (Req_b h 0) interpolate_sources_error;
  let b := (k_q - rd k index_k) / h in
  let a := 1 - b in
  Ok (map (fun index_tau : nat =>
             let at_k := (Z.of_nat index_tau * k_size + index_k)%Z in
             a * rd sources at_k + b * rd sources (at_k + 1)
             + ((a * a * a - a) * rd source_spline at_k
                + (b * b * b - b) * rd source_spline (at_k + 1)) * h * h / 6)
        (seq 0 (Z.to_nat (ppt_tau_size ppt)))).

(** An open workspace with [K = -1] and three samples. *)
Definition ptw_open : transfer_workspace :=
  {| ptw_sgnK := -1; ptw_K := -1; ptw_tau_size := 3;
     ptw_tau0_minus_tau := [3; 2; 1]; ptw_w_trapz := [0.5; 1; 0.5];
     ptw_sources := [1; 1; 1];
     ptw_neglect_late_source := false; ptw_tau0_minus_tau_cut := 0;
     ptw_pBIS_chi_at_phimin := [1.5]; ptw_HIS_chi_at_phimin := [1.5];
     ptw_HIS_allocated := false |}.

(** One mode and one wavenumber, [k = 2]. *)
Definition ptr_one_k : transfers := set_ptr_k [[2]] ptr_blank.

(** The first [n] entries of the array increase. *)
Definition increasing_upto (k : list R) (n : Z) : Prop :=
  forall i, (0 <= i < n - 1)%Z -> rd k i < rd k (i + 1).

(** Sources known at [k = 1, 2, 4] and at two times. *)
Definition ppt_three_k : perturbs :=
  {| ppt_has_cls := true;
     ppt_has_scalars := true; ppt_has_vectors := false; ppt_has_tensors := false;
     ppt_index_md_scalars := 0; ppt_index_md_vectors := 0; ppt_index_md_tensors := 0;
     ppt_md_size := 1;
     ppt_has_cl_cmb_temperature := true; ppt_has_cl_cmb_polarization := false;
     ppt_has_cl_cmb_lensing_potential := false; ppt_has_cl_density := false;
     ppt_has_cl_lensing_potential := false;
     ppt_selection := gaussian; ppt_selection_num := 0;
     ppt_selection_mean := []; ppt_selection_width := [];
     ppt_l_scalar_max := 10; ppt_l_lss_max := 10; ppt_l_tensor_max := 10;
     ppt_k := [1; 2; 4]; ppt_k_size_cl := 3;
     ppt_tau_size := 2; ppt_tau_sampling := [100; 200] |}.

(** ** [transfer_get_lmax] *)

Section Get_lmax.

(** The function [get_xmin_generic] passed by pointer, as a function of
    [sgnK], [l], [nu], [xtol] and [phiminabs] that returns [x_nonzero]; its
    output [fevals] only counts the calls and is not read. *)
Variable get_xmin_generic : Z -> Z -> R -> R -> R -> result R.

Variables (sgnK : Z) (nu : R) (lvec : list Z) (lsize : Z) (phiminabs xmax xtol : R).

(** The hunt for the left boundary, [for (multiplier=1; ;multiplier *= 5)]. *)
Fixpoint lmax_hunt_left (fuel : nat) (multiplier index_l_left index_l_right : Z)
    (right_boundary_checked : bool) : result (Z * Z * bool) :=
  match fuel with
  | O => OutOfFuel
  | S fuel' =>
      do x_nonzero <- get_xmin_generic sgnK (rdi lvec index_l_left) nu xtol phiminabs;
      if Rleb x_nonzero xmax then Ok (index_l_left, index_l_right, right_boundary_checked)
      else
        let index_l_right := index_l_left in
        let right_boundary_checked := true in
        let index_l_left := (index_l_left - multiplier)%Z in
        if (index_l_left <=? 0)%Z then Ok (0%Z, index_l_right, right_boundary_checked)
        else lmax_hunt_left fuel' (multiplier * 5)%Z index_l_left index_l_right
               right_boundary_checked
  end.

(** The hunt for the right boundary. *)
Fixpoint lmax_hunt_right (fuel : nat) (multiplier index_l_left index_l_right : Z)
  : result (Z * Z) :=
  match fuel with
  | O => OutOfFuel
  | S fuel' =>
      do x_nonzero <- get_xmin_generic sgnK (rdi lvec index_l_right) nu xtol phiminabs;
      if Rleb xmax x_nonzero then Ok (index_l_left, index_l_right)
      else
        let index_l_left := index_l_right in
        let index_l_right := (index_l_right + multiplier)%Z in
        if (lsize - 1 <=? index_l_right)%Z then Ok (index_l_left, (lsize - 1)%Z)
        else lmax_hunt_right fuel' (multiplier * 5)%Z index_l_left index_l_right
  end.

(** The binary search, [while ((index_l_right - index_l_left) > 1)]. *)
Fixpoint lmax_bisect (fuel : nat) (index_l_left index_l_right : Z) : result (Z * Z) :=
  if (1 <? index_l_right - index_l_left)%Z then
    match fuel with
    | O => OutOfFuel
    | S fuel' =>
        let index_l_mid := trunc (0.5 * IZR (index_l_right + index_l_left)) in
        do x_nonzero <- get_xmin_generic sgnK (rdi lvec index_l_mid) nu xtol phiminabs;
        if Rltb x_nonzero xmax then lmax_bisect fuel' index_l_mid index_l_right
        else lmax_bisect fuel' index_l_left index_l_mid
    end
  else Ok (index_l_left, index_l_right).

(** [transfer_get_lmax]: the new values of [*index_l_left] and
    [*index_l_right]; [fuel] bounds the turns of each of the three loops. *)
Definition transfer_get_lmax (fuel : nat) (index_l_left index_l_right : Z)
  : result (Z * Z) :=
  do x_nonzero <- get_xmin_generic sgnK (rdi lvec 0) nu xtol phiminabs;
  if Rleb xmax x_nonzero then Ok (index_l_left, MAXi (lsize - 1) 1)
  else
    do x_nonzero <- get_xmin_generic sgnK (rdi lvec (lsize - 1)) nu xtol phiminabs;
    if Rltb x_nonzero xmax then Ok (MAXi 0 (lsize - 2), index_l_right)
    else
      do (index_l_left, index_l_right, right_boundary_checked) <-
        lmax_hunt_left fuel 1 index_l_left index_l_right false;
      do (index_l_left, index_l_right) <-
        (if negb right_boundary_checked
         then lmax_hunt_right fuel 1 index_l_left index_l_right
         else Ok (index_l_left, index_l_right));
      lmax_bisect fuel index_l_left index_l_right.

End Get_lmax.

(** A [get_xmin_generic] for which [x_nonzero] is the multipole itself. *)
Definition get_xmin_linear : Z -> Z -> R -> R -> R -> result R :=
  fun _ l _ _ _ => Ok (IZR l).

(** ** The multipoles of a closed table: [transfer_update_HIS] *)

(** In the closed case, [l_size_max = ptr->l_size_max; while
    ((double)ptr->l[l_size_max-1] >= nu) l_size_max--;] with [n] turns left.
    The loop of the code has no bound of its own: below [l_size_max = 1] it
    would read before the array. *)
Fixpoint update_HIS_l_size_max (n : nat) (l : list Z) (nu : R) (l_size_max : Z) : Z :=
  match n with
  | O => l_size_max
  | S n' =>
      if Rleb nu (IZR (rdi l (l_size_max - 1)))
      then update_HIS_l_size_max n' l nu (l_size_max - 1)%Z
      else l_size_max
  end.

(** ** [transfer_source_tau_size_max] *)

Section Tau_size_max.

Variable background_tau_of_z : background -> R -> result R.
Variables (ppr : precision) (pba : background) (ppt : perturbs) (ptr : transfers).
Variables (tau_rec tau0 : R).

(** The loop over the types of one mode; [n] types remain, the state is the
    pair of [tau_size_max] and [tau_size_tt]. *)
Fixpoint tau_size_max_tt_loop (n : nat) (index_md index_tt : Z) (st : Z * Z)
  : result (Z * Z) :=
  match n with
  | O => Ok st
  | S n' =>
      do tau_size_tt <-
        transfer_source_tau_size background_tau_of_z ppr pba ppt ptr tau_rec tau0
          index_md index_tt (snd st);
      tau_size_max_tt_loop n' index_md (index_tt + 1)%Z
        (MAXi (fst st) tau_size_tt, tau_size_tt)
  end.

(** The loop over the modes; [n] modes remain. *)
Fixpoint tau_size_max_md_loop (n : nat) (index_md : Z) (st : Z * Z) : result (Z * Z) :=
  match n with
  | O => Ok st
  | S n' =>
      do st <- tau_size_max_tt_loop (Z.to_nat (rdi (ptr_tt_size ptr) index_md)) index_md 0%Z st;
      tau_size_max_md_loop n' (index_md + 1)%Z st
  end.

Definition transfer_source_tau_size_max : result Z :=
  do st <- tau_size_max_md_loop (Z.to_nat (ptr_md_size ptr)) 0%Z (0%Z, 0%Z);
  Ok (fst st).

End Tau_size_max.

Definition ptr_three_k : transfers :=
  transfer_indices_of_transfers_types ppt_three_k ptr_blank.

(** ** [transfer_compute_for_each_q] *)

(** [for (index = first; index < first + n; index++) body] on a state; a
    turn that fails ends the loop, as [class_call] returns. *)
Fixpoint for_loop {St : Type} (n : nat) (index : Z) (body : Z -> St -> result St) (s : St)
  : result St :=
  match n with
  | O => Ok s
  | S n' => do s' <- body index s; for_loop n' (index + 1)%Z body s'
  end.

(** The arrays and [tau_size] that [transfer_sources] fills in the
    workspace, and [ptw->neglect_late_source = v]. *)
Definition set_ptw_sources (sources tau0_minus_tau w_trapz : list R) (tau_size : Z)
    (ptw : transfer_workspace) : transfer_workspace :=
  {| ptw_sgnK := ptw_sgnK ptw; ptw_K := ptw_K ptw; ptw_tau_size := tau_size;
     ptw_tau0_minus_tau := tau0_minus_tau; ptw_w_trapz := w_trapz;
     ptw_sources := sources;
     ptw_neglect_late_source := ptw_neglect_late_source ptw;
     ptw_tau0_minus_tau_cut := ptw_tau0_minus_tau_cut ptw;
     ptw_pBIS_chi_at_phimin := ptw_pBIS_chi_at_phimin ptw;
     ptw_HIS_chi_at_phimin := ptw_HIS_chi_at_phimin ptw;
     ptw_HIS_allocated := ptw_HIS_allocated ptw |}.

Definition set_ptw_neglect_late_source (v : bool) (ptw : transfer_workspace)
  : transfer_workspace :=
  {| ptw_sgnK := ptw_sgnK ptw; ptw_K := ptw_K ptw; ptw_tau_size := ptw_tau_size ptw;
     ptw_tau0_minus_tau := ptw_tau0_minus_tau ptw; ptw_w_trapz := ptw_w_trapz ptw;
     ptw_sources := ptw_sources ptw;
     ptw_neglect_late_source := v;
     ptw_tau0_minus_tau_cut := ptw_tau0_minus_tau_cut ptw;
     ptw_pBIS_chi_at_phimin := ptw_pBIS_chi_at_phimin ptw;
     ptw_HIS_chi_at_phimin := ptw_HIS_chi_at_phimin ptw;
     ptw_HIS_allocated := ptw_HIS_allocated ptw |}.

(** What the function works on: the workspace of the thread, with the arrays
    [interpolated_sources], [chi], [cscKgen] and [cotKgen] that the record
    above leaves out, and the table [ptr->transfer]. *)
Record for_each_q_state : Type := {
  fq_ptw : transfer_workspace;
  fq_interpolated_sources : list R;
  fq_chi : list R;
  fq_cscKgen : list R;
  fq_cotKgen : list R;
  fq_transfer : list (list R)
}.

(** [transfer[index_md][index] = v]. *)
Definition transfer_write (transfer : list (list R)) (index_md index : Z) (v : R)
  : list (list R) :=
  wr transfer index_md (wr (nth (Z.to_nat index_md) transfer []) index v).

Section Compute_for_each_q.

(** [transfer_radial_function] is the parameter of [transfer_integrate].
    [transfer_sources] builds the sources of a type through the background
    and array modules, which are outside transfer.c: here it is a parameter
    too, of the type of the function modelled below.  It receives the
    interpolated sources, [tau_rec], [index_q], [index_md], [index_tt] and
    the arrays [sources], [tau0_minus_tau], [w_trapz] with a number of times,
    and gives the new content of the three arrays and [*tau_size]. *)
Variable transfer_radial_function :
  transfer_workspace -> perturbs -> transfers -> R -> Z -> Z -> Z ->
  radial_function_type -> result (list R).
Variable transfer_sources :
  precision -> background -> perturbs -> transfers -> list R -> R -> Z -> Z -> Z ->
  list R -> list R -> list R -> Z -> result (list R * list R * list R * Z).

Variables (ppr : precision) (ppr_neglect : precision_neglect) (pba : background)
          (ppt : perturbs) (ptr : transfers).

(** [ppt->ic_size], [ppt->tp_size], [ppt->k_size] and [ppt->sources], the
    table [tp_of_tt] and the arguments [index_q], [tau_rec] and
    [sources_spline]. *)
Variables (ppt_ic_size ppt_tp_size : list Z) (ppt_k_size : Z)
          (ppt_sources : list (list (list R))).
Variable tp_of_tt : list (list Z).
Variables (index_q : Z) (tau_rec : R) (sources_spline : list (list (list R))).

(** [ptw->HIS.l_size] and [ptw->pBIS->x[ptw->pBIS->x_size-1]], of the
    hyperspherical module. *)
Variables (HIS_l_size : Z) (pBIS_x_last : R).

(** The place of a transfer function in [ptr->transfer[index_md]]. *)
Definition transfer_index (index_md index_ic index_tt index_l : Z) : Z :=
  (((index_ic * rdi (ptr_tt_size ptr) index_md + index_tt)
    * rdi (ptr_l_size ptr) index_md + index_l)
   * ptr_q_size ptr + index_q)%Z.

(** The body of the loop over [index_l]. *)
Definition for_each_q_l_body (index_md index_ic index_tt index_l : Z)
    (st : for_each_q_state) : result for_each_q_state :=
  let ptw := fq_ptw st in
  let l := IZR (rdi (ptr_l ptr) index_l) in
  let neglect :=
    transfer_can_be_neglected ppr_neglect ppt ptr index_md index_ic index_tt
      ((pba_conformal_age pba - tau_rec) * ptr_angular_rescaling ptr)
      (rd (ptr_q ptr) index_q) l in
  let neglect :=
    if (ptw_sgnK ptw =? 1)%Z
       && (trunc (rd (ptr_q ptr) index_q / sqrt (ptw_K ptw) + 0.2)
           <=? rdi (ptr_l ptr) index_l)%Z
    then true else neglect in
  let neglect :=
    if negb (ptw_sgnK ptw =? 0)%Z && (HIS_l_size <=? index_l)%Z
       && (index_q <? ptr_index_q_flat_approximation ptr)%Z
    then true else neglect in
  if neglect then
    Ok {| fq_ptw := ptw;
          fq_interpolated_sources := fq_interpolated_sources st;
          fq_chi := fq_chi st; fq_cscKgen := fq_cscKgen st; fq_cotKgen := fq_cotKgen st;
          fq_transfer :=
            transfer_write (fq_transfer st) index_md
              (transfer_index index_md index_ic index_tt index_l) 0 |}
  else
    let q_max_bessel :=
      if (ptw_sgnK ptw =? 0)%Z then pBIS_x_last / rd (ptw_tau0_minus_tau ptw) 0
      else rd (ptr_q ptr) (ptr_q_size ptr - 1) in
    let ptw :=
      set_ptw_neglect_late_source
        (transfer_late_source_can_be_neglected ppr_neglect ppt ptr index_md index_tt l)
        ptw in
    do transfer_function <-
      transfer_compute_for_each_l transfer_radial_function ptw ppr ppt ptr
        index_q index_md index_tt index_l l q_max_bessel;
    Ok {| fq_ptw := ptw;
          fq_interpolated_sources := fq_interpolated_sources st;
          fq_chi := fq_chi st; fq_cscKgen := fq_cscKgen st; fq_cotKgen := fq_cotKgen st;
          fq_transfer :=
            transfer_write (fq_transfer st) index_md
              (transfer_index index_md index_ic index_tt index_l) transfer_function |}.

(** The body of the loop over [index_tt], on [previous_type] and the
    state. *)
Definition for_each_q_tt_body (index_md index_ic index_tt : Z)
    (s : Z * for_each_q_state) : result (Z * for_each_q_state) :=
  let '(previous_type, st) := s in
  let tp := rdi (nth (Z.to_nat index_md) tp_of_tt []) index_tt in
  let at_tp := (index_ic * rdi ppt_tp_size index_md + tp)%Z in
  do interpolated_sources <-
    (if negb (tp =? previous_type)%Z then
       transfer_interpolate_sources ppt ptr ppt_k_size
         (nth (Z.to_nat at_tp) (nth (Z.to_nat index_md) ppt_sources []) [])
         (nth (Z.to_nat at_tp) (nth (Z.to_nat index_md) sources_spline []) [])
         index_q index_md
     else Ok (fq_interpolated_sources st));
  let ptw := fq_ptw st in
  do (sources, tau0_minus_tau, w_trapz, tau_size) <-
    transfer_sources ppr pba ppt ptr interpolated_sources tau_rec index_q index_md index_tt
      (ptw_sources ptw) (ptw_tau0_minus_tau ptw) (ptw_w_trapz ptw) (ptw_tau_size ptw);
  let ptw := set_ptw_sources sources tau0_minus_tau w_trapz tau_size ptw in
  let '(chi, cscKgen, cotKgen) :=
    transfer_radial_coordinates ptr ptw index_md index_q
      (fq_chi st) (fq_cscKgen st) (fq_cotKgen st) in
  do st <-
    for_loop (Z.to_nat (rdi (ptr_l_size ptr) index_md)) 0
      (for_each_q_l_body index_md index_ic index_tt)
      {| fq_ptw := ptw; fq_interpolated_sources := interpolated_sources;
         fq_chi := chi; fq_cscKgen := cscKgen; fq_cotKgen := cotKgen;
         fq_transfer := fq_transfer st |};
  Ok (tp, st).

(** The body of the loop over [index_ic]: [previous_type=-1], then the loop
    over the types. *)
Definition for_each_q_ic_body (index_md index_ic : Z) (st : for_each_q_state)
  : result for_each_q_state :=
  do s <-
    for_loop (Z.to_nat (rdi (ptr_tt_size ptr) index_md)) 0
      (for_each_q_tt_body index_md index_ic) ((-1)%Z, st);
  Ok (snd s).

Definition for_each_q_md_body (index_md : Z) (st : for_each_q_state)
  : result for_each_q_state :=
  for_loop (Z.to_nat (rdi ppt_ic_size index_md)) 0 (for_each_q_ic_body index_md) st.

Definition transfer_compute_for_each_q (st : for_each_q_state) : result for_each_q_state :=
  for_loop (Z.to_nat (ptr_md_size ptr)) 0 for_each_q_md_body st.

End Compute_for_each_q.

(** ** Predicates on the table of the transfer functions *)

(** Two tables [ptr->transfer] have as many rows, of the same lengths. *)
Definition same_shape (t1 t2 : list (list R)) : Prop :=
  length t1 = length t2
  /\ forall index_md : nat, length (nth index_md t1 []) = length (nth index_md t2 []).

(** [t'] is [t] outside the column of [index_q]: same shape, and the same
    entry wherever the position is not [index_q] modulo [q_size]. *)
Definition same_off_column (q_size index_q : Z) (t t' : list (list R)) : Prop :=
  same_shape t t'
  /\ forall (index_md : nat) (index : Z),
       (0 <= index)%Z -> (index mod q_size <> index_q)%Z ->
       rd (nth index_md t' []) index = rd (nth index_md t []) index.

(** Two runs end alike: both fail with the same message, or both succeed
    with results related by [P]. *)
Definition result_rel {A : Type} (P : A -> A -> Prop) (r1 r2 : result A) : Prop :=
  match r1, r2 with
  | Ok a, Ok b => P a b
  | Error m1, Error m2 => m1 = m2
  | OutOfFuel, OutOfFuel => True
  | _, _ => False
  end.

(** Two tables hold the same entry at every place of [D]. *)
Definition agree_on (D : Z -> Z -> Prop) (t1 t2 : list (list R)) : Prop :=
  forall index_md index,
    D index_md index ->
    rd (nth (Z.to_nat index_md) t1 []) index = rd (nth (Z.to_nat index_md) t2 []) index.

(** Two states of [transfer_compute_for_each_q] that may differ in the
    table outside [D] and, unless [B], in [interpolated_sources]. *)
Definition fq_rel (B : Prop) (D : Z -> Z -> Prop) (a b : for_each_q_state) : Prop :=
  fq_ptw a = fq_ptw b
  /\ fq_chi a = fq_chi b /\ fq_cscKgen a = fq_cscKgen b /\ fq_cotKgen a = fq_cotKgen b
  /\ (B -> fq_interpolated_sources a = fq_interpolated_sources b)
  /\ same_shape (fq_transfer a) (fq_transfer b)
  /\ agree_on D (fq_transfer a) (fq_transfer b).

(** Every row of the table has the entries that
    [transfer_indices_of_transfers] allocates,
    [ic_size * tt_size * l_size * q_size]. *)
Definition table_allocated (ptr : transfers) (ppt_ic_size : list Z) (t : list (list R)) : Prop :=
  forall index_md,
    (0 <= index_md < ptr_md_size ptr)%Z ->
    (Z.to_nat index_md < length t)%nat
    /\ (rdi ppt_ic_size index_md * rdi (ptr_tt_size ptr) index_md
        * rdi (ptr_l_size ptr) index_md * ptr_q_size ptr
        <= Z.of_nat (length (nth (Z.to_nat index_md) t [])))%Z.

(** The places of the table of the transfer functions that come before
    [(md, ic, tt, l)] in the order of the loops. *)
Definition written_before (ptr : transfers) (ppt_ic_size : list Z) (index_q : Z)
    (md ic tt l : Z) (index_md index : Z) : Prop :=
  exists index_ic index_tt index_l,
    (0 <= index_md)%Z
    /\ (0 <= index_ic < rdi ppt_ic_size index_md)%Z
    /\ (0 <= index_tt < rdi (ptr_tt_size ptr) index_md)%Z
    /\ (0 <= index_l < rdi (ptr_l_size ptr) index_md)%Z
    /\ index = transfer_index ptr index_q index_md index_ic index_tt index_l
    /\ (index_md < md
        \/ index_md = md
           /\ (index_ic < ic
               \/ index_ic = ic
                  /\ (index_tt < tt \/ index_tt = tt /\ index_l < l)))%Z.

(** Two wavenumbers and two multipoles for the three temperature types of
    [ppt_three_k]; a radial function and sources that never fail; a
    workspace before the first wavenumber. *)
Definition ptr_two_q : transfers :=
  set_ptr_q_size 2 (set_ptr_q [1; 2] (set_ptr_k [[1; 2]]
    (set_ptr_l [2; 3]%Z (set_ptr_l_size [2]%Z (set_ptr_l_size_max 2
      (set_ptr_l_size_tt [[2; 2; 2]]%Z ptr_three_k)))))).

Definition transfer_radial_function_unit :
  transfer_workspace -> perturbs -> transfers -> R -> Z -> Z -> Z ->
  radial_function_type -> result (list R) :=
  fun _ _ _ _ _ _ _ _ => Ok [1; 1].

Definition transfer_sources_copy :
  precision -> background -> perturbs -> transfers -> list R -> R -> Z -> Z -> Z ->
  list R -> list R -> list R -> Z -> result (list R * list R * list R * Z) :=
  fun _ _ _ _ interpolated_sources _ _ _ _ _ _ _ _ =>
    Ok (interpolated_sources, [13900; 13800], [50; 50], 2%Z).

Definition fq_start (transfer : list (list R)) : for_each_q_state :=
  {| fq_ptw := ptw_three; fq_interpolated_sources := [0; 0];
     fq_chi := [0; 0; 0]; fq_cscKgen := [0; 0; 0]; fq_cotKgen := [0; 0; 0];
     fq_transfer := transfer |}.

Definition run_two_q : for_each_q_state -> result for_each_q_state :=
  transfer_compute_for_each_q transfer_radial_function_unit transfer_sources_copy
    ppr_default ppr_neglect_default pba_unit ppt_three_k ptr_two_q
    [1]%Z [3]%Z 3 [[repeat 1 6; repeat 1 6; repeat 1 6]]
    [[0; 1; 2]]%Z 1 280 [[repeat 0 6; repeat 0 6; repeat 0 6]]
    0 3000.

(** A list of reals does not decrease. *)
Definition nondecreasing (q : list R) : Prop :=
  forall i, (S i < length q)%nat -> nth i q 0 <= nth (S i) q 0.

(** Galaxy-lensing spectra for one bin at [z = 1] with a Gaussian selection
    function of zero width. *)
Definition ppt_lensing_zero_width : perturbs :=
  {| ppt_has_cls := true;
     ppt_has_scalars := true; ppt_has_vectors := false; ppt_has_tensors := false;
     ppt_index_md_scalars := 0; ppt_index_md_vectors := 0; ppt_index_md_tensors := 0;
     ppt_md_size := 1;
     ppt_has_cl_cmb_temperature := false; ppt_has_cl_cmb_polarization := false;
     ppt_has_cl_cmb_lensing_potential := false; ppt_has_cl_density := false;
     ppt_has_cl_lensing_potential := true;
     ppt_selection := gaussian; ppt_selection_num := 1;
     ppt_selection_mean := [1]; ppt_selection_width := [0];
     ppt_l_scalar_max := 2500; ppt_l_lss_max := 300; ppt_l_tensor_max := 500;
     ppt_k := [0.001; 0.01; 0.1; 1]; ppt_k_size_cl := 4;
     ppt_tau_size := 3; ppt_tau_sampling := [100; 5000; 14000] |}.

(** ** [transfer_sources] and [transfer_source_resample] *)

Section Sources.

(** The background module and the functions [array_trapezoidal_mweights]
    and [array_interpolate_two] of tools/arrays.c are outside transfer.c:
    they are parameters.  [array_trapezoidal_mweights x n] gives the [n]
    weights written at the head of [w_trapz];
    [array_interpolate_two x_array y_array n x] gives the value interpolated
    at [x] in the table of [n] lines. *)
Variable background_at_tau : background -> R -> result (list R).
Variable background_tau_of_z : background -> R -> result R.
Variable array_trapezoidal_mweights : list R -> Z -> result (list R).
Variable array_interpolate_two : list R -> list R -> Z -> R -> result R.

(** [ptr->lcmb_rescale], [ptr->lcmb_pivot], [ptr->lcmb_tilt] and
    [pba->index_bg_Omega_m]. *)
Variables (ptr_lcmb_rescale ptr_lcmb_pivot ptr_lcmb_tilt : R) (pba_index_bg_Omega_m : Z).

(** The values that a callee writes at the head of an array. *)
Definition array_store (values a : list R) : list R :=
  array_fill 0 (Z.of_nat (length values)) (rd values) a.

(** [transfer_source_resample]: the new content of [sources]. *)
Definition transfer_source_resample
    (ppt : perturbs) (tau0_minus_tau : list R) (tau_size : Z) (tau0 : R)
    (interpolated_sources sources : list R) : result (list R) :=
  for_loop (Z.to_nat tau_size) 0
    (fun index_tau sources =>
       do source_at_tau <-
         array_interpolate_two (ppt_tau_sampling ppt) interpolated_sources (ppt_tau_size ppt)
           (tau0 - rd tau0_minus_tau index_tau);
       Ok (wr sources index_tau source_at_tau))
    sources.

(** The part of [transfer_sources] for the CMB lensing potential: the new
    content of [sources] and [tau0_minus_tau]. *)
Definition transfer_sources_lcmb
    (pba : background) (ppt : perturbs) (ptr : transfers)
    (interpolated_sources : list R) (tau_rec : R) (index_q index_md : Z)
    (sources tau0_minus_tau : list R) (tau_size : Z) : list R * list R :=
  let tau0 := pba_conformal_age pba in
  let index_tau_min := (ppt_tau_size ppt - tau_size)%Z in
  fold_left
    (fun (st : list R * list R) (i : nat) =>
       let index_tau := (index_tau_min + Z.of_nat i)%Z in
       let tau := rd (ppt_tau_sampling ppt) index_tau in
       let rescaling :=
         if (index_tau =? ppt_tau_size ppt - 1)%Z then 0
         else -2 * (tau - tau_rec) / (tau0 - tau) / (tau0 - tau_rec) in
       (wr (fst st) (index_tau - index_tau_min)
          (rd interpolated_sources index_tau * rescaling * ptr_lcmb_rescale
           * Rpower (rd (nth (Z.to_nat index_md) (ptr_k ptr) []) index_q / ptr_lcmb_pivot)
               ptr_lcmb_tilt),
        wr (snd st) (index_tau - index_tau_min) (tau0 - tau)))
    (seq 0 (Z.to_nat (ppt_tau_size ppt - index_tau_min)))
    (sources, tau0_minus_tau).

(** The part for the number counts: the new content of [sources],
    [tau0_minus_tau] and [w_trapz]. *)
Definition transfer_sources_density
    (ppr : precision) (pba : background) (ppt : perturbs) (ptr : transfers)
    (interpolated_sources : list R) (index_q index_md index_tt : Z)
    (sources tau0_minus_tau w_trapz : list R) (tau_size : Z)
  : result (list R * list R * list R) :=
  let tau0 := pba_conformal_age pba in
  let bin := (index_tt - ptr_index_tt_density ptr)%Z in
  do sampling <- transfer_selection_sampling background_tau_of_z ppr pba ppt bin tau_size;
  let tau0_minus_tau := array_store sampling tau0_minus_tau in
  do sources <-
    transfer_source_resample ppt tau0_minus_tau tau_size tau0 interpolated_sources sources;
  do weights <- array_trapezoidal_mweights tau0_minus_tau tau_size;
  let w_trapz := array_store weights w_trapz in
  do selection <-
    transfer_selection_compute background_at_tau ppr pba ppt tau0_minus_tau w_trapz
      tau_size tau0 bin;
  do sources <-
    for_loop (Z.to_nat tau_size) 0
      (fun index_tau sources =>
         let tau := tau0 - rd tau0_minus_tau index_tau in
         do pvecback <- background_at_tau pba tau;
         let rescaling :=
           rd selection index_tau * -2 / 3 / rd pvecback pba_index_bg_Omega_m
           / rd pvecback (pba_index_bg_H pba) / rd pvecback (pba_index_bg_H pba)
           / (rd pvecback (pba_index_bg_a pba) * rd pvecback (pba_index_bg_a pba)) in
         let k := rd (nth (Z.to_nat index_md) (ptr_k ptr) []) index_q in
         Ok (wr sources index_tau (rd sources index_tau * (rescaling * (k * k)))))
      sources;
  Ok (sources, tau0_minus_tau, w_trapz).

(** The part for the galaxy lensing. *)
Definition transfer_sources_lensing
    (ppr : precision) (pba : background) (ppt : perturbs) (ptr : transfers)
    (interpolated_sources : list R) (index_tt : Z)
    (sources tau0_minus_tau w_trapz : list R) (tau_size : Z)
  : result (list R * list R * list R) :=
  let tau0 := pba_conformal_age pba in
  let bin := (index_tt - ptr_index_tt_lensing ptr)%Z in
  let tau_sources_size := transfer_sources_tau_sources_size ppr ppt in
  do tau0_minus_tau_lensing_sources <-
    transfer_selection_sampling background_tau_of_z ppr pba ppt bin tau_sources_size;
  do w_trapz_lensing_sources <-
    array_trapezoidal_mweights tau0_minus_tau_lensing_sources tau_sources_size;
  do selection <-
    transfer_selection_compute background_at_tau ppr pba ppt
      tau0_minus_tau_lensing_sources w_trapz_lensing_sources tau_sources_size tau0 bin;
  do sampling <- transfer_lensing_sampling background_tau_of_z ppr pba ppt bin tau0 tau_size;
  let tau0_minus_tau := array_store sampling tau0_minus_tau in
  do sources <-
    transfer_source_resample ppt tau0_minus_tau tau_size tau0 interpolated_sources sources;
  do weights <- array_trapezoidal_mweights tau0_minus_tau tau_size;
  let w_trapz := array_store weights w_trapz in
  let sources :=
    array_fill 0 tau_size
      (fun index_tau =>
         let rescaling :=
           if (index_tau =? tau_size - 1)%Z then 0
           else
             sum_upto
               (fun index_tau_sources =>
                  let t_source := nth index_tau_sources tau0_minus_tau_lensing_sources 0 in
                  if Rltb 0 t_source && Rltb 0 (t_source - rd tau0_minus_tau index_tau)
                  then
                    -2 * (t_source - rd tau0_minus_tau index_tau)
                    / rd tau0_minus_tau index_tau / t_source
                    * nth index_tau_sources selection 0
                    * nth index_tau_sources w_trapz_lensing_sources 0
                  else 0)
               (Z.to_nat tau_sources_size)
             / 2 in
         rd sources index_tau * rescaling)
      sources in
  Ok (sources, tau0_minus_tau, w_trapz).

(** [transfer_sources]: the new content of [sources], [tau0_minus_tau] and
    [w_trapz], and [*tau_size_out].  The argument [tau_size] is the content
    of the local variable of that name when the function starts. *)
Definition transfer_sources
    (ppr : precision) (pba : background) (ppt : perturbs) (ptr : transfers)
    (interpolated_sources : list R) (tau_rec : R) (index_q index_md index_tt : Z)
    (sources tau0_minus_tau w_trapz : list R) (tau_size : Z)
  : result (list R * list R * list R * Z) :=
  let redefine_source :=
    _scalars_ ppt index_md
    && (tt_is_lcmb ppt ptr index_tt || tt_is_density ppt ptr index_tt
        || tt_is_lensing ppt ptr index_tt) in
  let tau0 := pba_conformal_age pba in
  if redefine_source then
    do tau_size <-
      transfer_source_tau_size background_tau_of_z ppr pba ppt ptr tau_rec tau0
        index_md index_tt tau_size;
    if _scalars_ ppt index_md then
      do (sources, tau0_minus_tau, w_trapz) <-
        (if tt_is_lcmb ppt ptr index_tt then
           let '(sources, tau0_minus_tau) :=
             transfer_sources_lcmb pba ppt ptr interpolated_sources tau_rec index_q index_md
               sources tau0_minus_tau tau_size in
           do weights <- array_trapezoidal_mweights tau0_minus_tau tau_size;
           Ok (sources, tau0_minus_tau, array_store weights w_trapz)
         else Ok (sources, tau0_minus_tau, w_trapz));
      do (sources, tau0_minus_tau, w_trapz) <-
        (if tt_is_density ppt ptr index_tt then
           transfer_sources_density ppr pba ppt ptr interpolated_sources
             index_q index_md index_tt sources tau0_minus_tau w_trapz tau_size
         else Ok (sources, tau0_minus_tau, w_trapz));
      do (sources, tau0_minus_tau, w_trapz) <-
        (if tt_is_lensing ppt ptr index_tt then
           transfer_sources_lensing ppr pba ppt ptr interpolated_sources index_tt
             sources tau0_minus_tau w_trapz tau_size
         else Ok (sources, tau0_minus_tau, w_trapz));
      Ok (sources, tau0_minus_tau, w_trapz, tau_size)
    else Ok (sources, tau0_minus_tau, w_trapz, tau_size)
  else
    let tau_size := ppt_tau_size ppt in
    let sources := array_fill 0 (ppt_tau_size ppt) (rd interpolated_sources) sources in
    let tau0_minus_tau :=
      array_fill 0 (ppt_tau_size ppt)
        (fun index_tau => tau0 - rd (ppt_tau_sampling ppt) index_tau) tau0_minus_tau in
    do weights <- array_trapezoidal_mweights tau0_minus_tau tau_size;
    Ok (sources, tau0_minus_tau, array_store weights w_trapz, tau_size).

End Sources.

(** [a'] is [a] from index [n] on, and has its length. *)
Definition same_beyond (n : Z) (a a' : list R) : Prop :=
  length a' = length a
  /\ forall j : nat, (n <= Z.of_nat j)%Z -> nth j a' 0 = nth j a 0.

(** Weights that are all 1 and an interpolation that gives the first value,
    for the examples. *)
Definition array_trapezoidal_mweights_unit : list R -> Z -> result (list R) :=
  fun _ n => Ok (repeat 1 (Z.to_nat n)).

Definition array_interpolate_two_first : list R -> list R -> Z -> R -> result R :=
  fun _ y_array _ _ => Ok (rd y_array 0).

(** Vector modes only, with the temperature spectrum. *)
Definition ppt_vectors_only : perturbs :=
  {| ppt_has_cls := true;
     ppt_has_scalars := false; ppt_has_vectors := true; ppt_has_tensors := false;
     ppt_index_md_scalars := 0; ppt_index_md_vectors := 0; ppt_index_md_tensors := 0;
     ppt_md_size := 1;
     ppt_has_cl_cmb_temperature := true; ppt_has_cl_cmb_polarization := false;
     ppt_has_cl_cmb_lensing_potential := false; ppt_has_cl_density := false;
     ppt_has_cl_lensing_potential := false;
     ppt_selection := gaussian; ppt_selection_num := 0;
     ppt_selection_mean := []; ppt_selection_width := [];
     ppt_l_scalar_max := 10; ppt_l_lss_max := 10; ppt_l_tensor_max := 10;
     ppt_k := [1; 2; 4]; ppt_k_size_cl := 3;
     ppt_tau_size := 2; ppt_tau_sampling := [100; 200] |}.

(** The grid [3; 4; 5] in closed space with [K = 1], and the multipoles 2
    to 6. *)
Definition ptr_closed_grid : transfers :=
  set_ptr_l [2; 3; 4; 5; 6]%Z (set_ptr_l_size_max 5 (ptr_with_q [3; 4; 5])).

(** ** The multipoles of an open table: [transfer_update_HIS] *)

(** In the open case of [transfer_update_HIS]: [index_l_left=0;
    index_l_right=l_size_max-1;], the two calls of [transfer_get_lmax], with
    [hyperspherical_get_xmin_from_approx] then with
    [hyperspherical_get_xmin_from_Airy] (functions of the hyperspherical
    module, here parameters), and [l_size_max = index_l_right+1]. *)
Definition update_HIS_l_size_max_open
    (get_xmin_from_approx get_xmin_from_Airy : Z -> Z -> R -> R -> R -> result R)
    (sgnK : Z) (nu : R) (l : list Z) (l_size_max : Z) (phiminabs xmax xtol : R)
    (fuel : nat) : result Z :=
  do (index_l_left, index_l_right) <-
    transfer_get_lmax get_xmin_from_approx sgnK nu l l_size_max phiminabs xmax xtol fuel
      0 (l_size_max - 1);
  do (index_l_left, index_l_right) <-
    transfer_get_lmax get_xmin_from_Airy sgnK nu l l_size_max phiminabs xmax xtol fuel
      index_l_left index_l_right;
  Ok (index_l_right + 1)%Z.

(** A second [get_xmin_generic], one above the multipole. *)
Definition get_xmin_linear_shifted : Z -> Z -> R -> R -> R -> result R :=
  fun _ l _ _ _ => Ok (IZR l + 1).

(** ** Example input for the multipoles *)

(** Scalar temperature spectra requested up to [l = 1] only. *)
Definition ppt_l_max_one : perturbs :=
  {| ppt_has_cls := true;
     ppt_has_scalars := true; ppt_has_vectors := false; ppt_has_tensors := false;
     ppt_index_md_scalars := 0; ppt_index_md_vectors := 0; ppt_index_md_tensors := 0;
     ppt_md_size := 1;
     ppt_has_cl_cmb_temperature := true; ppt_has_cl_cmb_polarization := false;
     ppt_has_cl_cmb_lensing_potential := false; ppt_has_cl_density := false;
     ppt_has_cl_lensing_potential := false;
     ppt_selection := gaussian; ppt_selection_num := 0;
     ppt_selection_mean := []; ppt_selection_width := [];
     ppt_l_scalar_max := 1; ppt_l_lss_max := 1; ppt_l_tensor_max := 1;
     ppt_k := [0.001; 0.01; 0.1; 1]; ppt_k_size_cl := 4;
     ppt_tau_size := 3; ppt_tau_sampling := [100; 5000; 14000] |}.

Definition ptr_l_max_one : transfers :=
  transfer_indices_of_transfers_types ppt_l_max_one ptr_blank.

(** ** Example inputs for runs in closed space *)

(** Precision parameters with round numbers for closed space: with
    [q_period = 1] the step at [q] is [q / (q + 1)], the overtones are
    rounded below 5 and the transition takes one step. *)
Definition ppr_closed : precision :=
  {| ppr_l_logstep := 1.12;
     ppr_l_linstep := 40;
     ppr_l_switch_limber := 10;
     ppr_l_switch_limber_for_cl_density_over_z := 30;
     ppr_q_linstep := 1;
     ppr_q_logstep_spline := 1;
     ppr_q_logstep_open := 0;
     ppr_q_logstep_trapzd := 1;
     ppr_q_numstep_transition := 1;
     ppr_hyper_flat_approximation_nu := 5;
     ppr_selection_sampling := 50;
     ppr_selection_sampling_bessel := 20;
     ppr_selection_cut_at_sigma := 5;
     ppr_selection_tophat_edge := 0.1 |}.

(** The states of the filling loop for [K = 1] and sources known up to
    [k = 7], turn after turn. *)
Definition q_state_closed (n : nat) : q_state :=
  match n with
  | 0%nat => {| qs_q := [3]; qs_nu := 3; qs_last_step := 0; qs_last_index := 0 |}
  | 1%nat => {| qs_q := [3; 4]; qs_nu := 4; qs_last_step := 1; qs_last_index := 2 |}
  | 2%nat => {| qs_q := [3; 4; 5]; qs_nu := 5; qs_last_step := 1; qs_last_index := 3 |}
  | 3%nat => {| qs_q := [3; 4; 5; 6]; qs_nu := 5; qs_last_step := 1; qs_last_index := 3 |}
  | 4%nat => {| qs_q := [3; 4; 5; 6; 48 / 7]; qs_nu := 5; qs_last_step := 1;
                qs_last_index := 3 |}
  | _ => {| qs_q := [3; 4; 5; 6; 48 / 7; 2976 / 385]; qs_nu := 5; qs_last_step := 1;
            qs_last_index := 3 |}
  end.

(** The grid of the run in closed space. *)
Definition ptr_closed_run (ptr : transfers) : transfers :=
  set_ptr_index_q_flat_approximation 3
    (set_ptr_q_size 5 (set_ptr_q [3; 4; 5; 6; 48 / 7] ptr)).




(** A closed background with [K = 1] and a conformal age for which, with
    recombination at [tau = 0], the period [2 pi / (tau0 - tau_rec)] is 1. *)
Definition pba_closed : background :=
  {| pba_conformal_age := 2 * PI; pba_a_today := 1; pba_K := 1; pba_sgnK := 1;
     pba_index_bg_a := 0; pba_index_bg_H := 1 |}.

Definition pth_closed : thermo :=
  {| pth_tau_rec := 0; pth_tau_cut := 0; pth_angular_rescaling := 1 |}.

(** Scalar and tensor modes in closed space, sources known for [k] between 1
    and 7. *)
Definition ppt_two_modes_closed : perturbs :=
  {| ppt_has_cls := true;
     ppt_has_scalars := true; ppt_has_vectors := false; ppt_has_tensors := true;
     ppt_index_md_scalars := 0; ppt_index_md_vectors := 0; ppt_index_md_tensors := 1;
     ppt_md_size := 2;
     ppt_has_cl_cmb_temperature := true; ppt_has_cl_cmb_polarization := true;
     ppt_has_cl_cmb_lensing_potential := false; ppt_has_cl_density := false;
     ppt_has_cl_lensing_potential := false;
     ppt_selection := gaussian; ppt_selection_num := 0;
     ppt_selection_mean := []; ppt_selection_width := [];
     ppt_l_scalar_max := 10; ppt_l_lss_max := 10; ppt_l_tensor_max := 10;
     ppt_k := [1; 7]; ppt_k_size_cl := 2;
     ppt_tau_size := 0; ppt_tau_sampling := [] |}.

(** * Properties *)

(** ** Comparisons, truncation and array updates *)

Lemma selection_eqb_eq (a b : selection_type) : selection_eqb a b = true <-> a = b.
Proof. destruct a, b; simpl; split; intros; congruence. Qed.

Lemma Rltb_true (x y : R) : Rltb x y = true <-> x < y.
Proof. unfold Rltb; destruct (Rlt_dec x y); split; intros; try easy. Qed.

Lemma Rltb_false (x y : R) : Rltb x y = false <-> y <= x.
Proof.
  unfold Rltb; destruct (Rlt_dec x y); split; intros; try easy; lra.
Qed.

Lemma Rleb_true (x y : R) : Rleb x y = true <-> x <= y.
Proof. unfold Rleb; destruct (Rle_dec x y); split; intros; try easy. Qed.

Lemma Rleb_false (x y : R) : Rleb x y = false <-> y < x.
Proof.
  unfold Rleb; destruct (Rle_dec x y); split; intros; try easy; lra.
Qed.

Lemma Req_b_true (x y : R) : Req_b x y = true <-> x = y.
Proof. unfold Req_b; destruct (Req_dec_T x y); split; intros; try easy. Qed.

Lemma Req_b_false (x y : R) : Req_b x y = false <-> x <> y.
Proof. unfold Req_b; destruct (Req_dec_T x y); split; intros; try easy. Qed.

Lemma trunc_IZR (n : Z) : trunc (IZR n) = n.
Proof.
  unfold trunc. destruct (Rle_dec 0 (IZR n)).
  - symmetry. apply Int_part_spec. lra.
  - rewrite <- opp_IZR.
    replace (Int_part (IZR (- n))) with (- n)%Z; [lia|].
    apply Int_part_spec. lra.
Qed.

Lemma trunc_floor (x : R) (n : Z) : 0 <= x -> IZR n <= x < IZR n + 1 -> trunc x = n.
Proof.
  intros H0 [H1 H2]. unfold trunc. destruct (Rle_dec 0 x); [|contradiction].
  symmetry. apply Int_part_spec. lra.
Qed.

Lemma trunc_nonneg (x : R) : 0 <= x -> (0 <= trunc x)%Z.
Proof.
  intros H. unfold trunc. destruct (Rle_dec 0 x); [|contradiction].
  destruct (base_Int_part x) as [H1 H2].
  apply le_IZR. apply Rnot_lt_le. intros Hlt.
  assert (Hle : (Int_part x <= -1)%Z) by (apply lt_IZR in Hlt; lia).
  apply IZR_le in Hle. lra.
Qed.

Lemma trunc_le (x : R) : 0 <= x -> IZR (trunc x) <= x.
Proof.
  intros H. unfold trunc. destruct (Rle_dec 0 x); [|contradiction].
  destruct (base_Int_part x); lra.
Qed.

Lemma list_set_length {A : Type} (a : list A) (i : nat) (v : A) :
  length (list_set a i v) = length a.
Proof.
  revert i; induction a as [|x r IH]; intros [|j]; simpl; auto.
Qed.

Lemma nth_list_set_eq {A : Type} (a : list A) (i : nat) (v d : A) :
  (i < length a)%nat -> nth i (list_set a i v) d = v.
Proof.
  revert i; induction a as [|x r IH]; intros [|j] H; simpl in *; try lia; auto.
  apply IH; lia.
Qed.

Lemma nth_list_set_neq {A : Type} (a : list A) (i j : nat) (v d : A) :
  i <> j -> nth j (list_set a i v) d = nth j a d.
Proof.
  revert i j; induction a as [|x r IH]; intros [|i] [|j] H; simpl; auto; try lia.
Qed.

(** ** Type indices *)

(** The indices handed out by [transfer_indices_of_transfers] keep the CMB
    lensing type, the number-count types and the galaxy-lensing types apart. *)
Lemma transfer_indices_of_transfers_types_exclusive (ppt : perturbs) (ptr : transfers) :
  ppt_has_scalars ppt = true ->
  tt_exclusive ppt (transfer_indices_of_transfers_types ppt ptr).
Proof.
  intros Hs index_tt.
  unfold tt_is_lcmb, tt_is_density, tt_is_lensing, transfer_indices_of_transfers_types.
  rewrite Hs. destruct ptr.
  destruct (ppt_has_cl_cmb_temperature ppt), (ppt_has_cl_cmb_polarization ppt),
    (ppt_has_cl_cmb_lensing_potential ppt), (ppt_has_cl_density ppt),
    (ppt_has_cl_lensing_potential ppt), (ppt_has_vectors ppt), (ppt_has_tensors ppt);
    cbn -[Z.add Z.leb Z.ltb Z.eqb wr repeat]; split; intros H; repeat split;
    try reflexivity; try discriminate;
    rewrite ?andb_true_iff in H;
    rewrite ?andb_false_iff;
    rewrite ?Z.leb_le, ?Z.ltb_lt, ?Z.eqb_eq, ?Z.leb_gt, ?Z.ltb_ge in *; lia.
Qed.

(** Settle the comparisons of a goal whose operands are numerals. *)
Ltac settle_test :=
  match goal with
  | |- context [Rltb ?a ?b] =>
      first [ replace (Rltb a b) with true by (symmetry; apply Rltb_true; lra)
            | replace (Rltb a b) with false by (symmetry; apply Rltb_false; lra) ]
  | |- context [Rleb ?a ?b] =>
      first [ replace (Rleb a b) with true by (symmetry; apply Rleb_true; lra)
            | replace (Rleb a b) with false by (symmetry; apply Rleb_false; lra) ]
  | |- context [Req_b ?a ?b] =>
      first [ replace (Req_b a b) with true by (symmetry; apply Req_b_true; lra)
            | replace (Req_b a b) with false by (symmetry; apply Req_b_false; lra) ]
  end.

Ltac settle_tests := unfold rd, rdi; simpl; repeat (settle_test; simpl).

(** Case analysis on every test of the goal. *)
Ltac destruct_ifs :=
  repeat match goal with
         | |- context [if ?b then _ else _] => destruct b eqn:?
         end.

(** Case analysis on the comparisons of nested [MAXi], innermost first. *)
Ltac destruct_max :=
  repeat match goal with
         | |- context [(?a <? ?b)%Z] =>
             lazymatch a with
             | context [if _ then _ else _] => fail
             | _ =>
                 lazymatch b with
                 | context [if _ then _ else _] => fail
                 | _ => destruct (Z.ltb_spec a b)
                 end
             end
         end.

(** ** [transfer_use_limber] (C1) *)

(** C1, as stated, fails: for a galaxy-lensing type whose selection window is
    a Dirac, with [q] below [q_max_bessel] and [l = 100] above the scaled
    threshold [30 * 1], the Limber approximation is selected. *)
Lemma transfer_use_limber_dirac_lensing :
  _scalars_ ppt_lensing_dirac 0 = true
  /\ tt_is_lensing ppt_lensing_dirac ptr_lensing_dirac 0 = true
  /\ ppt_selection ppt_lensing_dirac = dirac
  /\ 0.5 <= 1
  /\ transfer_use_limber ppr_default ppt_lensing_dirac ptr_lensing_dirac 1 0 0 0.5 100 = true.
Proof.
  repeat split; try reflexivity; try lra.
  unfold transfer_use_limber. settle_tests. reflexivity.
Qed.

(** C1, amended: for a scalar-mode type whose indices keep the lensing and
    windowed types apart, the Limber approximation is selected exactly when
    [q > q_max_bessel], or the type is the CMB lensing potential and
    [l > l_switch_limber], or the type is a number-count type, the window is
    not a Dirac and [l >= l_switch_limber_for_cl_density_over_z * mean], or
    the type is a galaxy-lensing type (Dirac window or not) and
    [l >= l_switch_limber_for_cl_density_over_z * mean]; otherwise the exact
    integration is chosen. *)
Theorem transfer_use_limber_spec
    (ppr : precision) (ppt : perturbs) (ptr : transfers)
    (q_max_bessel : R) (index_md index_tt : Z) (q l : R) :
  tt_exclusive ppt ptr ->
  _scalars_ ppt index_md = true ->
  (transfer_use_limber ppr ppt ptr q_max_bessel index_md index_tt q l = true
   <->
   q > q_max_bessel
   \/ (tt_is_lcmb ppt ptr index_tt = true /\ l > ppr_l_switch_limber ppr)
   \/ (tt_is_density ppt ptr index_tt = true
       /\ ppt_selection ppt <> dirac
       /\ l >= ppr_l_switch_limber_for_cl_density_over_z ppr
               * rd (ppt_selection_mean ppt) (index_tt - ptr_index_tt_density ptr))
   \/ (tt_is_lensing ppt ptr index_tt = true
       /\ l >= ppr_l_switch_limber_for_cl_density_over_z ppr
               * rd (ppt_selection_mean ppt) (index_tt - ptr_index_tt_lensing ptr))).
Proof.
  intros Hex Hs. destruct (Hex index_tt) as [Hlcmb Hdens].
  unfold transfer_use_limber. rewrite Hs.
  destruct (Rltb q_max_bessel q) eqn:Eq.
  { apply Rltb_true in Eq. split; [intros _; left; lra | reflexivity]. }
  apply Rltb_false in Eq.
  destruct (tt_is_lcmb ppt ptr index_tt) eqn:E1.
  - destruct (Hlcmb eq_refl) as [E2 E3]. rewrite E2, E3. simpl.
    destruct (Rltb (ppr_l_switch_limber ppr) l) eqn:El.
    + apply Rltb_true in El. split; [intros _; right; left; split; [reflexivity | lra] | reflexivity].
    + apply Rltb_false in El. split; [discriminate|].
      intros [H | [[_ H] | [[H _] | [H _]]]]; try discriminate; lra.
  - simpl. destruct (tt_is_density ppt ptr index_tt) eqn:E2.
    + rewrite (Hdens eq_refl). simpl.
      match goal with |- context [Rleb ?a ?b] => destruct (Rleb a b) eqn:El end.
      * apply Rleb_true in El.
        destruct (selection_eqb (ppt_selection ppt) dirac) eqn:Es.
        -- apply selection_eqb_eq in Es. split; [discriminate|].
           intros [H | [[H _] | [[_ [H _]] | [H _]]]]; try discriminate; try lra.
           contradiction.
        -- split; [|reflexivity]. intros _. right; right; left.
           repeat split; [|lra]. intros Hd. apply selection_eqb_eq in Hd. congruence.
      * apply Rleb_false in El. split; [discriminate|].
        intros [H | [[H _] | [[_ [_ H]] | [H _]]]]; try discriminate; lra.
    + simpl. destruct (tt_is_lensing ppt ptr index_tt) eqn:E3; simpl.
      * match goal with |- context [Rleb ?a ?b] => destruct (Rleb a b) eqn:El end.
        -- apply Rleb_true in El. split; [|reflexivity]. intros _.
           right; right; right. split; [reflexivity|lra].
        -- apply Rleb_false in El. split; [discriminate|].
           intros [H | [[H _] | [[H _] | [_ H]]]]; try discriminate; lra.
      * split; [discriminate|].
        intros [H | [[H _] | [[H _] | [H _]]]]; try discriminate; lra.
Qed.

(** The amended statement applies to the galaxy-lensing type of a run in
    which only the galaxy-lensing spectra are requested. *)
Lemma transfer_use_limber_spec_witness :
  transfer_use_limber ppr_default ppt_lensing_dirac ptr_lensing_dirac 1 0 0 0.5 100 = true
  <->
  0.5 > 1
  \/ (tt_is_lcmb ppt_lensing_dirac ptr_lensing_dirac 0 = true
      /\ 100 > ppr_l_switch_limber ppr_default)
  \/ (tt_is_density ppt_lensing_dirac ptr_lensing_dirac 0 = true
      /\ ppt_selection ppt_lensing_dirac <> dirac
      /\ 100 >= ppr_l_switch_limber_for_cl_density_over_z ppr_default
                * rd (ppt_selection_mean ppt_lensing_dirac)
                    (0 - ptr_index_tt_density ptr_lensing_dirac))
  \/ (tt_is_lensing ppt_lensing_dirac ptr_lensing_dirac 0 = true
      /\ 100 >= ppr_l_switch_limber_for_cl_density_over_z ppr_default
                * rd (ppt_selection_mean ppt_lensing_dirac)
                    (0 - ptr_index_tt_lensing ptr_lensing_dirac)).
Proof.
  apply (transfer_use_limber_spec ppr_default ppt_lensing_dirac ptr_lensing_dirac 1 0 0 0.5 100).
  - apply transfer_indices_of_transfers_types_exclusive. reflexivity.
  - reflexivity.
Defined.

(** ** [transfer_integrate] (C2) *)

Lemma integrate_index_bessel_le (t : list R) (b : R) (n : nat) :
  (integrate_index_bessel t b n <= n)%nat.
Proof.
  induction n as [|n IH]; simpl; destruct (Rltb _ b); auto.
Qed.

Lemma integrate_index_bessel_stay (t : list R) (b : R) (n : nat) :
  ~ nth n t 0 < b -> integrate_index_bessel t b n = n.
Proof.
  intros H. apply Rnot_lt_le, Rltb_false in H.
  destruct n; simpl; rewrite H; reflexivity.
Qed.

Lemma integrate_index_bessel_down (t : list R) (b : R) (n : nat) :
  (0 < n)%nat -> nth n t 0 < b -> (integrate_index_bessel t b n < n)%nat.
Proof.
  intros Hn H. destruct n as [|n]; [lia|]. apply Rltb_true in H. simpl. rewrite H.
  pose proof (integrate_index_bessel_le t b n). lia.
Qed.

(** The descent (a) stops at the last sample that is not below the bound:
    every later sample is below it. *)
Lemma integrate_index_bessel_spec (t : list R) (b : R) (n : nat) :
  b < nth 0 t 0 ->
  let i := integrate_index_bessel t b n in
  ~ nth i t 0 < b /\ forall j, (i < j <= n)%nat -> nth j t 0 < b.
Proof.
  intros H0. induction n as [|n IH]; simpl.
  - destruct (Rltb (nth 0 t 0) b) eqn:E.
    + apply Rltb_true in E. lra.
    + split; [lra | intros j Hj; lia].
  - destruct (Rltb (nth (S n) t 0) b) eqn:E.
    + destruct IH as [IH1 IH2]. split; [exact IH1|].
      intros j Hj. destruct (Nat.eq_dec j (S n)) as [->|Hne].
      * apply Rltb_true; exact E.
      * apply IH2. lia.
    + apply Rltb_false in E. split; [lra | intros j Hj; lia].
Qed.

Lemma integrate_index_source_spec (s : list R) (n i : nat) :
  integrate_index_source s n = Some i ->
  (i <= n)%nat /\ nth i s 0 <> 0 /\ forall j, (i < j <= n)%nat -> nth j s 0 = 0.
Proof.
  revert i. induction n as [|n IH]; intros i; simpl.
  - destruct (Req_b (nth 0 s 0) 0) eqn:E; [discriminate|].
    intros [= <-]. apply Req_b_false in E. repeat split; auto. intros j Hj; lia.
  - destruct (Req_b (nth (S n) s 0) 0) eqn:E.
    + intros H. destruct (IH i H) as (H1 & H2 & H3). repeat split; auto.
      intros j Hj. destruct (Nat.eq_dec j (S n)) as [->|Hne].
      * apply Req_b_true; exact E.
      * apply H3; lia.
    + intros [= <-]. apply Req_b_false in E. repeat split; auto. intros j Hj; lia.
Qed.

Lemma integrate_index_source_stay (s : list R) (n i : nat) :
  integrate_index_source s n = Some i -> (i = n <-> nth n s 0 <> 0).
Proof.
  intros H. destruct (integrate_index_source_spec s n i H) as (H1 & H2 & H3).
  split; [intros ->; exact H2|].
  intros Hn. destruct (Nat.eq_dec i n) as [|Hne]; [assumption|].
  exfalso. apply Hn, H3. lia.
Qed.

Lemma integrate_index_cut_spec (t : list R) (c : R) (n i : nat) :
  integrate_index_cut t c n = Some i ->
  (i <= n)%nat /\ ~ nth i t 0 < c /\ forall j, (i < j <= n)%nat -> nth j t 0 < c.
Proof.
  revert i. induction n as [|n IH]; intros i; simpl.
  - destruct (Rltb (nth 0 t 0) c) eqn:E; [discriminate|].
    intros [= <-]. apply Rltb_false in E. repeat split; auto; [lra|]. intros j Hj; lia.
  - destruct (Rltb (nth (S n) t 0) c) eqn:E.
    + intros H. destruct (IH i H) as (H1 & H2 & H3). repeat split; auto.
      intros j Hj. destruct (Nat.eq_dec j (S n)) as [->|Hne].
      * apply Rltb_true; exact E.
      * apply H3; lia.
    + intros [= <-]. apply Rltb_false in E. repeat split; auto; [lra|]. intros j Hj; lia.
Qed.

Lemma integrate_index_cut_stay (t : list R) (c : R) (n i : nat) :
  integrate_index_cut t c n = Some i -> (i = n <-> ~ nth n t 0 < c).
Proof.
  intros H. destruct (integrate_index_cut_spec t c n i H) as (H1 & H2 & H3).
  split; [intros ->; exact H2|].
  intros Hn. destruct (Nat.eq_dec i n) as [|Hne]; [assumption|].
  exfalso. apply Hn, H3. lia.
Qed.

(** The test of the code before the subtraction is the truncation by the
    radial function. *)
Lemma integrate_truncation_test (ptw : transfer_workspace) (b : R) (iB i : nat) :
  (1 < ptw_tau_size ptw)%Z ->
  integrate_index_tau_max ptw b = Some (iB, i) ->
  (negb (Z.of_nat i =? ptw_tau_size ptw - 1)%Z && (i =? iB)%nat = true
   <-> bessel_truncation ptw b).
Proof.
  intros Hsize. unfold integrate_index_tau_max, bessel_truncation. cbv zeta.
  set (n := Z.to_nat (ptw_tau_size ptw - 1)).
  set (jB := integrate_index_bessel (ptw_tau0_minus_tau ptw) b n).
  destruct (integrate_index_source (ptw_sources ptw) jB) as [i1|] eqn:Es; [|discriminate].
  pose proof (integrate_index_source_stay _ _ _ Es) as Hs.
  assert (Hn : (Z.of_nat i =? ptw_tau_size ptw - 1)%Z = (i =? n)%nat).
  { subst n. destruct (Nat.eqb_spec i (Z.to_nat (ptw_tau_size ptw - 1))).
    - apply Z.eqb_eq. lia.
    - apply Z.eqb_neq. lia. }
  assert (HB : jB <> n <-> nth n (ptw_tau0_minus_tau ptw) 0 < b).
  { split.
    - intros Hne. destruct (Rlt_dec (nth n (ptw_tau0_minus_tau ptw) 0) b); [assumption|].
      exfalso. apply Hne. apply integrate_index_bessel_stay. assumption.
    - intros Hlt. assert (Hpos : (0 < n)%nat) by (subst n; lia).
      pose proof (integrate_index_bessel_down _ _ _ Hpos Hlt) as Hd. fold jB in Hd. lia. }
  destruct (ptw_neglect_late_source ptw) eqn:El.
  - destruct (integrate_index_cut (ptw_tau0_minus_tau ptw) (ptw_tau0_minus_tau_cut ptw) i1)
      as [i2|] eqn:Ec; [|discriminate].
    intros [= <- <-]. pose proof (integrate_index_cut_stay _ _ _ _ Ec) as Hc.
    destruct (integrate_index_cut_spec _ _ _ _ Ec) as (Hle & _).
    destruct (integrate_index_source_spec _ _ _ Es) as (Hle1 & _).
    rewrite Hn, andb_true_iff, negb_true_iff, Nat.eqb_neq, Nat.eqb_eq.
    split.
    + intros [H1 H2]. subst i2. assert (i1 = jB) by lia. subst i1.
      repeat split; [apply HB; assumption | apply Hs; reflexivity |].
      intros _. apply Hc. reflexivity.
    + intros (H1 & H2 & H3). apply Hs in H2. subst i1.
      assert (i2 = jB) by (apply Hc, H3; reflexivity). subst i2.
      split; [apply HB; assumption | reflexivity].
  - intros [= <- <-].
    rewrite Hn, andb_true_iff, negb_true_iff, Nat.eqb_neq, Nat.eqb_eq.
    split.
    + intros [H1 H2]. subst i1.
      repeat split; [apply HB; assumption | apply Hs; reflexivity | discriminate].
    + intros (H1 & H2 & _). apply Hs in H2. subst i1.
      split; [apply HB; assumption | reflexivity].
Qed.

Section Integrate_properties.

Variable transfer_radial_function :
  transfer_workspace -> perturbs -> transfers -> R -> Z -> Z -> Z ->
  radial_function_type -> result (list R).

(** C2: [transfer_integrate] returns 0 when the smallest time-coordinate of
    the radial function is not below the largest source sample; for a source
    with one sample it returns [sources[0]] times the radial function at that
    point; otherwise it returns the trapezoidal convolution over the retained
    samples, from which the triangle between the last retained sample and the
    cut of the radial function is subtracted exactly when the range was cut
    by the validity bound of the radial function and by nothing else. *)
Theorem transfer_integrate_spec
    (ppt : perturbs) (ptr : transfers) (ptw : transfer_workspace)
    (index_q index_md index_tt : Z) (l : R) (index_l : Z) (k : R) :
  let t_min_bessel := tau0_minus_tau_min_bessel ptr ptw index_q l index_l k in
  let radial_type := transfer_select_radial_function ppt ptr index_md index_tt in
  let trsf :=
    transfer_integrate transfer_radial_function ppt ptr ptw index_q index_md index_tt
      l index_l k in
  (t_min_bessel >= rd (ptw_tau0_minus_tau ptw) 0 -> trsf = Ok 0)
  /\ (t_min_bessel < rd (ptw_tau0_minus_tau ptw) 0 ->
      ptw_tau_size ptw = 1%Z ->
      forall bessel,
        transfer_radial_function ptw ppt ptr k index_q index_l 1%Z radial_type = Ok bessel ->
        trsf = Ok (rd (ptw_sources ptw) 0 * rd bessel 0))
  /\ (t_min_bessel < rd (ptw_tau0_minus_tau ptw) 0 ->
      (1 < ptw_tau_size ptw)%Z ->
      forall index_tau_max_Bessel index_tau_max radial_function,
        integrate_index_tau_max ptw t_min_bessel = Some (index_tau_max_Bessel, index_tau_max) ->
        transfer_radial_function ptw ppt ptr k index_q index_l
          (Z.of_nat index_tau_max + 1)%Z radial_type = Ok radial_function ->
        let convolution :=
          array_trapezoidal_convolution (ptw_sources ptw) radial_function
            (Z.of_nat index_tau_max + 1)%Z (ptw_w_trapz ptw) in
        (bessel_truncation ptw t_min_bessel ->
         trsf = Ok (convolution
                    - 0.5 * (nth (S index_tau_max) (ptw_tau0_minus_tau ptw) 0 - t_min_bessel)
                      * nth index_tau_max radial_function 0
                      * nth index_tau_max (ptw_sources ptw) 0))
        /\ (~ bessel_truncation ptw t_min_bessel -> trsf = Ok convolution)).
Proof.
  intros t_min_bessel radial_type trsf. subst trsf. unfold transfer_integrate.
  fold t_min_bessel. fold radial_type. cbv zeta.
  split; [|split].
  - intros H. apply Rge_le, Rleb_true in H. rewrite H. reflexivity.
  - intros H Hsize bessel Hb. apply Rleb_false in H. rewrite H, Hsize. simpl.
    rewrite Hb. reflexivity.
  - intros H Hsize iB i rf Hi Hrf. apply Rleb_false in H. rewrite H.
    replace (ptw_tau_size ptw =? 1)%Z with false by (symmetry; apply Z.eqb_neq; lia).
    rewrite Hi, Hrf. simpl.
    pose proof (integrate_truncation_test ptw t_min_bessel iB i Hsize Hi) as Htest.
    split; intros Htr.
    + apply Htest in Htr. rewrite Htr. reflexivity.
    + destruct (negb (Z.of_nat i =? ptw_tau_size ptw - 1)%Z && (i =? iB)%nat) eqn:E;
        [|reflexivity].
      exfalso. apply Htr, Htest. reflexivity.
Qed.

End Integrate_properties.

(** The three cases of C2 on a unit radial function: no overlap
    ([1.5/0.25 >= 3]); one sample; three samples of which the last is cut by
    the radial function ([1 < 1.5 <= 2]), where the trapezoidal sum [1.5] is
    corrected by the triangle [0.5 * (1 - 1.5)]. *)
Lemma transfer_integrate_spec_witness :
  transfer_integrate radial_unit ppt_lensing_dirac ptr_lensing_dirac ptw_three
    0 0 0 2 0 0.25 = Ok 0
  /\ transfer_integrate radial_unit ppt_lensing_dirac ptr_lensing_dirac ptw_one
       0 0 0 2 0 1 = Ok (5 * 1)
  /\ transfer_integrate radial_unit ppt_lensing_dirac ptr_lensing_dirac ptw_three
       0 0 0 2 0 1 = Ok (1.5 - 0.5 * (1 - 1.5 / 1) * 1 * 1).
Proof.
  pose proof (transfer_integrate_spec radial_unit ppt_lensing_dirac ptr_lensing_dirac
                ptw_three 0 0 0 2 0 0.25) as Hnone.
  pose proof (transfer_integrate_spec radial_unit ppt_lensing_dirac ptr_lensing_dirac
                ptw_one 0 0 0 2 0 1) as Hone.
  pose proof (transfer_integrate_spec radial_unit ppt_lensing_dirac ptr_lensing_dirac
                ptw_three 0 0 0 2 0 1) as Hthree.
  cbv zeta in Hnone, Hone, Hthree.
  destruct Hnone as (Hnone & _ & _). destruct Hone as (_ & Hone & _).
  destruct Hthree as (_ & _ & Hthree).
  split; [|split].
  - apply Hnone. unfold tau0_minus_tau_min_bessel, rd; simpl. lra.
  - assert (Hlt : tau0_minus_tau_min_bessel ptr_lensing_dirac ptw_one 0 2 0 1
                  < rd (ptw_tau0_minus_tau ptw_one) 0)
      by (unfold tau0_minus_tau_min_bessel, rd; simpl; lra).
    exact (Hone Hlt eq_refl [1] eq_refl).
  - assert (Hlt : tau0_minus_tau_min_bessel ptr_lensing_dirac ptw_three 0 2 0 1
                  < rd (ptw_tau0_minus_tau ptw_three) 0)
      by (unfold tau0_minus_tau_min_bessel, rd; simpl; lra).
    assert (Htr : bessel_truncation ptw_three
                    (tau0_minus_tau_min_bessel ptr_lensing_dirac ptw_three 0 2 0 1)).
    { unfold bessel_truncation, tau0_minus_tau_min_bessel. simpl. settle_tests.
      repeat split; [lra | lra | discriminate]. }
    assert (Hi : integrate_index_tau_max ptw_three
                   (tau0_minus_tau_min_bessel ptr_lensing_dirac ptw_three 0 2 0 1)
                 = Some (1%nat, 1%nat)).
    { unfold integrate_index_tau_max, tau0_minus_tau_min_bessel. simpl. settle_tests.
      reflexivity. }
    rewrite (proj1 (Hthree Hlt ltac:(simpl; lia) 1%nat 1%nat [1; 1] Hi eq_refl) Htr).
    f_equal. unfold array_trapezoidal_convolution, tau0_minus_tau_min_bessel, rd. simpl. lra.
Defined.

(** ** [transfer_limber] (C3) *)

(** The fit is the quadratic through the three points. *)
Lemma array_interpolate_parabola_nodes (x1 x2 x3 y1 y2 y3 : R) :
  x1 <> x2 -> x2 <> x3 -> x1 <> x3 ->
  fst (fst (array_interpolate_parabola x1 x2 x3 x1 y1 y2 y3)) = y1
  /\ fst (fst (array_interpolate_parabola x1 x2 x3 x2 y1 y2 y3)) = y2
  /\ fst (fst (array_interpolate_parabola x1 x2 x3 x3 y1 y2 y3)) = y3.
Proof.
  intros H12 H23 H13. unfold array_interpolate_parabola; simpl.
  repeat split; field; repeat split; lra.
Qed.

Lemma limber_index_range (n : nat) (t : list R) (tl : R) (i : Z) :
  (i <= limber_index n t tl i <= i + Z.of_nat n)%Z.
Proof.
  revert i; induction n as [|n IH]; intros i; simpl; [lia|].
  destruct (Rltb tl (rd t i)); [|lia]. specialize (IH (i + 1)%Z). lia.
Qed.

(** On exit, every sample passed by the loop is above the Limber time, and
    the loop stops before its bound only at a sample that is not. *)
Lemma limber_index_bracket (n : nat) (t : list R) (tl : R) (i : Z) :
  let index_tau := limber_index n t tl i in
  (forall j, (i <= j < index_tau)%Z -> rd t j > tl)
  /\ ((index_tau < i + Z.of_nat n)%Z -> rd t index_tau <= tl).
Proof.
  revert i; induction n as [|n IH]; intros i; simpl.
  - split; intros; lia.
  - destruct (Rltb tl (rd t i)) eqn:E.
    + destruct (IH (i + 1)%Z) as [IH1 IH2]. split.
      * intros j Hj. destruct (Z.eq_dec j i) as [->|Hne].
        -- apply Rltb_true in E. lra.
        -- apply IH1. lia.
      * intros H. apply IH2. lia.
    + apply Rltb_false in E. split; [intros; lia | intros; lra].
Qed.

(** C3, as stated, fails: with three samples the triple ends at the last
    sample, whose ordinate is replaced; the value differs from that of the
    quadratic fitted to the product at the three samples. *)
Lemma transfer_limber_edge_differs :
  transfer_limber 3 2 1 [3; 2; 1] [1; 1; 1]
  <> transfer_limber_as_specified 3 2 1 [3; 2; 1] [1; 1; 1].
Proof.
  unfold transfer_limber, transfer_limber_as_specified.
  settle_tests. unfold array_interpolate_parabola.
  assert (Hs : 0 < sqrt (PI / (2 * 2 + 1))).
  { apply sqrt_lt_R0. pose proof PI_RGT_0. lra. }
  set (s := sqrt (PI / (2 * 2 + 1))) in *.
  intros H. field_simplify in H; [|lra|lra]. lra.
Qed.

(** C3, amended: [transfer_limber] returns 0 when [(l+1/2)/k] is outside the
    sampled range; otherwise, with at least three samples, it stops at an
    index [index_tau] between 1 and [tau_size-2] whose triple of samples
    brackets that time, and returns [sqrt(pi/(2l+1))] times the quadratic
    fitted through the three samples, divided by [l+1/2], where the ordinates
    are the product [source * (tau0-tau)], except that when the triple ends
    at the last sample the third ordinate is the product at the middle
    sample. *)
Theorem transfer_limber_spec
    (tau_size : Z) (l k : R) (tau0_minus_tau sources : list R) :
  let tau0_minus_tau_limber := (l + 0.5) / k in
  let index_tau :=
    limber_index (Z.to_nat (tau_size - 3)) tau0_minus_tau tau0_minus_tau_limber 1%Z in
  let product i := rd sources i * rd tau0_minus_tau i in
  (tau0_minus_tau_limber > rd tau0_minus_tau 0
   \/ tau0_minus_tau_limber < rd tau0_minus_tau (tau_size - 1) ->
   transfer_limber tau_size l k tau0_minus_tau sources = 0)
  /\ (rd tau0_minus_tau (tau_size - 1) <= tau0_minus_tau_limber <= rd tau0_minus_tau 0 ->
      (3 <= tau_size)%Z ->
      (1 <= index_tau <= tau_size - 2)%Z
      /\ rd tau0_minus_tau (index_tau - 1) >= tau0_minus_tau_limber
      /\ (if (index_tau <? tau_size - 2)%Z
          then rd tau0_minus_tau index_tau <= tau0_minus_tau_limber
          else rd tau0_minus_tau (index_tau + 1) <= tau0_minus_tau_limber)
      /\ transfer_limber tau_size l k tau0_minus_tau sources
         = sqrt (PI / (2 * l + 1))
           * fst (fst (array_interpolate_parabola
                         (rd tau0_minus_tau (index_tau - 1)) (rd tau0_minus_tau index_tau)
                         (rd tau0_minus_tau (index_tau + 1)) tau0_minus_tau_limber
                         (product (index_tau - 1)%Z) (product index_tau)
                         (if (index_tau <? tau_size - 2)%Z
                          then product (index_tau + 1)%Z else product index_tau)))
           / (l + 0.5)).
Proof.
  intros tl index_tau product. unfold transfer_limber. fold tl. fold index_tau.
  split.
  - intros [H | H].
    + apply Rltb_true in H. rewrite H. reflexivity.
    + apply Rltb_true in H. rewrite H, orb_true_r. reflexivity.
  - intros [Hlo Hhi] Hsize.
    replace (Rltb (rd tau0_minus_tau 0) tl) with false
      by (symmetry; apply Rltb_false; lra).
    replace (Rltb tl (rd tau0_minus_tau (tau_size - 1))) with false
      by (symmetry; apply Rltb_false; lra).
    simpl orb. cbv iota.
    pose proof (limber_index_range (Z.to_nat (tau_size - 3)) tau0_minus_tau tl 1) as Hr.
    fold index_tau in Hr.
    destruct (limber_index_bracket (Z.to_nat (tau_size - 3)) tau0_minus_tau tl 1)
      as [Hb1 Hb2].
    fold index_tau in Hb1, Hb2.
    split; [lia|]. split; [|split].
    + destruct (Z.eq_dec index_tau 1) as [E|E].
      * rewrite E. simpl. lra.
      * apply Rgt_ge, Hb1. lia.
    + destruct (index_tau <? tau_size - 2)%Z eqn:E.
      * apply Z.ltb_lt in E. apply Hb2. lia.
      * apply Z.ltb_ge in E. replace (index_tau + 1)%Z with (tau_size - 1)%Z by lia. lra.
    + unfold product. destruct (index_tau <? tau_size - 2)%Z;
        unfold array_interpolate_parabola; reflexivity.
Qed.

(** The amended statement on three samples: outside the sampled range
    ([2.5 > 2]), and inside it, where the triple ends at the last sample. *)
Lemma transfer_limber_spec_witness :
  transfer_limber 3 2 1 [2; 1.5; 1] [1; 1; 1] = 0
  /\ transfer_limber 3 2 1 [3; 2; 1] [1; 1; 1]
     = sqrt (PI / (2 * 2 + 1))
       * fst (fst (array_interpolate_parabola 3 2 1 ((2 + 0.5) / 1) (1 * 3) (1 * 2) (1 * 2)))
       / (2 + 0.5).
Proof.
  split.
  - apply (transfer_limber_spec 3 2 1 [2; 1.5; 1] [1; 1; 1]).
    left. unfold rd; simpl. lra.
  - pose proof (transfer_limber_spec 3 2 1 [3; 2; 1] [1; 1; 1]) as H.
    cbv zeta in H. destruct H as [_ H].
    assert (Hin : rd [3; 2; 1] (3 - 1) <= (2 + 0.5) / 1 <= rd [3; 2; 1] 0)
      by (unfold rd; simpl; lra).
    destruct (H Hin ltac:(lia)) as (_ & _ & _ & Hv). exact Hv.
Defined.

(** ** [transfer_get_l_list] (C4) *)

Lemma MAXi_ge_l (a b : Z) : (a <= MAXi a b)%Z.
Proof. unfold MAXi. destruct (b <? a)%Z eqn:E; [lia | apply Z.ltb_ge in E; lia]. Qed.

Lemma MAXi_ge_r (a b : Z) : (b <= MAXi a b)%Z.
Proof. unfold MAXi. destruct (b <? a)%Z eqn:E; [apply Z.ltb_lt in E; lia | lia]. Qed.

Lemma MAXi_cases (a b : Z) : MAXi a b = a \/ MAXi a b = b.
Proof. unfold MAXi. destruct (b <? a)%Z; auto. Qed.

Lemma last_snoc (l : list Z) (x : Z) : last (l ++ [x]) 0%Z = x.
Proof. apply last_last. Qed.

Lemma l_last_snoc (l : list Z) (x : Z) : l_last (l ++ [x]) = x.
Proof. apply last_last. Qed.

Lemma last_is_nth (l : list Z) : last l 0%Z = nth (length l - 1) l 0%Z.
Proof.
  induction l as [|x [|y r] IH]; try reflexivity.
  change (last (x :: y :: r) 0%Z) with (last (y :: r) 0%Z). rewrite IH.
  simpl. rewrite Nat.sub_0_r. reflexivity.
Qed.

Lemma strictly_increasing_snoc (l : list Z) (x : Z) :
  strictly_increasing l -> (l = [] \/ last l 0 < x)%Z -> strictly_increasing (l ++ [x]).
Proof.
  intros Hinc Hx i Hi. rewrite length_app in Hi. simpl in Hi.
  destruct (Nat.eq_dec (S i) (length l)) as [E|E].
  - rewrite (app_nth1 l [x] 0%Z) by lia.
    rewrite (app_nth2 l [x] 0%Z) by lia.
    replace (S i - length l)%nat with 0%nat by lia. simpl.
    destruct Hx as [-> | Hx]; [simpl in E; lia|].
    rewrite last_is_nth in Hx. replace (length l - 1)%nat with i in Hx by lia. exact Hx.
  - rewrite !(app_nth1 l [x] 0%Z) by lia. apply Hinc. lia.
Qed.

(** In a strictly increasing list every value is below the last one. *)
Lemma strictly_increasing_lt (l : list Z) (i j : nat) :
  strictly_increasing l -> (i < j < length l)%nat -> (nth i l 0 < nth j l 0)%Z.
Proof.
  intros Hinc [Hij Hj]. induction j as [|j IH]; [lia|].
  destruct (Nat.eq_dec i j) as [->|E].
  - apply Hinc; lia.
  - apply Z.lt_trans with (nth j l 0%Z); [apply IH; lia | apply Hinc; lia].
Qed.

Section L_list_properties.

Variables (ppr : precision) (ppt : perturbs) (ptr : transfers).

Lemma l_log_increment_pos (current_l : Z) : (1 <= l_log_increment ppr ptr current_l)%Z.
Proof. apply MAXi_ge_r. Qed.

Lemma l_grid_inv_snoc (l_max : Z) (l : list Z) (x : Z) :
  l_grid_inv l_max l -> (l_last l < x <= l_max)%Z -> l_grid_inv l_max (l ++ [x]).
Proof.
  intros (H0 & Hne & Hinc & Hle) Hx. unfold l_grid_inv, l_last in *.
  rewrite last_snoc. repeat split; try lia.
  - destruct l; [contradiction | exact H0].
  - intros E. apply app_eq_nil in E. destruct E; discriminate.
  - apply strictly_increasing_snoc; [assumption | right; lia].
Qed.

(** The logarithmic loop of the second pass ends, on fuel [l_max - l[index_l]]. *)
Lemma l_fill_log_ok (l_max : Z) (fuel : nat) (l : list Z) (increment : Z) :
  l_grid_inv l_max l -> (1 <= increment)%Z ->
  (Z.to_nat (l_max - l_last l) <= fuel)%nat ->
  exists l', l_fill_log ppr ptr fuel l_max l increment = Ok l' /\ l_grid_inv l_max l'.
Proof.
  revert l increment. induction fuel as [|fuel IH]; intros l increment Hinv Hinc Hfuel.
  - simpl. destruct ((l_last l + increment <? l_max)%Z && _) eqn:E.
    + apply andb_prop in E. destruct E as [E _]. apply Z.ltb_lt in E. lia.
    + exists l. split; [reflexivity | assumption].
  - simpl. destruct ((l_last l + increment <? l_max)%Z && _) eqn:E.
    + apply andb_prop in E. destruct E as [E _]. apply Z.ltb_lt in E.
      apply IH.
      * apply l_grid_inv_snoc; [assumption | lia].
      * apply l_log_increment_pos.
      * unfold l_last at 1. rewrite last_snoc. lia.
    + exists l. split; [reflexivity | assumption].
Qed.

(** The linear loop of the second pass ends when the linear step is at least
    one. *)
Lemma l_fill_lin_ok (l_max : Z) (fuel : nat) (l : list Z) (increment : Z) :
  l_grid_inv l_max l -> (1 <= increment)%Z ->
  (Z.to_nat (l_max - l_last l) <= fuel)%nat ->
  exists l', l_fill_lin fuel l_max increment l = Ok l' /\ l_grid_inv l_max l'.
Proof.
  revert l. induction fuel as [|fuel IH]; intros l Hinv Hinc Hfuel.
  - simpl. destruct (l_last l + increment <=? l_max)%Z eqn:E.
    + apply Z.leb_le in E. lia.
    + exists l. split; [reflexivity | assumption].
  - simpl. destruct (l_last l + increment <=? l_max)%Z eqn:E.
    + apply Z.leb_le in E. apply IH.
      * apply l_grid_inv_snoc; [assumption | lia].
      * assumption.
      * unfold l_last at 1. rewrite last_snoc. lia.
    + exists l. split; [reflexivity | assumption].
Qed.

(** The grid of multipoles: it starts at 2, is strictly increasing and ends
    at [l_max]. *)
Lemma l_fill_ok (l_max : Z) (fuel : nat) :
  (2 <= l_max)%Z -> (1 <= l_lin_increment ppr ptr)%Z -> (Z.to_nat l_max <= fuel)%nat ->
  exists l, l_fill ppr ptr fuel l_max = Ok l
            /\ nth 0 l 0%Z = 2%Z /\ strictly_increasing l /\ l_last l = l_max.
Proof.
  intros Hmax Hlin Hfuel. unfold l_fill.
  assert (Hinit : l_grid_inv l_max [2%Z]).
  { unfold l_grid_inv, l_last. simpl. repeat split; try lia; try discriminate.
    intros i Hi. simpl in Hi. lia. }
  destruct (l_fill_log_ok l_max fuel [2%Z] (l_log_increment ppr ptr 2) Hinit
              (l_log_increment_pos 2)) as (l1 & E1 & Hinv1).
  { unfold l_last; simpl. lia. }
  rewrite E1. simpl.
  destruct (l_fill_lin_ok l_max fuel l1 (l_lin_increment ppr ptr) Hinv1 Hlin)
    as (l2 & E2 & Hinv2).
  { destruct Hinv1 as (H0 & Hne & Hinc & Hle).
    assert (2 <= l_last l1)%Z; [|lia].
    unfold l_last. rewrite last_is_nth.
    destruct (Nat.eq_dec (length l1 - 1) 0) as [E|E].
    - rewrite E, H0. lia.
    - assert (nth 0 l1 0 < nth (length l1 - 1) l1 0)%Z; [|lia].
      apply strictly_increasing_lt; [assumption | lia]. }
  rewrite E2. simpl.
  destruct Hinv2 as (H0 & Hne & Hinc & Hle).
  destruct (l_last l2 =? l_max)%Z eqn:E.
  - apply Z.eqb_eq in E. exists l2. repeat split; assumption.
  - apply Z.eqb_neq in E. exists (l2 ++ [l_max]). split; [reflexivity|].
    split; [|split].
    + destruct l2; [contradiction | exact H0].
    + apply strictly_increasing_snoc; [assumption | right; unfold l_last in *; lia].
    + unfold l_last. apply last_snoc.
Qed.

(** The first pass counts what the second pass writes. *)
Lemma l_count_log_fill (l_max : Z) (fuel : nat) (l : list Z) (increment : Z) :
  l <> [] ->
  match l_fill_log ppr ptr fuel l_max l increment with
  | Ok l' =>
      l_count_log ppr ptr fuel l_max (Z.of_nat (length l) - 1) (l_last l) increment
      = Ok (Z.of_nat (length l') - 1, l_last l')%Z /\ l' <> []
  | Error _ => False
  | OutOfFuel =>
      l_count_log ppr ptr fuel l_max (Z.of_nat (length l) - 1) (l_last l) increment
      = OutOfFuel
  end.
Proof.
  revert l increment. induction fuel as [|fuel IH]; intros l increment Hne; simpl;
    destruct ((l_last l + increment <? l_max)%Z && _) eqn:E; auto.
  assert (Hne' : l ++ [(l_last l + increment)%Z] <> []).
  { intros H. apply app_eq_nil in H. destruct H; discriminate. }
  specialize (IH (l ++ [(l_last l + increment)%Z])
                (l_log_increment ppr ptr (l_last (l ++ [(l_last l + increment)%Z]))) Hne').
  rewrite length_app in IH. simpl in IH.
  replace (Z.of_nat (length l + 1) - 1)%Z with (Z.of_nat (length l) - 1 + 1)%Z in IH by lia.
  rewrite !l_last_snoc in IH. rewrite l_last_snoc. exact IH.
Qed.

Lemma l_count_lin_fill (l_max : Z) (fuel : nat) (l : list Z) (increment : Z) :
  l <> [] ->
  match l_fill_lin fuel l_max increment l with
  | Ok l' =>
      l_count_lin fuel l_max increment (Z.of_nat (length l) - 1) (l_last l)
      = Ok (Z.of_nat (length l') - 1, l_last l')%Z /\ l' <> []
  | Error _ => False
  | OutOfFuel =>
      l_count_lin fuel l_max increment (Z.of_nat (length l) - 1) (l_last l) = OutOfFuel
  end.
Proof.
  revert l. induction fuel as [|fuel IH]; intros l Hne; simpl;
    destruct (l_last l + increment <=? l_max)%Z eqn:E; auto.
  assert (Hne' : l ++ [(l_last l + increment)%Z] <> []).
  { intros H. apply app_eq_nil in H. destruct H; discriminate. }
  specialize (IH (l ++ [(l_last l + increment)%Z]) Hne').
  rewrite length_app in IH. simpl in IH.
  replace (Z.of_nat (length l + 1) - 1)%Z with (Z.of_nat (length l) - 1 + 1)%Z in IH by lia.
  rewrite !l_last_snoc in IH. exact IH.
Qed.

(** [ptr->l_size_max] is the number of values written in [ptr->l]. *)
Lemma l_count_fill (l_max : Z) (fuel : nat) (l : list Z) :
  l_fill ppr ptr fuel l_max = Ok l ->
  l_count ppr ptr fuel l_max = Ok (Z.of_nat (length l)) /\ l <> [].
Proof.
  unfold l_fill, l_count. intros H.
  pose proof (l_count_log_fill l_max fuel [2%Z] (l_log_increment ppr ptr 2)
                ltac:(discriminate)) as H1.
  destruct (l_fill_log ppr ptr fuel l_max [2%Z] (l_log_increment ppr ptr 2))
    as [l1| |]; try discriminate.
  destruct H1 as [H1 Hne1]. simpl in H1. unfold l_last in H1 at 1. simpl in H1.
  rewrite H1. simpl in *.
  pose proof (l_count_lin_fill l_max fuel l1 (l_lin_increment ppr ptr) Hne1) as H2.
  destruct (l_fill_lin fuel l_max (l_lin_increment ppr ptr) l1) as [l2| |]; try discriminate.
  destruct H2 as [H2 Hne2]. rewrite H2. simpl in *.
  injection H as <-. destruct (l_last l2 =? l_max)%Z.
  - split; [f_equal; lia | assumption].
  - rewrite length_app. simpl length. split; [f_equal; lia|].
    intros E. apply app_eq_nil in E. destruct E; discriminate.
Qed.

(** The search of the first value that reaches [l_max]. *)
Lemma l_index_of_l_max_spec (l : list Z) (l_max index_l : Z) :
  let i := l_index_of_l_max l l_max index_l in
  (index_l <= i <= index_l + Z.of_nat (length l))%Z
  /\ (forall j, (j < Z.to_nat (i - index_l))%nat -> (nth j l 0 < l_max)%Z)
  /\ ((i < index_l + Z.of_nat (length l))%Z -> (l_max <= nth (Z.to_nat (i - index_l)) l 0)%Z).
Proof.
  revert index_l. induction l as [|x r IH]; intros index_l; simpl.
  - repeat split; lia.
  - destruct (x <? l_max)%Z eqn:E.
    + destruct (IH (index_l + 1)%Z) as (H1 & H2 & H3).
      set (i := l_index_of_l_max r l_max (index_l + 1)) in *.
      repeat split; try lia.
      * intros j Hj. destruct j as [|j]; [apply Z.ltb_lt; exact E|].
        apply H2. lia.
      * intros Hi. replace (Z.to_nat (i - index_l)) with (S (Z.to_nat (i - (index_l + 1))))
          by lia.
        apply H3. lia.
    + apply Z.ltb_ge in E. repeat split; try lia.
      intros _. replace (Z.to_nat (index_l - index_l)) with 0%nat by lia. exact E.
Qed.

Lemma l_index_of_l_max_found (l : list Z) (l_max : Z) :
  l <> [] -> (l_max <= l_last l)%Z ->
  (0 <= l_index_of_l_max l l_max 0 < Z.of_nat (length l))%Z.
Proof.
  intros Hne Hlast.
  destruct (l_index_of_l_max_spec l l_max 0) as (H1 & H2 & _).
  set (i := l_index_of_l_max l l_max 0) in *.
  split; [lia|].
  destruct (Z.eq_dec i (Z.of_nat (length l))) as [E|E]; [|lia].
  exfalso. unfold l_last in Hlast. rewrite last_is_nth in Hlast.
  assert (length l <> 0%nat) by (destruct l; [contradiction | discriminate]).
  specialize (H2 (length l - 1)%nat ltac:(lia)). lia.
Qed.

Lemma l_size_of_type_bound (l : list Z) (l_max : Z) :
  l <> [] -> (l_max <= l_last l)%Z ->
  (1 <= l_size_of_type l (Z.of_nat (length l)) l_max <= Z.of_nat (length l))%Z.
Proof.
  intros Hne Hlast. pose proof (l_index_of_l_max_found l l_max Hne Hlast) as H.
  unfold l_size_of_type. cbv zeta.
  repeat match goal with
         | |- context [(?a <? ?b)%Z] => destruct (Z.ltb_spec a b)
         end; lia.
Qed.

Lemma rdi_last (l : list Z) : rdi l (Z.of_nat (length l) - 1) = l_last l.
Proof.
  unfold rdi, l_last. rewrite last_is_nth. f_equal. lia.
Qed.

(** The sizes written by the loop over the types are between 1 and the size
    of the grid. *)
Lemma l_size_tt_loop_bound (n : nat) (l : list Z) :
  l <> [] ->
  forall index_md index_tt l_max sizes l_size_md l_max' sizes' l_size_md',
    Forall (fun s => 1 <= s <= Z.of_nat (length l))%Z sizes ->
    (0 <= l_size_md <= Z.of_nat (length l))%Z ->
    l_size_tt_loop ppt ptr n l (Z.of_nat (length l)) index_md index_tt l_max sizes l_size_md
    = Ok (l_max', sizes', l_size_md') ->
    Forall (fun s => 1 <= s <= Z.of_nat (length l))%Z sizes'
    /\ length sizes' = (length sizes + n)%nat
    /\ (0 <= l_size_md' <= Z.of_nat (length l))%Z.
Proof.
  intros Hne. induction n as [|n IH];
    intros index_md index_tt l_max sizes l_size_md l_max' sizes' l_size_md' Hs Hm; simpl.
  - intros [= <- <- <-]. repeat split; auto; lia.
  - rewrite rdi_last. unfold class_test.
    destruct (l_last l <? l_max_of_type ppt ptr index_md index_tt l_max)%Z eqn:E;
      simpl; [discriminate|].
    apply Z.ltb_ge in E. intros H. apply IH in H.
    + destruct H as (H1 & H2 & H3). repeat split; try assumption; try lia.
      rewrite H2, length_app. simpl. lia.
    + apply Forall_app. split; [assumption|]. constructor; [|constructor].
      apply l_size_of_type_bound; assumption.
    + pose proof (l_size_of_type_bound l _ Hne E).
      destruct (MAXi_cases l_size_md
                  (l_size_of_type l (Z.of_nat (length l))
                     (l_max_of_type ppt ptr index_md index_tt l_max))) as [-> | ->]; lia.
Qed.

Lemma l_size_md_loop_bound (n : nat) (l : list Z) :
  l <> [] ->
  forall index_md l_max l_size_tt l_size l_size_tt' l_size',
    Forall (Forall (fun s => 1 <= s <= Z.of_nat (length l))%Z) l_size_tt ->
    Forall (fun s => 0 <= s <= Z.of_nat (length l))%Z l_size ->
    l_size_md_loop ppt ptr n l (Z.of_nat (length l)) index_md l_max l_size_tt l_size
    = Ok (l_size_tt', l_size') ->
    Forall (Forall (fun s => 1 <= s <= Z.of_nat (length l))%Z) l_size_tt'
    /\ Forall (fun s => 0 <= s <= Z.of_nat (length l))%Z l_size'.
Proof.
  intros Hne. induction n as [|n IH];
    intros index_md l_max l_size_tt l_size l_size_tt' l_size' Htt Hsz; simpl.
  - intros [= <- <-]. split; assumption.
  - destruct (l_size_tt_loop ppt ptr (Z.to_nat (rdi (ptr_tt_size ptr) index_md)) l
                (Z.of_nat (length l)) index_md 0 l_max [] 0)
      as [[[lm sizes] sz]| |] eqn:E; simpl; try discriminate.
    apply (l_size_tt_loop_bound _ l Hne) in E; [|constructor|lia].
    destruct E as (E1 & _ & E3). intros H. apply IH in H; [assumption| |].
    + apply Forall_app. split; [assumption | constructor; [assumption | constructor]].
    + apply Forall_app. split; [assumption | constructor; [assumption | constructor]].
Qed.

(** The chain of assignments gives the required [l_max] when a test applies
    and keeps the previous value otherwise. *)
Lemma l_max_of_type_required (index_md index_tt l_max : Z) :
  l_max_of_type ppt ptr index_md index_tt l_max
  = match l_max_required ppt ptr index_md index_tt with
    | Some v => v
    | None => l_max
    end.
Proof.
  unfold l_max_of_type, l_max_required. destruct_ifs; reflexivity.
Qed.

(** [l_max] is the largest of the maxima of the requested classes. *)
Lemma l_list_l_max_upper :
  ppt_has_cls ppt = true ->
  (ppt_has_scalars ppt = true ->
   ppt_has_cl_cmb_temperature ppt || ppt_has_cl_cmb_polarization ppt
   || ppt_has_cl_cmb_lensing_potential ppt = true ->
   ppt_l_scalar_max ppt <= l_list_l_max ppt)%Z
  /\ (ppt_has_scalars ppt = true ->
      ppt_has_cl_lensing_potential ppt || ppt_has_cl_density ppt = true ->
      ppt_l_lss_max ppt <= l_list_l_max ppt)%Z
  /\ (ppt_has_tensors ppt = true -> ppt_l_tensor_max ppt <= l_list_l_max ppt)%Z
  /\ (0 <= l_list_l_max ppt)%Z.
Proof.
  intros Hcls. unfold l_list_l_max. rewrite Hcls.
  repeat split; intros;
    repeat match goal with H : _ = true |- _ => rewrite H; clear H end;
    destruct_ifs; unfold MAXi; destruct_max; lia.
Qed.

Lemma l_list_l_max_attained :
  l_list_l_max ppt = 0%Z \/ l_list_l_max ppt = ppt_l_scalar_max ppt
  \/ l_list_l_max ppt = ppt_l_lss_max ppt \/ l_list_l_max ppt = ppt_l_tensor_max ppt.
Proof.
  unfold l_list_l_max. destruct_ifs; auto;
    repeat match goal with
           | |- context [MAXi ?a ?b] =>
               destruct (MAXi_cases a b) as [-> | ->]
           end; auto.
Qed.

(** No (mode, type) requires more than [l_max]. *)
Lemma l_max_required_le (index_md index_tt v : Z) :
  ppt_has_cls ppt = true ->
  l_max_required ppt ptr index_md index_tt = Some v -> (v <= l_list_l_max ppt)%Z.
Proof.
  intros Hcls. destruct (l_list_l_max_upper Hcls) as (Hs & Hl & Ht & _).
  unfold l_max_required, _tensors_, _scalars_, tt_is_lensing, tt_is_density, tt_is_lcmb.
  destruct (ppt_has_tensors ppt), (ppt_has_scalars ppt),
    (ppt_has_cl_cmb_temperature ppt), (ppt_has_cl_cmb_polarization ppt),
    (ppt_has_cl_cmb_lensing_potential ppt), (ppt_has_cl_density ppt),
    (ppt_has_cl_lensing_potential ppt); simpl in *;
    destruct_ifs; intros [= <-];
    try (apply Hs; reflexivity); try (apply Hl; reflexivity); try (apply Ht; reflexivity).
Qed.

(** With the grid ending at [l_max], the loops over modes and types pass
    every test. *)
Lemma l_size_tt_loop_ok (n : nat) (l : list Z) :
  ppt_has_cls ppt = true -> l_last l = l_list_l_max ppt ->
  forall index_md index_tt l_max sizes l_size_md,
    (l_max <= l_list_l_max ppt)%Z ->
    exists l_max' sizes' l_size_md',
      l_size_tt_loop ppt ptr n l (Z.of_nat (length l)) index_md index_tt l_max sizes l_size_md
      = Ok (l_max', sizes', l_size_md')
      /\ (l_max' <= l_list_l_max ppt)%Z.
Proof.
  intros Hcls Hlast. induction n as [|n IH]; intros index_md index_tt l_max sizes l_size_md Hle;
    simpl.
  - eauto.
  - assert (Hle' : (l_max_of_type ppt ptr index_md index_tt l_max <= l_list_l_max ppt)%Z).
    { rewrite l_max_of_type_required.
      destruct (l_max_required ppt ptr index_md index_tt) eqn:E; [|assumption].
      apply (l_max_required_le index_md index_tt); assumption. }
    rewrite rdi_last, Hlast. unfold class_test.
    replace (l_list_l_max ppt <? l_max_of_type ppt ptr index_md index_tt l_max)%Z with false
      by (symmetry; apply Z.ltb_ge; assumption).
    simpl. apply IH. assumption.
Qed.

Lemma l_size_md_loop_ok (n : nat) (l : list Z) :
  ppt_has_cls ppt = true -> l_last l = l_list_l_max ppt ->
  forall index_md l_max l_size_tt l_size,
    (l_max <= l_list_l_max ppt)%Z ->
    exists r,
      l_size_md_loop ppt ptr n l (Z.of_nat (length l)) index_md l_max l_size_tt l_size = Ok r.
Proof.
  intros Hcls Hlast. induction n as [|n IH]; intros index_md l_max l_size_tt l_size Hle; simpl.
  - eauto.
  - destruct (l_size_tt_loop_ok (Z.to_nat (rdi (ptr_tt_size ptr) index_md)) l Hcls Hlast
                index_md 0%Z l_max [] 0%Z Hle) as (lm & sizes & sz & E & Hlm).
    rewrite E. simpl. apply IH. assumption.
Qed.

(** A type that requires more than the last value of the grid stops the
    loops with the error of the test. *)
Lemma l_size_tt_loop_result (n : nat) (l : list Z) (l_size_max : Z) :
  forall index_md index_tt l_max sizes l_size_md,
    is_ok (l_size_tt_loop ppt ptr n l l_size_max index_md index_tt l_max sizes l_size_md)
    = true
    \/ l_size_tt_loop ppt ptr n l l_size_max index_md index_tt l_max sizes l_size_md
       = Error l_max_error.
Proof.
  induction n as [|n IH]; intros; simpl; [left; reflexivity|].
  unfold class_test. destruct (_ <? _)%Z; simpl; [right; reflexivity | apply IH].
Qed.

Lemma l_size_tt_loop_error (n : nat) (l : list Z) (l_size_max : Z) :
  forall index_md index_tt l_max sizes l_size_md,
    (exists tt v, (index_tt <= tt < index_tt + Z.of_nat n)%Z
                  /\ l_max_required ppt ptr index_md tt = Some v
                  /\ (rdi l (l_size_max - 1) < v)%Z) ->
    l_size_tt_loop ppt ptr n l l_size_max index_md index_tt l_max sizes l_size_md
    = Error l_max_error.
Proof.
  induction n as [|n IH]; intros index_md index_tt l_max sizes l_size_md (tt & v & Htt & Hv & Hlt).
  - lia.
  - simpl. unfold class_test.
    destruct (rdi l (l_size_max - 1) <? l_max_of_type ppt ptr index_md index_tt l_max)%Z
      eqn:E; simpl; [reflexivity|].
    apply Z.ltb_ge in E. apply IH. exists tt, v. repeat split; try assumption; try lia.
    destruct (Z.eq_dec tt index_tt) as [->|Hne]; [|lia].
    rewrite l_max_of_type_required, Hv in E. lia.
Qed.

Lemma l_size_md_loop_error (n : nat) (l : list Z) (l_size_max : Z) :
  forall index_md l_max l_size_tt l_size,
    (exists md tt v, (index_md <= md < index_md + Z.of_nat n)%Z
                     /\ (0 <= tt < rdi (ptr_tt_size ptr) md)%Z
                     /\ l_max_required ppt ptr md tt = Some v
                     /\ (rdi l (l_size_max - 1) < v)%Z) ->
    l_size_md_loop ppt ptr n l l_size_max index_md l_max l_size_tt l_size
    = Error l_max_error.
Proof.
  induction n as [|n IH];
    intros index_md l_max l_size_tt l_size (md & tt & v & Hmd & Htt & Hv & Hlt).
  - lia.
  - simpl.
    destruct (l_size_tt_loop_result (Z.to_nat (rdi (ptr_tt_size ptr) index_md)) l l_size_max
                index_md 0%Z l_max [] 0%Z) as [Hok | Herr].
    + destruct (l_size_tt_loop ppt ptr _ l l_size_max index_md 0 l_max [] 0)
        as [[[lm sizes] sz]| |] eqn:E; try discriminate.
      simpl. apply IH. exists md, tt, v. repeat split; try assumption; try lia.
      destruct (Z.eq_dec md index_md) as [->|Hne]; [|lia].
      rewrite l_size_tt_loop_error in E; [discriminate|].
      exists tt, v. repeat split; try assumption; lia.
    + rewrite Herr. reflexivity.
Qed.

(** Every entry [l_size_tt[index_md][index_tt]] that the loops have written
    is between 1 and the size of the grid. *)
Lemma l_size_md_loop_entries (n : nat) (l : list Z) :
  l <> [] ->
  forall index_md l_max l_size_tt l_size l_size_tt' l_size',
    (0 <= index_md)%Z -> length l_size_tt = Z.to_nat index_md ->
    (forall md tt, (0 <= md < index_md)%Z -> (0 <= tt < rdi (ptr_tt_size ptr) md)%Z ->
                   (1 <= rdi (nth (Z.to_nat md) l_size_tt []) tt <= Z.of_nat (length l))%Z) ->
    l_size_md_loop ppt ptr n l (Z.of_nat (length l)) index_md l_max l_size_tt l_size
    = Ok (l_size_tt', l_size') ->
    forall md tt, (0 <= md < index_md + Z.of_nat n)%Z -> (0 <= tt < rdi (ptr_tt_size ptr) md)%Z ->
                  (1 <= rdi (nth (Z.to_nat md) l_size_tt' []) tt <= Z.of_nat (length l))%Z.
Proof.
  intros Hne. induction n as [|n IH];
    intros index_md l_max l_size_tt l_size l_size_tt' l_size' H0 Hlen Hold; simpl.
  - intros [= <- <-] md tt Hmd Htt. apply Hold; lia.
  - destruct (l_size_tt_loop ppt ptr (Z.to_nat (rdi (ptr_tt_size ptr) index_md)) l
                (Z.of_nat (length l)) index_md 0 l_max [] 0)
      as [[[lm sizes] sz]| |] eqn:E; simpl; try discriminate.
    apply (l_size_tt_loop_bound _ l Hne) in E; [|constructor|lia].
    destruct E as (E1 & E2 & _). simpl in E2.
    intros H md tt Hmd Htt.
    apply (IH (index_md + 1)%Z lm (l_size_tt ++ [sizes]) (l_size ++ [sz]) l_size_tt' l_size');
      try assumption; try lia.
    + rewrite length_app. simpl. lia.
    + clear md tt Hmd Htt. intros md tt Hmd Htt.
      destruct (Z.eq_dec md index_md) as [->|Hneq].
      * rewrite app_nth2 by lia. rewrite Hlen, Nat.sub_diag. simpl.
        unfold rdi. rewrite Forall_forall in E1. apply E1. apply nth_In. lia.
      * rewrite app_nth1 by lia. apply Hold; lia.
Qed.

(** The last value of the grid is [l_max], whatever [l_max] is. *)
Lemma l_fill_last (l_max : Z) (fuel : nat) (l : list Z) :
  l_fill ppr ptr fuel l_max = Ok l -> l_last l = l_max.
Proof.
  unfold l_fill.
  destruct (l_fill_log ppr ptr fuel l_max [2%Z] _) as [l1| |]; simpl; try discriminate.
  destruct (l_fill_lin _ _ _ l1) as [l2| |]; simpl; try discriminate.
  destruct (l_last l2 =? l_max)%Z eqn:E; intros [= <-].
  - apply Z.eqb_eq. exact E.
  - unfold l_last. apply last_last.
Qed.

(** When spectra are requested and the grid is filled, no test on the
    multipoles of a type fails. *)
Lemma transfer_get_l_list_has_cls (fuel : nat) (l : list Z) :
  ppt_has_cls ppt = true ->
  l_fill ppr ptr fuel (l_list_l_max ppt) = Ok l ->
  exists ptr',
    transfer_get_l_list ppr ppt ptr fuel = Ok ptr'
    /\ ptr_l ptr' = l /\ ptr_l_size_max ptr' = Z.of_nat (length l).
Proof.
  intros Hcls El.
  destruct (l_count_fill _ fuel l El) as [Ec Hne].
  destruct (l_size_md_loop_ok (Z.to_nat (ppt_md_size ppt)) l Hcls (l_fill_last _ _ _ El)
              0%Z (l_list_l_max ppt) [] [] ltac:(lia)) as ([l_size_tt l_size] & Es).
  unfold transfer_get_l_list. rewrite Ec, El. simpl. rewrite Es. simpl.
  eexists. split; [reflexivity|]. destruct ptr; simpl. split; reflexivity.
Qed.

(** C4, amended: when [l_max], the largest multipole of the requested
    classes, is at least 2 and the linear step is at least 1,
    [transfer_get_l_list] returns a grid of multipoles that starts at 2, is
    strictly increasing and ends exactly at [l_max] ([l_max] fuel suffices);
    whenever it returns, every size [l_size_tt] is at most the size of the
    grid; it fails with the error of its test when some (mode, type) requires
    an [l_max] above the last value of the grid; and when spectra are
    requested that cannot happen: the grid, once filled, ends at [l_max], no
    (mode, type) requires more, and the function returns. *)
Theorem transfer_get_l_list_spec (fuel : nat) :
  let l_max := l_list_l_max ppt in
  ((2 <= l_max)%Z -> (1 <= l_lin_increment ppr ptr)%Z -> (Z.to_nat l_max <= fuel)%nat ->
   exists ptr',
     transfer_get_l_list ppr ppt ptr fuel = Ok ptr'
     /\ ptr_l_size_max ptr' = Z.of_nat (length (ptr_l ptr'))
     /\ nth 0 (ptr_l ptr') 0%Z = 2%Z
     /\ strictly_increasing (ptr_l ptr')
     /\ l_last (ptr_l ptr') = l_max)
  /\ (ppt_has_cls ppt = true ->
      (ppt_has_scalars ppt = true ->
       ppt_has_cl_cmb_temperature ppt || ppt_has_cl_cmb_polarization ppt
       || ppt_has_cl_cmb_lensing_potential ppt = true ->
       ppt_l_scalar_max ppt <= l_max)%Z
      /\ (ppt_has_scalars ppt = true ->
          ppt_has_cl_lensing_potential ppt || ppt_has_cl_density ppt = true ->
          ppt_l_lss_max ppt <= l_max)%Z
      /\ (ppt_has_tensors ppt = true -> ppt_l_tensor_max ppt <= l_max)%Z
      /\ (l_max = 0%Z \/ l_max = ppt_l_scalar_max ppt
          \/ l_max = ppt_l_lss_max ppt \/ l_max = ppt_l_tensor_max ppt))
  /\ (forall ptr',
        transfer_get_l_list ppr ppt ptr fuel = Ok ptr' ->
        forall index_md index_tt,
          (0 <= index_md < ppt_md_size ppt)%Z ->
          (0 <= index_tt < rdi (ptr_tt_size ptr) index_md)%Z ->
          (1 <= rdi (nth (Z.to_nat index_md) (ptr_l_size_tt ptr') []) index_tt
           <= ptr_l_size_max ptr')%Z)
  /\ (forall l_size_max l index_md index_tt v,
        l_count ppr ptr fuel l_max = Ok l_size_max ->
        l_fill ppr ptr fuel l_max = Ok l ->
        (0 <= index_md < ppt_md_size ppt)%Z ->
        (0 <= index_tt < rdi (ptr_tt_size ptr) index_md)%Z ->
        l_max_required ppt ptr index_md index_tt = Some v ->
        (rdi l (l_size_max - 1) < v)%Z ->
        transfer_get_l_list ppr ppt ptr fuel = Error l_max_error)
  /\ (ppt_has_cls ppt = true ->
      forall l,
        l_fill ppr ptr fuel l_max = Ok l ->
        l_last l = l_max
        /\ (forall index_md index_tt v,
               l_max_required ppt ptr index_md index_tt = Some v -> (v <= l_last l)%Z)
        /\ exists ptr', transfer_get_l_list ppr ppt ptr fuel = Ok ptr' /\ ptr_l ptr' = l).
Proof.
  intros l_max. split; [|split; [|split; [|split]]].
  - intros Hmax Hlin Hfuel.
    destruct (l_fill_ok l_max fuel Hmax Hlin Hfuel) as (l & El & H0 & Hinc & Hlast).
    destruct (l_count_fill l_max fuel l El) as [Ec Hne].
    assert (Hcls : ppt_has_cls ppt = true).
    { destruct (ppt_has_cls ppt) eqn:E; [reflexivity|].
      subst l_max. unfold l_list_l_max in Hmax. rewrite E in Hmax. lia. }
    destruct (l_size_md_loop_ok (Z.to_nat (ppt_md_size ppt)) l Hcls Hlast 0%Z l_max [] []
                ltac:(lia)) as ([l_size_tt l_size] & Es).
    unfold transfer_get_l_list. fold l_max. rewrite Ec, El. simpl. rewrite Es. simpl.
    eexists. split; [reflexivity|]. destruct ptr; simpl. repeat split; assumption.
  - intros Hcls. destruct (l_list_l_max_upper Hcls) as (H1 & H2 & H3 & _).
    repeat split; try assumption. apply l_list_l_max_attained.
  - intros ptr'. unfold transfer_get_l_list. fold l_max.
    destruct (l_fill ppr ptr fuel l_max) as [l| |] eqn:El.
    + destruct (l_count_fill l_max fuel l El) as [Ec Hne]. rewrite Ec. simpl.
      destruct (l_size_md_loop ppt ptr (Z.to_nat (ppt_md_size ppt)) l (Z.of_nat (length l))
                  0 l_max [] []) as [[l_size_tt l_size]| |] eqn:Es; simpl; try discriminate.
      intros [= <-] index_md index_tt Hmd Htt.
      replace (ptr_l_size_max _) with (Z.of_nat (length l)) by (destruct ptr; reflexivity).
      replace (ptr_l_size_tt _) with l_size_tt by (destruct ptr; reflexivity).
      apply (l_size_md_loop_entries (Z.to_nat (ppt_md_size ppt)) l Hne 0%Z l_max [] []
               l_size_tt l_size);
        try assumption; try reflexivity; try lia.
    + destruct (l_count ppr ptr fuel l_max); simpl; discriminate.
    + destruct (l_count ppr ptr fuel l_max); simpl; discriminate.
  - intros l_size_max l index_md index_tt v Ec El Hmd Htt Hv Hlt.
    unfold transfer_get_l_list. fold l_max. rewrite Ec, El. simpl.
    rewrite l_size_md_loop_error; [reflexivity|].
    exists index_md, index_tt, v. repeat split; try assumption; lia.
  - intros Hcls l El. pose proof (l_fill_last _ _ _ El) as Hlast.
    split; [exact Hlast|]. split.
    + intros index_md index_tt v Hv. rewrite Hlast.
      apply (l_max_required_le index_md index_tt v Hcls Hv).
    + destruct (transfer_get_l_list_has_cls fuel l Hcls El) as (ptr' & Hrun & Hl & _).
      exists ptr'. split; assumption.
Qed.

End L_list_properties.

(** With a linear step of zero the linear loop never ends: the count of the
    multipoles runs out of any fuel. *)
Lemma l_count_lin_zero_step (fuel : nat) (l_max index_l current_l : Z) :
  (current_l <= l_max)%Z -> l_count_lin fuel l_max 0 index_l current_l = OutOfFuel.
Proof.
  revert index_l. induction fuel as [|fuel IH]; intros index_l Hle; simpl;
    rewrite Z.add_0_r; replace (current_l <=? l_max)%Z with true
      by (symmetry; apply Z.leb_le; exact Hle); [reflexivity|].
  apply IH. exact Hle.
Qed.

Lemma transfer_get_l_list_zero_step
    (ppr : precision) (ppt : perturbs) (ptr : transfers) (fuel : nat) :
  l_lin_increment ppr ptr = 0%Z ->
  l_below_linstep ppr ptr (l_log_increment ppr ptr 2) = false ->
  (2 <= l_list_l_max ppt)%Z ->
  transfer_get_l_list ppr ppt ptr fuel = OutOfFuel.
Proof.
  intros Hlin Hlog Hmax. unfold transfer_get_l_list, l_count.
  assert (E : l_count_log ppr ptr fuel (l_list_l_max ppt) 0 2 (l_log_increment ppr ptr 2)
              = Ok (0%Z, 2%Z)).
  { destruct fuel; simpl; rewrite Hlog, andb_false_r; reflexivity. }
  rewrite E. cbn [bind]. rewrite Hlin, l_count_lin_zero_step by exact Hmax. reflexivity.
Qed.

(** With the default steps and [l_max = 1] the linear loop does not run and
    the last value is set to [l_max]. *)
Lemma l_fill_l_max_one :
  l_fill ppr_default ptr_l_max_one 0 (l_list_l_max ppt_l_max_one) = Ok [2; 1]%Z.
Proof.
  assert (Hlin : l_lin_increment ppr_default ptr_l_max_one = 40%Z).
  { unfold l_lin_increment. simpl. replace (40 * 1) with (IZR 40) by lra. apply trunc_IZR. }
  assert (Hlog : (2 + l_log_increment ppr_default ptr_l_max_one 2 <? 1)%Z = false).
  { apply Z.ltb_ge. pose proof (l_log_increment_pos ppr_default ptr_l_max_one 2). lia. }
  change (l_list_l_max ppt_l_max_one) with 1%Z.
  unfold l_fill, l_fill_log. change (l_last [2%Z]) with 2%Z. rewrite Hlog.
  cbn [andb bind]. unfold l_fill_lin. rewrite Hlin. reflexivity.
Qed.

(** C4, as stated, fails: with spectra requested up to [l_max = 1], the
    function returns the grid [2; 1], which starts at 2, ends at [l_max] and
    is not increasing. *)
Lemma transfer_get_l_list_l_max_one :
  l_list_l_max ppt_l_max_one = 1%Z
  /\ exists ptr',
       transfer_get_l_list ppr_default ppt_l_max_one ptr_l_max_one 0 = Ok ptr'
       /\ ptr_l ptr' = [2; 1]%Z
       /\ ~ strictly_increasing (ptr_l ptr').
Proof.
  split; [reflexivity|].
  destruct (transfer_get_l_list_has_cls ppr_default ppt_l_max_one ptr_l_max_one 0 _
              eq_refl l_fill_l_max_one) as (ptr' & Hrun & Hl & _).
  exists ptr'. split; [exact Hrun|]. split; [exact Hl|].
  rewrite Hl. intros Hinc. specialize (Hinc 0%nat ltac:(simpl; lia)). simpl in Hinc. lia.
Qed.

(** The amended statement on three inputs: galaxy-lensing spectra up to
    [l_max = 300] with the default steps, where the grid is built; spectra
    requested up to [l_max = 1], where the grid [2; 1] ends at [l_max], the
    temperature types require no more and the function returns; and a call
    with the flag [has_cls] off, where [l_max = 0], the grid is [2; 0] and the
    temperature type, which requires 2500, stops the function. *)
Lemma transfer_get_l_list_spec_witness :
  (exists ptr',
     transfer_get_l_list ppr_default ppt_lensing_dirac ptr_lensing_dirac 300 = Ok ptr'
     /\ ptr_l_size_max ptr' = Z.of_nat (length (ptr_l ptr'))
     /\ nth 0 (ptr_l ptr') 0%Z = 2%Z
     /\ strictly_increasing (ptr_l ptr')
     /\ l_last (ptr_l ptr') = 300%Z)
  /\ (l_last [2; 1]%Z = 1%Z
      /\ (forall index_md index_tt v,
             l_max_required ppt_l_max_one ptr_l_max_one index_md index_tt = Some v ->
             (v <= l_last [2; 1]%Z)%Z)
      /\ exists ptr',
           transfer_get_l_list ppr_default ppt_l_max_one ptr_l_max_one 0 = Ok ptr'
           /\ ptr_l ptr' = [2; 1]%Z)
  /\ transfer_get_l_list ppr_default ppt_no_cls ptr_no_cls 0 = Error l_max_error.
Proof.
  assert (Hlin : forall ptr, ptr_angular_rescaling ptr = 1 ->
                             l_lin_increment ppr_default ptr = 40%Z).
  { intros ptr H. unfold l_lin_increment. rewrite H. simpl.
    replace (40 * 1) with (IZR 40) by lra. apply trunc_IZR. }
  split; [|split].
  - destruct (transfer_get_l_list_spec ppr_default ppt_lensing_dirac ptr_lensing_dirac 300)
      as (H & _).
    apply H.
    + vm_compute. discriminate.
    + rewrite Hlin by reflexivity. lia.
    + vm_compute. lia.
  - destruct (transfer_get_l_list_spec ppr_default ppt_l_max_one ptr_l_max_one 0)
      as (_ & _ & _ & _ & H).
    exact (H eq_refl [2; 1]%Z l_fill_l_max_one).
  - destruct (transfer_get_l_list_spec ppr_default ppt_no_cls ptr_no_cls 0)
      as (_ & _ & _ & H & _).
    assert (Hlog : (2 + l_log_increment ppr_default ptr_no_cls 2 <? 0)%Z = false).
    { apply Z.ltb_ge. pose proof (l_log_increment_pos ppr_default ptr_no_cls 2). lia. }
    apply (H 2%Z [2%Z; 0%Z] 0%Z 0%Z 2500%Z).
    + change (l_list_l_max ppt_no_cls) with 0%Z.
      unfold l_count, l_count_log. rewrite Hlog. cbn [andb bind].
      unfold l_count_lin. rewrite (Hlin ptr_no_cls eq_refl). reflexivity.
    + change (l_list_l_max ppt_no_cls) with 0%Z.
      unfold l_fill, l_fill_log.
      change (l_last [2%Z]) with 2%Z. rewrite Hlog. cbn [andb bind].
      rewrite (Hlin ptr_no_cls eq_refl). reflexivity.
    + vm_compute. split; [discriminate | reflexivity].
    + vm_compute. split; [discriminate | reflexivity].
    + reflexivity.
    + vm_compute. reflexivity.
Defined.

(** ** Bounds of the wavenumber grid (C5) *)





(** ** The filling loop of the wavenumber grid (C6, C7) *)

Lemma rd_snoc (l : list R) (x : R) : rd (l ++ [x]) (Z.of_nat (length (l ++ [x])) - 1) = x.
Proof.
  unfold rd. rewrite length_app. simpl.
  replace (Z.to_nat (Z.of_nat (length l + 1) - 1)) with (length l) by lia.
  rewrite app_nth2 by lia. rewrite Nat.sub_diag. reflexivity.
Qed.

Lemma q_prev_snoc (l : list R) (x : R) (nu : Z) (last_step : R) (last_index : Z) :
  q_prev {| qs_q := l ++ [x]; qs_nu := nu; qs_last_step := last_step;
            qs_last_index := last_index |} = x.
Proof. unfold q_prev, q_index. cbn [qs_q]. apply rd_snoc. Qed.

Lemma q_prev_nth (st : q_state) :
  qs_q st <> [] -> q_prev st = nth (length (qs_q st) - 1) (qs_q st) 0.
Proof.
  intros H. unfold q_prev, q_index, rd. f_equal.
  destruct (qs_q st); [contradiction | cbn [length]; lia].
Qed.

Lemma no_zero_step_snoc (l : list R) (x : R) :
  no_zero_step l -> (l = [] \/ x <> nth (length l - 1) l 0) -> no_zero_step (l ++ [x]).
Proof.
  intros Hl Hx i Hi. rewrite length_app in Hi. simpl in Hi.
  destruct (Nat.eq_dec (S i) (length l)) as [E|E].
  - rewrite (app_nth2 l [x]) by lia. rewrite (app_nth1 l [x]) by lia.
    replace (S i - length l)%nat with 0%nat by lia. simpl.
    destruct Hx as [-> | Hx]; [simpl in E; lia|].
    replace (length l - 1)%nat with i in Hx by lia. exact Hx.
  - rewrite !(app_nth1 l [x]) by lia. apply Hl. lia.
Qed.

Lemma below_but_last_snoc (q_max : R) (l : list R) (x : R) :
  below_but_last q_max l -> (l = [] \/ nth (length l - 1) l 0 < q_max) ->
  below_but_last q_max (l ++ [x]).
Proof.
  intros Hl Hx i Hi. rewrite length_app in Hi. simpl in Hi.
  destruct (Nat.eq_dec (S i) (length l)) as [E|E].
  - rewrite (app_nth1 l [x]) by lia.
    destruct Hx as [-> | Hx]; [simpl in E; lia|].
    replace (length l - 1)%nat with i in Hx by lia. exact Hx.
  - rewrite (app_nth1 l [x]) by lia. apply Hl. lia.
Qed.

Section Q_list_properties.

Variables (ppr : precision) (ppt : perturbs) (ptr : transfers).
Variables (q_period K : R) (sgnK : Z).

(** One turn of the loop appends one value. *)
Lemma q_list_step_q (st : q_state) :
  qs_q (q_list_step ppr ptr q_period K sgnK st)
  = qs_q st ++ [q_prev (q_list_step ppr ptr q_period K sgnK st)].
Proof.
  unfold q_list_step. destruct_ifs; rewrite q_prev_snoc; reflexivity.
Qed.

Lemma q_list_step_index (st : q_state) :
  q_index (q_list_step ppr ptr q_period K sgnK st) = (q_index st + 1)%Z.
Proof.
  unfold q_index. rewrite q_list_step_q, length_app. cbn [length]. lia.
Qed.

Lemma q_list_step_nonempty (st : q_state) :
  qs_q (q_list_step ppr ptr q_period K sgnK st) <> [].
Proof.
  rewrite q_list_step_q. intros H. apply app_eq_nil in H. destruct H; discriminate.
Qed.

(** The test on the size of the array bounds the loop: fuel is never
    exhausted. *)
Lemma q_list_loop_fuel (fuel : nat) (q_max : R) (q_size_max : Z) (st : q_state) :
  (q_size_max - q_index st <= Z.of_nat fuel)%Z ->
  q_list_loop ppr ptr q_period K sgnK fuel q_max q_size_max st <> OutOfFuel.
Proof.
  revert st. induction fuel as [|fuel IH]; intros st Hfuel; simpl;
    destruct (Rltb (q_prev st) q_max); try discriminate; unfold class_test;
    destruct (q_size_max <=? q_index st)%Z eqn:E; simpl; try discriminate.
  - apply Z.leb_gt in E. lia.
  - apply IH. rewrite q_list_step_index. apply Z.leb_gt in E. lia.
Qed.

(** The loop fails only with the error of its test. *)
Lemma q_list_loop_error (fuel : nat) (q_max : R) (q_size_max : Z) (st : q_state) (msg : string) :
  q_list_loop ppr ptr q_period K sgnK fuel q_max q_size_max st = Error msg ->
  msg = q_list_error.
Proof.
  revert st. induction fuel as [|fuel IH]; intros st; simpl;
    destruct (Rltb (q_prev st) q_max); try discriminate; unfold class_test;
    destruct (q_size_max <=? q_index st)%Z; simpl; try discriminate;
    try (intros [= <-]; reflexivity).
  apply IH.
Qed.

(** On exit the last value is not below [q_max], and every value before it
    is: the loop stops as soon as a value reaches [q_max]. *)
Lemma q_list_loop_exit (fuel : nat) (q_max : R) (q_size_max : Z) (st st' : q_state) :
  qs_q st <> [] -> below_but_last q_max (qs_q st) ->
  q_list_loop ppr ptr q_period K sgnK fuel q_max q_size_max st = Ok st' ->
  qs_q st' <> [] /\ below_but_last q_max (qs_q st') /\ q_max <= q_prev st'
  /\ (length (qs_q st) <= length (qs_q st'))%nat
  /\ nth 0 (qs_q st') 0 = nth 0 (qs_q st) 0.
Proof.
  revert st. induction fuel as [|fuel IH]; intros st Hne Hb; simpl;
    destruct (Rltb (q_prev st) q_max) eqn:Et; unfold class_test;
    try (destruct (q_size_max <=? q_index st)%Z; simpl; discriminate);
    try (intros [= <-]; apply Rltb_false in Et; repeat split; auto; lia).
  destruct (q_size_max <=? q_index st)%Z; simpl; [discriminate|].
  intros H. apply IH in H.
  - destruct H as (H1 & H2 & H3 & H4 & H5). repeat split; try assumption.
    + rewrite q_list_step_q, length_app in H4. lia.
    + rewrite H5, q_list_step_q. destruct (qs_q st); [contradiction | reflexivity].
  - apply q_list_step_nonempty.
  - rewrite q_list_step_q. apply below_but_last_snoc; [assumption|].
    right. apply Rltb_true in Et. rewrite <- q_prev_nth; assumption.
Qed.

(** A state from which the loop makes no progress: if a property of the
    states is kept by a turn and forces the turn to leave the last value
    unchanged, then from a state with this property, below [q_max], the loop
    never ends with success. *)
Lemma q_list_loop_stuck (P : q_state -> Prop) :
  (forall st, P st -> q_prev (q_list_step ppr ptr q_period K sgnK st) = q_prev st
                      /\ P (q_list_step ppr ptr q_period K sgnK st)) ->
  forall fuel q_max q_size_max st st',
    P st -> q_prev st < q_max ->
    q_list_loop ppr ptr q_period K sgnK fuel q_max q_size_max st <> Ok st'.
Proof.
  intros HP fuel q_max q_size_max. induction fuel as [|fuel IH]; intros st st' Hst Hlt;
    apply Rltb_true in Hlt; simpl; rewrite Hlt; unfold class_test;
    destruct (q_size_max <=? q_index st)%Z; simpl; try discriminate.
  destruct (HP st Hst) as [Hq Hst1]. apply IH; [assumption|].
  rewrite Hq. apply Rltb_true. assumption.
Qed.

(** If every zero step leads to such a state, a run that succeeds has no
    zero step. *)
Lemma q_list_loop_no_zero_step (Inv P : q_state -> Prop) :
  (forall st, Inv st -> Inv (q_list_step ppr ptr q_period K sgnK st)) ->
  (forall st, Inv st -> q_prev (q_list_step ppr ptr q_period K sgnK st) = q_prev st -> P st) ->
  (forall st, P st -> q_prev (q_list_step ppr ptr q_period K sgnK st) = q_prev st
                      /\ P (q_list_step ppr ptr q_period K sgnK st)) ->
  forall fuel q_max q_size_max st st',
    Inv st -> qs_q st <> [] -> no_zero_step (qs_q st) ->
    q_list_loop ppr ptr q_period K sgnK fuel q_max q_size_max st = Ok st' ->
    no_zero_step (qs_q st') /\ Inv st'.
Proof.
  intros HInv Hzero HP fuel q_max q_size_max.
  induction fuel as [|fuel IH]; intros st st' Hst Hne Hnz Hrun.
  - simpl in Hrun. destruct (Rltb (q_prev st) q_max); unfold class_test in Hrun.
    + destruct (q_size_max <=? q_index st)%Z; simpl in Hrun; discriminate.
    + injection Hrun as <-. split; assumption.
  - pose proof Hrun as Hrun'. simpl in Hrun.
    destruct (Rltb (q_prev st) q_max) eqn:Et; unfold class_test in Hrun.
    + destruct (q_size_max <=? q_index st)%Z; simpl in Hrun; [discriminate|].
      apply Rltb_true in Et.
      destruct (Req_dec_T (q_prev (q_list_step ppr ptr q_period K sgnK st)) (q_prev st))
        as [Heq | Hneq].
      * exfalso. apply (q_list_loop_stuck P HP (S fuel) q_max q_size_max st st');
          [apply Hzero; assumption | assumption | assumption].
      * apply (IH (q_list_step ppr ptr q_period K sgnK st)); try assumption.
        -- apply HInv; assumption.
        -- apply q_list_step_nonempty.
        -- rewrite q_list_step_q. apply no_zero_step_snoc; [assumption|].
           right. rewrite <- q_prev_nth by assumption. assumption.
    + injection Hrun as <-. split; assumption.
Qed.

Lemma q_list_step_flat (st : q_state) :
  (sgnK <= 0)%Z ->
  q_prev (q_list_step ppr ptr q_period K sgnK st)
  = q_prev st + q_blend_step ppr q_period (q_logstep_spline ppr ptr) (q_prev st).
Proof.
  intros H. unfold q_list_step.
  replace (sgnK <=? 0)%Z with true by (symmetry; apply Z.leb_le; assumption).
  apply q_prev_snoc.
Qed.

Lemma flat_frozen_of_zero_step (st : q_state) :
  (sgnK <= 0)%Z ->
  q_prev (q_list_step ppr ptr q_period K sgnK st) = q_prev st -> flat_frozen ppr ptr q_period st.
Proof.
  intros H. rewrite q_list_step_flat by assumption. unfold flat_frozen. lra.
Qed.

Lemma flat_frozen_step (st : q_state) :
  (sgnK <= 0)%Z -> flat_frozen ppr ptr q_period st ->
  q_prev (q_list_step ppr ptr q_period K sgnK st) = q_prev st
  /\ flat_frozen ppr ptr q_period (q_list_step ppr ptr q_period K sgnK st).
Proof.
  intros H Hf. assert (Hq : q_prev (q_list_step ppr ptr q_period K sgnK st) = q_prev st).
  { rewrite q_list_step_flat by assumption. unfold flat_frozen in Hf. lra. }
  split; [assumption|]. unfold flat_frozen. rewrite Hq. exact Hf.
Qed.

(** Closed geometry. *)
Section Closed.

Hypothesis HsgnK : sgnK = 1%Z.
Hypothesis HK : 0 < K.

Lemma q_list_step_integer (st : q_state) :
  (qs_nu st < overtone_threshold ppr)%Z ->
  q_list_step ppr ptr q_period K sgnK st
  = {| qs_q := qs_q st ++ [IZR (next_overtone ppr ptr q_period K st) * sqrt K];
       qs_nu := next_overtone ppr ptr q_period K st;
       qs_last_step := IZR (next_overtone ppr ptr q_period K st) * sqrt K - q_prev st;
       qs_last_index := (q_index st + 1)%Z |}.
Proof.
  intros H. unfold q_list_step, next_overtone, overtone_threshold in *. rewrite HsgnK.
  replace (1 <=? 0)%Z with false by reflexivity.
  replace (qs_nu st <? trunc (ppr_hyper_flat_approximation_nu ppr))%Z with true
    by (symmetry; apply Z.ltb_lt; assumption).
  reflexivity.
Qed.

Lemma q_list_step_smooth (st : q_state) :
  (overtone_threshold ppr <= qs_nu st)%Z ->
  q_list_step ppr ptr q_period K sgnK st
  = {| qs_q := qs_q st ++ [next_smooth ppr ptr q_period st];
       qs_nu := qs_nu st;
       qs_last_step := qs_last_step st;
       qs_last_index := qs_last_index st |}.
Proof.
  intros H. unfold q_list_step, next_smooth, overtone_threshold in *. rewrite HsgnK.
  replace (1 <=? 0)%Z with false by reflexivity.
  replace (qs_nu st <? trunc (ppr_hyper_flat_approximation_nu ppr))%Z with false
    by (symmetry; apply Z.ltb_ge; assumption).
  destruct (_ <? _)%Z; reflexivity.
Qed.

Lemma next_overtone_advances (st : q_state) :
  (qs_nu st + 1 <= next_overtone ppr ptr q_period K st)%Z.
Proof.
  unfold next_overtone. cbv zeta.
  match goal with |- context [(?a <=? ?b)%Z] => destruct (Z.leb_spec a b) end; lia.
Qed.

(** Below the threshold, a turn of the loop stores an integer multiple of
    [sqrt(K)], whose overtone index is at least one more than the last, so
    that the value is above the last one. *)
Lemma q_list_step_overtone (st : q_state) :
  overtone_inv ppr K st ->
  (qs_nu st < overtone_threshold ppr)%Z ->
  let st' := q_list_step ppr ptr q_period K sgnK st in
  q_prev st' = IZR (qs_nu st') * sqrt K
  /\ (qs_nu st + 1 <= qs_nu st')%Z
  /\ q_prev st < q_prev st'
  /\ sqrt K <= qs_last_step st'.
Proof.
  intros (Hne & H3 & Hq) Hnu. cbv zeta. rewrite q_list_step_integer by assumption.
  rewrite q_prev_snoc. cbn [qs_nu qs_last_step].
  pose proof (next_overtone_advances st) as Hadv.
  pose proof (sqrt_lt_R0 K HK) as Hs.
  rewrite (Hq Hnu).
  assert (Hd : IZR (qs_nu st) + 1 <= IZR (next_overtone ppr ptr q_period K st)).
  { rewrite <- plus_IZR. apply IZR_le. assumption. }
  repeat split; try assumption; nra.
Qed.

Lemma overtone_inv_init : overtone_inv ppr K (q_list_init (IZR 3 * sqrt K)).
Proof.
  unfold overtone_inv, q_list_init. cbn [qs_q qs_nu].
  split; [discriminate | split; [lia | intros _; reflexivity]].
Qed.

Lemma overtone_inv_step (st : q_state) :
  overtone_inv ppr K st -> overtone_inv ppr K (q_list_step ppr ptr q_period K sgnK st).
Proof.
  intros Hinv. destruct (Z.lt_ge_cases (qs_nu st) (overtone_threshold ppr)) as [Hnu | Hnu].
  - destruct (q_list_step_overtone st Hinv Hnu) as (H1 & H2 & _).
    destruct Hinv as (Hne & H3 & Hq).
    repeat split; [apply q_list_step_nonempty | lia | intros _; exact H1].
  - destruct Hinv as (Hne & H3 & Hq).
    repeat split; [apply q_list_step_nonempty | |];
      rewrite q_list_step_smooth by assumption; cbn [qs_nu]; [assumption | lia].
Qed.

(** Non-negative steps: [q_period * q_linstep >= 0] and
    [q_linstep / q_logstep_spline >= 0]. *)
Section Positive.

Hypothesis Hperiod : 0 <= q_period * ppr_q_linstep ppr.
Hypothesis Hlog : 0 <= ppr_q_linstep ppr / q_logstep_spline ppr ptr.

Lemma q_blend_step_nonneg (q : R) :
  0 < q -> 0 <= q_blend_step ppr q_period (q_logstep_spline ppr ptr) q.
Proof.
  intros Hq. unfold q_blend_step.
  apply Rmult_le_pos; [nra|]. left. apply Rinv_0_lt_compat. lra.
Qed.

Lemma q_blend_step_zero (q : R) :
  0 < q -> q_blend_step ppr q_period (q_logstep_spline ppr ptr) q = 0 ->
  q_period * ppr_q_linstep ppr = 0.
Proof.
  intros Hq. unfold q_blend_step. intros H.
  assert (Hd : 0 < / (q + ppr_q_linstep ppr / q_logstep_spline ppr ptr))
    by (apply Rinv_0_lt_compat; lra).
  unfold Rdiv in H. apply Rmult_integral in H. destruct H as [H | H]; [|lra].
  apply Rmult_integral in H. destruct H as [H | H]; [assumption | lra].
Qed.

Lemma q_blend_step_of_zero (logstep q : R) :
  q_period * ppr_q_linstep ppr = 0 -> q_blend_step ppr q_period logstep q = 0.
Proof.
  intros H. unfold q_blend_step. rewrite H. unfold Rdiv. ring.
Qed.

Lemma trunc_le_pos (x : R) : (0 < trunc x)%Z -> IZR (trunc x) <= x.
Proof.
  intros H. destruct (Rle_dec 0 x) as [Hx | Hx]; [apply trunc_le; assumption|].
  exfalso. unfold trunc in H. destruct (Rle_dec 0 x); [contradiction|].
  destruct (base_Int_part (- x)) as [H1 H2].
  assert (Hgt : (-1 < Int_part (- x))%Z) by (apply lt_IZR; lra).
  lia.
Qed.

(** During the transition the weight of the flat step is in [0, 1). *)
Lemma transition_weight (d : Z) (ns : R) :
  (0 <= d < trunc ns)%Z -> 0 <= IZR d / ns < 1 /\ ((0 < d)%Z -> 0 < IZR d / ns).
Proof.
  intros [H0 H1]. pose proof (trunc_le_pos ns ltac:(lia)) as Hns.
  assert (Hd : IZR d < IZR (trunc ns)) by (apply IZR_lt; assumption).
  assert (Hd0 : 0 <= IZR d) by (apply IZR_le; assumption).
  assert (Hpos : 0 < ns) by lra.
  assert (Hinv : 0 < / ns) by (apply Rinv_0_lt_compat; assumption).
  unfold Rdiv. repeat split.
  - apply Rmult_le_pos; lra.
  - apply Rmult_lt_reg_r with ns; [assumption|]. rewrite Rmult_assoc, Rinv_l by lra. lra.
  - intros Hdpos. apply IZR_lt in Hdpos. apply Rmult_lt_0_compat; lra.
Qed.

Lemma next_smooth_ge (st : q_state) :
  closed_inv ppr K st -> q_prev st <= next_smooth ppr ptr q_period st.
Proof.
  intros (_ & Hq & Hls & Hli & _). unfold next_smooth. cbv zeta.
  pose proof (q_blend_step_nonneg (q_prev st) Hq) as Hb.
  destruct (Z.ltb_spec (q_index st - qs_last_index st)
              (trunc (ppr_q_numstep_transition ppr))) as [Hd | Hd]; [|lra].
  destruct (transition_weight (q_index st - qs_last_index st)
              (ppr_q_numstep_transition ppr) ltac:(lia)) as [[Ht0 Ht1] _].
  set (t := IZR (q_index st - qs_last_index st) / ppr_q_numstep_transition ppr) in *.
  assert (0 <= (1 - t) * qs_last_step st) by (apply Rmult_le_pos; lra).
  assert (0 <= t * q_blend_step ppr q_period (q_logstep_spline ppr ptr) (q_prev st))
    by (apply Rmult_le_pos; lra).
  lra.
Qed.

Lemma next_smooth_zero (st : q_state) :
  closed_inv ppr K st -> (overtone_threshold ppr <= qs_nu st)%Z ->
  next_smooth ppr ptr q_period st = q_prev st -> closed_stuck ppr q_period st.
Proof.
  intros (_ & Hq & Hls & Hli & Hl0 & _) Hnu. unfold next_smooth, closed_stuck. cbv zeta.
  pose proof (q_blend_step_nonneg (q_prev st) Hq) as Hb.
  destruct (Z.ltb_spec (q_index st - qs_last_index st)
              (trunc (ppr_q_numstep_transition ppr))) as [Hd | Hd].
  - destruct (transition_weight (q_index st - qs_last_index st)
                (ppr_q_numstep_transition ppr) ltac:(lia)) as [[Ht0 Ht1] Htpos].
    set (t := IZR (q_index st - qs_last_index st) / ppr_q_numstep_transition ppr) in *.
    intros H.
    assert (H1 : 0 <= (1 - t) * qs_last_step st) by (apply Rmult_le_pos; lra).
    assert (H2 : 0 <= t * q_blend_step ppr q_period (q_logstep_spline ppr ptr) (q_prev st))
      by (apply Rmult_le_pos; lra).
    assert (H1' : (1 - t) * qs_last_step st = 0) by lra.
    assert (H2' : t * q_blend_step ppr q_period (q_logstep_spline ppr ptr) (q_prev st) = 0)
      by lra.
    assert (Hls0 : qs_last_step st = 0).
    { apply Rmult_integral in H1'. destruct H1'; [lra | assumption]. }
    specialize (Hl0 Hls0). specialize (Htpos ltac:(lia)).
    apply Rmult_integral in H2'. destruct H2' as [H2' | H2']; [lra|].
    repeat split; [assumption | apply (q_blend_step_zero (q_prev st)); assumption | left; assumption].
  - intros H. repeat split; [assumption | | right; assumption].
    apply (q_blend_step_zero (q_prev st)); [assumption | lra].
Qed.

Lemma closed_inv_init : closed_inv ppr K (q_list_init (IZR 3 * sqrt K)).
Proof.
  pose proof (sqrt_lt_R0 K HK) as Hs.
  split; [apply overtone_inv_init|].
  unfold q_list_init, q_prev, q_index, rd; simpl.
  repeat split; try lra; try lia.
  intros H. assert (IZR (overtone_threshold ppr) <= 3) by (apply IZR_le; assumption). nra.
Qed.

Lemma closed_inv_step (st : q_state) :
  closed_inv ppr K st -> closed_inv ppr K (q_list_step ppr ptr q_period K sgnK st).
Proof.
  intros Hinv. pose proof Hinv as (Hov & Hq & Hls & Hli & Hl0 & Hth).
  pose proof (sqrt_lt_R0 K HK) as Hs.
  split; [apply overtone_inv_step; assumption|].
  destruct (Z.lt_ge_cases (qs_nu st) (overtone_threshold ppr)) as [Hnu | Hnu].
  - destruct (q_list_step_overtone st Hov Hnu) as (H1 & H2 & H3 & H4).
    rewrite q_list_step_index.
    repeat split; try lra.
    + rewrite q_list_step_integer by assumption. cbn [qs_last_index]. lia.
    + intros Hth'. rewrite H1. apply Rmult_le_compat_r; [lra|]. apply IZR_le.
      exact Hth'.
  - pose proof (next_smooth_ge st Hinv) as Hge.
    rewrite q_list_step_index. rewrite q_list_step_smooth by assumption.
    rewrite q_prev_snoc. cbn [qs_last_step qs_last_index qs_nu].
    repeat split; try lra; try lia.
    intros _. specialize (Hth Hnu). lra.
Qed.

Lemma closed_stuck_of_zero_step (st : q_state) :
  closed_inv ppr K st ->
  q_prev (q_list_step ppr ptr q_period K sgnK st) = q_prev st -> closed_stuck ppr q_period st.
Proof.
  intros Hinv Hz. pose proof Hinv as (Hov & _).
  destruct (Z.lt_ge_cases (qs_nu st) (overtone_threshold ppr)) as [Hnu | Hnu].
  - destruct (q_list_step_overtone st Hov Hnu) as (_ & _ & H3 & _). lra.
  - apply next_smooth_zero; try assumption.
    rewrite q_list_step_smooth, q_prev_snoc in Hz by assumption. exact Hz.
Qed.

End Positive.

Lemma closed_stuck_step (st : q_state) :
  closed_stuck ppr q_period st ->
  q_prev (q_list_step ppr ptr q_period K sgnK st) = q_prev st
  /\ closed_stuck ppr q_period (q_list_step ppr ptr q_period K sgnK st).
Proof.
  intros (Hnu & Hp & Hd).
  assert (Hq : q_prev (q_list_step ppr ptr q_period K sgnK st) = q_prev st).
  { rewrite q_list_step_smooth, q_prev_snoc by assumption.
    unfold next_smooth. cbv zeta. rewrite (q_blend_step_of_zero _ _ Hp).
    destruct (Z.ltb_spec (q_index st - qs_last_index st)
                (trunc (ppr_q_numstep_transition ppr))) as [Hlt | Hge]; [|lra].
    destruct Hd as [Hd | Hd]; [rewrite Hd; lra | lia]. }
  split; [assumption|].
  unfold closed_stuck. rewrite q_list_step_index.
  rewrite q_list_step_smooth by assumption. cbn [qs_nu qs_last_step qs_last_index].
  repeat split; try assumption. destruct Hd as [Hd | Hd]; [left; assumption | right; lia].
Qed.

End Closed.

(** If the loop reaches, below [q_max], a state from which it makes no
    progress, it does not end with success. *)
Lemma q_list_loop_reaches_stuck (P : q_state -> Prop) :
  (forall st, P st -> q_prev (q_list_step ppr ptr q_period K sgnK st) = q_prev st
                      /\ P (q_list_step ppr ptr q_period K sgnK st)) ->
  forall n fuel q_max q_size_max st st',
    (forall m, (m <= n)%nat ->
               q_prev (Nat.iter m (q_list_step ppr ptr q_period K sgnK) st) < q_max) ->
    P (Nat.iter n (q_list_step ppr ptr q_period K sgnK) st) ->
    q_list_loop ppr ptr q_period K sgnK fuel q_max q_size_max st <> Ok st'.
Proof.
  intros HP n. induction n as [|n IH]; intros fuel q_max q_size_max st st' Hlt Hst.
  - apply (q_list_loop_stuck P HP); [exact Hst | exact (Hlt 0%nat (Nat.le_refl 0))].
  - pose proof (Hlt 0%nat ltac:(lia)) as H0. simpl in H0. apply Rltb_true in H0.
    destruct fuel as [|fuel]; simpl; rewrite H0; unfold class_test;
      destruct (q_size_max <=? q_index st)%Z; simpl; try discriminate.
    apply IH.
    + intros m Hm. rewrite <- Nat.iter_succ_r. apply Hlt. lia.
    + rewrite <- Nat.iter_succ_r. exact Hst.
Qed.

Lemma closed_inv_run (n : nat) :
  sgnK = 1%Z -> 0 < K ->
  0 <= q_period * ppr_q_linstep ppr ->
  0 <= ppr_q_linstep ppr / q_logstep_spline ppr ptr ->
  closed_inv ppr K (q_list_run ppr ppt ptr q_period K sgnK n).
Proof.
  intros HsgnK HK Hp Hl. unfold q_list_run. induction n as [|n IH].
  - simpl. unfold q_list_bounds. rewrite HsgnK. simpl fst.
    apply closed_inv_init; assumption.
  - simpl. apply closed_inv_step; assumption.
Qed.

(** A zero step, in any geometry, leaves the loop in a state from which it
    makes no progress. *)
Lemma q_list_zero_step_stuck (n : nat) :
  (sgnK = 1%Z -> 0 < K /\ 0 <= q_period * ppr_q_linstep ppr
                 /\ 0 <= ppr_q_linstep ppr / q_logstep_spline ppr ptr) ->
  (forall m, (m <= n)%nat ->
             q_prev (q_list_run ppr ppt ptr q_period K sgnK m)
             < snd (q_list_bounds ppt K sgnK)) ->
  q_prev (q_list_run ppr ppt ptr q_period K sgnK (S n))
  = q_prev (q_list_run ppr ppt ptr q_period K sgnK n) ->
  exists P : q_state -> Prop,
    (forall st, P st -> q_prev (q_list_step ppr ptr q_period K sgnK st) = q_prev st
                        /\ P (q_list_step ppr ptr q_period K sgnK st))
    /\ P (q_list_run ppr ppt ptr q_period K sgnK n).
Proof.
  intros Hclosed Hlt Hzero.
  destruct (Z.le_gt_cases sgnK 0) as [Hflat | Hpos].
  - exists (flat_frozen ppr ptr q_period). split.
    + intros st. apply flat_frozen_step. assumption.
    + apply flat_frozen_of_zero_step; assumption.
  - destruct (Z.eq_dec sgnK 1) as [H1 | Hn1].
    + destruct (Hclosed H1) as (HK & Hp & Hl).
      exists (closed_stuck ppr q_period). split.
      * intros st. apply closed_stuck_step. assumption.
      * apply closed_stuck_of_zero_step; try assumption.
        apply closed_inv_run; assumption.
    + (* no geometry: both bounds are zero and the loop is not entered *)
      exfalso. specialize (Hlt 0%nat (Nat.le_0_l n)).
      unfold q_list_run, q_list_bounds in Hlt.
      replace (sgnK =? 0)%Z with false in Hlt by (symmetry; apply Z.eqb_neq; lia).
      replace (sgnK =? -1)%Z with false in Hlt by (symmetry; apply Z.eqb_neq; lia).
      replace (sgnK =? 1)%Z with false in Hlt by (symmetry; apply Z.eqb_neq; lia).
      unfold q_prev, q_index, rd in Hlt. simpl in Hlt. lra.
Qed.

Lemma q_list_fill_loop :
  q_list_fill ppr ppt ptr q_period K sgnK
  = q_list_loop ppr ptr q_period K sgnK
      (Z.to_nat (q_list_size_max ppr q_period K sgnK (fst (q_list_bounds ppt K sgnK))
                   (snd (q_list_bounds ppt K sgnK))))
      (snd (q_list_bounds ppt K sgnK))
      (q_list_size_max ppr q_period K sgnK (fst (q_list_bounds ppt K sgnK))
         (snd (q_list_bounds ppt K sgnK)))
      (q_list_init (fst (q_list_bounds ppt K sgnK))).
Proof.
  unfold q_list_fill. destruct (q_list_bounds ppt K sgnK). reflexivity.
Qed.

(** The filling either succeeds or fails with the error of its test. *)
Lemma q_list_fill_result :
  q_list_fill ppr ppt ptr q_period K sgnK <> OutOfFuel
  /\ forall msg, q_list_fill ppr ppt ptr q_period K sgnK = Error msg -> msg = q_list_error.
Proof.
  rewrite q_list_fill_loop. split.
  - apply q_list_loop_fuel. unfold q_list_init, q_index. simpl. lia.
  - intros msg. apply q_list_loop_error.
Qed.

Lemma transfer_get_q_list_error (msg : string) :
  transfer_get_q_list ppr ppt ptr q_period K sgnK = Error msg -> msg = q_list_error.
Proof.
  unfold transfer_get_q_list.
  destruct (q_list_fill ppr ppt ptr q_period K sgnK) as [st|m|] eqn:E; simpl.
  - unfold class_test. destruct (_ <? 2)%Z; simpl; [intros [= <-]; reflexivity|].
    destruct (sgnK =? 0)%Z; discriminate.
  - intros [= <-]. apply (proj2 q_list_fill_result). assumption.
  - discriminate.
Qed.

Lemma ptr_q_set (ptr0 : transfers) (q : list R) (q_size i : Z) :
  ptr_q (set_ptr_q_size q_size (set_ptr_q q ptr0)) = q
  /\ ptr_q_size (set_ptr_q_size q_size (set_ptr_q q ptr0)) = q_size
  /\ ptr_q (set_ptr_index_q_flat_approximation i (set_ptr_q_size q_size (set_ptr_q q ptr0)))
     = q
  /\ ptr_q_size (set_ptr_index_q_flat_approximation i
                   (set_ptr_q_size q_size (set_ptr_q q ptr0))) = q_size.
Proof. destruct ptr0. repeat split. Qed.

(** C6: the filling loop of [transfer_get_q_list] stops as soon as the last
    value reaches [q_max]: on exit every value but the last is below [q_max]
    and the last is not; a last value above [q_max] is left out of the grid
    (no value is set to [q_max]) and the array is cut to the number of values
    kept; the function fails with the error of its tests when fewer than two
    values are kept, and when a step is exactly zero, since the loop then
    makes no progress until the array is full. *)
Theorem transfer_get_q_list_spec :
  let q_min := fst (q_list_bounds ppt K sgnK) in
  let q_max := snd (q_list_bounds ppt K sgnK) in
  (forall st,
      q_list_fill ppr ppt ptr q_period K sgnK = Ok st ->
      nth 0 (qs_q st) 0 = q_min /\ below_but_last q_max (qs_q st) /\ q_max <= q_prev st)
  /\ (forall ptr',
         transfer_get_q_list ppr ppt ptr q_period K sgnK = Ok ptr' ->
         exists st,
           q_list_fill ppr ppt ptr q_period K sgnK = Ok st
           /\ length (ptr_q ptr') = Z.to_nat (ptr_q_size ptr')
           /\ (2 <= ptr_q_size ptr')%Z
           /\ (q_max < q_prev st ->
               ptr_q ptr' = removelast (qs_q st)
               /\ forall i, (i < length (ptr_q ptr'))%nat -> nth i (ptr_q ptr') 0 < q_max)
           /\ (q_prev st <= q_max -> ptr_q ptr' = qs_q st /\ q_prev st = q_max))
  /\ (forall st,
         q_list_fill ppr ppt ptr q_period K sgnK = Ok st ->
         (q_list_size q_max st < 2)%Z ->
         transfer_get_q_list ppr ppt ptr q_period K sgnK = Error q_list_error)
  /\ ((sgnK = 1%Z -> 0 < K /\ 0 <= q_period * ppr_q_linstep ppr
                     /\ 0 <= ppr_q_linstep ppr / q_logstep_spline ppr ptr) ->
      forall n,
        (forall m, (m <= n)%nat -> q_prev (q_list_run ppr ppt ptr q_period K sgnK m) < q_max) ->
        q_prev (q_list_run ppr ppt ptr q_period K sgnK (S n))
        = q_prev (q_list_run ppr ppt ptr q_period K sgnK n) ->
        transfer_get_q_list ppr ppt ptr q_period K sgnK = Error q_list_error).
Proof.
  intros q_min q_max.
  assert (Hexit : forall st,
             q_list_fill ppr ppt ptr q_period K sgnK = Ok st ->
             qs_q st <> [] /\ below_but_last q_max (qs_q st) /\ q_max <= q_prev st
             /\ nth 0 (qs_q st) 0 = q_min).
  { intros st. rewrite q_list_fill_loop. fold q_min. fold q_max. intros H.
    apply q_list_loop_exit in H.
    - destruct H as (H1 & H2 & H3 & _ & H5). repeat split; assumption.
    - discriminate.
    - intros i Hi. simpl in Hi. lia. }
  split; [|split; [|split]].
  - intros st Hst. destruct (Hexit st Hst) as (H1 & H2 & H3 & H4). repeat split; assumption.
  - intros ptr'. unfold transfer_get_q_list. fold q_max.
    destruct (q_list_fill ppr ppt ptr q_period K sgnK) as [st| |] eqn:E; simpl;
      try discriminate.
    destruct (Hexit st eq_refl) as (Hne & Hb & Hge & H0).
    unfold class_test. destruct (q_list_size q_max st <? 2)%Z eqn:E2; simpl; [discriminate|].
    apply Z.ltb_ge in E2. intros Hptr. exists st. split; [reflexivity|].
    assert (Hq : ptr_q ptr' = firstn (Z.to_nat (q_list_size q_max st)) (qs_q st)
                 /\ ptr_q_size ptr' = q_list_size q_max st).
    { destruct (ptr_q_set ptr (firstn (Z.to_nat (q_list_size q_max st)) (qs_q st))
                  (q_list_size q_max st)
                  (q_flat_approximation_index (Z.to_nat (q_list_size q_max st - 1))
                     (firstn (Z.to_nat (q_list_size q_max st)) (qs_q st))
                     (ppr_hyper_flat_approximation_nu ppr * sqrt (IZR sgnK * K)) 0))
        as (Q1 & Q2 & Q3 & Q4).
      destruct (sgnK =? 0)%Z; injection Hptr as <-; split; assumption. }
    destruct Hq as [Hq Hsize]. rewrite Hq, Hsize.
    assert (Hlen : (Z.to_nat (q_list_size q_max st) <= length (qs_q st))%nat).
    { unfold q_list_size, q_index. destruct (Rltb q_max (q_prev st)); lia. }
    split; [apply firstn_length_le; assumption|]. split; [assumption|]. split.
    + intros Hover. unfold q_list_size. apply Rltb_true in Hover. rewrite Hover.
      unfold q_index. replace (Z.to_nat (Z.of_nat (length (qs_q st)) - 1))
        with (pred (length (qs_q st))) by lia.
      split; [symmetry; apply removelast_firstn_len|].
      intros i Hi. rewrite length_firstn in Hi.
      rewrite nth_firstn. replace (i <? pred (length (qs_q st)))%nat with true
        by (symmetry; apply Nat.ltb_lt; lia).
      apply Hb. lia.
    + intros Hle. assert (Heq : q_prev st = q_max) by lra. split; [|assumption].
      unfold q_list_size. replace (Rltb q_max (q_prev st)) with false
        by (symmetry; apply Rltb_false; lra).
      unfold q_index. rewrite Nat2Z.id. apply firstn_all.
  - intros st Hst Hsize. unfold transfer_get_q_list. rewrite Hst. simpl. fold q_max.
    unfold class_test. replace (q_list_size q_max st <? 2)%Z with true
      by (symmetry; apply Z.ltb_lt; assumption).
    reflexivity.
  - intros Hclosed n Hlt Hzero.
    destruct (q_list_zero_step_stuck n Hclosed Hlt Hzero) as (P & HP & HPn).
    assert (Hnot : forall st, q_list_fill ppr ppt ptr q_period K sgnK <> Ok st).
    { intros st. rewrite q_list_fill_loop.
      apply (q_list_loop_reaches_stuck P HP n); [exact Hlt | exact HPn]. }
    destruct q_list_fill_result as [Hfuel Herr].
    unfold transfer_get_q_list.
    destruct (q_list_fill ppr ppt ptr q_period K sgnK) as [st|msg|] eqn:E.
    + exfalso. apply (Hnot st). reflexivity.
    + simpl. f_equal. apply Herr. reflexivity.
    + contradiction.
Qed.

End Q_list_properties.

(** *** A run of the filling loop in flat space *)

Lemma q_logstep_spline_round : q_logstep_spline ppr_round ptr_blank = 1.
Proof.
  unfold q_logstep_spline. simpl. unfold Rpower. rewrite Rmult_0_l, exp_0. lra.
Qed.

Lemma q_list_step_round (q : list R) :
  q_list_step ppr_round ptr_blank 1 0 0
    {| qs_q := q; qs_nu := 3; qs_last_step := 0; qs_last_index := 0 |}
  = {| qs_q := q ++ [rd q (Z.of_nat (length q) - 1)
                     + 2 * rd q (Z.of_nat (length q) - 1)
                       / (rd q (Z.of_nat (length q) - 1) + 2)];
       qs_nu := 3; qs_last_step := 0; qs_last_index := 0 |}.
Proof.
  unfold q_list_step. simpl. unfold q_blend_step. rewrite q_logstep_spline_round.
  unfold q_prev, q_index. simpl. do 3 f_equal.
  replace (1 * 2) with 2 by lra. replace (2 / 1) with 2 by lra. reflexivity.
Qed.

Lemma ln_3_over_ln_2 : trunc (ln 3 / ln 2) = 1%Z.
Proof.
  assert (H2 : 0 < ln 2) by (rewrite <- ln_1; apply ln_increasing; lra).
  assert (H3 : ln 2 <= ln 3) by (left; apply ln_increasing; lra).
  assert (H4 : ln 3 < ln 2 + ln 2).
  { rewrite <- ln_mult by lra. apply ln_increasing; lra. }
  assert (Hinv : 0 < / ln 2) by (apply Rinv_0_lt_compat; assumption).
  apply trunc_floor.
  - unfold Rdiv. apply Rmult_le_pos; lra.
  - split.
    + apply Rmult_le_reg_r with (ln 2); [assumption|].
      unfold Rdiv. rewrite Rmult_assoc, Rinv_l by lra. lra.
    + apply Rmult_lt_reg_r with (ln 2); [assumption|].
      unfold Rdiv. rewrite Rmult_assoc, Rinv_l by lra. lra.
Qed.

Lemma q_list_size_max_round : q_list_size_max ppr_round 1 0 0 1 3 = 4%Z.
Proof.
  unfold q_list_size_max. simpl.
  replace (3 / 1) with 3 by lra. replace (1 + 1 * 1) with 2 by lra.
  rewrite ln_3_over_ln_2.
  replace ((3 - 1) / (1 * 2)) with (IZR 1) by lra. rewrite trunc_IZR. reflexivity.
Qed.

Lemma q_list_fill_round :
  q_list_fill ppr_round (ppt_with_k [1; 3]) ptr_blank 1 0 0 = Ok q_state_round.
Proof.
  rewrite q_list_fill_loop.
  change (fst (q_list_bounds (ppt_with_k [1; 3]) 0 0)) with 1.
  change (snd (q_list_bounds (ppt_with_k [1; 3]) 0 0)) with 3.
  rewrite q_list_size_max_round. unfold q_list_init.
  change (Z.to_nat 4) with 4%nat.
  do 3 (cbn [q_list_loop]; unfold q_prev at 1, q_index; cbn [qs_q];
        settle_tests; rewrite q_list_step_round; unfold rd; simpl).
  replace (1 + 2 * 1 / (1 + 2)) with (5 / 3) by lra.
  replace (5 / 3 + 2 * (5 / 3) / (5 / 3 + 2)) with (85 / 33) by lra.
  replace (85 / 33 + 2 * (85 / 33) / (85 / 33 + 2)) with (18445 / 4983) by lra.
  cbn [q_list_loop]. unfold q_prev at 1, q_index; cbn [qs_q]. settle_tests.
  reflexivity.
Qed.

Lemma transfer_get_q_list_round :
  transfer_get_q_list ppr_round (ppt_with_k [1; 3]) ptr_blank 1 0 0
  = Ok (set_ptr_q_size 3 (set_ptr_q [1; 5 / 3; 85 / 33] ptr_blank)).
Proof.
  unfold transfer_get_q_list. rewrite q_list_fill_round. cbn [bind].
  change (snd (q_list_bounds (ppt_with_k [1; 3]) 0 0)) with 3.
  unfold q_list_size, q_state_round, q_prev, q_index. cbn [qs_q]. settle_tests.
  reflexivity.
Qed.

(** C6 on three runs in flat space with the round steps: sources known for
    [k] from 1 to 3, where the values [1; 5/3; 85/33] are kept and the fourth,
    above 3, is left out; a single [k], where one value results; and [k] from
    0, where the first step is zero. *)
Lemma transfer_get_q_list_spec_witness :
  (nth 0 (qs_q q_state_round) 0 = 1
   /\ below_but_last 3 (qs_q q_state_round) /\ 3 <= q_prev q_state_round)
  /\ (exists st,
         q_list_fill ppr_round (ppt_with_k [1; 3]) ptr_blank 1 0 0 = Ok st
         /\ length [1; 5 / 3; 85 / 33] = Z.to_nat 3
         /\ (2 <= 3)%Z
         /\ (3 < q_prev st ->
             [1; 5 / 3; 85 / 33] = removelast (qs_q st)
             /\ forall i, (i < 3)%nat -> nth i [1; 5 / 3; 85 / 33] 0 < 3)
         /\ (q_prev st <= 3 -> [1; 5 / 3; 85 / 33] = qs_q st /\ q_prev st = 3))
  /\ transfer_get_q_list ppr_round (ppt_with_k [1]) ptr_blank 1 0 0 = Error q_list_error
  /\ transfer_get_q_list ppr_round (ppt_with_k [0; 1]) ptr_blank 1 0 0 = Error q_list_error.
Proof.
  destruct (transfer_get_q_list_spec ppr_round (ppt_with_k [1; 3]) ptr_blank 1 0 0)
    as (Ha & Hb & _ & _).
  destruct (transfer_get_q_list_spec ppr_round (ppt_with_k [1]) ptr_blank 1 0 0)
    as (_ & _ & Hc & _).
  destruct (transfer_get_q_list_spec ppr_round (ppt_with_k [0; 1]) ptr_blank 1 0 0)
    as (_ & _ & _ & Hd).
  split; [|split; [|split]].
  - exact (Ha q_state_round q_list_fill_round).
  - exact (Hb _ transfer_get_q_list_round).
  - apply (Hc (q_list_init 1)).
    + rewrite q_list_fill_loop.
      change (fst (q_list_bounds (ppt_with_k [1]) 0 0)) with 1.
      change (snd (q_list_bounds (ppt_with_k [1]) 0 0)) with 1.
      destruct (Z.to_nat _); cbn [q_list_loop]; unfold q_list_init, q_prev, q_index;
        cbn [qs_q]; settle_tests; reflexivity.
    + change (snd (q_list_bounds (ppt_with_k [1]) 0 0)) with 1.
      unfold q_list_size, q_list_init, q_prev, q_index. cbn [qs_q]. settle_tests. lia.
  - apply (Hd ltac:(discriminate) 0%nat).
    + intros m Hm. replace m with 0%nat by lia.
      change (snd (q_list_bounds (ppt_with_k [0; 1]) 0 0)) with 1.
      unfold q_list_run, q_prev, q_index. simpl. unfold rd. simpl. lra.
    + unfold q_list_run, Nat.iter, nat_rect.
      change (fst (q_list_bounds (ppt_with_k [0; 1]) 0 0)) with 0.
      unfold q_list_init. rewrite q_list_step_round. rewrite q_prev_snoc.
      unfold q_prev, q_index. simpl. unfold rd. simpl. lra.
Defined.

(** ** Integer overtones in closed geometry (C7) *)

Section Overtones.

Variables (ppr : precision) (ppt : perturbs) (ptr : transfers).
Variables (q_period K : R) (sgnK : Z).






End Overtones.

(** The overtone test of [transfer_update_HIS] on [nu = q/sqrt(K)], by the
    position of [nu] with respect to an integer [n >= 0]. *)
Lemma transfer_update_HIS_nu_cases (ptr : transfers) (ptw : transfer_workspace) (index_q n : Z) :
  ptw_sgnK ptw = 1%Z -> (index_q < ptr_index_q_flat_approximation ptr)%Z -> (0 <= n)%Z ->
  let nu := rd (ptr_q ptr) index_q / sqrt (ptw_K ptw) in
  (IZR n - 0.2 <= nu <= IZR n + 1e-6 ->
   transfer_update_HIS_nu ptr ptw index_q = Ok (Some (IZR n)))
  /\ (IZR n + 1e-6 < nu < IZR n + 0.8 ->
      transfer_update_HIS_nu ptr ptw index_q = Error update_HIS_error).
Proof.
  intros HsgnK Hq Hn nu. unfold transfer_update_HIS_nu. rewrite HsgnK.
  replace (index_q <? ptr_index_q_flat_approximation ptr)%Z with true
    by (symmetry; apply Z.ltb_lt; assumption).
  simpl. replace (1 * ptw_K ptw) with (ptw_K ptw) by lra. fold nu.
  assert (H0 : 0 <= IZR n) by (apply IZR_le; assumption).
  split; intros H.
  - rewrite (trunc_floor (nu + 0.2) n) by lra.
    unfold class_test. replace (Rltb 1e-6 (nu - IZR n)) with false
      by (symmetry; apply Rltb_false; lra).
    reflexivity.
  - rewrite (trunc_floor (nu + 0.2) n) by lra.
    unfold class_test. replace (Rltb 1e-6 (nu - IZR n)) with true
      by (symmetry; apply Rltb_true; lra).
    reflexivity.
Qed.

(** *** Two runs of the filling loop in closed space *)

Lemma q_logstep_spline_closed (ptr : transfers) : q_logstep_spline ppr_closed ptr = 1.
Proof.
  unfold q_logstep_spline. simpl. unfold Rpower. rewrite Rmult_0_l, exp_0. lra.
Qed.

(** Equality of two states whose fields are numerals. *)
Ltac list_eq := simpl app; repeat (apply (f_equal2 (@cons R)); [simpl; lra|]); reflexivity.
Ltac record_eq := f_equal; simpl; try lia; try lra; try list_eq.

Lemma q_list_step_closed (ptr : transfers) (n : nat) :
  (n < 5)%nat ->
  q_list_step ppr_closed ptr 1 1 1 (q_state_closed n) = q_state_closed (S n).
Proof.
  intros Hn.
  destruct n as [|[|[|[|[|n]]]]]; [| | | | |lia]; clear Hn;
    unfold q_list_step, q_state_closed, q_blend_step, q_logstep_trapzd;
    rewrite ?q_logstep_spline_closed;
    unfold q_prev, q_index; cbn [qs_q qs_nu qs_last_step qs_last_index length];
    unfold rd; simpl nth; simpl ppr_hyper_flat_approximation_nu;
    simpl ppr_q_linstep; simpl ppr_q_logstep_trapzd; simpl ppr_q_numstep_transition;
    rewrite ?sqrt_1, ?trunc_IZR; change (1 <=? 0)%Z with false; cbv iota.
  - change (3 <? 5)%Z with true. cbv iota.
    replace ((3 + 1 * 1 * 3 / (3 + 1 / 1)) / 1) with (15 / 4) by lra.
    rewrite (trunc_floor (15 / 4) 3) by lra.
    change (3 <=? 3 + 1)%Z with true. cbv iota. record_eq.
  - change (4 <? 5)%Z with true. cbv iota.
    replace ((4 + 1 * 1 * 4 / (4 + 1 / 1)) / 1) with (24 / 5) by lra.
    rewrite (trunc_floor (24 / 5) 4) by lra.
    change (4 <=? 4 + 1)%Z with true. cbv iota. record_eq.
  - change (5 <? 5)%Z with false. cbv iota.
    change (Z.of_nat 3 - 3 <? 1)%Z with true. cbv iota. record_eq.
  - change (5 <? 5)%Z with false. cbv iota.
    change (Z.of_nat 4 - 3 <? 1)%Z with false. cbv iota. record_eq.
  - change (5 <? 5)%Z with false. cbv iota.
    change (Z.of_nat 5 - 3 <? 1)%Z with false. cbv iota. record_eq.
Qed.

(** A run of the filling loop along given states: each one is below
    [q_max] and within the size of the array, up to the last one, which is
    not below [q_max]. *)
Lemma q_list_loop_along
    (ppr : precision) (ptr : transfers) (q_period K : R) (sgnK : Z)
    (states : nat -> q_state) (n : nat) (q_max : R) (q_size_max : Z) :
  (forall i, (i < n)%nat ->
             q_list_step ppr ptr q_period K sgnK (states i) = states (S i)) ->
  (forall i, (i < n)%nat -> q_prev (states i) < q_max) ->
  q_max <= q_prev (states n) ->
  (forall i, (i < n)%nat -> (q_index (states i) < q_size_max)%Z) ->
  forall fuel i, (i <= n)%nat -> (n - i <= fuel)%nat ->
    q_list_loop ppr ptr q_period K sgnK fuel q_max q_size_max (states i) = Ok (states n).
Proof.
  intros Hstep Hlt Hge Hsize. induction fuel as [|fuel IH]; intros i Hi Hf.
  - assert (i = n) by lia. subst i. simpl.
    replace (Rltb (q_prev (states n)) q_max) with false
      by (symmetry; apply Rltb_false; exact Hge).
    reflexivity.
  - destruct (Nat.eq_dec i n) as [-> | Hne].
    + simpl. replace (Rltb (q_prev (states n)) q_max) with false
        by (symmetry; apply Rltb_false; exact Hge).
      reflexivity.
    + simpl. replace (Rltb (q_prev (states i)) q_max) with true
        by (symmetry; apply Rltb_true; apply Hlt; lia).
      unfold class_test.
      replace (q_size_max <=? q_index (states i))%Z with false
        by (symmetry; apply Z.leb_gt; apply Hsize; lia).
      cbn [bind]. rewrite Hstep by lia. apply IH; lia.
Qed.

Lemma trunc_ln_ratio_zero (a b : R) : 1 <= a -> a < b -> trunc (ln a / ln b) = 0%Z.
Proof.
  intros Ha Hb.
  assert (H0 : 0 <= ln a).
  { rewrite <- ln_1. destruct Ha as [Ha | <-]; [left; apply ln_increasing; lra | lra]. }
  assert (H1 : ln a < ln b) by (apply ln_increasing; lra).
  assert (Hinv : 0 < / ln b) by (apply Rinv_0_lt_compat; lra).
  apply trunc_floor.
  - unfold Rdiv. apply Rmult_le_pos; lra.
  - split.
    + unfold Rdiv. apply Rmult_le_pos; lra.
    + apply Rmult_lt_reg_r with (ln b); [lra|].
      unfold Rdiv. rewrite Rmult_assoc, Rinv_l by lra. lra.
Qed.

Lemma q_list_size_max_closed : q_list_size_max ppr_closed 1 1 1 3 7 = 8%Z.
Proof.
  unfold q_list_size_max. simpl. rewrite sqrt_1.
  replace (MIN 5 (7 / 1)) with 5 by (unfold MIN; destruct (Rlt_dec 5 (7 / 1)); lra).
  replace (1 + 1 * 1) with 2 by lra.
  rewrite (trunc_ln_ratio_zero (5 / 3) 2) by lra.
  rewrite (trunc_ln_ratio_zero (7 / 5) 2) by lra.
  replace ((5 - 3) / (1 * 1)) with (IZR 2) by lra.
  replace ((7 - 5) / (1 * 1)) with (IZR 2) by lra.
  rewrite trunc_IZR. reflexivity.
Qed.

Lemma q_list_bounds_closed : q_list_bounds (ppt_with_k [1; 7]) 1 1 = (3, 7).
Proof.
  unfold q_list_bounds. simpl. rewrite sqrt_1. f_equal. lra.
Qed.

Lemma q_list_fill_closed (ptr : transfers) :
  q_list_fill ppr_closed (ppt_with_k [1; 7]) ptr 1 1 1 = Ok (q_state_closed 5).
Proof.
  rewrite q_list_fill_loop, q_list_bounds_closed. cbn [fst snd].
  rewrite q_list_size_max_closed.
  change (q_list_init 3) with (q_state_closed 0).
  apply (q_list_loop_along ppr_closed ptr 1 1 1 q_state_closed 5).
  - intros i Hi. apply q_list_step_closed. exact Hi.
  - intros i Hi. destruct i as [|[|[|[|[|i]]]]]; [| | | | |lia];
      unfold q_prev, q_index, rd; simpl; lra.
  - unfold q_prev, q_index, rd; simpl; lra.
  - intros i Hi. destruct i as [|[|[|[|[|i]]]]]; [| | | | |lia];
      unfold q_index; simpl; lia.
  - lia.
  - simpl; lia.
Qed.

Lemma transfer_get_q_list_closed (ptr : transfers) :
  transfer_get_q_list ppr_closed (ppt_with_k [1; 7]) ptr 1 1 1 = Ok (ptr_closed_run ptr).
Proof.
  unfold transfer_get_q_list. rewrite q_list_fill_closed, q_list_bounds_closed.
  cbn [bind snd].
  unfold q_list_size, q_state_closed, q_prev, q_index. cbn [qs_q]. settle_tests.
  unfold ptr_closed_run.
  replace (sqrt (1 * 1)) with 1 by (rewrite Rmult_1_r, sqrt_1; reflexivity).
  settle_tests. reflexivity.
Qed.










(** ** The wavenumbers of each mode: [transfer_get_k_list] *)

Lemma k_list_spin_known (ppt : perturbs) (index_md : Z) (m : R) :
  mode_known ppt index_md = true ->
  k_list_spin ppt index_md m = k_list_spin ppt index_md 0.
Proof.
  unfold mode_known, k_list_spin.
  destruct (_scalars_ ppt index_md), (_vectors_ ppt index_md), (_tensors_ ppt index_md);
    simpl; intros H; try reflexivity; discriminate.
Qed.

(** The spin of scalar, vector and tensor modes. *)
Lemma k_list_spin_values (ppt : perturbs) (index_md : Z) (m : R) :
  (_scalars_ ppt index_md = true -> _vectors_ ppt index_md = false ->
   _tensors_ ppt index_md = false -> k_list_spin ppt index_md m = 0)
  /\ (_vectors_ ppt index_md = true -> _tensors_ ppt index_md = false ->
      k_list_spin ppt index_md m = 1)
  /\ (_tensors_ ppt index_md = true -> k_list_spin ppt index_md m = 2).
Proof.
  unfold k_list_spin. repeat split; intros; 
    repeat match goal with H : _ = _ |- _ => rewrite H end; reflexivity.
Qed.

Lemma k_of_q_rd (ptr : transfers) (K m : R) (index_q : Z) :
  (0 <= index_q < ptr_q_size ptr)%Z ->
  (ptr_q_size ptr <= Z.of_nat (length (ptr_q ptr)))%Z ->
  rd (k_of_q ptr K m) index_q
  = sqrt (rd (ptr_q ptr) index_q * rd (ptr_q ptr) index_q - K * (m + 1)).
Proof.
  intros Hi Hs. unfold rd, k_of_q.
  set (f := fun q => sqrt (q * q - K * (m + 1))).
  rewrite (nth_indep _ 0 (f 0)).
  - rewrite map_nth. rewrite nth_firstn.
    replace (Z.to_nat index_q <? Z.to_nat (ptr_q_size ptr))%nat with true; [reflexivity|].
    symmetry. apply Nat.ltb_lt. lia.
  - rewrite length_map, length_firstn. lia.
Qed.

Lemma k_modes_length (ppt : perturbs) (ptr : transfers) (K : R) (n : nat) :
  forall index_md, length (k_modes ppt ptr K n index_md) = n.
Proof. induction n as [|n IH]; intros i; simpl; [reflexivity|]. now rewrite IH. Qed.

Lemma k_modes_nth (ppt : perturbs) (ptr : transfers) (K : R) (n : nat) :
  forall index_md j, (j < n)%nat ->
    nth j (k_modes ppt ptr K n index_md) []
    = k_of_q ptr K (k_list_spin ppt (index_md + Z.of_nat j) 0).
Proof.
  induction n as [|n IH]; intros i j Hj; [lia|].
  destruct j as [|j]; simpl k_modes; simpl nth.
  - now rewrite Z.add_0_r.
  - rewrite IH by lia. do 2 f_equal. lia.
Qed.

(** The loop over the modes either fills all rows, every mode passing both
    tests, or stops with one of the two messages at a mode that fails one;
    the first and the last value of every mode are numbers. *)
Lemma k_list_loop_cases (ppt : perturbs) (ptr : transfers) (K : R) (n : nat) :
  forall index_md m k,
    (forall j, (j < n)%nat -> mode_known ppt (index_md + Z.of_nat j) = true) ->
    (forall j, (j < n)%nat ->
               k_is_number ptr K (k_list_spin ppt (index_md + Z.of_nat j) 0) 0 = true
               /\ k_is_number ptr K (k_list_spin ppt (index_md + Z.of_nat j) 0)
                    (ptr_q_size ptr - 1) = true) ->
    (k_list_loop ppt ptr K n index_md m k = Ok (k ++ k_modes ppt ptr K n index_md)
     /\ forall j, (j < n)%nat -> k_in_bounds ppt ptr K (index_md + Z.of_nat j))
    \/ (exists msg,
           k_list_loop ppt ptr K n index_md m k = Error msg
           /\ (msg = k_min_error \/ msg = k_max_error)
           /\ exists j, (j < n)%nat /\ ~ k_in_bounds ppt ptr K (index_md + Z.of_nat j)).
Proof.
  induction n as [|n IH]; intros i m k Hknown Hnum.
  - left. simpl. rewrite app_nil_r. split; [reflexivity|]. intros j Hj; lia.
  - simpl k_list_loop. simpl k_modes.
    assert (Hm : k_list_spin ppt i m = k_list_spin ppt i 0).
    { apply k_list_spin_known. specialize (Hknown 0%nat ltac:(lia)).
      now rewrite Z.add_0_r in Hknown. }
    rewrite Hm.
    destruct (Hnum 0%nat ltac:(lia)) as [Hn0 Hn1]. rewrite Z.add_0_r in Hn0, Hn1.
    rewrite Hn0, Hn1. cbn [andb].
    destruct (Rltb (rd (k_of_q ptr K (k_list_spin ppt i 0)) 0) (rd (ppt_k ppt) 0)) eqn:Hmin.
    { right. exists k_min_error. simpl. repeat split; auto.
      exists 0%nat. split; [lia|]. rewrite Z.add_0_r. unfold k_in_bounds.
      apply Rltb_true in Hmin. lra. }
    destruct (Rltb (rd (ppt_k ppt) (ppt_k_size_cl ppt - 1))
                (rd (k_of_q ptr K (k_list_spin ppt i 0)) (ptr_q_size ptr - 1))) eqn:Hmax.
    { right. exists k_max_error. simpl. repeat split; auto.
      exists 0%nat. split; [lia|]. rewrite Z.add_0_r. unfold k_in_bounds.
      apply Rltb_true in Hmax. lra. }
    simpl.
    apply Rltb_false in Hmin. apply Rltb_false in Hmax.
    destruct (IH (i + 1)%Z (k_list_spin ppt i 0) (k ++ [k_of_q ptr K (k_list_spin ppt i 0)]))
      as [[Hok Hall] | (msg & Herr & Hmsg & j & Hj & Hbad)].
    + intros j Hj. specialize (Hknown (S j) ltac:(lia)).
      replace (i + 1 + Z.of_nat j)%Z with (i + Z.of_nat (S j))%Z by lia. exact Hknown.
    + intros j Hj. specialize (Hnum (S j) ltac:(lia)).
      replace (i + 1 + Z.of_nat j)%Z with (i + Z.of_nat (S j))%Z by lia. exact Hnum.
    + left. split.
      * rewrite Hok. rewrite <- app_assoc. reflexivity.
      * intros [|j] Hj.
        -- rewrite Z.add_0_r. split; assumption.
        -- replace (i + Z.of_nat (S j))%Z with (i + 1 + Z.of_nat j)%Z by lia.
           apply Hall. lia.
    + right. exists msg. repeat split; auto.
      exists (S j). split; [lia|].
      replace (i + Z.of_nat (S j))%Z with (i + 1 + Z.of_nat j)%Z by lia. exact Hbad.
Qed.

(** A NaN passes both tests: when, for the three spins, the first and the
    last [sqrt] have a negative argument, the function succeeds. *)
Lemma k_list_loop_nan (ppt : perturbs) (ptr : transfers) (K : R) (n : nat) :
  (forall m, 0 <= m <= 2 ->
             k_is_number ptr K m 0 = false
             /\ k_is_number ptr K m (ptr_q_size ptr - 1) = false) ->
  forall index_md m k,
    0 <= m <= 2 ->
    exists k', k_list_loop ppt ptr K n index_md m k = Ok k'.
Proof.
  intros Hnan. induction n as [|n IH]; intros i m k Hm; simpl; [eauto|].
  assert (Hspin : 0 <= k_list_spin ppt i m <= 2).
  { unfold k_list_spin.
    destruct (_scalars_ ppt i), (_vectors_ ppt i), (_tensors_ ppt i); lra. }
  destruct (Hnan _ Hspin) as [-> ->]. simpl. apply IH. exact Hspin.
Qed.

Lemma ptr_k_set (k : list (list R)) (ptr : transfers) : ptr_k (set_ptr_k k ptr) = k.
Proof. destruct ptr; reflexivity. Qed.

(** On the grids of [transfer_get_q_list] no [sqrt] is taken of a negative
    number: in flat and open space [K <= 0], and in closed space every [q] is
    at least the first one, [3 sqrt(K)]. *)
Lemma k_radicand_nonneg (ppt : perturbs) (K q : R) (index_md : Z) :
  K <= 0 \/ 3 * sqrt K <= q ->
  0 <= q ->
  0 <= q * q - K * (k_list_spin ppt index_md 0 + 1).
Proof.
  intros HK Hq.
  assert (Hm : 0 <= k_list_spin ppt index_md 0 <= 2).
  { unfold k_list_spin.
    destruct (_scalars_ ppt index_md), (_vectors_ ppt index_md), (_tensors_ ppt index_md);
      lra. }
  destruct (Rle_dec K 0) as [Hneg | Hpos].
  - nra.
  - destruct HK as [HK | HK]; [lra|].
    assert (HK0 : 0 < K) by lra.
    pose proof (sqrt_sqrt K ltac:(lra)) as Hs.
    pose proof (sqrt_lt_R0 K HK0) as Hs0.
    assert (H9 : 9 * K <= q * q) by nra.
    nra.
Qed.

(** C8: on a grid where no [q^2 - K (m+1)] is negative (every [k] is a
    number), for every mode, of spin [m] equal to 0, 1, 2 for a scalar,
    vector, tensor mode, and every index of the grid, [transfer_get_k_list]
    stores [k = sqrt(q^2 - K (m+1))]; it succeeds when, for every mode, the
    first value is not below the first wavenumber of the sources and the last
    one is not above their last wavenumber, and fails with a fatal error
    otherwise; after a success on a non-negative, non-decreasing grid of [q],
    every [k] of every mode lies within the wavenumbers of the sources. *)
Theorem transfer_get_k_list_spec (ppt : perturbs) (ptr : transfers) (K : R) :
  (0 < ptr_q_size ptr <= Z.of_nat (length (ptr_q ptr)))%Z ->
  (forall index_md, (0 <= index_md < ptr_md_size ptr)%Z -> mode_known ppt index_md = true) ->
  (forall index_md index_q,
      (0 <= index_md < ptr_md_size ptr)%Z -> (0 <= index_q < ptr_q_size ptr)%Z ->
      0 <= rd (ptr_q ptr) index_q * rd (ptr_q ptr) index_q
           - K * (k_list_spin ppt index_md 0 + 1)) ->
  let k_min := rd (ppt_k ppt) 0 in
  let k_max := rd (ppt_k ppt) (ppt_k_size_cl ppt - 1) in
  let q := rd (ptr_q ptr) in
  let last := (ptr_q_size ptr - 1)%Z in
  (forall index_md m,
      (_scalars_ ppt index_md = true -> _vectors_ ppt index_md = false ->
       _tensors_ ppt index_md = false -> k_list_spin ppt index_md m = 0)
      /\ (_vectors_ ppt index_md = true -> _tensors_ ppt index_md = false ->
          k_list_spin ppt index_md m = 1)
      /\ (_tensors_ ppt index_md = true -> k_list_spin ppt index_md m = 2))
  /\ (forall ptr',
         transfer_get_k_list ppt ptr K = Ok ptr' ->
         length (ptr_k ptr') = Z.to_nat (ptr_md_size ptr)
         /\ forall index_md, (0 <= index_md < ptr_md_size ptr)%Z ->
              let k_md := rd (nth (Z.to_nat index_md) (ptr_k ptr') []) in
              let m := k_list_spin ppt index_md 0 in
              (forall index_q, (0 <= index_q < ptr_q_size ptr)%Z ->
                               k_md index_q = sqrt (q index_q * q index_q - K * (m + 1)))
              /\ k_min <= k_md 0%Z
              /\ k_md last <= k_max
              /\ ((forall i j, (0 <= i <= j)%Z -> (j < ptr_q_size ptr)%Z -> 0 <= q i <= q j) ->
                  forall index_q, (0 <= index_q < ptr_q_size ptr)%Z ->
                                  k_min <= k_md index_q <= k_max))
  /\ ((forall index_md, (0 <= index_md < ptr_md_size ptr)%Z ->
          let m := k_list_spin ppt index_md 0 in
          k_min <= sqrt (q 0%Z * q 0%Z - K * (m + 1))
          /\ sqrt (q last * q last - K * (m + 1)) <= k_max) ->
      exists ptr', transfer_get_k_list ppt ptr K = Ok ptr')
  /\ ((exists index_md,
          (0 <= index_md < ptr_md_size ptr)%Z
          /\ let m := k_list_spin ppt index_md 0 in
             (sqrt (q 0%Z * q 0%Z - K * (m + 1)) < k_min
              \/ k_max < sqrt (q last * q last - K * (m + 1)))) ->
      exists msg, transfer_get_k_list ppt ptr K = Error msg
                  /\ (msg = k_min_error \/ msg = k_max_error)).
Proof.
  intros Hsize Hknown Hrad k_min k_max q last.
  assert (Hends : forall index_md,
             k_in_bounds ppt ptr K index_md
             <-> k_min <= sqrt (q 0%Z * q 0%Z - K * (k_list_spin ppt index_md 0 + 1))
                 /\ sqrt (q last * q last - K * (k_list_spin ppt index_md 0 + 1)) <= k_max).
  { intros i. unfold k_in_bounds. rewrite !k_of_q_rd by (unfold last; lia). reflexivity. }
  pose proof (k_list_loop_cases ppt ptr K (Z.to_nat (ptr_md_size ptr)) 0%Z 0 []) as Hcases.
  assert (Hknown' : forall j, (j < Z.to_nat (ptr_md_size ptr))%nat ->
                              mode_known ppt (0 + Z.of_nat j) = true).
  { intros j Hj. apply Hknown. lia. }
  assert (Hnum : forall j, (j < Z.to_nat (ptr_md_size ptr))%nat ->
               k_is_number ptr K (k_list_spin ppt (0 + Z.of_nat j) 0) 0 = true
               /\ k_is_number ptr K (k_list_spin ppt (0 + Z.of_nat j) 0)
                    (ptr_q_size ptr - 1) = true).
  { intros j Hj. unfold k_is_number. split; apply Rleb_true; apply Hrad; lia. }
  specialize (Hcases Hknown' Hnum). simpl app in Hcases.
  split; [intros; apply k_list_spin_values|].
  split; [|split].
  - intros ptr' Hget. unfold transfer_get_k_list in Hget.
    destruct Hcases as [[Hok Hall] | (msg & Herr & _)];
      [rewrite Hok in Hget | rewrite Herr in Hget; discriminate].
    simpl in Hget. injection Hget as <-. rewrite ptr_k_set.
    split; [apply k_modes_length|].
    intros index_md Hmd k_md m.
    assert (Hrow : nth (Z.to_nat index_md)
                     (k_modes ppt ptr K (Z.to_nat (ptr_md_size ptr)) 0) []
                   = k_of_q ptr K m).
    { rewrite k_modes_nth by lia. unfold m. do 2 f_equal. lia. }
    assert (Hval : forall index_q, (0 <= index_q < ptr_q_size ptr)%Z ->
                     k_md index_q = sqrt (q index_q * q index_q - K * (m + 1))).
    { intros index_q Hq. unfold k_md. rewrite Hrow. apply k_of_q_rd; lia. }
    specialize (Hall (Z.to_nat index_md) ltac:(lia)).
    replace (0 + Z.of_nat (Z.to_nat index_md))%Z with index_md in Hall by lia.
    apply Hends in Hall. fold m in Hall. destruct Hall as [Hlo Hhi].
    split; [exact Hval|].
    split; [rewrite Hval by lia; exact Hlo|].
    split; [rewrite Hval by (unfold last; lia); exact Hhi|].
    intros Hsorted index_q Hq. rewrite Hval by lia.
    destruct (Hsorted 0%Z index_q ltac:(lia) ltac:(lia)) as [H0 H0q].
    destruct (Hsorted index_q last ltac:(unfold last; lia) ltac:(unfold last; lia))
      as [Hq0 Hql].
    split.
    + apply Rle_trans with (1 := Hlo). apply sqrt_le_1_alt. nra.
    + apply Rle_trans with (2 := Hhi). apply sqrt_le_1_alt. nra.
  - intros Hall.
    destruct Hcases as [[Hok _] | (msg & _ & _ & j & Hj & Hbad)].
    + exists (set_ptr_k (k_modes ppt ptr K (Z.to_nat (ptr_md_size ptr)) 0) ptr).
      unfold transfer_get_k_list. rewrite Hok. reflexivity.
    + exfalso. apply Hbad. apply Hends. apply Hall. lia.
  - intros (index_md & Hmd & Hbad).
    destruct Hcases as [[_ Hall] | (msg & Herr & Hmsg & _)].
    + exfalso. specialize (Hall (Z.to_nat index_md) ltac:(lia)).
      replace (0 + Z.of_nat (Z.to_nat index_md))%Z with index_md in Hall by lia.
      apply Hends in Hall. cbv zeta in Hbad. lra.
    + exists msg. unfold transfer_get_k_list. rewrite Herr. split; [reflexivity|exact Hmsg].
Qed.

(** The grid of [q] depends on the perturbations through its bounds only. *)
Lemma transfer_get_q_list_bounds_only
    (ppr : precision) (ppt ppt' : perturbs) (ptr : transfers) (q_period K : R) (sgnK : Z) :
  q_list_bounds ppt K sgnK = q_list_bounds ppt' K sgnK ->
  transfer_get_q_list ppr ppt ptr q_period K sgnK
  = transfer_get_q_list ppr ppt' ptr q_period K sgnK.
Proof.
  intros H. unfold transfer_get_q_list, q_list_fill. rewrite H. reflexivity.
Qed.

(** A scalar and a tensor mode on the grid that [transfer_get_q_list] builds
    in closed space with [K = 1] for sources known for [k] between 1 and 7:
    the list is built, the last wavenumber of the tensor mode is
    [sqrt((48/7)^2 - (2+1))], and every wavenumber of both modes is between 1
    and 7. *)
Lemma transfer_get_k_list_spec_witness :
  let ptr := ptr_closed_run (set_ptr_md_size 2 ptr_blank) in
  transfer_get_q_list ppr_closed ppt_two_modes_closed (set_ptr_md_size 2 ptr_blank) 1 1 1
  = Ok ptr
  /\ exists ptr',
       transfer_get_k_list ppt_two_modes_closed ptr 1 = Ok ptr'
       /\ rd (nth 1 (ptr_k ptr') []) 4 = sqrt (48 / 7 * (48 / 7) - 1 * (2 + 1))
       /\ forall index_md index_q,
            (0 <= index_md < 2)%Z -> (0 <= index_q < 5)%Z ->
            1 <= rd (nth (Z.to_nat index_md) (ptr_k ptr') []) index_q <= 7.
Proof.
  intros ptr.
  assert (Hq : forall index_q, (0 <= index_q < 5)%Z ->
                               3 <= rd (ptr_q ptr) index_q <= 48 / 7).
  { intros j Hj. assert (Hj' : (j = 0 \/ j = 1 \/ j = 2 \/ j = 3 \/ j = 4)%Z) by lia.
    destruct Hj' as [-> | [-> | [-> | [-> | ->]]]]; unfold rd; simpl; lra. }
  assert (Hsize : (0 < ptr_q_size ptr <= Z.of_nat (length (ptr_q ptr)))%Z) by (simpl; lia).
  assert (Hknown : forall index_md, (0 <= index_md < ptr_md_size ptr)%Z ->
                                    mode_known ppt_two_modes_closed index_md = true).
  { intros i Hi. change (ptr_md_size ptr) with 2%Z in Hi.
    assert (Hi' : i = 0%Z \/ i = 1%Z) by lia. destruct Hi' as [-> | ->]; reflexivity. }
  assert (Hspin : forall index_md, (0 <= index_md < ptr_md_size ptr)%Z ->
                    k_list_spin ppt_two_modes_closed index_md 0 = 0
                    \/ k_list_spin ppt_two_modes_closed index_md 0 = 2).
  { intros i Hi. change (ptr_md_size ptr) with 2%Z in Hi.
    assert (Hi' : i = 0%Z \/ i = 1%Z) by lia.
    destruct Hi' as [-> | ->]; [left | right];
      unfold k_list_spin, _scalars_, _vectors_, _tensors_; simpl; reflexivity. }
  assert (Hrad : forall index_md index_q,
             (0 <= index_md < ptr_md_size ptr)%Z ->
             (0 <= index_q < ptr_q_size ptr)%Z ->
             0 <= rd (ptr_q ptr) index_q * rd (ptr_q ptr) index_q
                  - 1 * (k_list_spin ppt_two_modes_closed index_md 0 + 1)).
  { intros i j Hi Hj. change (ptr_q_size ptr) with 5%Z in Hj.
    apply k_radicand_nonneg; [right; rewrite sqrt_1|]; specialize (Hq j Hj); lra. }
  split.
  { rewrite (transfer_get_q_list_bounds_only ppr_closed ppt_two_modes_closed
               (ppt_with_k [1; 7])) by reflexivity.
    apply transfer_get_q_list_closed. }
  destruct (transfer_get_k_list_spec ppt_two_modes_closed ptr 1 Hsize Hknown Hrad)
    as (_ & Hrows & Hsucc & _).
  destruct Hsucc as [ptr' Hget].
  { intros i Hi. cbv zeta. change (ptr_q_size ptr - 1)%Z with 4%Z.
    unfold rd. simpl nth.
    destruct (Hspin i Hi) as [-> | ->]; split.
    - rewrite <- sqrt_1 at 1. apply sqrt_le_1_alt. lra.
    - apply Rle_trans with (sqrt (7 * 7)); [apply sqrt_le_1_alt; lra|].
      rewrite sqrt_square by lra. lra.
    - rewrite <- sqrt_1 at 1. apply sqrt_le_1_alt. lra.
    - apply Rle_trans with (sqrt (7 * 7)); [apply sqrt_le_1_alt; lra|].
      rewrite sqrt_square by lra. lra. }
  exists ptr'. split; [exact Hget|].
  destruct (Hrows ptr' Hget) as [_ Hrow]. split.
  - destruct (Hrow 1%Z) as [Hval _]; [simpl; lia|].
    specialize (Hval 4%Z). cbv zeta in Hval.
    change (Z.to_nat 1) with 1%nat in Hval. rewrite Hval by (simpl; lia).
    unfold rd, k_list_spin, _scalars_, _vectors_, _tensors_. simpl. reflexivity.
  - intros i j Hi Hj. destruct (Hrow i) as (_ & _ & _ & Hall); [simpl; lia|].
    apply Hall; [|simpl; lia].
    intros a b Hab Hb. change (ptr_q_size ptr) with 5%Z in Hb.
    assert (Ha' : (a = 0 \/ a = 1 \/ a = 2 \/ a = 3 \/ a = 4)%Z) by lia.
    assert (Hb' : (b = 0 \/ b = 1 \/ b = 2 \/ b = 3 \/ b = 4)%Z) by lia.
    destruct Ha' as [-> | [-> | [-> | [-> | ->]]]];
      destruct Hb' as [-> | [-> | [-> | [-> | ->]]]];
      try lia; unfold rd; simpl; lra.
Defined.

(** ** Normalization of the selection functions *)

Lemma sum_upto_ext (f g : nat -> R) (n : nat) :
  (forall i, (i < n)%nat -> f i = g i) -> sum_upto f n = sum_upto g n.
Proof.
  induction n as [|n IH]; intros H; simpl; [reflexivity|].
  rewrite IH by (intros i Hi; apply H; lia). rewrite H by lia. reflexivity.
Qed.

Lemma sum_upto_scal (c : R) (f : nat -> R) (n : nat) :
  sum_upto (fun i => c * f i) n = c * sum_upto f n.
Proof. induction n as [|n IH]; simpl; [ring|]. rewrite IH. ring. Qed.

Lemma nth_map_div (c : R) (l : list R) :
  forall i, nth i (map (fun s => s / c) l) 0 = nth i l 0 / c.
Proof.
  induction l as [|s l IH]; intros [|i]; simpl; try reflexivity;
    try (unfold Rdiv; ring). apply IH.
Qed.

(** Dividing the samples by their trapezoidal integral gives samples of
    integral one. *)
Lemma array_trapezoidal_integral_normalized (selection w_trapz : list R) (n : Z) :
  let norm := array_trapezoidal_integral selection n w_trapz in
  norm <> 0 ->
  array_trapezoidal_integral (map (fun s => s / norm) selection) n w_trapz = 1.
Proof.
  intros norm Hnorm. unfold array_trapezoidal_integral.
  rewrite (sum_upto_ext _ (fun i => / norm * (nth i selection 0 * nth i w_trapz 0))).
  - rewrite sum_upto_scal. fold (array_trapezoidal_integral selection n w_trapz).
    fold norm. field. exact Hnorm.
  - intros i _. rewrite nth_map_div. unfold Rdiv. ring.
Qed.

Section Selection_properties.

Variable background_at_tau : background -> R -> result (list R).
Variable background_tau_of_z : background -> R -> result R.

(** The first loop of [transfer_selection_compute] returns one value for
    each sampled time when the background is known there. *)
Lemma selection_compute_loop_ok
    (ppr : precision) (pba : background) (ppt : perturbs) (tau0 : R) (bin : Z)
    (tau0_minus_tau : list R) :
  (forall t, In t tau0_minus_tau -> exists v, background_at_tau pba (tau0 - t) = Ok v) ->
  exists raw, selection_compute_loop background_at_tau ppr pba ppt tau0 bin tau0_minus_tau
              = Ok raw
              /\ length raw = length tau0_minus_tau.
Proof.
  induction tau0_minus_tau as [|t rest IH]; intros Hbg.
  - exists []. split; reflexivity.
  - destruct (Hbg t (or_introl eq_refl)) as [v Hv].
    destruct IH as (others & Hothers & Hlen); [intros u Hu; apply Hbg; now right|].
    simpl. rewrite Hv. simpl. rewrite Hothers. simpl.
    eexists. split; [reflexivity|]. simpl. now rewrite Hlen.
Qed.

(** For a Dirac selection function the three times of a bin are computed from
    the mean redshift, and the first and last coincide. *)
Lemma transfer_selection_times_dirac
    (ppr : precision) (pba : background) (ppt : perturbs) (bin : Z) (tau tau_mean : R) :
  ppt_selection ppt = dirac ->
  background_tau_of_z pba (rd (ppt_selection_mean ppt) bin) = Ok tau ->
  background_tau_of_z pba (MAX (rd (ppt_selection_mean ppt) bin) 0) = Ok tau_mean ->
  transfer_selection_times background_tau_of_z ppr pba ppt bin = Ok (tau, tau_mean, tau).
Proof.
  intros Hdirac Htau Hmean. unfold transfer_selection_times.
  rewrite Hdirac, Htau. simpl. rewrite Hmean. reflexivity.
Qed.

End Selection_properties.

(** C9: when [transfer_selection_compute] returns, the trapezoidal integral
    of the selection function over its [tau_size] samples, the sum of
    [w_trapz[i]*selection[i]], is 1 for every shape of the selection
    function, provided that the integral before normalization is not zero;
    the function returns when the background is known at every sampled time.
    For a Dirac selection function the number of sampled times is 1: this is
    the [tau_size] of a number-count type, the [tau_sources_size] of a
    galaxy-lensing type, and the only size accepted by
    [transfer_selection_sampling]. *)
Theorem transfer_selection_compute_spec
    (background_at_tau : background -> R -> result (list R))
    (background_tau_of_z : background -> R -> result R)
    (ppr : precision) (pba : background) (ppt : perturbs) (ptr : transfers)
    (tau0_minus_tau w_trapz : list R) (tau_size : Z) (tau0 : R) (bin : Z) :
  let sampled := firstn (Z.to_nat tau_size) tau0_minus_tau in
  let compute :=
    transfer_selection_compute background_at_tau ppr pba ppt tau0_minus_tau w_trapz
      tau_size tau0 bin in
  ((forall t, In t sampled -> exists v, background_at_tau pba (tau0 - t) = Ok v) ->
   exists selection, compute = Ok selection /\ length selection = length sampled)
  /\ (forall selection,
         compute = Ok selection ->
         exists raw,
           selection_compute_loop background_at_tau ppr pba ppt tau0 bin sampled = Ok raw
           /\ (array_trapezoidal_integral raw tau_size w_trapz <> 0 ->
               array_trapezoidal_integral selection tau_size w_trapz = 1))
  /\ (ppt_selection ppt = dirac ->
      transfer_sources_tau_sources_size ppr ppt = 1%Z
      /\ (forall tau_rec index_md index_tt previous tau tau_mean,
             let mean := rd (ppt_selection_mean ppt) (index_tt - ptr_index_tt_density ptr) in
             _scalars_ ppt index_md = true ->
             _tensors_ ppt index_md = false ->
             tt_is_density ppt ptr index_tt = true ->
             tt_is_lensing ppt ptr index_tt = false ->
             background_tau_of_z pba mean = Ok tau ->
             background_tau_of_z pba (MAX mean 0) = Ok tau_mean ->
             transfer_source_tau_size background_tau_of_z ppr pba ppt ptr tau_rec tau0
               index_md index_tt previous = Ok 1%Z)
      /\ (forall n tau tau_mean,
             let mean := rd (ppt_selection_mean ppt) bin in
             background_tau_of_z pba mean = Ok tau ->
             background_tau_of_z pba (MAX mean 0) = Ok tau_mean ->
             transfer_selection_sampling background_tau_of_z ppr pba ppt bin n
             = if (n =? 1)%Z then Ok [pba_conformal_age pba - tau_mean]
               else Error selection_sampling_error)).
Proof.
  intros sampled compute. split; [|split].
  - intros Hbg.
    destruct (selection_compute_loop_ok background_at_tau ppr pba ppt tau0 bin sampled Hbg)
      as (raw & Hraw & Hlen).
    unfold compute, transfer_selection_compute. fold sampled. rewrite Hraw. simpl.
    eexists. split; [reflexivity|]. now rewrite length_map.
  - intros selection Hsel. unfold compute, transfer_selection_compute in Hsel.
    fold sampled in Hsel.
    destruct (selection_compute_loop background_at_tau ppr pba ppt tau0 bin sampled)
      as [raw | msg |]; simpl in Hsel; try discriminate.
    injection Hsel as <-. exists raw. split; [reflexivity|].
    apply array_trapezoidal_integral_normalized.
  - intros Hdirac. split; [|split].
    + unfold transfer_sources_tau_sources_size. rewrite Hdirac. reflexivity.
    + intros tau_rec index_md index_tt previous tau tau_mean mean Hsc Hte Hde Hle Htau Hmean.
      unfold transfer_source_tau_size. rewrite Hsc, Hte, Hde, Hle.
      rewrite (transfer_selection_times_dirac background_tau_of_z ppr pba ppt _ tau tau_mean
                 Hdirac Htau Hmean).
      simpl. replace (Req_b tau tau) with true by (symmetry; now apply Req_b_true).
      reflexivity.
    + intros n tau tau_mean mean Htau Hmean. unfold transfer_selection_sampling.
      rewrite (transfer_selection_times_dirac background_tau_of_z ppr pba ppt _ tau tau_mean
                 Hdirac Htau Hmean).
      simpl. replace (Req_b tau tau) with true by (symmetry; now apply Req_b_true).
      destruct (n =? 1)%Z; reflexivity.
Qed.

(** A Dirac selection function sampled at two times with weights 1 and 3, in
    a background of constant [H = 2]: the two values are [2/8], of integral
    [2/8 + 3 (2/8) = 1]; and the number-count type of the bin is sampled at
    one time. *)
Lemma transfer_selection_compute_spec_witness :
  (exists selection,
      transfer_selection_compute background_at_tau_unit ppr_default pba_unit
        ppt_density_dirac [1; 2] [1; 3] 2 14000 0 = Ok selection
      /\ array_trapezoidal_integral selection 2 [1; 3] = 1)
  /\ transfer_source_tau_size background_tau_of_z_linear ppr_default pba_unit
       ppt_density_dirac ptr_density_dirac 280 14000 0 0 7 = Ok 1%Z.
Proof.
  destruct (transfer_selection_compute_spec background_at_tau_unit background_tau_of_z_linear
              ppr_default pba_unit ppt_density_dirac ptr_density_dirac
              [1; 2] [1; 3] 2 14000 0) as (Hret & Hnorm & Hdirac).
  split.
  - destruct Hret as (selection & Hsel & _).
    { intros t _. exists [1; 2]. reflexivity. }
    exists selection. split; [exact Hsel|].
    destruct (Hnorm selection Hsel) as (raw & Hraw & Hone).
    apply Hone. simpl in Hraw. injection Hraw as <-.
    unfold array_trapezoidal_integral, transfer_selection_function, rd. simpl. lra.
  - destruct (Hdirac eq_refl) as (_ & Hsize & _).
    apply (Hsize 280 0%Z 0%Z 7%Z (14000 - 1000 * 1) (14000 - 1000 * MAX 1 0));
      reflexivity.
Defined.

(** ** No spectrum requested: [transfer_init] and [transfer_free] *)

Lemma ptr_has_cls_set (v : bool) (ptr : transfers) : ptr_has_cls (set_ptr_has_cls v ptr) = v.
Proof. destruct ptr; reflexivity. Qed.

(** Setting [has_cls] leaves the grids and their sizes as they were. *)
Lemma set_ptr_has_cls_grids (v : bool) (ptr : transfers) :
  ptr_tt_size (set_ptr_has_cls v ptr) = ptr_tt_size ptr
  /\ ptr_l_size_tt (set_ptr_has_cls v ptr) = ptr_l_size_tt ptr
  /\ ptr_l_size (set_ptr_has_cls v ptr) = ptr_l_size ptr
  /\ ptr_l (set_ptr_has_cls v ptr) = ptr_l ptr
  /\ ptr_q (set_ptr_has_cls v ptr) = ptr_q ptr
  /\ ptr_k (set_ptr_has_cls v ptr) = ptr_k ptr.
Proof. destruct ptr; repeat split. Qed.

(** C10: when the perturbation structure requests no spectrum in harmonic
    space, [transfer_init] returns at once with success, whatever the other
    inputs: it writes [has_cls = false] in the transfer structure, leaves the
    grids of the structure and the heap as they were (nothing is allocated),
    and [transfer_free] on the resulting structure succeeds and leaves the heap
    as it was (nothing is freed). *)
Theorem transfer_init_no_cls
    (transfer_init_table :
       precision -> background -> thermo -> perturbs -> transfers -> result unit)
    (ppr : precision) (pba : background) (pth : thermo) (ppt : perturbs) (ptr : transfers)
    (fuel : nat) (h : heap) :
  ppt_has_cls ppt = false ->
  exists ptr',
    transfer_init transfer_init_table ppr pba pth ppt ptr fuel h = Ok (ptr', h)
    /\ ptr_has_cls ptr' = false
    /\ ptr_tt_size ptr' = ptr_tt_size ptr
    /\ ptr_l_size_tt ptr' = ptr_l_size_tt ptr
    /\ ptr_l_size ptr' = ptr_l_size ptr
    /\ ptr_l ptr' = ptr_l ptr
    /\ ptr_q ptr' = ptr_q ptr
    /\ ptr_k ptr' = ptr_k ptr
    /\ transfer_free ptr' h = Ok h.
Proof.
  intros Hcls. exists (set_ptr_has_cls false ptr).
  unfold transfer_init, transfer_free. rewrite Hcls, ptr_has_cls_set. simpl.
  destruct (set_ptr_has_cls_grids false ptr) as (H1 & H2 & H3 & H4 & H5 & H6).
  repeat split; assumption.
Qed.

(** No spectrum requested and a heap holding one block: the
    structure is marked, and the heap is the same after [transfer_init] and
    after [transfer_free]. *)
Lemma transfer_init_no_cls_witness :
  exists ptr',
    transfer_init (fun _ _ _ _ _ => Ok tt) ppr_default pba_unit pth_unit ppt_no_cls
      ptr_blank 0 [blk_q] = Ok (ptr', [blk_q])
    /\ ptr_has_cls ptr' = false
    /\ transfer_free ptr' [blk_q] = Ok [blk_q].
Proof.
  destruct (transfer_init_no_cls (fun _ _ _ _ _ => Ok tt) ppr_default pba_unit pth_unit
              ppt_no_cls ptr_blank 0 [blk_q] eq_refl)
    as (ptr' & Hinit & Hcls & _ & _ & _ & _ & _ & _ & Hfree).
  exists ptr'. repeat split; assumption.
Defined.

(** * Properties of the other functions *)

(** ** Neglected transfer functions *)

(** Case analysis on every test of a hypothesis. *)
Ltac destruct_ifs_in H :=
  repeat match type of H with
         | context [if ?b then _ else _] => destruct b eqn:?
         end.

Lemma Rltb_le_mono (l l' b : R) : l' <= l -> Rltb l b = true -> Rltb l' b = true.
Proof. intros Hle H. apply Rltb_true in H. apply Rltb_true. lra. Qed.

Lemma Rltb_ge_mono (l l' b : R) : l <= l' -> Rltb b l = true -> Rltb b l' = true.
Proof. intros Hle H. apply Rltb_true in H. apply Rltb_true. lra. Qed.

(** The test that decided for neglecting: its flag, its type and its
    threshold. *)
Lemma transfer_can_be_neglected_true
    (ppr : precision_neglect) (ppt : perturbs) (ptr : transfers)
    (index_md index_ic index_tt : Z) (ra_rec k l : R) :
  transfer_can_be_neglected ppr ppt ptr index_md index_ic index_tt ra_rec k l = true ->
  exists delta_k,
    In delta_k (neglect_delta_k ppr)
    /\ l < (k - delta_k) * ra_rec
    /\ ((ppt_has_cl_cmb_temperature ppt = true
         /\ (index_tt = ptr_index_tt_t0 ptr \/ index_tt = ptr_index_tt_t1 ptr
             \/ index_tt = ptr_index_tt_t2 ptr))
        \/ (ppt_has_cl_cmb_polarization ppt = true
            /\ (index_tt = ptr_index_tt_e ptr \/ index_tt = ptr_index_tt_b ptr))).
Proof.
  unfold transfer_can_be_neglected. intros H.
  destruct_ifs_in H; try discriminate;
    match goal with
    | E : (_ && _ && Rltb l ((k - ?d) * ra_rec))%bool = true |- _ =>
        apply andb_true_iff in E; destruct E as [E Eb];
        apply andb_true_iff in E; destruct E as [Ef Ei];
        apply Z.eqb_eq in Ei; apply Rltb_true in Eb;
        exists d; split; [unfold neglect_delta_k; simpl; tauto|];
        split; [exact Eb|]; tauto
    end.
Qed.

(** X1: a transfer function that [transfer_can_be_neglected] neglects at
    some [l] is neglected at every smaller [l]; it is of a temperature or
    polarization type of the CMB; and [l < (k - delta_k) ra_rec] for one of
    the thresholds [delta_k] of the precision structure, so that with
    non-negative thresholds and [ra_rec] nothing is neglected at
    [l >= k ra_rec]. *)
Theorem transfer_can_be_neglected_spec
    (ppr : precision_neglect) (ppt : perturbs) (ptr : transfers)
    (index_md index_ic index_tt : Z) (ra_rec k l : R) :
  transfer_can_be_neglected ppr ppt ptr index_md index_ic index_tt ra_rec k l = true ->
  (forall l', l' <= l ->
              transfer_can_be_neglected ppr ppt ptr index_md index_ic index_tt ra_rec k l'
              = true)
  /\ ((ppt_has_cl_cmb_temperature ppt = true
       /\ (index_tt = ptr_index_tt_t0 ptr \/ index_tt = ptr_index_tt_t1 ptr
           \/ index_tt = ptr_index_tt_t2 ptr))
      \/ (ppt_has_cl_cmb_polarization ppt = true
          /\ (index_tt = ptr_index_tt_e ptr \/ index_tt = ptr_index_tt_b ptr)))
  /\ (exists delta_k, In delta_k (neglect_delta_k ppr) /\ l < (k - delta_k) * ra_rec)
  /\ (0 <= ra_rec -> (forall delta_k, In delta_k (neglect_delta_k ppr) -> 0 <= delta_k) ->
      l < k * ra_rec).
Proof.
  intros H.
  destruct (transfer_can_be_neglected_true _ _ _ _ _ _ _ _ _ H) as (d & Hin & Hlt & Hty).
  split; [|split; [exact Hty|split; [exists d; split; assumption|]]].
  - intros l' Hle. unfold transfer_can_be_neglected in *.
    destruct_ifs_in H; try discriminate;
      repeat match goal with
             | E : (_ && Rltb l ?b)%bool = true |- _ =>
                 apply andb_true_iff in E; destruct E as [E Eb];
                 rewrite E; rewrite (Rltb_le_mono l l' b Hle Eb); simpl
             end;
      destruct_ifs; reflexivity.
  - intros Hra Hpos. specialize (Hpos d Hin). nra.
Qed.

(** The temperature quadrupole of the scalar mode at [k = 0.2] with
    [ra_rec = 14000]: neglected at [l = 100], hence at [l = 50]. *)
Lemma transfer_can_be_neglected_spec_witness :
  transfer_can_be_neglected ppr_neglect_default ppt_all_types ptr_all_types 0 0 0 14000 0.2 50
  = true.
Proof.
  assert (H : transfer_can_be_neglected ppr_neglect_default ppt_all_types ptr_all_types
                0 0 0 14000 0.2 100 = true).
  { unfold transfer_can_be_neglected. simpl. settle_tests. reflexivity. }
  destruct (transfer_can_be_neglected_spec _ _ _ _ _ _ _ _ _ H) as (Hmono & _).
  apply Hmono. lra.
Defined.

(** ** The layout of the type indices *)

(** With scalar modes and without vector modes, the indices that
    [transfer_indices_of_transfers] hands out: the types common to scalars
    and tensors first, then the other types of the scalar mode in sequence;
    the tensor mode adds the B polarization after the common types. *)
Lemma transfer_indices_layout (ppt : perturbs) (ptr : transfers) :
  ppt_has_scalars ppt = true ->
  ppt_has_vectors ppt = false ->
  let ptr' := transfer_indices_of_transfers_types ppt ptr in
  let T := b2z (ppt_has_cl_cmb_temperature ppt) in
  let P := b2z (ppt_has_cl_cmb_polarization ppt) in
  let L := b2z (ppt_has_cl_cmb_lensing_potential ppt) in
  let D := b2z (ppt_has_cl_density ppt) in
  (ppt_has_cl_cmb_temperature ppt = true ->
   ptr_index_tt_t2 ptr' = 0 /\ ptr_index_tt_t0 ptr' = T + P
   /\ ptr_index_tt_t1 ptr' = T + P + 1)%Z
  /\ (ppt_has_cl_cmb_polarization ppt = true -> ptr_index_tt_e ptr' = T)
  /\ (ppt_has_cl_cmb_lensing_potential ppt = true ->
      ptr_index_tt_lcmb ptr' = 3 * T + P)%Z
  /\ (ppt_has_cl_density ppt = true -> ptr_index_tt_density ptr' = 3 * T + P + L)%Z
  /\ (ppt_has_cl_lensing_potential ppt = true ->
      ptr_index_tt_lensing ptr' = 3 * T + P + L + D * ppt_selection_num ppt)%Z
  /\ (ppt_has_tensors ppt = true -> ppt_has_cl_cmb_polarization ppt = true ->
      ptr_index_tt_b ptr' = T + P)%Z
  /\ ptr_angular_rescaling ptr' = ptr_angular_rescaling ptr
  /\ ptr_md_size ptr' = ptr_md_size ptr.
Proof.
  intros Hs Hv. unfold transfer_indices_of_transfers_types. rewrite Hs, Hv.
  destruct ptr.
  destruct (ppt_has_cl_cmb_temperature ppt), (ppt_has_cl_cmb_polarization ppt),
    (ppt_has_cl_cmb_lensing_potential ppt), (ppt_has_cl_density ppt),
    (ppt_has_cl_lensing_potential ppt), (ppt_has_tensors ppt);
    cbn -[Z.add Z.mul wr repeat]; repeat split; intros; try discriminate; lia.
Qed.

(** The tests on the windowed types, on the indices of the layout. *)
Lemma tt_tests_layout (ppt : perturbs) (ptr : transfers) (index_tt : Z) :
  ppt_has_scalars ppt = true ->
  ppt_has_vectors ppt = false ->
  let ptr' := transfer_indices_of_transfers_types ppt ptr in
  let T := b2z (ppt_has_cl_cmb_temperature ppt) in
  let P := b2z (ppt_has_cl_cmb_polarization ppt) in
  let L := b2z (ppt_has_cl_cmb_lensing_potential ppt) in
  let D := b2z (ppt_has_cl_density ppt) in
  (tt_is_lcmb ppt ptr' index_tt = true <->
   ppt_has_cl_cmb_lensing_potential ppt = true /\ index_tt = 3 * T + P)%Z
  /\ (tt_is_density ppt ptr' index_tt = true <->
      ppt_has_cl_density ppt = true
      /\ 3 * T + P + L <= index_tt < 3 * T + P + L + ppt_selection_num ppt)%Z
  /\ (tt_is_lensing ppt ptr' index_tt = true <->
      ppt_has_cl_lensing_potential ppt = true
      /\ 3 * T + P + L + D * ppt_selection_num ppt <= index_tt
         < 3 * T + P + L + D * ppt_selection_num ppt + ppt_selection_num ppt)%Z.
Proof.
  intros Hs Hv ptr' T P L D.
  destruct (transfer_indices_layout ppt ptr Hs Hv) as (_ & _ & Hl & Hd & Hg & _).
  fold ptr' in Hl, Hd, Hg. fold T in Hl, Hd, Hg. fold P in Hl, Hd, Hg.
  fold L in Hd, Hg. fold D in Hg.
  unfold tt_is_lcmb, tt_is_density, tt_is_lensing.
  rewrite !andb_true_iff, !Z.leb_le, !Z.ltb_lt, Z.eqb_eq.
  repeat split; intros; try tauto;
    repeat match goal with H : _ /\ _ |- _ => destruct H end;
    try (rewrite Hl in * by assumption); try (rewrite Hd in * by assumption);
    try (rewrite Hg in * by assumption); try assumption; try lia.
Qed.

Lemma rdi_wr_eq (a : list Z) (i v : Z) :
  (0 <= i < Z.of_nat (length a))%Z -> rdi (wr a i v) i = v.
Proof. intros H. unfold rdi, wr. apply nth_list_set_eq. lia. Qed.

Lemma rdi_wr_neq (a : list Z) (i j v : Z) :
  (0 <= i)%Z -> (0 <= j)%Z -> i <> j -> rdi (wr a i v) j = rdi a j.
Proof. intros Hi Hj H. unfold rdi, wr. apply nth_list_set_neq. lia. Qed.

(** Case analysis on the integer comparisons of the goal, closing the cases
    that contradict the context. *)
Ltac destruct_Z_tests :=
  repeat match goal with
         | |- context [(?a =? ?b)%Z] => destruct (Z.eqb_spec a b); try lia
         | |- context [(?a <=? ?b)%Z] => destruct (Z.leb_spec a b); try lia
         | |- context [(?a <? ?b)%Z] => destruct (Z.ltb_spec a b); try lia
         end.

(** The number of types recorded for the scalar mode. *)
Lemma tt_size_scalars (ppt : perturbs) (ptr : transfers) :
  ppt_has_scalars ppt = true ->
  ppt_has_vectors ppt = false ->
  (0 <= ppt_index_md_scalars ppt < ptr_md_size ptr)%Z ->
  (ppt_has_tensors ppt = true ->
   (0 <= ppt_index_md_tensors ppt)%Z /\ ppt_index_md_tensors ppt <> ppt_index_md_scalars ppt) ->
  rdi (ptr_tt_size (transfer_indices_of_transfers_types ppt ptr)) (ppt_index_md_scalars ppt)
  = scalar_type_count ppt.
Proof.
  intros Hs Hv Hmd Hten.
  unfold transfer_indices_of_transfers_types, scalar_type_count.
  rewrite Hs, Hv. destruct ptr. cbn [ptr_md_size] in Hmd.
  assert (Hlen : (0 <= ppt_index_md_scalars ppt
                  < Z.of_nat (length (repeat 0%Z (Z.to_nat ptr_md_size0))))%Z)
    by (rewrite repeat_length; lia).
  destruct (ppt_has_tensors ppt);
    [destruct (Hten eq_refl) as [Ht0 Htne]|];
    destruct (ppt_has_cl_cmb_temperature ppt), (ppt_has_cl_cmb_polarization ppt),
      (ppt_has_cl_cmb_lensing_potential ppt), (ppt_has_cl_density ppt),
      (ppt_has_cl_lensing_potential ppt);
    cbn -[Z.add Z.mul wr repeat rdi];
    rewrite ?rdi_wr_neq by lia; rewrite rdi_wr_eq by assumption; lia.
Qed.

(** The tests on the type index split the indices of the scalar mode. *)
Lemma scalar_type_tests_layout (ppt : perturbs) (ptr : transfers) (index_tt : Z) :
  ppt_has_scalars ppt = true ->
  ppt_has_vectors ppt = false ->
  (0 <= ppt_selection_num ppt)%Z ->
  scalar_type_tests ppt (transfer_indices_of_transfers_types ppt ptr) index_tt
  = if ((0 <=? index_tt) && (index_tt <? scalar_type_count ppt))%Z%bool
    then 1%Z else 0%Z.
Proof.
  intros Hs Hv Hnum. set (ptr' := transfer_indices_of_transfers_types ppt ptr).
  destruct (transfer_indices_layout ppt ptr Hs Hv) as (Ht & He & _).
  destruct (tt_tests_layout ppt ptr index_tt Hs Hv) as (Hl & Hd & Hg).
  fold ptr' in Ht, He, Hl, Hd, Hg.
  unfold scalar_type_tests, scalar_type_count.
  destruct (ppt_has_cl_cmb_temperature ppt), (ppt_has_cl_cmb_polarization ppt),
    (ppt_has_cl_cmb_lensing_potential ppt), (ppt_has_cl_density ppt),
    (ppt_has_cl_lensing_potential ppt);
    cbn [b2z andb] in *;
    try (destruct (Ht eq_refl) as (Ht2 & Ht0 & Ht1); rewrite Ht2, Ht0, Ht1);
    try (rewrite (He eq_refl));
    clear Ht He;
    destruct (tt_is_lcmb ppt ptr' index_tt), (tt_is_density ppt ptr' index_tt),
      (tt_is_lensing ppt ptr' index_tt);
    repeat match goal with
           | H : true = true <-> _ |- _ => destruct (proj1 H eq_refl); clear H
           | H : false = true <-> _ |- _ =>
               pose proof (fun X => diff_false_true (proj2 H X)); clear H
           end;
    try discriminate;
    destruct_Z_tests; cbn [b2z andb];
    try lia;
    try solve [exfalso;
               match goal with
               | H : _ /\ _ -> False |- _ => apply H; split; [reflexivity | lia]
               end].
Qed.

(** X2: with scalar modes and without vector modes, the number of types
    that [transfer_indices_of_transfers] records for the scalar mode is three
    for the temperature, one for the polarization, one for the CMB lensing
    potential and one per redshift bin for the number counts and for the
    galaxy lensing; and the tests on the type index that the other functions
    repeat split the indices below that number: exactly one test holds for
    each of them, and none for any other index. *)
Theorem transfer_indices_of_transfers_types_partition
    (ppt : perturbs) (ptr : transfers) :
  ppt_has_scalars ppt = true ->
  ppt_has_vectors ppt = false ->
  (0 <= ppt_selection_num ppt)%Z ->
  (0 <= ppt_index_md_scalars ppt < ptr_md_size ptr)%Z ->
  (ppt_has_tensors ppt = true ->
   (0 <= ppt_index_md_tensors ppt)%Z /\ ppt_index_md_tensors ppt <> ppt_index_md_scalars ppt) ->
  let ptr' := transfer_indices_of_transfers_types ppt ptr in
  rdi (ptr_tt_size ptr') (ppt_index_md_scalars ppt) = scalar_type_count ppt
  /\ forall index_tt,
       scalar_type_tests ppt ptr' index_tt
       = if ((0 <=? index_tt) && (index_tt <? scalar_type_count ppt))%Z%bool
         then 1%Z else 0%Z.
Proof.
  intros Hs Hv Hnum Hmd Hten ptr'. split.
  - apply tt_size_scalars; assumption.
  - intros index_tt. apply scalar_type_tests_layout; assumption.
Qed.

(** All requested: nine types for the scalar mode; no test holds for the
    index 9. *)
Lemma transfer_indices_of_transfers_types_partition_witness :
  rdi (ptr_tt_size ptr_all_types) 0 = 9%Z
  /\ scalar_type_tests ppt_all_types ptr_all_types 9 = 0%Z.
Proof.
  destruct (transfer_indices_of_transfers_types_partition ppt_all_types
              (set_ptr_md_size 2 ptr_blank) eq_refl eq_refl
              ltac:(simpl; lia) ltac:(simpl; lia) ltac:(intros; simpl; split; lia))
    as [Hsize Htests].
  split; [exact Hsize | exact (Htests 9%Z)].
Defined.

(** X3: [transfer_late_source_can_be_neglected] neglects the late sources
    only for [l] above [transfer_neglect_late_source * angular_rescaling],
    and then for every larger [l] too; with the indices of
    [transfer_indices_of_transfers] (scalar modes, no vector modes) it never
    neglects them, in the scalar mode, for the first temperature type [t0],
    for the CMB lensing potential, for the number counts and for the galaxy
    lensing. *)
Theorem transfer_late_source_can_be_neglected_spec
    (ppr : precision_neglect) (ppt : perturbs) (ptr : transfers)
    (index_md index_tt : Z) (l : R) :
  ppt_has_scalars ppt = true ->
  ppt_has_vectors ppt = false ->
  (0 <= ppt_selection_num ppt)%Z ->
  let ptr' := transfer_indices_of_transfers_types ppt ptr in
  (transfer_late_source_can_be_neglected ppr ppt ptr' index_md index_tt l = true ->
   ppr_transfer_neglect_late_source ppr * ptr_angular_rescaling ptr < l
   /\ forall l', l <= l' ->
                 transfer_late_source_can_be_neglected ppr ppt ptr' index_md index_tt l'
                 = true)
  /\ (_scalars_ ppt index_md = true ->
      (ppt_has_cl_cmb_temperature ppt = true /\ index_tt = ptr_index_tt_t0 ptr')
      \/ tt_is_lcmb ppt ptr' index_tt = true
      \/ tt_is_density ppt ptr' index_tt = true
      \/ tt_is_lensing ppt ptr' index_tt = true ->
      transfer_late_source_can_be_neglected ppr ppt ptr' index_md index_tt l = false).
Proof.
  intros Hs Hv Hnum ptr'.
  destruct (transfer_indices_layout ppt ptr Hs Hv) as (Ht & He & _ & _ & _ & _ & Hresc & _).
  fold ptr' in Ht, He, Hresc.
  split.
  - unfold transfer_late_source_can_be_neglected. rewrite Hresc.
    destruct (Rltb (ppr_transfer_neglect_late_source ppr * ptr_angular_rescaling ptr) l)
      eqn:El; [|discriminate].
    intros H. split; [now apply Rltb_true|].
    intros l' Hle. rewrite (Rltb_ge_mono l l' _ Hle El). exact H.
  - intros Hsc Htt.
    destruct (tt_tests_layout ppt ptr index_tt Hs Hv) as (Hl & Hd & Hg).
    fold ptr' in Hl, Hd, Hg.
    unfold transfer_late_source_can_be_neglected. rewrite Hsc.
    destruct (Rltb _ l); [|reflexivity].
    assert (Hcases :
             (ppt_has_cl_cmb_temperature ppt = true /\ index_tt = ptr_index_tt_t0 ptr')
             \/ (3 * b2z (ppt_has_cl_cmb_temperature ppt)
                 + b2z (ppt_has_cl_cmb_polarization ppt) <= index_tt)%Z).
    { destruct Htt as [Htt | [Htt | [Htt | Htt]]]; [left; exact Htt | right ..].
      - apply Hl in Htt. lia.
      - apply Hd in Htt. destruct (ppt_has_cl_cmb_lensing_potential ppt); cbn [b2z] in *; lia.
      - apply Hg in Htt.
        destruct (ppt_has_cl_cmb_lensing_potential ppt), (ppt_has_cl_density ppt);
          cbn [b2z] in *; lia. }
    clear Hl Hd Hg Htt.
    destruct (ppt_has_cl_cmb_temperature ppt), (ppt_has_cl_cmb_polarization ppt);
      cbn [b2z] in *;
      try (destruct (Ht eq_refl) as (Ht2 & Ht0 & Ht1); rewrite Ht2, Ht1);
      try (rewrite (He eq_refl));
      try reflexivity;
      (destruct Hcases as [[Hf Hc] | Hc]; [try discriminate Hf; try rewrite Ht0 in Hc|]);
      destruct_Z_tests; reflexivity.
Qed.

(** With all types requested, the late source of the temperature type [t1]
    (index 3) is neglected at [l = 500], hence at [l = 1000]. *)
Lemma transfer_late_source_can_be_neglected_spec_witness :
  transfer_late_source_can_be_neglected ppr_neglect_default ppt_all_types ptr_all_types
    0 3 1000 = true.
Proof.
  destruct (transfer_late_source_can_be_neglected_spec ppr_neglect_default ppt_all_types
              (set_ptr_md_size 2 ptr_blank) 0 3 500 eq_refl eq_refl ltac:(simpl; lia))
    as [Hmono _].
  apply Hmono; [|lra].
  unfold transfer_late_source_can_be_neglected. simpl. settle_tests. reflexivity.
Defined.

(** ** The type of a transfer function: radial function and source *)

Lemma scalar_type_tests_le_1 (ppt : perturbs) (ptr : transfers) (index_tt : Z) :
  ppt_has_scalars ppt = true ->
  ppt_has_vectors ppt = false ->
  (0 <= ppt_selection_num ppt)%Z ->
  (scalar_type_tests ppt (transfer_indices_of_transfers_types ppt ptr) index_tt <= 1)%Z.
Proof.
  intros Hs Hv Hnum. rewrite scalar_type_tests_layout by assumption.
  destruct (_ && _)%bool; lia.
Qed.

Lemma _vectors_off (ppt : perturbs) (index_md : Z) :
  ppt_has_vectors ppt = false -> _vectors_ ppt index_md = false.
Proof. intros H. unfold _vectors_. now rewrite H. Qed.

(** Case analysis on the seven tests of the scalar mode, of which at most
    one holds. *)
Ltac destruct_scalar_tests ppt ptr index_tt H :=
  unfold scalar_type_tests in H;
  destruct (ppt_has_cl_cmb_temperature ppt && (index_tt =? ptr_index_tt_t0 ptr)%Z)%bool eqn:?,
    (ppt_has_cl_cmb_temperature ppt && (index_tt =? ptr_index_tt_t1 ptr)%Z)%bool eqn:?,
    (ppt_has_cl_cmb_temperature ppt && (index_tt =? ptr_index_tt_t2 ptr)%Z)%bool eqn:?,
    (ppt_has_cl_cmb_polarization ppt && (index_tt =? ptr_index_tt_e ptr)%Z)%bool eqn:?,
    (tt_is_lcmb ppt ptr index_tt) eqn:?,
    (tt_is_density ppt ptr index_tt) eqn:?,
    (tt_is_lensing ppt ptr index_tt) eqn:?;
  cbn [b2z] in H; try lia.

(** X4: with the indices of [transfer_indices_of_transfers] (scalar modes,
    no vector modes), [transfer_select_radial_function] gives each type
    the radial function of its name: in the scalar mode the three
    temperature types and the E polarization get theirs, and the CMB lensing
    potential, the number counts and the galaxy lensing get that of the
    first temperature type; in the tensor mode the temperature, the E and
    the B polarization get theirs. *)
Theorem transfer_select_radial_function_spec
    (ppt : perturbs) (ptr : transfers) (index_md index_tt : Z) :
  ppt_has_scalars ppt = true ->
  ppt_has_vectors ppt = false ->
  (0 <= ppt_selection_num ppt)%Z ->
  let ptr' := transfer_indices_of_transfers_types ppt ptr in
  let radial_type := transfer_select_radial_function ppt ptr' index_md index_tt in
  (_scalars_ ppt index_md = true -> _tensors_ ppt index_md = false ->
   (ppt_has_cl_cmb_temperature ppt = true ->
    (index_tt = ptr_index_tt_t0 ptr' -> radial_type = SCALAR_TEMPERATURE_0)
    /\ (index_tt = ptr_index_tt_t1 ptr' -> radial_type = SCALAR_TEMPERATURE_1)
    /\ (index_tt = ptr_index_tt_t2 ptr' -> radial_type = SCALAR_TEMPERATURE_2))
   /\ (ppt_has_cl_cmb_polarization ppt = true -> index_tt = ptr_index_tt_e ptr' ->
       radial_type = SCALAR_POLARISATION_E)
   /\ (tt_is_lcmb ppt ptr' index_tt = true \/ tt_is_density ppt ptr' index_tt = true
       \/ tt_is_lensing ppt ptr' index_tt = true ->
       radial_type = SCALAR_TEMPERATURE_0))
  /\ (_tensors_ ppt index_md = true -> _scalars_ ppt index_md = false ->
      (ppt_has_cl_cmb_temperature ppt = true -> index_tt = ptr_index_tt_t2 ptr' ->
       radial_type = TENSOR_TEMPERATURE_2)
      /\ (ppt_has_cl_cmb_polarization ppt = true ->
          (index_tt = ptr_index_tt_e ptr' -> radial_type = TENSOR_POLARISATION_E)
          /\ (index_tt = ptr_index_tt_b ptr' -> radial_type = TENSOR_POLARISATION_B))).
Proof.
  intros Hs Hv Hnum ptr' radial_type. subst radial_type.
  pose proof (scalar_type_tests_le_1 ppt ptr index_tt Hs Hv Hnum) as Hone.
  fold ptr' in Hone.
  unfold transfer_select_radial_function. rewrite (_vectors_off ppt index_md Hv).
  split.
  - intros Hsc Hte. rewrite Hsc, Hte.
    split; [|split].
    + intros HT. split; [|split]; intros Heq.
      * assert (E : (ppt_has_cl_cmb_temperature ppt
                     && (index_tt =? ptr_index_tt_t0 ptr')%Z)%bool = true)
          by (rewrite HT, Heq, Z.eqb_refl; reflexivity).
        destruct_scalar_tests ppt ptr' index_tt Hone; try discriminate. reflexivity.
      * assert (E : (ppt_has_cl_cmb_temperature ppt
                     && (index_tt =? ptr_index_tt_t1 ptr')%Z)%bool = true)
          by (rewrite HT, Heq, Z.eqb_refl; reflexivity).
        destruct_scalar_tests ppt ptr' index_tt Hone; try discriminate. reflexivity.
      * assert (E : (ppt_has_cl_cmb_temperature ppt
                     && (index_tt =? ptr_index_tt_t2 ptr')%Z)%bool = true)
          by (rewrite HT, Heq, Z.eqb_refl; reflexivity).
        destruct_scalar_tests ppt ptr' index_tt Hone; try discriminate. reflexivity.
    + intros HP Heq.
      assert (E : (ppt_has_cl_cmb_polarization ppt
                   && (index_tt =? ptr_index_tt_e ptr')%Z)%bool = true)
        by (rewrite HP, Heq, Z.eqb_refl; reflexivity).
      destruct_scalar_tests ppt ptr' index_tt Hone; try discriminate. reflexivity.
    + intros Hw.
      destruct_scalar_tests ppt ptr' index_tt Hone;
        try reflexivity; destruct Hw as [Hw | [Hw | Hw]]; discriminate.
  - intros Hte Hsc. rewrite Hsc, Hte.
    assert (Hten : ppt_has_tensors ppt = true).
    { unfold _tensors_ in Hte. apply andb_true_iff in Hte. tauto. }
    destruct (transfer_indices_layout ppt ptr Hs Hv) as (Ht & He & _ & _ & _ & Hb & _).
    fold ptr' in Ht, He, Hb. specialize (Hb Hten).
    destruct (ppt_has_cl_cmb_temperature ppt), (ppt_has_cl_cmb_polarization ppt);
      cbn [b2z andb] in *;
      try (destruct (Ht eq_refl) as (Ht2 & Ht0 & Ht1); rewrite Ht2);
      try (rewrite (He eq_refl), (Hb eq_refl));
      repeat split; intros; try discriminate; subst index_tt;
      cbn; reflexivity.
Qed.

(** With all types requested: the first redshift bin of the galaxy lensing
    (index 7) of the scalar mode, and the B polarization (index 2) of the
    tensor mode. *)
Lemma transfer_select_radial_function_spec_witness :
  transfer_select_radial_function ppt_all_types ptr_all_types 0 7 = SCALAR_TEMPERATURE_0
  /\ transfer_select_radial_function ppt_all_types ptr_all_types 1 2 = TENSOR_POLARISATION_B.
Proof.
  split.
  - destruct (transfer_select_radial_function_spec ppt_all_types
                (set_ptr_md_size 2 ptr_blank) 0 7 eq_refl eq_refl ltac:(simpl; lia))
      as [Hscalar _].
    destruct (Hscalar eq_refl eq_refl) as (_ & _ & Hw). apply Hw. right. right. reflexivity.
  - destruct (transfer_select_radial_function_spec ppt_all_types
                (set_ptr_md_size 2 ptr_blank) 1 2 eq_refl eq_refl ltac:(simpl; lia))
      as [_ Htensor].
    destruct (Htensor eq_refl eq_refl) as (_ & Hp). apply (Hp eq_refl). reflexivity.
Defined.

Lemma nth_map_seq {A : Type} (f : nat -> A) (n i : nat) (d : A) :
  (i < n)%nat -> nth i (map f (seq 0 n)) d = f i.
Proof.
  intros H. rewrite (nth_indep _ d (f 0%nat)) by (rewrite length_map, length_seq; exact H).
  rewrite map_nth. rewrite seq_nth by exact H. reflexivity.
Qed.

(** X5: with the indices of [transfer_indices_of_transfers] (scalar modes,
    no vector modes), the row of the scalar mode that
    [transfer_get_source_correspondence] fills has one entry per type, and
    every entry is written, whatever the allocated memory held: the
    temperature types get the temperature sources of their name, the E
    polarization the polarization source, and the CMB lensing potential, the
    number counts and the galaxy lensing the source of the gravitational
    potential. *)
Theorem transfer_get_source_correspondence_spec
    (ppt : perturbs) (ptp : perturbs_tp) (ptr : transfers) (fresh : Z -> Z -> Z) :
  ppt_has_scalars ppt = true ->
  ppt_has_vectors ppt = false ->
  (0 <= ppt_selection_num ppt)%Z ->
  (0 <= ppt_index_md_scalars ppt < ptr_md_size ptr)%Z ->
  (ppt_has_tensors ppt = true ->
   (0 <= ppt_index_md_tensors ppt)%Z /\ ppt_index_md_tensors ppt <> ppt_index_md_scalars ppt) ->
  let ptr' := transfer_indices_of_transfers_types ppt ptr in
  let row := nth (Z.to_nat (ppt_index_md_scalars ppt))
               (transfer_get_source_correspondence ppt ptp ptr' fresh) [] in
  Z.of_nat (length row) = scalar_type_count ppt
  /\ (forall fresh',
         nth (Z.to_nat (ppt_index_md_scalars ppt))
           (transfer_get_source_correspondence ppt ptp ptr' fresh') [] = row)
  /\ forall index_tt, (0 <= index_tt < scalar_type_count ppt)%Z ->
       (ppt_has_cl_cmb_temperature ppt = true ->
        (index_tt = ptr_index_tt_t0 ptr' -> rdi row index_tt = ppt_index_tp_t0 ptp)
        /\ (index_tt = ptr_index_tt_t1 ptr' -> rdi row index_tt = ppt_index_tp_t1 ptp)
        /\ (index_tt = ptr_index_tt_t2 ptr' -> rdi row index_tt = ppt_index_tp_t2 ptp))
       /\ (ppt_has_cl_cmb_polarization ppt = true -> index_tt = ptr_index_tt_e ptr' ->
           rdi row index_tt = ppt_index_tp_p ptp)
       /\ (tt_is_lcmb ppt ptr' index_tt = true \/ tt_is_density ppt ptr' index_tt = true
           \/ tt_is_lensing ppt ptr' index_tt = true ->
           rdi row index_tt = ppt_index_tp_g ptp).
Proof.
  intros Hs Hv Hnum Hmd Hten ptr' row.
  pose proof (tt_size_scalars ppt ptr Hs Hv Hmd Hten) as Hsize. fold ptr' in Hsize.
  assert (Hcount : (0 <= scalar_type_count ppt)%Z).
  { unfold scalar_type_count.
    destruct (ppt_has_cl_cmb_temperature ppt), (ppt_has_cl_cmb_polarization ppt),
      (ppt_has_cl_cmb_lensing_potential ppt), (ppt_has_cl_density ppt),
      (ppt_has_cl_lensing_potential ppt); cbn [b2z]; lia. }
  assert (Hmd' : ptr_md_size ptr' = ptr_md_size ptr)
    by (apply (transfer_indices_layout ppt ptr Hs Hv)).
  assert (Hrow : forall f,
             nth (Z.to_nat (ppt_index_md_scalars ppt))
               (transfer_get_source_correspondence ppt ptp ptr' f) []
             = map (fun index_tt =>
                      source_correspondence_entry ppt ptp ptr' (ppt_index_md_scalars ppt)
                        (Z.of_nat index_tt)
                        (f (ppt_index_md_scalars ppt) (Z.of_nat index_tt)))
                 (seq 0 (Z.to_nat (scalar_type_count ppt)))).
  { intros f. unfold transfer_get_source_correspondence.
    rewrite nth_map_seq by (rewrite Hmd'; lia).
    rewrite Z2Nat.id by lia. rewrite Hsize. reflexivity. }
  assert (Hsc : _scalars_ ppt (ppt_index_md_scalars ppt) = true)
    by (unfold _scalars_; rewrite Hs, Z.eqb_refl; reflexivity).
  assert (Hte : _tensors_ ppt (ppt_index_md_scalars ppt) = false).
  { unfold _tensors_. destruct (ppt_has_tensors ppt); [|reflexivity].
    destruct (Hten eq_refl) as [_ Hne]. simpl. apply Z.eqb_neq. congruence. }
  assert (Hentry : forall index_tt previous,
             (0 <= index_tt < scalar_type_count ppt)%Z ->
             let entry :=
               source_correspondence_entry ppt ptp ptr' (ppt_index_md_scalars ppt)
                 index_tt previous in
             entry = source_correspondence_entry ppt ptp ptr' (ppt_index_md_scalars ppt)
                       index_tt 0
             /\ ((ppt_has_cl_cmb_temperature ppt && (index_tt =? ptr_index_tt_t0 ptr')%Z)%bool
                 = true -> entry = ppt_index_tp_t0 ptp)
             /\ ((ppt_has_cl_cmb_temperature ppt && (index_tt =? ptr_index_tt_t1 ptr')%Z)%bool
                 = true -> entry = ppt_index_tp_t1 ptp)
             /\ ((ppt_has_cl_cmb_temperature ppt && (index_tt =? ptr_index_tt_t2 ptr')%Z)%bool
                 = true -> entry = ppt_index_tp_t2 ptp)
             /\ ((ppt_has_cl_cmb_polarization ppt && (index_tt =? ptr_index_tt_e ptr')%Z)%bool
                 = true -> entry = ppt_index_tp_p ptp)
             /\ (tt_is_lcmb ppt ptr' index_tt = true \/ tt_is_density ppt ptr' index_tt = true
                 \/ tt_is_lensing ppt ptr' index_tt = true -> entry = ppt_index_tp_g ptp)).
  { intros index_tt previous Hin entry. subst entry.
    pose proof (scalar_type_tests_layout ppt ptr index_tt Hs Hv Hnum) as Hone.
    fold ptr' in Hone.
    replace ((0 <=? index_tt)%Z && (index_tt <? scalar_type_count ppt)%Z)%bool with true
      in Hone by (symmetry; apply andb_true_iff; split; [apply Z.leb_le | apply Z.ltb_lt]; lia).
    unfold source_correspondence_entry.
    rewrite Hsc, Hte, (_vectors_off ppt _ Hv).
    destruct_scalar_tests ppt ptr' index_tt Hone;
      repeat split; intros; try discriminate; try reflexivity;
      repeat match goal with H : _ \/ _ |- _ => destruct H end; discriminate. }
  split; [|split].
  - unfold row. rewrite Hrow, length_map, length_seq. lia.
  - intros fresh'. unfold row. rewrite !Hrow. apply map_ext_in.
    intros i Hi. apply in_seq in Hi.
    destruct (Hentry (Z.of_nat i) (fresh' (ppt_index_md_scalars ppt) (Z.of_nat i))
                ltac:(lia)) as [-> _].
    destruct (Hentry (Z.of_nat i) (fresh (ppt_index_md_scalars ppt) (Z.of_nat i))
                ltac:(lia)) as [-> _].
    reflexivity.
  - intros index_tt Hin.
    assert (Hrd : rdi row index_tt
                  = source_correspondence_entry ppt ptp ptr' (ppt_index_md_scalars ppt)
                      index_tt (fresh (ppt_index_md_scalars ppt) index_tt)).
    { unfold row, rdi. rewrite Hrow. rewrite nth_map_seq by lia.
      rewrite Z2Nat.id by lia. reflexivity. }
    rewrite Hrd.
    destruct (Hentry index_tt (fresh (ppt_index_md_scalars ppt) index_tt) Hin)
      as (_ & H0 & H1 & H2 & He & Hw).
    split; [|split; [|exact Hw]].
    + intros HT. rewrite HT in *. split; [|split]; intros Heq;
        [apply H0 | apply H1 | apply H2]; rewrite Heq, Z.eqb_refl; reflexivity.
    + intros HP Heq. apply He. rewrite HP, Heq, Z.eqb_refl. reflexivity.
Qed.

(** With all types requested and a memory full of [-1]: the row of the
    scalar mode has nine entries, and that of the second bin of the number
    counts (index 6) is the source of the gravitational potential. *)
Lemma transfer_get_source_correspondence_spec_witness :
  Z.of_nat (length (nth 0 (transfer_get_source_correspondence ppt_all_types ptp_default
                             ptr_all_types (fun _ _ => (-1)%Z)) [])) = 9%Z
  /\ rdi (nth 0 (transfer_get_source_correspondence ppt_all_types ptp_default
                   ptr_all_types (fun _ _ => (-1)%Z)) []) 6 = 4%Z.
Proof.
  destruct (transfer_get_source_correspondence_spec ppt_all_types ptp_default
              (set_ptr_md_size 2 ptr_blank) (fun _ _ => (-1)%Z) eq_refl eq_refl
              ltac:(simpl; lia) ltac:(simpl; lia) ltac:(intros; simpl; split; lia))
    as (Hlen & _ & Hrow).
  split; [exact Hlen|].
  destruct (Hrow 6%Z ltac:(vm_compute; split; [discriminate | reflexivity])) as (_ & _ & Hw).
  apply Hw. right. left. reflexivity.
Defined.

(** ** Arrays filled by a loop *)

Lemma array_fill_spec {A : Type} (first : Z) (f : Z -> A) (n : nat) :
  (0 <= first)%Z ->
  forall a : list A,
    let r := fold_left (fun a i => wr a (first + Z.of_nat i)%Z (f (first + Z.of_nat i)%Z))
               (seq 0 n) a in
    length r = length a
    /\ forall j d,
         nth j r d
         = if ((Z.to_nat first <=? j)%nat && (j <? Z.to_nat first + n)%nat
               && (j <? length a)%nat)%bool
           then f (Z.of_nat j) else nth j a d.
Proof.
  intros Hfirst. induction n as [|n IH]; intros a r.
  - subst r. simpl. split; [reflexivity|]. intros j d.
    destruct (Nat.leb_spec (Z.to_nat first) j), (Nat.ltb_spec j (Z.to_nat first + 0));
      simpl; try reflexivity; lia.
  - subst r. rewrite seq_S, fold_left_app. simpl.
    destruct (IH a) as [Hlen Hnth]. cbv zeta in Hlen, Hnth.
    set (r := fold_left _ (seq 0 n) a) in *.
    unfold wr. rewrite list_set_length. split; [exact Hlen|].
    intros j d.
    destruct (Nat.eq_dec (Z.to_nat (first + Z.of_nat n)) j) as [Heq | Hne].
    + subst j. replace (Z.to_nat (first + Z.of_nat n)) with (Z.to_nat first + n)%nat by lia.
      destruct (Z.to_nat first + n <? length a)%nat eqn:El.
      * apply Nat.ltb_lt in El. rewrite nth_list_set_eq by lia.
        replace (Z.to_nat first <=? Z.to_nat first + n)%nat with true
          by (symmetry; apply Nat.leb_le; lia).
        replace (Z.to_nat first + n <? Z.to_nat first + S n)%nat with true
          by (symmetry; apply Nat.ltb_lt; lia).
        simpl. f_equal. lia.
      * apply Nat.ltb_ge in El. rewrite andb_false_r.
        rewrite !nth_overflow; try reflexivity; try lia.
        rewrite list_set_length. lia.
    + rewrite nth_list_set_neq by exact Hne. rewrite Hnth.
      replace (j <? Z.to_nat first + S n)%nat with (j <? Z.to_nat first + n)%nat; [reflexivity|].
      destruct (Nat.ltb_spec j (Z.to_nat first + n)), (Nat.ltb_spec j (Z.to_nat first + S n));
        try reflexivity; lia.
Qed.

Lemma array_fill_length {A : Type} (first last : Z) (f : Z -> A) (a : list A) :
  (0 <= first)%Z -> length (array_fill first last f a) = length a.
Proof. intros H. unfold array_fill. apply (array_fill_spec first f _ H a). Qed.

Lemma array_fill_in {A : Type} (first last : Z) (f : Z -> A) (a : list A) (j : Z) (d : A) :
  (0 <= first <= j)%Z -> (j < last)%Z -> (j < Z.of_nat (length a))%Z ->
  nth (Z.to_nat j) (array_fill first last f a) d = f j.
Proof.
  intros H1 H2 H3. unfold array_fill.
  destruct (array_fill_spec first f (Z.to_nat (last - first)) ltac:(lia) a) as [_ Hnth].
  cbv zeta in Hnth. rewrite Hnth.
  replace (Z.to_nat first <=? Z.to_nat j)%nat with true by (symmetry; apply Nat.leb_le; lia).
  replace (Z.to_nat j <? Z.to_nat first + Z.to_nat (last - first))%nat with true
    by (symmetry; apply Nat.ltb_lt; lia).
  replace (Z.to_nat j <? length a)%nat with true by (symmetry; apply Nat.ltb_lt; lia).
  simpl. f_equal. lia.
Qed.

Lemma array_fill_out {A : Type} (first last : Z) (f : Z -> A) (a : list A) (j : nat) (d : A) :
  (0 <= first)%Z -> (Z.of_nat j < first \/ last <= Z.of_nat j)%Z ->
  nth j (array_fill first last f a) d = nth j a d.
Proof.
  intros H1 H2. unfold array_fill.
  destruct (array_fill_spec first f (Z.to_nat (last - first)) ltac:(lia) a) as [_ Hnth].
  cbv zeta in Hnth. rewrite Hnth.
  destruct (Nat.leb_spec (Z.to_nat first) j); [|reflexivity].
  destruct (Nat.ltb_spec j (Z.to_nat first + Z.to_nat (last - first))); [lia|reflexivity].
Qed.

(** ** Time steps *)

Lemma time_steps_telescope (t : nat -> R) (m : nat) :
  (1 <= m)%nat ->
  sum_upto (fun i => match i with O => t 0%nat - t 1%nat | S p => t p - t (S (S p)) end) m
  = 2 * t 0%nat - t (m - 1)%nat - t m.
Proof.
  induction m as [|m IH]; intros Hm; [lia|].
  destruct m as [|m].
  - simpl. ring.
  - change (sum_upto ?f (S (S m))) with (sum_upto f (S m) + f (S m)).
    rewrite IH by lia. cbv beta iota.
    replace (S m - 1)%nat with m by lia. replace (S (S m) - 1)%nat with (S m) by lia. ring.
Qed.

(** X6: for [tau_size >= 2] samples, [transfer_integration_time_steps]
    writes [t[0]-t[1]] first, [t[i-1]-t[i+1]] in between and
    [t[n-2]-t[n-1]] last, and leaves the rest of the array as it was; the
    steps add up to twice the length [t[0]-t[n-1]] of the interval, and none
    is negative when the samples do not increase.  For one sample the step
    is 2. *)
Theorem transfer_integration_time_steps_spec
    (tau0_minus_tau delta_tau : list R) (tau_size : Z) :
  (1 <= tau_size <= Z.of_nat (length delta_tau))%Z ->
  let t := rd tau0_minus_tau in
  let w := transfer_integration_time_steps tau0_minus_tau tau_size delta_tau in
  length w = length delta_tau
  /\ (forall j, (tau_size <= Z.of_nat j)%Z -> nth j w 0 = nth j delta_tau 0)
  /\ (tau_size = 1%Z -> rd w 0 = 2)
  /\ ((2 <= tau_size)%Z ->
      rd w 0 = t 0%Z - t 1%Z
      /\ (forall i, (1 <= i < tau_size - 1)%Z -> rd w i = t (i - 1)%Z - t (i + 1)%Z)
      /\ rd w (tau_size - 1) = t (tau_size - 2)%Z - t (tau_size - 1)%Z
      /\ sum_upto (fun i => nth i w 0) (Z.to_nat tau_size)
         = 2 * (t 0%Z - t (tau_size - 1)%Z)
      /\ ((forall i, (0 <= i < tau_size - 1)%Z -> t (i + 1)%Z <= t i) ->
          forall i, (0 <= i < tau_size)%Z -> 0 <= rd w i)).
Proof.
  intros Hsize t w.
  assert (Hone : tau_size = 1%Z ->
                 length w = length delta_tau
                 /\ (forall j, (tau_size <= Z.of_nat j)%Z -> nth j w 0 = nth j delta_tau 0)
                 /\ rd w 0 = 2).
  { intros H1. subst w. unfold transfer_integration_time_steps. rewrite H1. simpl.
    unfold wr, rd. rewrite list_set_length. repeat split.
    - intros j Hj. apply nth_list_set_neq. lia.
    - apply nth_list_set_eq. lia. }
  assert (Htwo : (2 <= tau_size)%Z ->
                 length w = length delta_tau
                 /\ (forall j, (tau_size <= Z.of_nat j)%Z -> nth j w 0 = nth j delta_tau 0)
                 /\ rd w 0 = t 0%Z - t 1%Z
                 /\ (forall i, (1 <= i < tau_size - 1)%Z ->
                               rd w i = t (i - 1)%Z - t (i + 1)%Z)
                 /\ rd w (tau_size - 1) = t (tau_size - 2)%Z - t (tau_size - 1)%Z).
  { intros H2. subst w. unfold transfer_integration_time_steps.
    replace (tau_size =? 1)%Z with false by (symmetry; apply Z.eqb_neq; lia).
    set (d0 := wr delta_tau 0 _).
    assert (Hd0 : length d0 = length delta_tau) by (apply list_set_length).
    set (d1 := array_fill 1 (tau_size - 1) _ d0).
    assert (Hd1 : length d1 = length delta_tau)
      by (unfold d1; rewrite array_fill_length by lia; exact Hd0).
    unfold wr, rd. rewrite list_set_length. split; [exact Hd1|].
    split; [|split; [|split]].
    - intros j Hj. rewrite nth_list_set_neq by lia. unfold d1.
      rewrite array_fill_out by lia. unfold d0, wr. apply nth_list_set_neq. lia.
    - rewrite nth_list_set_neq by lia. unfold d1.
      rewrite array_fill_out by (simpl; lia). unfold d0, wr.
      rewrite nth_list_set_eq by (simpl; lia). reflexivity.
    - intros i Hi. rewrite nth_list_set_neq by lia. unfold d1.
      rewrite array_fill_in by lia. reflexivity.
    - apply nth_list_set_eq. lia. }
  split; [destruct (Z.eq_dec tau_size 1) as [H|H]; [apply Hone | apply Htwo]; lia|].
  split; [destruct (Z.eq_dec tau_size 1) as [H|H]; [apply Hone | apply Htwo]; lia|].
  split; [intros H; apply Hone; exact H|].
  intros H2. destruct (Htwo H2) as (_ & _ & H0 & Hmid & Hlast).
  split; [exact H0|]. split; [exact Hmid|]. split; [exact Hlast|].
  split.
  - set (tn := fun i : nat => nth i tau0_minus_tau 0).
    assert (Ht : forall i : nat, t (Z.of_nat i) = tn i)
      by (intros i; unfold t, tn, rd; now rewrite Nat2Z.id).
    replace (Z.to_nat tau_size) with (S (Z.to_nat tau_size - 1)) by lia.
    change (sum_upto ?f (S ?m)) with (sum_upto f m + f m).
    rewrite (sum_upto_ext _
               (fun i => match i with
                         | O => tn 0%nat - tn 1%nat
                         | S p => tn p - tn (S (S p))
                         end)).
    + rewrite time_steps_telescope by lia.
      replace (nth (Z.to_nat tau_size - 1) w 0) with (rd w (tau_size - 1))
        by (unfold rd; f_equal; lia).
      rewrite Hlast.
      replace (tau_size - 2)%Z with (Z.of_nat (Z.to_nat tau_size - 1 - 1)) by lia.
      replace (tau_size - 1)%Z with (Z.of_nat (Z.to_nat tau_size - 1)) at 1 2 by lia.
      replace 0%Z with (Z.of_nat 0) by reflexivity.
      rewrite !Ht. ring.
    + intros i Hi. destruct i as [|p].
      * change (nth 0 w 0) with (rd w 0). rewrite H0.
        change 0%Z with (Z.of_nat 0). change 1%Z with (Z.of_nat 1). now rewrite !Ht.
      * replace (nth (S p) w 0) with (rd w (Z.of_nat (S p)))
          by (unfold rd; now rewrite Nat2Z.id).
        rewrite Hmid by lia.
        replace (Z.of_nat (S p) - 1)%Z with (Z.of_nat p) by lia.
        replace (Z.of_nat (S p) + 1)%Z with (Z.of_nat (S (S p))) by lia.
        now rewrite !Ht.
  - intros Hmono i Hi.
    destruct (Z.eq_dec i 0) as [-> | Hi0].
    + rewrite H0. specialize (Hmono 0%Z ltac:(lia)). simpl in Hmono. lra.
    + destruct (Z.eq_dec i (tau_size - 1)) as [-> | Hil].
      * rewrite Hlast. specialize (Hmono (tau_size - 2)%Z ltac:(lia)).
        replace (tau_size - 2 + 1)%Z with (tau_size - 1)%Z in Hmono by lia. lra.
      * rewrite Hmid by lia.
        pose proof (Hmono (i - 1)%Z ltac:(lia)) as Ha.
        pose proof (Hmono i ltac:(lia)) as Hb.
        replace (i - 1 + 1)%Z with i in Ha by lia. lra.
Qed.

(** Four samples at [tau0-tau = 9, 6, 4, 1]: the steps are [3, 5, 5, 3], of
    sum [2 (9 - 1)]. *)
Lemma transfer_integration_time_steps_spec_witness :
  transfer_integration_time_steps [9; 6; 4; 1] 4 [0; 0; 0; 0] = [9 - 6; 9 - 4; 6 - 1; 4 - 1]
  /\ sum_upto (fun i => nth i (transfer_integration_time_steps [9; 6; 4; 1] 4 [0; 0; 0; 0]) 0)
       4 = 2 * (9 - 1).
Proof.
  destruct (transfer_integration_time_steps_spec [9; 6; 4; 1] [0; 0; 0; 0] 4
              ltac:(simpl; lia)) as (_ & _ & _ & Htwo).
  destruct (Htwo ltac:(lia)) as (_ & _ & _ & Hsum & _).
  split; [reflexivity | exact Hsum].
Defined.

(** ** The samplings in time of the windowed sources *)

Lemma rd_map_seq (f : nat -> R) (n : nat) (i : Z) :
  (0 <= i < Z.of_nat n)%Z -> rd (map f (seq 0 n)) i = f (Z.to_nat i).
Proof. intros H. unfold rd. apply nth_map_seq. lia. Qed.

(** X7: for a selection function that is not a Dirac ([tau_min] differs from
    [tau_max]) and [tau_size >= 2], [transfer_selection_sampling] returns
    [tau_size] values of [tau0-tau], from [conformal_age - tau_min] to
    [conformal_age - tau_max] in equal steps of
    [(tau_max - tau_min)/(tau_size - 1)], hence decreasing when
    [tau_min < tau_max]. *)
Theorem transfer_selection_sampling_spec
    (background_tau_of_z : background -> R -> result R)
    (ppr : precision) (pba : background) (ppt : perturbs) (bin tau_size : Z)
    (tau_min tau_mean tau_max : R) :
  transfer_selection_times background_tau_of_z ppr pba ppt bin
  = Ok (tau_min, tau_mean, tau_max) ->
  tau_min <> tau_max ->
  (2 <= tau_size)%Z ->
  exists t,
    transfer_selection_sampling background_tau_of_z ppr pba ppt bin tau_size = Ok t
    /\ Z.of_nat (length t) = tau_size
    /\ rd t 0 = pba_conformal_age pba - tau_min
    /\ rd t (tau_size - 1) = pba_conformal_age pba - tau_max
    /\ (forall i, (0 <= i < tau_size - 1)%Z ->
                  rd t i - rd t (i + 1) = (tau_max - tau_min) / (IZR tau_size - 1))
    /\ (tau_min < tau_max ->
        forall i, (0 <= i < tau_size - 1)%Z -> rd t (i + 1) < rd t i).
Proof.
  intros Htimes Hne Hsize. unfold transfer_selection_sampling. rewrite Htimes. simpl.
  replace (Req_b tau_min tau_max) with false by (symmetry; now apply Req_b_false).
  eexists. split; [reflexivity|].
  assert (Hn : 0 < IZR tau_size - 1) by (apply IZR_le in Hsize; lra).
  assert (Hstep : forall i, (0 <= i < tau_size - 1)%Z ->
             INR (Z.to_nat (i + 1)) = INR (Z.to_nat i) + 1).
  { intros i Hi. replace (Z.to_nat (i + 1)) with (S (Z.to_nat i)) by lia. apply S_INR. }
  split; [rewrite length_map, length_seq; lia|].
  split; [rewrite rd_map_seq by lia; simpl; field; lra|].
  split.
  - rewrite rd_map_seq by lia.
    replace (INR (Z.to_nat (tau_size - 1))) with (IZR tau_size - 1).
    + field. lra.
    + rewrite INR_IZR_INZ, Z2Nat.id by lia. rewrite minus_IZR. reflexivity.
  - assert (Hspace : forall i, (0 <= i < tau_size - 1)%Z ->
               rd (map (fun index_tau : nat =>
                          pba_conformal_age pba - tau_min
                          - INR index_tau / (IZR tau_size - 1) * (tau_max - tau_min))
                     (seq 0 (Z.to_nat tau_size))) i
               - rd (map (fun index_tau : nat =>
                            pba_conformal_age pba - tau_min
                            - INR index_tau / (IZR tau_size - 1) * (tau_max - tau_min))
                       (seq 0 (Z.to_nat tau_size))) (i + 1)
               = (tau_max - tau_min) / (IZR tau_size - 1)).
    { intros i Hi. rewrite !rd_map_seq by lia. rewrite (Hstep i Hi). field. lra. }
    split; [exact Hspace|].
    intros Hlt i Hi. specialize (Hspace i Hi).
    assert (0 < (tau_max - tau_min) / (IZR tau_size - 1))
      by (apply Rdiv_lt_0_compat; lra).
    lra.
Qed.

(** A Gaussian bin at [z = 1] of width 0.1, cut at five widths, in a
    background where [tau = 14000 - 1000 z]: the last of five samples is at
    the lower redshift [z = 0.5]. *)
Lemma transfer_selection_sampling_spec_witness :
  exists t,
    transfer_selection_sampling background_tau_of_z_linear ppr_default pba_unit
      ppt_all_types 0 5 = Ok t
    /\ rd t (5 - 1) = pba_conformal_age pba_unit - (14000 - 1000 * MAX (1 - 0.1 * 5) 0).
Proof.
  destruct (transfer_selection_sampling_spec background_tau_of_z_linear ppr_default
              pba_unit ppt_all_types 0 5
              (14000 - 1000 * (1 + 0.1 * 5)) (14000 - 1000 * MAX 1 0)
              (14000 - 1000 * MAX (1 - 0.1 * 5) 0))
    as (t & Ht & _ & _ & Hlast & _).
  - reflexivity.
  - unfold MAX. destruct (Rlt_dec 0 (1 - 0.1 * 5)); lra.
  - lia.
  - exists t. split; [exact Ht | exact Hlast].
Defined.

(** X8: for [tau_size >= 2], [transfer_lensing_sampling] returns [tau_size]
    values of [tau0-tau], from [tau0 - tau_min] down to exactly 0 (today) in
    equal steps of [(tau0 - tau_min)/(tau_size - 1)]; when [tau_min < tau0]
    they decrease and only the last one is 0. *)
Theorem transfer_lensing_sampling_spec
    (background_tau_of_z : background -> R -> result R)
    (ppr : precision) (pba : background) (ppt : perturbs) (bin tau_size : Z)
    (tau0 tau_min tau_mean tau_max : R) :
  transfer_selection_times background_tau_of_z ppr pba ppt bin
  = Ok (tau_min, tau_mean, tau_max) ->
  (2 <= tau_size)%Z ->
  exists t,
    transfer_lensing_sampling background_tau_of_z ppr pba ppt bin tau0 tau_size = Ok t
    /\ Z.of_nat (length t) = tau_size
    /\ rd t 0 = tau0 - tau_min
    /\ rd t (tau_size - 1) = 0
    /\ (forall i, (0 <= i < tau_size - 1)%Z ->
                  rd t i - rd t (i + 1) = (tau0 - tau_min) / IZR (tau_size - 1))
    /\ (tau_min < tau0 ->
        forall i, (0 <= i < tau_size - 1)%Z -> rd t (i + 1) < rd t i /\ 0 < rd t i).
Proof.
  intros Htimes Hsize. unfold transfer_lensing_sampling. rewrite Htimes. simpl.
  eexists. split; [reflexivity|].
  assert (Hn : 0 < IZR (tau_size - 1)) by (apply IZR_lt; lia).
  set (f := fun index_tau : nat =>
              IZR (tau_size - 1 - Z.of_nat index_tau) / IZR (tau_size - 1)
              * (tau0 - tau_min)).
  assert (Hrd : forall i, (0 <= i < tau_size)%Z ->
                          rd (map f (seq 0 (Z.to_nat tau_size))) i
                          = IZR (tau_size - 1 - i) / IZR (tau_size - 1) * (tau0 - tau_min)).
  { intros i Hi. rewrite rd_map_seq by lia. unfold f. rewrite Z2Nat.id by lia. reflexivity. }
  split; [rewrite length_map, length_seq; lia|].
  split; [rewrite Hrd by lia; rewrite Z.sub_0_r; field; lra|].
  split; [rewrite Hrd by lia; rewrite Z.sub_diag; unfold Rdiv; ring|].
  assert (Hspace : forall i, (0 <= i < tau_size - 1)%Z ->
             rd (map f (seq 0 (Z.to_nat tau_size))) i
             - rd (map f (seq 0 (Z.to_nat tau_size))) (i + 1)
             = (tau0 - tau_min) / IZR (tau_size - 1)).
  { intros i Hi. rewrite !Hrd by lia.
    replace (tau_size - 1 - i)%Z with (tau_size - 1 - (i + 1) + 1)%Z by lia.
    rewrite plus_IZR. field. lra. }
  split; [exact Hspace|].
  intros Hlt i Hi.
  assert (Hpos : 0 < (tau0 - tau_min) / IZR (tau_size - 1))
    by (apply Rdiv_lt_0_compat; lra).
  split; [specialize (Hspace i Hi); lra|].
  rewrite Hrd by lia.
  assert (Hi' : 0 < IZR (tau_size - 1 - i)) by (apply IZR_lt; lia).
  apply Rmult_lt_0_compat; [apply Rdiv_lt_0_compat|]; lra.
Qed.

(** The same bin sampled at five times up to today, with
    [tau0 = 14000]: the last sample is today. *)
Lemma transfer_lensing_sampling_spec_witness :
  exists t,
    transfer_lensing_sampling background_tau_of_z_linear ppr_default pba_unit
      ppt_all_types 0 14000 5 = Ok t
    /\ rd t 0 = 14000 - (14000 - 1000 * (1 + 0.1 * 5))
    /\ rd t (5 - 1) = 0.
Proof.
  destruct (transfer_lensing_sampling_spec background_tau_of_z_linear ppr_default
              pba_unit ppt_all_types 0 5 14000
              (14000 - 1000 * (1 + 0.1 * 5)) (14000 - 1000 * MAX 1 0)
              (14000 - 1000 * MAX (1 - 0.1 * 5) 0))
    as (t & Ht & _ & Hfirst & Hlast & _).
  - reflexivity.
  - lia.
  - exists t. split; [exact Ht | split; [exact Hfirst | exact Hlast]].
Defined.

(** ** Radial coordinates *)

Lemma rd_array_fill_in (first last : Z) (f : Z -> R) (a : list R) (j : Z) :
  (0 <= first <= j)%Z -> (j < last)%Z -> (j < Z.of_nat (length a))%Z ->
  rd (array_fill first last f a) j = f j.
Proof. intros. unfold rd. now apply array_fill_in. Qed.

Lemma cosh2_sinh2 (x : R) : cosh x * cosh x - sinh x * sinh x = 1.
Proof.
  unfold cosh, sinh.
  assert (H : exp x * exp (- x) = 1) by (rewrite <- exp_plus, Rplus_opp_r; apply exp_0).
  field_simplify. nra.
Qed.

Lemma sinh_nonzero (x : R) : x <> 0 -> sinh x <> 0.
Proof.
  intros H. destruct (Rtotal_order x 0) as [Hlt | [Heq | Hgt]]; [|contradiction|].
  - apply sinh_lt in Hlt. rewrite sinh_0 in Hlt. lra.
  - apply sinh_lt in Hgt. rewrite sinh_0 in Hgt. lra.
Qed.

(** X9: [transfer_radial_coordinates] writes the first [tau_size] entries of
    its three arrays and leaves the rest; at each sampled time, [chi] is
    [sqrt(|K|) (tau0-tau)] in curved space and [k (tau0-tau)] in flat space,
    and the generalized cosecant and cotangent satisfy
    [cscKgen^2 - cotKgen^2 = K/k^2]: in closed space where [sin(chi)] is not
    0, in open space where [tau0-tau] is not 0, and in flat space with both
    equal to [1/chi]. *)
Theorem transfer_radial_coordinates_spec
    (ptr : transfers) (ptw : transfer_workspace) (index_md index_q : Z)
    (chi cscKgen cotKgen : list R) :
  (0 <= ptw_tau_size ptw)%Z ->
  (ptw_tau_size ptw <= Z.of_nat (length chi))%Z ->
  (ptw_tau_size ptw <= Z.of_nat (length cscKgen))%Z ->
  (ptw_tau_size ptw <= Z.of_nat (length cotKgen))%Z ->
  let k := rd (nth (Z.to_nat index_md) (ptr_k ptr) []) index_q in
  let t := rd (ptw_tau0_minus_tau ptw) in
  let r := transfer_radial_coordinates ptr ptw index_md index_q chi cscKgen cotKgen in
  let chi' := fst (fst r) in
  let csc' := snd (fst r) in
  let cot' := snd r in
  k <> 0 ->
  (length chi' = length chi /\ length csc' = length cscKgen /\ length cot' = length cotKgen)
  /\ (forall j, (ptw_tau_size ptw <= Z.of_nat j)%Z ->
                nth j chi' 0 = nth j chi 0 /\ nth j csc' 0 = nth j cscKgen 0
                /\ nth j cot' 0 = nth j cotKgen 0)
  /\ forall i, (0 <= i < ptw_tau_size ptw)%Z ->
       (ptw_sgnK ptw = 1%Z -> 0 <= ptw_K ptw -> sin (sqrt (ptw_K ptw) * t i) <> 0 ->
        rd chi' i = sqrt (ptw_K ptw) * t i
        /\ rd csc' i * rd csc' i - rd cot' i * rd cot' i = ptw_K ptw / (k * k))
       /\ (ptw_sgnK ptw = 0%Z ->
           rd chi' i = k * t i /\ rd csc' i = 1 / (k * t i) /\ rd cot' i = 1 / (k * t i))
       /\ (ptw_sgnK ptw = (-1)%Z -> ptw_K ptw < 0 -> t i <> 0 ->
           rd chi' i = sqrt (- ptw_K ptw) * t i
           /\ rd csc' i * rd csc' i - rd cot' i * rd cot' i = ptw_K ptw / (k * k)).
Proof.
  intros Hn Hchi Hcsc Hcot k t r chi' csc' cot' Hk.
  subst chi' csc' cot' r. unfold transfer_radial_coordinates. fold k. fold t.
  split; [|split].
  - destruct_ifs; cbn [fst snd]; rewrite ?array_fill_length by lia; repeat split.
  - intros j Hj. destruct_ifs; cbn [fst snd]; rewrite ?array_fill_out by lia; repeat split.
  - intros i Hi. split; [|split].
    + intros HsgnK HK Hsin. rewrite HsgnK. cbn [Z.eqb Pos.eqb fst snd].
      rewrite !rd_array_fill_in by (rewrite ?array_fill_length; lia).
      split; [reflexivity|].
      set (c := sqrt (ptw_K ptw) * t i) in *.
      pose proof (sin2_cos2 c) as Hsc. unfold Rsqr in Hsc.
      pose proof (sqrt_sqrt (ptw_K ptw) HK) as Hsq.
      field_simplify; [|lra|split; assumption].
      replace (sqrt (ptw_K ptw) ^ 2) with (ptw_K ptw) by (simpl; lra).
      replace (cos c ^ 2) with (1 - sin c ^ 2) by (simpl; lra).
      field. split; [assumption|]. assumption.
    + intros HsgnK. rewrite HsgnK. cbn [Z.eqb fst snd].
      rewrite !rd_array_fill_in by (rewrite ?array_fill_length; lia).
      repeat split.
    + intros HsgnK HK Ht. rewrite HsgnK. cbn [Z.eqb Pos.eqb fst snd].
      rewrite !rd_array_fill_in by (rewrite ?array_fill_length; lia).
      split; [reflexivity|].
      assert (Hs : 0 < sqrt (- ptw_K ptw)) by (apply sqrt_lt_R0; lra).
      set (c := sqrt (- ptw_K ptw) * t i) in *.
      assert (Hsinh : sinh c <> 0) by (apply sinh_nonzero; unfold c; nra).
      pose proof (cosh2_sinh2 c) as Hch.
      pose proof (sqrt_sqrt (- ptw_K ptw) ltac:(lra)) as Hsq.
      field_simplify; [|lra|split; assumption].
      replace (sqrt (- ptw_K ptw) ^ 2) with (- ptw_K ptw) by (simpl; lra).
      replace (cosh c ^ 2) with (1 + sinh c ^ 2) by (simpl; lra).
      field. split; assumption.
Qed.

(** Open space with [K = -1] and [k = 2], at the sample [tau0-tau = 2]. *)
Lemma transfer_radial_coordinates_spec_witness :
  let r := transfer_radial_coordinates ptr_one_k ptw_open 0 0 [0; 0; 0] [0; 0; 0] [0; 0; 0] in
  rd (fst (fst r)) 1 = sqrt (- -1) * 2
  /\ rd (snd (fst r)) 1 * rd (snd (fst r)) 1 - rd (snd r) 1 * rd (snd r) 1 = -1 / (2 * 2).
Proof.
  destruct (transfer_radial_coordinates_spec ptr_one_k ptw_open 0 0 [0; 0; 0] [0; 0; 0]
              [0; 0; 0] ltac:(simpl; lia) ltac:(simpl; lia) ltac:(simpl; lia)
              ltac:(simpl; lia) ltac:(unfold rd; simpl; lra)) as (_ & _ & Hat).
  destruct (Hat 1%Z ltac:(simpl; lia)) as (_ & _ & Hopen).
  apply Hopen; [reflexivity | simpl; lra | unfold rd; simpl; lra].
Defined.

(** ** Interpolation of the sources in [k] *)

Lemma increasing_upto_lt (k : list R) (n : Z) :
  increasing_upto k n ->
  forall i j, (0 <= i)%Z -> (i < j)%Z -> (j < n)%Z -> rd k i < rd k j.
Proof.
  intros Hinc i j Hi Hij Hj.
  replace j with (i + 1 + Z.of_nat (Z.to_nat (j - i - 1)))%Z by lia.
  assert (Hb : (i + 1 + Z.of_nat (Z.to_nat (j - i - 1)) < n)%Z) by lia.
  induction (Z.to_nat (j - i - 1)) as [|m IH].
  - rewrite Z.add_0_r. apply Hinc. lia.
  - apply Rlt_trans with (rd k (i + 1 + Z.of_nat m)); [apply IH; lia|].
    replace (i + 1 + Z.of_nat (S m))%Z with (i + 1 + Z.of_nat m + 1)%Z by lia.
    apply Hinc. lia.
Qed.

(** The search stops at an interval that holds [k_q]. *)
Lemma interpolate_index_bracket (k : list R) (k_size : Z) (k_q : R) (n : nat) :
  k_q <= rd k (k_size - 1) ->
  forall index_k,
    (0 <= index_k <= k_size - 2)%Z ->
    (k_size - 1 <= index_k + Z.of_nat n)%Z ->
    let r := interpolate_index n k k_size k_q index_k in
    (index_k <= r <= k_size - 2)%Z
    /\ (r = index_k \/ rd k r < k_q)
    /\ k_q <= rd k (r + 1).
Proof.
  intros Hmax. induction n as [|n IH]; intros index_k Hk Hfuel; [lia|].
  simpl.
  destruct (index_k + 1 <? k_size)%Z eqn:Es; [|apply Z.ltb_ge in Es; lia].
  destruct (Rltb (rd k (index_k + 1)) k_q) eqn:Et; simpl.
  - apply Rltb_true in Et.
    assert (Hnot : (index_k + 1)%Z <> (k_size - 1)%Z) by (intros Heq; rewrite Heq in Et; lra).
    destruct (IH (index_k + 1)%Z ltac:(lia) ltac:(lia)) as (H1 & H2 & H3).
    split; [lia|]. split; [|exact H3].
    right. destruct H2 as [-> | H2]; assumption.
  - apply Rltb_false in Et. split; [lia|]. split; [left; reflexivity | exact Et].
Qed.

(** X10: when the first [k_size >= 2] wavenumbers of the sources increase
    and the wavenumber [k_q] of the transfer function lies between the first
    and the last of them, [transfer_interpolate_sources] succeeds: it finds
    the interval [k[index_k] <= k_q <= k[index_k+1]], its weights [a] and
    [b = 1 - a] are between 0 and 1 with [a k[index_k] + b k[index_k+1] =
    k_q], and it returns one value per time; and where [k_q] is one of the
    wavenumbers of the sources, the value is the source at that wavenumber,
    whatever the table of second derivatives. *)
Theorem transfer_interpolate_sources_spec
    (ppt : perturbs) (ptr : transfers) (k_size : Z) (sources source_spline : list R)
    (index_q index_md : Z) :
  let k := ppt_k ppt in
  let k_q := rd (nth (Z.to_nat index_md) (ptr_k ptr) []) index_q in
  (2 <= k_size)%Z ->
  increasing_upto k k_size ->
  rd k 0 <= k_q <= rd k (k_size - 1) ->
  let index_k := interpolate_index (Z.to_nat k_size) k k_size k_q 0 in
  let b := (k_q - rd k index_k) / (rd k (index_k + 1) - rd k index_k) in
  (0 <= index_k <= k_size - 2)%Z
  /\ rd k index_k <= k_q <= rd k (index_k + 1)
  /\ 0 <= b <= 1
  /\ (1 - b) * rd k index_k + b * rd k (index_k + 1) = k_q
  /\ exists interpolated_sources,
       transfer_interpolate_sources ppt ptr k_size sources source_spline index_q index_md
       = Ok interpolated_sources
       /\ Z.of_nat (length interpolated_sources) = Z.max 0 (ppt_tau_size ppt)
       /\ forall index_k', (0 <= index_k' < k_size)%Z -> k_q = rd k index_k' ->
            forall index_tau, (0 <= index_tau < ppt_tau_size ppt)%Z ->
              rd interpolated_sources index_tau
              = rd sources (index_tau * k_size + index_k')%Z.
Proof.
  intros k k_q Hsize Hinc [Hlo Hhi] index_k b.
  destruct (interpolate_index_bracket k k_size k_q (Z.to_nat k_size) Hhi 0%Z
              ltac:(lia) ltac:(lia)) as (Hr & Hleft & Hright).
  fold index_k in Hr, Hleft, Hright.
  assert (Hleft' : rd k index_k <= k_q).
  { destruct Hleft as [Heq | Hlt]; [rewrite Heq; exact Hlo | lra]. }
  assert (Hh : 0 < rd k (index_k + 1) - rd k index_k).
  { specialize (Hinc index_k ltac:(lia)). lra. }
  assert (Hb : 0 <= b <= 1).
  { unfold b. split.
    - apply Rmult_le_pos; [lra | left; now apply Rinv_0_lt_compat].
    - apply (Rmult_le_reg_r (rd k (index_k + 1) - rd k index_k)); [exact Hh|].
      unfold Rdiv. rewrite Rmult_assoc, Rinv_l by lra. lra. }
  split; [exact Hr|]. split; [split; assumption|]. split; [exact Hb|].
  split; [unfold b; field; lra|].
  unfold transfer_interpolate_sources. fold k. fold k_q. fold index_k.
  replace (Req_b (rd k (index_k + 1) - rd k index_k) 0) with false
    by (symmetry; apply Req_b_false; lra).
  simpl. eexists. split; [reflexivity|].
  split; [rewrite length_map, length_seq; lia|].
  intros j Hj Hnode index_tau Htau. fold b.
  rewrite rd_map_seq by lia. rewrite Z2Nat.id by lia.
  assert (Hcases : j = index_k \/ j = (index_k + 1)%Z).
  { destruct (Z.lt_trichotomy j index_k) as [Hlt | [Heq | Hgt]]; [|left; exact Heq|].
    - pose proof (increasing_upto_lt k k_size Hinc j index_k ltac:(lia) Hlt ltac:(lia)). lra.
    - destruct (Z.eq_dec j (index_k + 1)) as [Heq | Hne]; [right; exact Heq|].
      pose proof (increasing_upto_lt k k_size Hinc (index_k + 1)%Z j ltac:(lia) ltac:(lia)
                    ltac:(lia)). lra. }
  destruct Hcases as [-> | ->].
  - assert (Hb0 : b = 0) by (unfold b; rewrite Hnode; unfold Rdiv; ring).
    rewrite Hb0. field.
  - assert (Hb1 : b = 1) by (unfold b; rewrite Hnode; field; lra).
    rewrite Hb1. replace (index_tau * k_size + index_k + 1)%Z
      with (index_tau * k_size + (index_k + 1))%Z by lia. field.
Qed.

(** Sources at [k = 1, 2, 4] and two times, interpolated at [k_q = 2]: the
    values are those of the second column. *)
Lemma transfer_interpolate_sources_spec_witness :
  exists interpolated_sources,
    transfer_interpolate_sources ppt_three_k ptr_one_k 3 [10; 20; 40; 11; 21; 41]
      [7; 8; 9; 7; 8; 9] 0 0 = Ok interpolated_sources
    /\ rd interpolated_sources 0 = 20 /\ rd interpolated_sources 1 = 21.
Proof.
  destruct (transfer_interpolate_sources_spec ppt_three_k ptr_one_k 3
              [10; 20; 40; 11; 21; 41] [7; 8; 9; 7; 8; 9] 0 0)
    as (_ & _ & _ & _ & out & Hout & _ & Hnode).
  - lia.
  - intros i Hi. assert (Hi' : i = 0%Z \/ i = 1%Z) by lia.
    destruct Hi' as [-> | ->]; unfold rd; simpl; lra.
  - unfold rd; simpl; lra.
  - exists out. split; [exact Hout|].
    split; [apply (Hnode 1%Z) | apply (Hnode 1%Z)];
      try (simpl; lia); reflexivity.
Defined.

(** ** The search for the largest multipole: [transfer_get_lmax] *)

Lemma trunc_half (n : Z) : (0 <= n)%Z -> trunc (0.5 * IZR n) = (n / 2)%Z.
Proof.
  intros Hn. pose proof (Z.div_mod n 2 ltac:(lia)) as Hdm.
  pose proof (Z.mod_pos_bound n 2 ltac:(lia)) as Hmod.
  assert (Hq : (0 <= n / 2)%Z) by (apply Z.div_pos; lia).
  assert (HR : IZR n = 2 * IZR (n / 2) + IZR (n mod 2)).
  { rewrite Hdm at 1. rewrite plus_IZR, mult_IZR. reflexivity. }
  assert (Hr : 0 <= IZR (n mod 2) <= 1) by (split; apply IZR_le; lia).
  apply IZR_le in Hq.
  apply trunc_floor; lra.
Qed.

Section Get_lmax_properties.

Variable get_xmin_generic : Z -> Z -> R -> R -> R -> result R.
Variables (sgnK : Z) (nu : R) (lvec : list Z) (lsize : Z) (phiminabs xmax xtol : R).

(** [x_nonzero] as a function of the multipole. *)
Variable x_nonzero : Z -> R.
Hypothesis get_xmin_ok :
  forall l, get_xmin_generic sgnK l nu xtol phiminabs = Ok (x_nonzero l).

Let x (index_l : Z) : R := x_nonzero (rdi lvec index_l).

Lemma lmax_hunt_left_spec (fuel : nat) :
  x 0%Z < xmax ->
  forall multiplier left right checked,
    (1 <= multiplier)%Z ->
    (0 <= left <= lsize - 1)%Z ->
    (left < Z.of_nat fuel)%Z ->
    (checked = true -> (left < right)%Z /\ (0 <= right <= lsize - 1)%Z /\ xmax <= x right) ->
    exists l r c,
      lmax_hunt_left get_xmin_generic sgnK nu lvec phiminabs xmax xtol fuel multiplier
        left right checked = Ok (l, r, c)
      /\ (0 <= l <= left)%Z
      /\ x l <= xmax
      /\ (c = true -> (l < r)%Z /\ (0 <= r <= lsize - 1)%Z /\ xmax <= x r)
      /\ (c = false -> checked = false /\ l = left /\ r = right).
Proof.
  intros H0. induction fuel as [|fuel IH]; intros multiplier left right checked Hm Hl Hf Hc;
    [lia|].
  simpl. rewrite get_xmin_ok. simpl. fold (x left).
  destruct (Rleb (x left) xmax) eqn:E.
  - apply Rleb_true in E. exists left, right, checked.
    repeat split; try lia; try assumption; try (apply Hc; assumption).
  - apply Rleb_false in E.
    assert (Hpos : (0 < left)%Z).
    { destruct (Z.eq_dec left 0) as [Heq | Hne]; [|lia]. rewrite Heq in E. lra. }
    destruct (left - multiplier <=? 0)%Z eqn:Ec.
    + exists 0%Z, left, true. repeat split; try lia; try lra; discriminate.
    + apply Z.leb_gt in Ec.
      destruct (IH (multiplier * 5)%Z (left - multiplier)%Z left true ltac:(lia) ltac:(lia)
                  ltac:(lia)) as (l & r & c & Hrun & Hl' & Hx & Hct & Hcf).
      { intros _. repeat split; try lia; lra. }
      exists l, r, c. split; [exact Hrun|]. split; [lia|]. split; [exact Hx|].
      split; [exact Hct|]. intros Hc'. destruct (Hcf Hc') as [Habs _]. discriminate.
Qed.

Lemma lmax_hunt_right_spec (fuel : nat) :
  xmax <= x (lsize - 1)%Z ->
  forall multiplier left right,
    (1 <= multiplier)%Z ->
    (0 <= left <= lsize - 1)%Z ->
    (0 <= right <= lsize - 1)%Z ->
    (lsize - 1 - right < Z.of_nat fuel)%Z ->
    x left <= xmax ->
    exists l r,
      lmax_hunt_right get_xmin_generic sgnK nu lvec lsize phiminabs xmax xtol fuel multiplier
        left right = Ok (l, r)
      /\ (0 <= l <= lsize - 1)%Z /\ (0 <= r <= lsize - 1)%Z
      /\ x l <= xmax <= x r
      /\ ((l = left /\ r = right) \/ (l < r)%Z).
Proof.
  intros Hlast. induction fuel as [|fuel IH]; intros multiplier left right Hm Hl Hr Hf Hx;
    [lia|].
  simpl. rewrite get_xmin_ok. simpl. fold (x right).
  destruct (Rleb xmax (x right)) eqn:E.
  - apply Rleb_true in E. exists left, right. repeat split; try lia; try assumption.
  - apply Rleb_false in E.
    assert (Hlt : (right < lsize - 1)%Z).
    { destruct (Z.eq_dec right (lsize - 1)) as [Heq | Hne]; [|lia]. rewrite Heq in E. lra. }
    destruct (lsize - 1 <=? right + multiplier)%Z eqn:Ec.
    + exists right, (lsize - 1)%Z. repeat split; try lia; try lra.
    + apply Z.leb_gt in Ec.
      destruct (IH (multiplier * 5)%Z right (right + multiplier)%Z ltac:(lia) ltac:(lia)
                  ltac:(lia) ltac:(lia) ltac:(lra))
        as (l & r & Hrun & Hl' & Hr' & Hx' & Hcases).
      exists l, r. split; [exact Hrun|]. repeat split; try lia; try apply Hx'.
Qed.

Lemma lmax_bisect_spec (fuel : nat) :
  forall left right,
    (0 <= left)%Z -> (right <= lsize - 1)%Z ->
    (right - left <= Z.of_nat fuel)%Z ->
    x left <= xmax <= x right ->
    exists l r,
      lmax_bisect get_xmin_generic sgnK nu lvec phiminabs xmax xtol fuel left right
      = Ok (l, r)
      /\ (left <= l)%Z /\ (r <= right)%Z
      /\ (r - l <= 1)%Z
      /\ x l <= xmax <= x r
      /\ ((left < right)%Z -> r = (l + 1)%Z)
      /\ ((right - left <= 1)%Z -> l = left /\ r = right).
Proof.
  induction fuel as [|fuel IH]; intros left right Hl Hr Hf Hx.
  - simpl. replace (1 <? right - left)%Z with false by (symmetry; apply Z.ltb_ge; lia).
    exists left, right. repeat split; try lia; apply Hx.
  - simpl. destruct (1 <? right - left)%Z eqn:E.
    + apply Z.ltb_lt in E. rewrite trunc_half by lia.
      assert (Hmid : (left < (right + left) / 2 < right)%Z).
      { pose proof (Z.div_mod (right + left) 2 ltac:(lia)).
        pose proof (Z.mod_pos_bound (right + left) 2 ltac:(lia)). lia. }
      rewrite get_xmin_ok. simpl. fold (x ((right + left) / 2)%Z).
      destruct (Rltb (x ((right + left) / 2)%Z) xmax) eqn:Et.
      * apply Rltb_true in Et.
        destruct (IH ((right + left) / 2)%Z right ltac:(lia) ltac:(lia) ltac:(lia)
                    ltac:(lra)) as (l & r & Hrun & H1 & H2 & H3 & H4 & H5 & H6).
        exists l, r. split; [exact Hrun|]. repeat split; try lia; try apply H4.
      * apply Rltb_false in Et.
        destruct (IH left ((right + left) / 2)%Z ltac:(lia) ltac:(lia) ltac:(lia)
                    ltac:(lra)) as (l & r & Hrun & H1 & H2 & H3 & H4 & H5 & H6).
        exists l, r. split; [exact Hrun|]. repeat split; try lia; try apply H4.
    + apply Z.ltb_ge in E. exists left, right. repeat split; try lia; apply Hx.
Qed.

(** X11: when [get_xmin_generic] succeeds, [transfer_get_lmax] returns (a
    number of turns above [lsize] is enough for each loop).  When
    [x_nonzero] reaches [xmax] at the first multipole the right index becomes
    [MAX(lsize-1,1)]; when it is below [xmax] at the last multipole the left
    index becomes [MAX(0,lsize-2)]; otherwise the two hunts and the binary
    search end on two indices of the list, at most one apart, with
    [x_nonzero <= xmax] at the left one and [x_nonzero >= xmax] at the right
    one; they are consecutive when the left index was given below the right
    one. *)
Theorem transfer_get_lmax_spec (fuel : nat) (index_l_left index_l_right : Z) :
  (0 <= index_l_left <= lsize - 1)%Z ->
  (0 <= index_l_right <= lsize - 1)%Z ->
  (lsize <= Z.of_nat fuel)%Z ->
  let run :=
    transfer_get_lmax get_xmin_generic sgnK nu lvec lsize phiminabs xmax xtol fuel
      index_l_left index_l_right in
  (xmax <= x 0%Z -> run = Ok (index_l_left, MAXi (lsize - 1) 1))
  /\ (x 0%Z < xmax -> x (lsize - 1)%Z < xmax -> run = Ok (MAXi 0 (lsize - 2), index_l_right))
  /\ (x 0%Z < xmax -> xmax <= x (lsize - 1)%Z ->
      exists l r,
        run = Ok (l, r)
        /\ (0 <= l <= lsize - 1)%Z /\ (0 <= r <= lsize - 1)%Z
        /\ (r - l <= 1)%Z
        /\ x l <= xmax <= x r
        /\ ((index_l_left < index_l_right)%Z -> r = (l + 1)%Z)).
Proof.
  intros Hl Hr Hf run. subst run. unfold transfer_get_lmax.
  rewrite !get_xmin_ok. simpl. fold (x 0%Z). fold (x (lsize - 1)%Z).
  split; [|split].
  - intros H. apply Rleb_true in H. rewrite H. reflexivity.
  - intros H0 H1. apply Rltb_true in H1. rewrite H1.
    replace (Rleb xmax (x 0%Z)) with false by (symmetry; apply Rleb_false; lra).
    reflexivity.
  - intros H0 H1.
    replace (Rleb xmax (x 0%Z)) with false by (symmetry; apply Rleb_false; lra).
    replace (Rltb (x (lsize - 1)%Z) xmax) with false by (symmetry; apply Rltb_false; lra).
    destruct (lmax_hunt_left_spec fuel H0 1%Z index_l_left index_l_right false ltac:(lia)
                Hl ltac:(lia) ltac:(discriminate))
      as (l1 & r1 & c & Hrun1 & Hl1 & Hx1 & Hct & Hcf).
    rewrite Hrun1. simpl.
    assert (Hhunt : exists l2 r2,
               (if negb c
                then lmax_hunt_right get_xmin_generic sgnK nu lvec lsize phiminabs xmax xtol
                       fuel 1 l1 r1
                else Ok (l1, r1)) = Ok (l2, r2)
               /\ (0 <= l2 <= lsize - 1)%Z /\ (0 <= r2 <= lsize - 1)%Z
               /\ x l2 <= xmax <= x r2
               /\ ((index_l_left < index_l_right)%Z -> (l2 < r2)%Z)).
    { destruct c; simpl.
      - destruct (Hct eq_refl) as (Hlt & Hr1 & Hx1').
        exists l1, r1. repeat split; try lia; assumption.
      - destruct (Hcf eq_refl) as (_ & -> & ->).
        destruct (lmax_hunt_right_spec fuel H1 1%Z index_l_left index_l_right ltac:(lia)
                    Hl Hr ltac:(lia) Hx1) as (l2 & r2 & Hrun2 & Hl2 & Hr2 & Hx2 & Hcases).
        exists l2, r2. split; [exact Hrun2|]. repeat split; try lia; try apply Hx2. }
    destruct Hhunt as (l2 & r2 & Hrun2 & Hl2 & Hr2 & Hx2 & Hlt2).
    rewrite Hrun2. simpl.
    destruct (lmax_bisect_spec fuel l2 r2 ltac:(lia) ltac:(lia) ltac:(lia) Hx2)
      as (l & r & Hrun & H1' & H2' & H3' & H4' & H5' & H6').
    exists l, r. split; [exact Hrun|].
    destruct (Z_lt_le_dec l2 r2) as [Hlt | Hge].
    + specialize (H5' Hlt). repeat split; try lia; try apply H4'.
    + destruct (H6' ltac:(lia)) as [-> ->]. repeat split; try lia; try apply H4'.
Qed.

End Get_lmax_properties.

(** Eight multipoles from 2 to 9 with [x_nonzero = l] and [xmax = 5.5]: the
    search ends on two consecutive indices around [xmax]. *)
Lemma transfer_get_lmax_spec_witness :
  exists l r,
    transfer_get_lmax get_xmin_linear (-1) 10 [2; 3; 4; 5; 6; 7; 8; 9]%Z 8 0.1 5.5 0.01
      8 0 7 = Ok (l, r)
    /\ r = (l + 1)%Z
    /\ IZR (rdi [2; 3; 4; 5; 6; 7; 8; 9]%Z l) <= 5.5 <= IZR (rdi [2; 3; 4; 5; 6; 7; 8; 9]%Z r).
Proof.
  destruct (transfer_get_lmax_spec get_xmin_linear (-1) 10 [2; 3; 4; 5; 6; 7; 8; 9]%Z 8
              0.1 5.5 0.01 IZR (fun l => eq_refl) 8 0 7
              ltac:(lia) ltac:(lia) ltac:(lia)) as (_ & _ & Hsearch).
  destruct Hsearch as (l & r & Hrun & _ & _ & _ & Hx & Hnext).
  - unfold rdi; simpl; lra.
  - unfold rdi; simpl; lra.
  - exists l, r. split; [exact Hrun|]. split; [apply Hnext; lia | exact Hx].
Defined.

(** ** The multipoles of a closed table *)

(** The loop that lowers [l_size_max], from a size [s] whose first multipole
    is below [nu]. *)
Lemma update_HIS_l_size_max_loop (l : list Z) (nu : R) :
  IZR (rdi l 0) < nu ->
  forall n s,
    (1 <= s)%Z -> (s <= Z.of_nat n)%Z ->
    let kept := update_HIS_l_size_max n l nu s in
    (1 <= kept <= s)%Z
    /\ IZR (rdi l (kept - 1)) < nu
    /\ (forall index_l, (kept <= index_l < s)%Z -> nu <= IZR (rdi l index_l))
    /\ forall m, (n <= m)%nat -> update_HIS_l_size_max m l nu s = kept.
Proof.
  intros H0. induction n as [|n IH]; intros s Hs Hn; [lia|].
  simpl. destruct (Rleb nu (IZR (rdi l (s - 1)))) eqn:E.
  - apply Rleb_true in E.
    assert (Hs1 : (s <> 1)%Z) by (intros ->; simpl in E; lra).
    destruct (IH (s - 1)%Z ltac:(lia) ltac:(lia)) as (H1 & H2 & H3 & H4).
    split; [lia|]. split; [exact H2|]. split.
    + intros i Hi. destruct (Z.eq_dec i (s - 1)) as [-> | Hne]; [exact E | apply H3; lia].
    + intros m Hm. destruct m as [|m]; [lia|]. simpl.
      replace (Rleb nu (IZR (rdi l (s - 1)))) with true by (symmetry; now apply Rleb_true).
      apply H4. lia.
  - apply Rleb_false in E. split; [lia|]. split; [exact E|]. split; [intros i Hi; lia|].
    intros m Hm. destruct m as [|m]; [lia|]. simpl.
    replace (Rleb nu (IZR (rdi l (s - 1)))) with false by (symmetry; now apply Rleb_false).
    reflexivity.
Qed.

(** X12: in the closed case, when the first multipole is below [nu], the
    loop of [transfer_update_HIS] that lowers [l_size_max] stops inside the
    list: at least one multipole is kept, the last multipole kept is below
    [nu] and every multipole left out is not; more turns than [l_size_max]
    change nothing. *)
Theorem update_HIS_l_size_max_spec (l : list Z) (nu : R) (l_size_max : Z) :
  (1 <= l_size_max)%Z ->
  IZR (rdi l 0) < nu ->
  let kept := update_HIS_l_size_max (Z.to_nat l_size_max) l nu l_size_max in
  (1 <= kept <= l_size_max)%Z
  /\ IZR (rdi l (kept - 1)) < nu
  /\ (forall index_l, (kept <= index_l < l_size_max)%Z -> nu <= IZR (rdi l index_l))
  /\ forall n, (Z.to_nat l_size_max <= n)%nat ->
               update_HIS_l_size_max n l nu l_size_max = kept.
Proof.
  intros Hsize H0. apply update_HIS_l_size_max_loop; [exact H0 | lia | lia].
Qed.

(** The multipoles 2 to 6 and [nu = 4]: two multipoles are kept. *)
Lemma update_HIS_l_size_max_spec_witness :
  (1 <= update_HIS_l_size_max 5 [2; 3; 4; 5; 6]%Z 4 5 <= 5)%Z
  /\ IZR (rdi [2; 3; 4; 5; 6]%Z (update_HIS_l_size_max 5 [2; 3; 4; 5; 6]%Z 4 5 - 1)) < 4.
Proof.
  destruct (update_HIS_l_size_max_spec [2; 3; 4; 5; 6]%Z 4 5 ltac:(lia)
              ltac:(unfold rdi; simpl; lra)) as (H1 & H2 & _).
  split; [exact H1 | exact H2].
Defined.

(** ** The number of sampled times of a source *)

Lemma tau_index_after_spec (tau_rec : R) (tau_sampling : list R) :
  forall start,
    let index := tau_index_after tau_sampling tau_rec start in
    (start <= index <= start + Z.of_nat (length tau_sampling))%Z
    /\ (forall i, (i < Z.to_nat (index - start))%nat -> nth i tau_sampling 0 <= tau_rec)
    /\ ((index - start < Z.of_nat (length tau_sampling))%Z ->
        tau_rec < nth (Z.to_nat (index - start)) tau_sampling 0).
Proof.
  induction tau_sampling as [|tau rest IH]; intros start; cbn [tau_index_after length].
  - split; [lia|]. split; [intros i Hi; lia | intros H; simpl in H; lia].
  - destruct (Rleb tau tau_rec) eqn:E.
    + apply Rleb_true in E. destruct (IH (start + 1)%Z) as (H1 & H2 & H3).
      set (index := tau_index_after rest tau_rec (start + 1)) in *.
      split; [lia|]. split.
      * intros i Hi. destruct i as [|i]; [exact E|]. simpl. apply H2. lia.
      * intros Hlt.
        replace (Z.to_nat (index - start)) with (S (Z.to_nat (index - (start + 1)))) by lia.
        simpl. apply H3. lia.
    + apply Rleb_false in E. rewrite Z.sub_diag. split; [lia|].
      split; [intros i Hi; simpl in Hi; lia | intros _; exact E].
Qed.

(** X13: for the CMB lensing potential, [transfer_source_tau_size] discards
    the leading samples that are not after recombination: when some sample is
    after [tau_rec], the number returned is between 1 and [ppt->tau_size],
    every sample before the first one kept is at or before [tau_rec], the
    first one kept is after it, and, the sampling being in increasing order,
    so is every sample kept. *)
Theorem transfer_source_tau_size_lcmb
    (background_tau_of_z : background -> R -> result R)
    (ppr : precision) (pba : background) (ppt : perturbs) (ptr : transfers)
    (tau_rec tau0 : R) (index_md index_tt previous : Z) :
  _scalars_ ppt index_md = true ->
  _tensors_ ppt index_md = false ->
  tt_is_lcmb ppt ptr index_tt = true ->
  tt_is_density ppt ptr index_tt = false ->
  tt_is_lensing ppt ptr index_tt = false ->
  ppt_tau_size ppt = Z.of_nat (length (ppt_tau_sampling ppt)) ->
  (exists i, (0 <= i < ppt_tau_size ppt)%Z /\ tau_rec < rd (ppt_tau_sampling ppt) i) ->
  exists tau_size,
    transfer_source_tau_size background_tau_of_z ppr pba ppt ptr tau_rec tau0
      index_md index_tt previous = Ok tau_size
    /\ (1 <= tau_size <= ppt_tau_size ppt)%Z
    /\ (forall i, (0 <= i < ppt_tau_size ppt - tau_size)%Z ->
                  rd (ppt_tau_sampling ppt) i <= tau_rec)
    /\ tau_rec < rd (ppt_tau_sampling ppt) (ppt_tau_size ppt - tau_size)
    /\ ((forall i j, (0 <= i <= j)%Z -> (j < ppt_tau_size ppt)%Z ->
                     rd (ppt_tau_sampling ppt) i <= rd (ppt_tau_sampling ppt) j) ->
        forall i, (ppt_tau_size ppt - tau_size <= i < ppt_tau_size ppt)%Z ->
                  tau_rec < rd (ppt_tau_sampling ppt) i).
Proof.
  intros Hsc Hte Hl Hd Hg Hlen (i0 & Hi0 & Hafter).
  unfold transfer_source_tau_size. rewrite Hsc, Hte, Hl, Hd, Hg. simpl.
  destruct (tau_index_after_spec tau_rec (ppt_tau_sampling ppt) 0%Z) as (H1 & H2 & H3).
  set (index := tau_index_after (ppt_tau_sampling ppt) tau_rec 0) in *.
  rewrite Z.sub_0_r in H2, H3.
  assert (Hlt : (index < Z.of_nat (length (ppt_tau_sampling ppt)))%Z).
  { destruct (Z_lt_le_dec i0 index) as [Hlt | Hge]; [|lia].
    specialize (H2 (Z.to_nat i0) ltac:(lia)). unfold rd in Hafter. lra. }
  specialize (H3 Hlt).
  eexists. split; [reflexivity|].
  replace (ppt_tau_size ppt - (ppt_tau_size ppt - index))%Z with index by lia.
  split; [lia|]. split; [|split].
  - intros i Hi. unfold rd. apply H2. lia.
  - exact H3.
  - intros Hmono i Hi. apply Rlt_le_trans with (1 := H3).
    apply (Hmono index i); lia.
Qed.

(** Three samples at [tau = 100, 5000, 14000] and recombination at
    [tau = 280]: two samples are kept. *)
Lemma transfer_source_tau_size_lcmb_witness :
  exists tau_size,
    transfer_source_tau_size background_tau_of_z_linear ppr_default pba_unit ppt_all_types
      ptr_all_types 280 14000 0 4 0 = Ok tau_size
    /\ (1 <= tau_size <= 3)%Z
    /\ 280 < rd [100; 5000; 14000] (3 - tau_size).
Proof.
  destruct (transfer_source_tau_size_lcmb background_tau_of_z_linear ppr_default pba_unit
              ppt_all_types ptr_all_types 280 14000 0 4 0 eq_refl eq_refl eq_refl eq_refl
              eq_refl eq_refl)
    as (tau_size & Hrun & Hrange & _ & Hfirst & _).
  - exists 1%Z. split; [simpl; lia | unfold rd; simpl; lra].
  - exists tau_size. split; [exact Hrun|]. split; [exact Hrange | exact Hfirst].
Defined.

Section Tau_size_max_properties.

Variable background_tau_of_z : background -> R -> result R.
Variables (ppr : precision) (pba : background) (ppt : perturbs) (ptr : transfers).
Variables (tau_rec tau0 : R).

(** One of the calls of the double loop returned [tau_size] for the type. *)
Let computed (index_md index_tt tau_size : Z) : Prop :=
  exists previous,
    transfer_source_tau_size background_tau_of_z ppr pba ppt ptr tau_rec tau0
      index_md index_tt previous = Ok tau_size.

Lemma tau_size_max_tt_loop_spec (index_md : Z) (n : nat) :
  forall index_tt st st',
    tau_size_max_tt_loop background_tau_of_z ppr pba ppt ptr tau_rec tau0 n index_md
      index_tt st = Ok st' ->
    (fst st <= fst st')%Z
    /\ (forall j, (j < n)%nat ->
                  exists tau_size,
                    computed index_md (index_tt + Z.of_nat j) tau_size
                    /\ (tau_size <= fst st')%Z)
    /\ (fst st' = fst st
        \/ exists j, (j < n)%nat /\ computed index_md (index_tt + Z.of_nat j) (fst st')).
Proof.
  induction n as [|n IH]; intros index_tt st st' Hrun.
  - simpl in Hrun. injection Hrun as <-. split; [lia|]. split; [intros j Hj; lia|].
    left. reflexivity.
  - simpl in Hrun.
    destruct (transfer_source_tau_size background_tau_of_z ppr pba ppt ptr tau_rec tau0
                index_md index_tt (snd st)) as [tau_size | msg |] eqn:E;
      simpl in Hrun; try discriminate.
    destruct (IH _ _ _ Hrun) as (H1 & H2 & H3). cbn [fst] in H1, H3.
    pose proof (MAXi_ge_l (fst st) tau_size) as Hl.
    pose proof (MAXi_ge_r (fst st) tau_size) as Hr.
    split; [lia|]. split.
    + intros [|j] Hj.
      * exists tau_size. split; [exists (snd st); rewrite Z.add_0_r; exact E | lia].
      * destruct (H2 j ltac:(lia)) as (ts & Hc & Hle).
        exists ts. split; [|exact Hle].
        replace (index_tt + Z.of_nat (S j))%Z with (index_tt + 1 + Z.of_nat j)%Z by lia.
        exact Hc.
    + destruct H3 as [Heq | (j & Hj & Hc)].
      * destruct (MAXi_cases (fst st) tau_size) as [Hm | Hm].
        -- left. lia.
        -- right. exists 0%nat. split; [lia|]. rewrite Heq, Hm.
           exists (snd st). rewrite Z.add_0_r. exact E.
      * right. exists (S j). split; [lia|].
        replace (index_tt + Z.of_nat (S j))%Z with (index_tt + 1 + Z.of_nat j)%Z by lia.
        exact Hc.
Qed.

Lemma tau_size_max_md_loop_spec (n : nat) :
  forall index_md st st',
    (0 <= index_md)%Z ->
    tau_size_max_md_loop background_tau_of_z ppr pba ppt ptr tau_rec tau0 n index_md st
    = Ok st' ->
    (fst st <= fst st')%Z
    /\ (forall index_md' index_tt,
           (index_md <= index_md' < index_md + Z.of_nat n)%Z ->
           (0 <= index_tt < rdi (ptr_tt_size ptr) index_md')%Z ->
           exists tau_size, computed index_md' index_tt tau_size /\ (tau_size <= fst st')%Z)
    /\ (fst st' = fst st
        \/ exists index_md' index_tt,
             (index_md <= index_md' < index_md + Z.of_nat n)%Z
             /\ (0 <= index_tt < rdi (ptr_tt_size ptr) index_md')%Z
             /\ computed index_md' index_tt (fst st')).
Proof.
  induction n as [|n IH]; intros index_md st st' Hmd Hrun.
  - simpl in Hrun. injection Hrun as <-. split; [lia|]. split; [intros; lia|].
    left. reflexivity.
  - simpl in Hrun.
    destruct (tau_size_max_tt_loop background_tau_of_z ppr pba ppt ptr tau_rec tau0
                (Z.to_nat (rdi (ptr_tt_size ptr) index_md)) index_md 0 st)
      as [st1 | msg |] eqn:E; simpl in Hrun; try discriminate.
    destruct (tau_size_max_tt_loop_spec _ _ _ _ _ E) as (H1 & H2 & H3).
    destruct (IH (index_md + 1)%Z st1 st' ltac:(lia) Hrun) as (G1 & G2 & G3).
    split; [lia|]. split.
    + intros index_md' index_tt Hmd' Htt.
      destruct (Z.eq_dec index_md' index_md) as [-> | Hne].
      * destruct (H2 (Z.to_nat index_tt) ltac:(lia)) as (ts & Hc & Hle).
        exists ts. split; [|lia].
        replace index_tt with (0 + Z.of_nat (Z.to_nat index_tt))%Z by lia. exact Hc.
      * apply G2; [lia | exact Htt].
    + destruct G3 as [Heq | (index_md' & index_tt & Hmd' & Htt & Hc)].
      * destruct H3 as [Heq' | (j & Hj & Hc)]; [left; lia|].
        right. exists index_md, (0 + Z.of_nat j)%Z.
        split; [lia|]. split; [lia|]. rewrite Heq. exact Hc.
      * right. exists index_md', index_tt. split; [lia|]. split; [exact Htt | exact Hc].
Qed.

(** X14: when [transfer_source_tau_size_max] succeeds, the number it returns
    is not negative, it is at least the number of sampled times that the
    loop computed for every type of every mode, and it is 0 or one of these
    numbers: the arrays of the workspace, of that many entries, hold the
    source of every type. *)
Theorem transfer_source_tau_size_max_spec (tau_size_max : Z) :
  transfer_source_tau_size_max background_tau_of_z ppr pba ppt ptr tau_rec tau0
  = Ok tau_size_max ->
  (0 <= tau_size_max)%Z
  /\ (forall index_md index_tt,
         (0 <= index_md < ptr_md_size ptr)%Z ->
         (0 <= index_tt < rdi (ptr_tt_size ptr) index_md)%Z ->
         exists previous tau_size,
           transfer_source_tau_size background_tau_of_z ppr pba ppt ptr tau_rec tau0
             index_md index_tt previous = Ok tau_size
           /\ (tau_size <= tau_size_max)%Z)
  /\ (tau_size_max = 0%Z
      \/ exists index_md index_tt previous,
           (0 <= index_md < ptr_md_size ptr)%Z
           /\ (0 <= index_tt < rdi (ptr_tt_size ptr) index_md)%Z
           /\ transfer_source_tau_size background_tau_of_z ppr pba ppt ptr tau_rec tau0
                index_md index_tt previous = Ok tau_size_max).
Proof.
  unfold transfer_source_tau_size_max. intros Hrun.
  destruct (tau_size_max_md_loop background_tau_of_z ppr pba ppt ptr tau_rec tau0
              (Z.to_nat (ptr_md_size ptr)) 0 (0%Z, 0%Z)) as [st | msg |] eqn:E;
    simpl in Hrun; try discriminate.
  injection Hrun as <-.
  destruct (tau_size_max_md_loop_spec _ 0%Z _ _ ltac:(lia) E) as (H1 & H2 & H3).
  cbn [fst] in H1, H3. split; [exact H1|]. split.
  - intros index_md index_tt Hmd Htt.
    destruct (H2 index_md index_tt ltac:(lia) Htt) as (ts & (p & Hc) & Hle).
    exists p, ts. split; assumption.
  - destruct H3 as [Heq | (index_md & index_tt & Hmd & Htt & (p & Hc))]; [left; exact Heq|].
    right. exists index_md, index_tt, p. split; [lia|]. split; assumption.
Qed.

End Tau_size_max_properties.

(** Temperature only, in the scalar mode, with two samples of the sources:
    the maximum is 2, the number of samples of each of the three types. *)
Lemma transfer_source_tau_size_max_spec_witness :
  (0 <= 2)%Z
  /\ exists previous tau_size,
       transfer_source_tau_size background_tau_of_z_linear ppr_default pba_unit
         ppt_three_k ptr_three_k 280 14000 0 2 previous = Ok tau_size
       /\ (tau_size <= 2)%Z.
Proof.
  destruct (transfer_source_tau_size_max_spec background_tau_of_z_linear ppr_default
              pba_unit ppt_three_k ptr_three_k 280 14000 2 eq_refl) as (Hpos & Hall & _).
  split; [exact Hpos|].
  apply (Hall 0%Z 2%Z); split; try lia; reflexivity.
Defined.

(** ** The blocks of the transfer structure *)

Lemma ptr_sizes_indices_types (ppt : perturbs) (ptr : transfers) :
  ptr_md_size (transfer_indices_of_transfers_types ppt ptr) = ptr_md_size ptr
  /\ ptr_has_cls (transfer_indices_of_transfers_types ppt ptr) = ptr_has_cls ptr.
Proof.
  unfold transfer_indices_of_transfers_types. destruct ptr.
  destruct (ppt_has_cl_cmb_temperature ppt), (ppt_has_cl_cmb_polarization ppt),
    (ppt_has_scalars ppt), (ppt_has_vectors ppt), (ppt_has_tensors ppt),
    (ppt_has_cl_cmb_lensing_potential ppt), (ppt_has_cl_density ppt),
    (ppt_has_cl_lensing_potential ppt); split; reflexivity.
Qed.

Lemma ptr_sizes_get_q_list (ppr : precision) (ppt : perturbs) (ptr ptr' : transfers)
    (q_period K : R) (sgnK : Z) :
  transfer_get_q_list ppr ppt ptr q_period K sgnK = Ok ptr' ->
  ptr_md_size ptr' = ptr_md_size ptr /\ ptr_has_cls ptr' = ptr_has_cls ptr.
Proof.
  unfold transfer_get_q_list.
  destruct (q_list_fill ppr ppt ptr q_period K sgnK) as [st | |]; simpl; try discriminate.
  destruct (class_test _ _) as [[] | |]; simpl; try discriminate.
  destruct (sgnK =? 0)%Z; intros H; injection H as <-; destruct ptr; split; reflexivity.
Qed.

Lemma ptr_sizes_get_k_list (ppt : perturbs) (ptr ptr' : transfers) (K : R) :
  transfer_get_k_list ppt ptr K = Ok ptr' ->
  ptr_md_size ptr' = ptr_md_size ptr /\ ptr_has_cls ptr' = ptr_has_cls ptr.
Proof.
  unfold transfer_get_k_list.
  destruct (k_list_loop ppt ptr K _ _ _ _) as [k | |]; simpl; try discriminate.
  intros H; injection H as <-; destruct ptr; split; reflexivity.
Qed.

Lemma ptr_sizes_get_l_list (ppr : precision) (ppt : perturbs) (ptr ptr' : transfers)
    (fuel : nat) :
  transfer_get_l_list ppr ppt ptr fuel = Ok ptr' ->
  ptr_md_size ptr' = ptr_md_size ptr /\ ptr_has_cls ptr' = ptr_has_cls ptr.
Proof.
  unfold transfer_get_l_list.
  destruct (l_count _ _ _ _) as [n | |]; simpl; try discriminate.
  destruct (l_fill _ _ _ _) as [l | |]; simpl; try discriminate.
  destruct (l_size_md_loop _ _ _ _ _ _ _ _) as [[a b] | |]; simpl; try discriminate.
  intros H; injection H as <-; destruct ptr; split; reflexivity.
Qed.

Lemma In_fold_alloc (B : nat -> block) (b : block) (l : list nat) :
  forall h, In b (fold_left (fun h index_md => alloc (B index_md) h) l h) ->
            In b h \/ exists index_md, In index_md l /\ b = B index_md.
Proof.
  induction l as [|i l IH]; intros h H; simpl in H; [left; exact H|].
  destruct (IH _ H) as [Hin | (j & Hj & Hb)].
  - destruct Hin as [Heq | Hin]; [|left; exact Hin].
    right. exists i. split; [left; reflexivity | symmetry; exact Heq].
  - right. exists j. split; [right; exact Hj | exact Hb].
Qed.

Lemma In_fold_free (A B C : nat -> block) (b : block) (l : list nat) :
  forall h,
    In b (fold_left (fun h index_md => free (A index_md) (free (B index_md)
                                                           (free (C index_md) h))) l h) ->
    In b h /\ forall index_md, In index_md l ->
                               b <> A index_md /\ b <> B index_md /\ b <> C index_md.
Proof.
  induction l as [|i l IH]; intros h H; simpl in H; [split; [exact H | intros j []]|].
  destruct (IH _ H) as [Hin Hne]. unfold free in Hin.
  apply in_remove in Hin. destruct Hin as [Hin HA].
  apply in_remove in Hin. destruct Hin as [Hin HB].
  apply in_remove in Hin. destruct Hin as [Hin HC].
  split; [exact Hin|]. intros j [<- | Hj]; [repeat split; assumption | apply Hne; exact Hj].
Qed.

Lemma In_fold_alloc_keep (B : nat -> block) (b : block) (l : list nat) :
  forall h, In b h -> In b (fold_left (fun h index_md => alloc (B index_md) h) l h).
Proof.
  induction l as [|i l IH]; intros h H; simpl; [exact H|]. apply IH. right. exact H.
Qed.

(** X15: when [transfer_init] succeeds from a heap that holds no block of the
    structure, [transfer_free] on the structure it leaves succeeds and frees
    every block that [transfer_init] left allocated: the heap is empty again.
    When spectra are requested the structure records [has_cls] and the
    number of modes, and the arrays of the type sizes, of the wavenumbers and
    of the multipoles are among the blocks that were allocated. *)
Theorem transfer_init_free_balance
    (transfer_init_table :
       precision -> background -> thermo -> perturbs -> transfers -> result unit)
    (ppr : precision) (pba : background) (pth : thermo) (ppt : perturbs)
    (ptr ptr' : transfers) (fuel : nat) (h' : heap) :
  transfer_init transfer_init_table ppr pba pth ppt ptr fuel [] = Ok (ptr', h') ->
  ptr_has_cls ptr' = ppt_has_cls ppt
  /\ (ppt_has_cls ppt = true ->
      ptr_md_size ptr' = ppt_md_size ppt
      /\ In blk_tt_size h' /\ In blk_q h' /\ In blk_l h')
  /\ transfer_free ptr' h' = Ok [].
Proof.
  unfold transfer_init. destruct (ppt_has_cls ppt) eqn:Hcls; simpl.
  - set (ptr1 := set_ptr_angular_rescaling _ _).
    assert (H1 : ptr_md_size ptr1 = ppt_md_size ppt /\ ptr_has_cls ptr1 = true)
      by (unfold ptr1; destruct ptr; split; reflexivity).
    unfold transfer_indices_of_transfers.
    set (ptr2 := transfer_indices_of_transfers_types ppt ptr1).
    destruct (ptr_sizes_indices_types ppt ptr1) as [M2 C2]. fold ptr2 in M2, C2.
    destruct (transfer_get_q_list ppr ppt ptr2 _ _ _) as [ptr3 | |] eqn:E3;
      simpl; try discriminate.
    destruct (ptr_sizes_get_q_list _ _ _ _ _ _ _ E3) as [M3 C3].
    destruct (transfer_get_k_list ppt ptr3 _) as [ptr4 | |] eqn:E4; simpl; try discriminate.
    destruct (ptr_sizes_get_k_list _ _ _ _ E4) as [M4 C4].
    destruct (transfer_get_l_list ppr ppt ptr4 fuel) as [ptr5 | |] eqn:E5;
      simpl; try discriminate.
    destruct (ptr_sizes_get_l_list _ _ _ _ _ E5) as [M5 C5].
    destruct (transfer_init_table ppr pba pth ppt ptr5) as [[] | |]; simpl; try discriminate.
    intros H. injection H as <- <-.
    assert (Hmd : ptr_md_size ptr5 = ppt_md_size ppt) by (destruct H1; congruence).
    assert (Hc : ptr_has_cls ptr5 = true) by (destruct H1; congruence).
    assert (Hmd2 : ptr_md_size ptr2 = ppt_md_size ppt) by (destruct H1; congruence).
    assert (Hmd4 : ptr_md_size ptr4 = ppt_md_size ppt) by (destruct H1; congruence).
    rewrite Hmd2, Hmd4, Hmd.
    set (n := seq 0 (Z.to_nat (ppt_md_size ppt))).
    unfold for_each_md. fold n.
    set (h1 := fold_left (fun h i => alloc (blk_l_size_tt_md i) h) n
                 (alloc blk_l_size_tt (alloc blk_l_size (alloc blk_tt_size [])))).
    set (h2 := fold_left (fun h i => alloc (blk_k_md i) h) n
                 (alloc blk_k (alloc blk_q (alloc blk_transfer h1)))).
    set (h3 := fold_left (fun h i => alloc (blk_transfer_md i) h) n (alloc blk_l h2)).
    assert (Hin : forall b, In b h3 ->
               In b [blk_tt_size; blk_l_size; blk_l_size_tt; blk_transfer; blk_q; blk_k; blk_l]
               \/ exists i, In i n
                            /\ (b = blk_l_size_tt_md i \/ b = blk_k_md i
                                \/ b = blk_transfer_md i)).
    { intros b Hb. unfold h3 in Hb. apply In_fold_alloc in Hb.
      destruct Hb as [Hb | (i & Hi & ->)]; [|right; exists i; tauto].
      destruct Hb as [<- | Hb]; [left; simpl; tauto|].
      unfold h2 in Hb. apply In_fold_alloc in Hb.
      destruct Hb as [Hb | (i & Hi & ->)]; [|right; exists i; tauto].
      destruct Hb as [<- | [<- | [<- | Hb]]]; try (left; simpl; tauto).
      unfold h1 in Hb. apply In_fold_alloc in Hb.
      destruct Hb as [Hb | (i & Hi & ->)]; [|right; exists i; tauto].
      left. simpl in *. tauto. }
    split; [exact Hc|]. split.
    + intros _. split; [reflexivity|].
      assert (Htt : In blk_tt_size h1)
        by (apply In_fold_alloc_keep; simpl; tauto).
      assert (Hq : In blk_q h2) by (apply In_fold_alloc_keep; simpl; tauto).
      assert (Htt' : In blk_tt_size h2) by (apply In_fold_alloc_keep; simpl; tauto).
      repeat split; apply In_fold_alloc_keep; simpl; tauto.
    + unfold transfer_free. rewrite Hc, Hmd. unfold for_each_md. fold n.
      match goal with |- Ok ?r = Ok [] => destruct r as [|b rest] eqn:Er end;
        [reflexivity|exfalso].
      assert (Hb : In b (b :: rest)) by (left; reflexivity).
      rewrite <- Er in Hb. unfold free in Hb.
      repeat (apply in_remove in Hb; let Hne := fresh "Hne" in destruct Hb as [Hb Hne]).
      cbv beta in Hb.
      apply (In_fold_free blk_k_md blk_transfer_md blk_l_size_tt_md) in Hb.
      destruct Hb as [Hb Hmdne].
      destruct (Hin b Hb) as [Hs | (i & Hi & Hcases)].
      * simpl in Hs. intuition congruence.
      * destruct (Hmdne i Hi) as (Ha & Hb' & Hc'). intuition congruence.
  - intros H. injection H as <- <-.
    rewrite ptr_has_cls_set. split; [reflexivity|]. split; [discriminate|].
    unfold transfer_free. rewrite ptr_has_cls_set. reflexivity.
Qed.

(** A run of [transfer_init] with spectra requested, in closed space: the
    three grids are built. *)
Lemma transfer_get_k_list_closed (ptr : transfers) :
  ptr_md_size ptr = 1%Z ->
  exists ptr',
    transfer_get_k_list (ppt_with_k [1; 7]) (ptr_closed_run ptr) 1 = Ok ptr'.
Proof.
  intros Hmd. unfold transfer_get_k_list.
  replace (ptr_md_size (ptr_closed_run ptr)) with 1%Z
    by (rewrite <- Hmd; destruct ptr; reflexivity).
  change (Z.to_nat 1) with 1%nat. cbn [k_list_loop].
  replace (k_list_spin (ppt_with_k [1; 7]) 0 0) with 0 by reflexivity.
  assert (Hk : k_of_q (ptr_closed_run ptr) 1 0
               = map (fun q => sqrt (q * q - 1 * (0 + 1))) [3; 4; 5; 6; 48 / 7]).
  { unfold k_of_q. destruct ptr; reflexivity. }
  rewrite Hk.
  replace (ptr_q_size (ptr_closed_run ptr)) with 5%Z by (destruct ptr; reflexivity).
  unfold k_is_number.
  replace (ptr_q (ptr_closed_run ptr)) with [3; 4; 5; 6; 48 / 7]
    by (destruct ptr; reflexivity).
  unfold rd; simpl nth. unfold class_test.
  replace (Rltb (sqrt (3 * 3 - 1 * (0 + 1))) 1) with false.
  2:{ symmetry. apply Rltb_false. rewrite <- sqrt_1 at 1. apply sqrt_le_1_alt. lra. }
  replace (Rltb 7 (sqrt (48 / 7 * (48 / 7) - 1 * (0 + 1)))) with false.
  2:{ symmetry. apply Rltb_false.
      apply Rle_trans with (sqrt (7 * 7)); [apply sqrt_le_1_alt; lra|].
      rewrite sqrt_square by lra. lra. }
  rewrite !andb_false_r. cbn [bind]. eexists. reflexivity.
Qed.

Lemma transfer_init_closed_ok :
  exists ptr' h',
    transfer_init (fun _ _ _ _ _ => Ok tt) ppr_closed pba_closed pth_closed
      (ppt_with_k [1; 7]) ptr_blank 2500 [] = Ok (ptr', h').
Proof.
  unfold transfer_init. cbn [ppt_has_cls ppt_with_k negb].
  replace (2 * PI / (pba_conformal_age pba_closed - pth_tau_rec pth_closed)
           * ptr_angular_rescaling _) with 1.
  2:{ simpl. pose proof PI_neq0. field. lra. }
  unfold transfer_indices_of_transfers. cbn [pba_K pba_sgnK pba_closed].
  rewrite transfer_get_q_list_closed. cbn [bind].
  match goal with
  | |- context [transfer_get_k_list _ (ptr_closed_run ?p) _] =>
      destruct (transfer_get_k_list_closed p) as [ptr4 E4]; [reflexivity|]
  end.
  rewrite E4. cbn [bind].
  assert (Hresc : ptr_angular_rescaling ptr4 = 1).
  { unfold transfer_get_k_list in E4.
    destruct (k_list_loop _ _ _ _ _ _ _) as [k | |]; simpl in E4; try discriminate.
    injection E4 as <-. reflexivity. }
  destruct (l_fill_ok ppr_closed ptr4 (l_list_l_max (ppt_with_k [1; 7])) 2500) as (l & El & _).
  { vm_compute. discriminate. }
  { unfold l_lin_increment. rewrite Hresc. simpl.
    replace (40 * 1) with (IZR 40) by lra. rewrite trunc_IZR. lia. }
  { vm_compute. lia. }
  destruct (transfer_get_l_list_has_cls ppr_closed (ppt_with_k [1; 7]) ptr4 2500 l
              eq_refl El) as (ptr5 & E5 & _).
  rewrite E5. cbn [bind]. eexists. eexists. reflexivity.
Qed.

(** Scalar temperature spectra in closed space with [K = 1]: [transfer_init]
    succeeds, the structure records the spectra and its single mode, the
    arrays of the type sizes, of the wavenumbers and of the multipoles are
    allocated, and [transfer_free] leaves no block. *)
Lemma transfer_init_free_balance_witness :
  exists ptr' h',
    transfer_init (fun _ _ _ _ _ => Ok tt) ppr_closed pba_closed pth_closed
      (ppt_with_k [1; 7]) ptr_blank 2500 [] = Ok (ptr', h')
    /\ ptr_has_cls ptr' = true
    /\ ptr_md_size ptr' = 1%Z
    /\ In blk_tt_size h' /\ In blk_q h' /\ In blk_l h'
    /\ transfer_free ptr' h' = Ok [].
Proof.
  destruct transfer_init_closed_ok as (ptr' & h' & Hinit).
  destruct (transfer_init_free_balance (fun _ _ _ _ _ => Ok tt) ppr_closed pba_closed
              pth_closed (ppt_with_k [1; 7]) ptr_blank ptr' 2500 h' Hinit)
    as (Hcls & Hblocks & Hfree).
  destruct (Hblocks eq_refl) as (Hmd & Htt & Hq & Hl).
  exists ptr', h'. repeat split; assumption.
Defined.

(** ** The index of the flat approximation *)

Lemma q_flat_approximation_index_spec (q : list R) (q_approximation : R) (n : nat) :
  forall i,
    let r := q_flat_approximation_index n q q_approximation i in
    (i <= r <= i + Z.of_nat n)%Z
    /\ (forall j, (i <= j < r)%Z -> rd q j <= q_approximation)
    /\ ((r < i + Z.of_nat n)%Z -> q_approximation < rd q r).
Proof.
  induction n as [|n IH]; intros i; simpl.
  - split; [lia|]. split; [intros j Hj; lia | intros H; lia].
  - destruct (Rltb q_approximation (rd q i)) eqn:E.
    + apply Rltb_true in E. split; [lia|]. split; [intros j Hj; lia | intros _; exact E].
    + apply Rltb_false in E. destruct (IH (i + 1)%Z) as (H1 & H2 & H3).
      split; [lia|]. split.
      * intros j Hj. destruct (Z.eq_dec j i) as [-> | Hne]; [exact E | apply H2; lia].
      * intros Hlt. apply H3. lia.
Qed.

Lemma ptr_flat_set (ptr0 : transfers) (q : list R) (q_size i : Z) :
  ptr_index_q_flat_approximation
    (set_ptr_index_q_flat_approximation i (set_ptr_q_size q_size (set_ptr_q q ptr0))) = i
  /\ ptr_index_q_flat_approximation (set_ptr_q_size q_size (set_ptr_q q ptr0))
     = ptr_index_q_flat_approximation ptr0.
Proof. destruct ptr0. split; reflexivity. Qed.

(** X16: after [transfer_get_q_list] in curved space, the index of the flat
    approximation is an index of the grid: every wavenumber before it is at
    most [hyper_flat_approximation_nu sqrt(|K|)], the one at the index is
    above it unless the index is the last, and the index is never past the
    last wavenumber, for which [transfer_update_HIS] therefore builds no
    table.  In flat space the index is left as it was. *)
Theorem transfer_get_q_list_flat_approximation
    (ppr : precision) (ppt : perturbs) (ptr ptr' : transfers) (q_period K : R) (sgnK : Z) :
  transfer_get_q_list ppr ppt ptr q_period K sgnK = Ok ptr' ->
  (sgnK = 0%Z ->
   ptr_index_q_flat_approximation ptr' = ptr_index_q_flat_approximation ptr)
  /\ (sgnK <> 0%Z ->
      let q_approximation := ppr_hyper_flat_approximation_nu ppr * sqrt (IZR sgnK * K) in
      let index := ptr_index_q_flat_approximation ptr' in
      (0 <= index <= ptr_q_size ptr' - 1)%Z
      /\ (forall index_q, (0 <= index_q < index)%Z ->
                          rd (ptr_q ptr') index_q <= q_approximation)
      /\ ((index < ptr_q_size ptr' - 1)%Z -> q_approximation < rd (ptr_q ptr') index)
      /\ forall ptw, transfer_update_HIS_nu ptr' ptw (ptr_q_size ptr' - 1) = Ok None).
Proof.
  unfold transfer_get_q_list.
  destruct (q_list_fill ppr ppt ptr q_period K sgnK) as [st | |]; simpl; try discriminate.
  unfold class_test.
  destruct (q_list_size (snd (q_list_bounds ppt K sgnK)) st <? 2)%Z eqn:E2;
    simpl; try discriminate.
  apply Z.ltb_ge in E2.
  set (q_size := q_list_size (snd (q_list_bounds ppt K sgnK)) st) in *.
  set (q := firstn (Z.to_nat q_size) (qs_q st)).
  destruct (sgnK =? 0)%Z eqn:Es; intros H; injection H as <-.
  - apply Z.eqb_eq in Es. split; [|intros Hne; contradiction].
    intros _. apply (proj2 (ptr_flat_set ptr q q_size 0)).
  - apply Z.eqb_neq in Es. split; [intros Heq; contradiction|]. intros _.
    destruct (ptr_q_set ptr q q_size
                (q_flat_approximation_index (Z.to_nat (q_size - 1)) q
                   (ppr_hyper_flat_approximation_nu ppr * sqrt (IZR sgnK * K)) 0))
      as (_ & _ & Hq & Hsize).
    destruct (ptr_flat_set ptr q q_size
                (q_flat_approximation_index (Z.to_nat (q_size - 1)) q
                   (ppr_hyper_flat_approximation_nu ppr * sqrt (IZR sgnK * K)) 0))
      as [Hflat _].
    cbv zeta. rewrite Hq, Hsize, Hflat.
    destruct (q_flat_approximation_index_spec q
                (ppr_hyper_flat_approximation_nu ppr * sqrt (IZR sgnK * K))
                (Z.to_nat (q_size - 1)) 0%Z) as (H1 & H2 & H3).
    cbv zeta in H1, H2, H3.
    split; [lia|]. split; [exact H2|]. split; [intros Hlt; apply H3; lia|].
    intros ptw. unfold transfer_update_HIS_nu. rewrite Hflat.
    replace (q_size - 1 <? _)%Z with false by (symmetry; apply Z.ltb_ge; lia).
    rewrite andb_false_r. reflexivity.
Qed.

(** The run in closed space with [K = 1] and a threshold of 5: the grid is
    [3; 4; 5; 6; 48/7], the index is 3, the three values before it are at most
    5, the value at the index is above 5, and no table is built for the last
    value.  The run in flat space: the index keeps the value it had. *)
Lemma transfer_get_q_list_flat_approximation_witness :
  let ptr' := ptr_closed_run ptr_blank in
  (transfer_get_q_list ppr_closed (ppt_with_k [1; 7]) ptr_blank 1 1 1 = Ok ptr'
   /\ ptr_index_q_flat_approximation ptr' = 3%Z
   /\ (0 <= ptr_index_q_flat_approximation ptr' <= ptr_q_size ptr' - 1)%Z
   /\ (forall index_q, (0 <= index_q < ptr_index_q_flat_approximation ptr')%Z ->
                       rd (ptr_q ptr') index_q <= 5 * sqrt (1 * 1))
   /\ ((ptr_index_q_flat_approximation ptr' < ptr_q_size ptr' - 1)%Z ->
       5 * sqrt (1 * 1) < rd (ptr_q ptr') (ptr_index_q_flat_approximation ptr'))
   /\ forall ptw, transfer_update_HIS_nu ptr' ptw (ptr_q_size ptr' - 1) = Ok None)
  /\ ptr_index_q_flat_approximation
       (set_ptr_q_size 3 (set_ptr_q [1; 5 / 3; 85 / 33] ptr_blank))
     = ptr_index_q_flat_approximation ptr_blank.
Proof.
  intros ptr'. split.
  - destruct (transfer_get_q_list_flat_approximation ppr_closed (ppt_with_k [1; 7])
                ptr_blank ptr' 1 1 1 (transfer_get_q_list_closed ptr_blank)) as [_ Hcurved].
    destruct (Hcurved ltac:(discriminate)) as (H1 & H2 & H3 & H4).
    split; [apply transfer_get_q_list_closed|]. split; [reflexivity|].
    split; [exact H1|]. split; [exact H2|]. split; [exact H3 | exact H4].
  - apply (transfer_get_q_list_flat_approximation ppr_round (ppt_with_k [1; 3]) ptr_blank
             _ 1 0 0 transfer_get_q_list_round).
    reflexivity.
Defined.

(** ** The shapes of the selection function *)

Lemma cosh_pos (x : R) : 0 < cosh x.
Proof. unfold cosh. pose proof (exp_pos x). pose proof (exp_pos (- x)). lra. Qed.

Lemma tanh_bounds (x : R) : -1 < tanh x < 1.
Proof.
  unfold tanh. pose proof (cosh_pos x) as Hc.
  assert (H1 : cosh x - sinh x = exp (- x)) by (unfold cosh, sinh; lra).
  assert (H2 : cosh x + sinh x = exp x) by (unfold cosh, sinh; lra).
  pose proof (exp_pos x). pose proof (exp_pos (- x)).
  split.
  - apply (Rmult_lt_reg_r (cosh x)); [exact Hc|].
    unfold Rdiv. rewrite Rmult_assoc, Rinv_l by lra. lra.
  - apply (Rmult_lt_reg_r (cosh x)); [exact Hc|].
    unfold Rdiv. rewrite Rmult_assoc, Rinv_l by lra. lra.
Qed.

Lemma tanh_sign (x : R) :
  (x < 0 -> tanh x < 0) /\ (x = 0 -> tanh x = 0) /\ (0 < x -> 0 < tanh x).
Proof.
  unfold tanh. pose proof (cosh_pos x) as Hc.
  assert (Hi : 0 < / cosh x) by (apply Rinv_0_lt_compat; exact Hc).
  split; [|split].
  - intros H. apply sinh_lt in H. rewrite sinh_0 in H. unfold Rdiv. nra.
  - intros ->. rewrite sinh_0. unfold Rdiv. ring.
  - intros H. apply sinh_lt in H. rewrite sinh_0 in H. unfold Rdiv. nra.
Qed.

Lemma exp_le_1 (x : R) : x <= 0 -> exp x <= 1.
Proof.
  intros [H | ->]; [|rewrite exp_0; lra].
  apply exp_increasing in H. rewrite exp_0 in H. lra.
Qed.

(** X17: [transfer_selection_function] is symmetric around the mean redshift
    of the bin; for a Dirac it is 1; for a Gaussian of positive width it is
    positive and largest at the mean, where it is [1/(width sqrt(2 pi))]; for
    a top-hat of positive width and edge it lies strictly between 0 and 1,
    is [1/2] at distance [width] from the mean, above [1/2] inside and below
    outside. *)
Theorem transfer_selection_function_spec
    (ppr : precision) (ppt : perturbs) (bin : Z) (z : R) :
  let mean := rd (ppt_selection_mean ppt) bin in
  let width := rd (ppt_selection_width ppt) bin in
  let f := transfer_selection_function ppr ppt bin in
  (forall d, f (mean + d) = f (mean - d))
  /\ (ppt_selection ppt = dirac -> f z = 1)
  /\ (ppt_selection ppt = gaussian -> 0 < width ->
      0 < f z <= f mean /\ f mean = 1 / (width * sqrt (2 * PI)))
  /\ (ppt_selection ppt = tophat -> 0 < width -> 0 < ppr_selection_tophat_edge ppr ->
      0 < f z < 1
      /\ (Rabs (z - mean) = width -> f z = 1 / 2)
      /\ (Rabs (z - mean) < width -> 1 / 2 < f z)
      /\ (width < Rabs (z - mean) -> f z < 1 / 2)).
Proof.
  intros mean width f. subst f. unfold transfer_selection_function. fold mean. fold width.
  split; [|split; [|split]].
  - intros d. replace (mean + d - mean) with d by ring.
    replace (mean - d - mean) with (- d) by ring. rewrite Rabs_Ropp. reflexivity.
  - intros ->. reflexivity.
  - intros -> Hw.
    assert (Hs : 0 < sqrt (2 * PI)) by (apply sqrt_lt_R0; pose proof PI_RGT_0; lra).
    replace (mean - mean) with 0 by ring. rewrite Rabs_R0.
    replace (-0.5 * (0 / width) ^ 2) with 0 by (field; lra). rewrite exp_0.
    set (e := exp (-0.5 * (Rabs (z - mean) / width) ^ 2)).
    assert (He : 0 < e <= 1).
    { split; [apply exp_pos|]. apply exp_le_1.
      pose proof (pow2_ge_0 (Rabs (z - mean) / width)). lra. }
    assert (Hiw : 0 < / width) by (apply Rinv_0_lt_compat; exact Hw).
    assert (His : 0 < / sqrt (2 * PI)) by (apply Rinv_0_lt_compat; exact Hs).
    assert (Hp : 0 < / width * / sqrt (2 * PI)) by (apply Rmult_lt_0_compat; assumption).
    split; [|field; lra].
    unfold Rdiv. rewrite !Rmult_assoc. split; [apply Rmult_lt_0_compat; lra|].
    rewrite Rmult_1_l. rewrite <- (Rmult_1_l (/ width * / sqrt (2 * PI))) at 2.
    apply Rmult_le_compat_r; lra.
  - intros -> Hw He.
    set (x := (Rabs (z - mean) - width) / (ppr_selection_tophat_edge ppr * width)).
    pose proof (tanh_bounds x) as Hb.
    destruct (tanh_sign x) as (Hneg & Hzero & Hpos).
    assert (Hd : 0 < ppr_selection_tophat_edge ppr * width) by (apply Rmult_lt_0_compat; lra).
    assert (Hid : 0 < / (ppr_selection_tophat_edge ppr * width))
      by (apply Rinv_0_lt_compat; exact Hd).
    split; [lra|]. split; [|split].
    + intros Heq. rewrite Hzero; [lra|]. unfold x. rewrite Heq. unfold Rdiv. ring.
    + intros Hlt. assert (x < 0) by (unfold x, Rdiv; nra). specialize (Hneg H). lra.
    + intros Hgt. assert (0 < x) by (unfold x, Rdiv; nra). specialize (Hpos H). lra.
Qed.

(** The Gaussian bin at [z = 1] of width 0.1 is positive at [z = 1.3]. *)
Lemma transfer_selection_function_spec_witness :
  0 < transfer_selection_function ppr_default ppt_all_types 0 1.3.
Proof.
  destruct (transfer_selection_function_spec ppr_default ppt_all_types 0 1.3)
    as (_ & _ & Hgauss & _).
  apply Hgauss; [reflexivity | unfold rd; simpl; lra].
Defined.

(** ** The times of a selection function *)

Lemma MAX_cases (a b : R) : (b < a /\ MAX a b = a) \/ (a <= b /\ MAX a b = b).
Proof. unfold MAX. destruct (Rlt_dec b a); [left | right]; split; lra. Qed.

(** X18: when the background gives a conformal time for every redshift that
    is not negative, a time that does not increase with redshift, and the
    mean, the width and the cuts of the bin are not negative,
    [transfer_selection_times] succeeds, asking for no negative redshift,
    and its three times are ordered: [tau_min <= tau_mean <= tau_max]; for a
    Dirac selection function the three are equal. *)
Theorem transfer_selection_times_spec
    (background_tau_of_z : background -> R -> result R) (tau_of_z : R -> R)
    (ppr : precision) (pba : background) (ppt : perturbs) (bin : Z) :
  (forall z, 0 <= z -> background_tau_of_z pba z = Ok (tau_of_z z)) ->
  (forall z z', 0 <= z <= z' -> tau_of_z z' <= tau_of_z z) ->
  0 <= rd (ppt_selection_mean ppt) bin ->
  0 <= rd (ppt_selection_width ppt) bin ->
  0 <= ppr_selection_cut_at_sigma ppr ->
  0 <= ppr_selection_tophat_edge ppr ->
  exists tau_min tau_mean tau_max,
    transfer_selection_times background_tau_of_z ppr pba ppt bin
    = Ok (tau_min, tau_mean, tau_max)
    /\ tau_min <= tau_mean <= tau_max
    /\ tau_mean = tau_of_z (rd (ppt_selection_mean ppt) bin)
    /\ (ppt_selection ppt = dirac -> tau_min = tau_mean /\ tau_max = tau_mean).
Proof.
  intros Hok Hmono Hmean Hwidth Hcut Hedge. unfold transfer_selection_times.
  set (mean := rd (ppt_selection_mean ppt) bin) in *.
  set (width := rd (ppt_selection_width ppt) bin) in *.
  assert (Hcw : 0 <= width * ppr_selection_cut_at_sigma ppr) by (apply Rmult_le_pos; lra).
  assert (Hce : 0 <= ppr_selection_cut_at_sigma ppr * ppr_selection_tophat_edge ppr)
    by (apply Rmult_le_pos; lra).
  assert (Hcew : 0 <= (1 + ppr_selection_cut_at_sigma ppr * ppr_selection_tophat_edge ppr)
                      * width) by (apply Rmult_le_pos; lra).
  assert (Hm : MAX mean 0 = mean) by (destruct (MAX_cases mean 0) as [[_ H] | [H1 H]]; lra).
  destruct (ppt_selection ppt).
  - destruct (MAX_cases (mean - width * ppr_selection_cut_at_sigma ppr) 0) as [[Hc E] | [Hc E]];
      rewrite Hok by lra; cbn [bind]; rewrite E; rewrite Hok by lra; cbn [bind];
      rewrite Hm; rewrite Hok by lra; cbn [bind];
      do 3 eexists; (split; [reflexivity|]);
      (split; [split; apply Hmono; lra|]); (split; [reflexivity | discriminate]).
  - destruct (MAX_cases (mean - (1 + ppr_selection_cut_at_sigma ppr
                                     * ppr_selection_tophat_edge ppr) * width) 0)
      as [[Hc E] | [Hc E]];
      rewrite Hok by lra; cbn [bind]; rewrite E; rewrite Hok by lra; cbn [bind];
      rewrite Hm; rewrite Hok by lra; cbn [bind];
      do 3 eexists; (split; [reflexivity|]);
      (split; [split; apply Hmono; lra|]); (split; [reflexivity | discriminate]).
  - rewrite Hok by lra. cbn [bind]. rewrite Hm. rewrite Hok by lra. cbn [bind].
    do 3 eexists. split; [reflexivity|]. split; [lra|]. split; [reflexivity|].
    intros _. split; reflexivity.
Qed.

(** The Gaussian bin at [z = 1] in the background where
    [tau = 14000 - 1000 z]. *)
Lemma transfer_selection_times_spec_witness :
  exists tau_min tau_mean tau_max,
    transfer_selection_times background_tau_of_z_linear ppr_default pba_unit ppt_all_types 0
    = Ok (tau_min, tau_mean, tau_max)
    /\ tau_min <= tau_mean <= tau_max.
Proof.
  destruct (transfer_selection_times_spec background_tau_of_z_linear
              (fun z => 14000 - 1000 * z) ppr_default pba_unit ppt_all_types 0)
    as (tau_min & tau_mean & tau_max & Hrun & Horder & _).
  - intros z _. reflexivity.
  - intros z z' Hz. lra.
  - unfold rd; simpl; lra.
  - unfold rd; simpl; lra.
  - simpl; lra.
  - simpl; lra.
  - exists tau_min, tau_mean, tau_max. split; [exact Hrun | exact Horder].
Defined.

(** ** [transfer_compute_for_each_q] *)

(** An invariant of the turns of a loop holds when it ends. *)
Lemma for_loop_inv {St : Type} (body : Z -> St -> result St) (P : St -> Prop) (n : nat) :
  forall first s s',
    (forall i a a', (first <= i < first + Z.of_nat n)%Z -> P a -> body i a = Ok a' -> P a') ->
    P s -> for_loop n first body s = Ok s' -> P s'.
Proof.
  induction n as [|n IH]; intros first s s' Hbody Hs Hrun.
  - simpl in Hrun. injection Hrun as <-. exact Hs.
  - simpl in Hrun. destruct (body first s) as [a| |] eqn:E; try discriminate.
    simpl in Hrun. apply (IH (first + 1)%Z a s'); try assumption.
    + intros i b b' Hi. apply Hbody. lia.
    + apply (Hbody first s a); [lia | assumption | assumption].
Qed.

Lemma nth_list_set {A : Type} (a : list A) (i j : nat) (v d : A) :
  nth j (list_set a i v) d
  = if (Nat.eqb i j && Nat.ltb i (length a))%bool then v else nth j a d.
Proof.
  destruct (Nat.eqb_spec i j) as [<- | Hne]; simpl.
  - destruct (Nat.ltb_spec i (length a)) as [Hlt | Hge].
    + apply nth_list_set_eq. assumption.
    + revert i Hge. induction a as [|x r IH]; intros [|i] H; simpl in *; try lia; auto.
      apply IH. lia.
  - apply nth_list_set_neq. assumption.
Qed.

Lemma transfer_write_shape (t : list (list R)) (index_md index : Z) (v : R) :
  same_shape t (transfer_write t index_md index v).
Proof.
  unfold same_shape, transfer_write, wr. split.
  - rewrite list_set_length. reflexivity.
  - intros m. rewrite nth_list_set.
    destruct (_ && _)%bool eqn:E; [|reflexivity].
    apply andb_true_iff in E. destruct E as [E _]. apply Nat.eqb_eq in E. subst m.
    rewrite list_set_length. reflexivity.
Qed.

Lemma transfer_write_other (t : list (list R)) (index_md index : Z) (v : R)
    (m : nat) (j : Z) :
  (0 <= index)%Z -> (0 <= j)%Z -> (m <> Z.to_nat index_md \/ j <> index) ->
  rd (nth m (transfer_write t index_md index v) []) j = rd (nth m t []) j.
Proof.
  intros Hi Hj Hne. unfold transfer_write, wr. rewrite nth_list_set.
  destruct (_ && _)%bool eqn:E; [|reflexivity].
  apply andb_true_iff in E. destruct E as [E _]. apply Nat.eqb_eq in E. subst m.
  destruct Hne as [Hne | Hne]; [contradiction|].
  unfold rd. apply nth_list_set_neq. lia.
Qed.

Lemma same_shape_trans (t1 t2 t3 : list (list R)) :
  same_shape t1 t2 -> same_shape t2 t3 -> same_shape t1 t3.
Proof.
  intros [H1 H2] [H3 H4]. split; [congruence|]. intros m. rewrite H2. apply H4.
Qed.

Lemma transfer_write_off_column (q_size index_q : Z) (t0 t : list (list R))
    (index_md X : Z) (v : R) :
  (0 <= index_q < q_size)%Z -> (0 <= X)%Z ->
  same_off_column q_size index_q t0 t ->
  same_off_column q_size index_q t0 (transfer_write t index_md (X * q_size + index_q) v).
Proof.
  intros Hq HX [Hs Hv]. split.
  - eapply same_shape_trans; [exact Hs | apply transfer_write_shape].
  - intros m j Hj Hmod. rewrite transfer_write_other; [apply Hv; assumption | nia | assumption |].
    right. intros ->. apply Hmod.
    rewrite Z.add_comm, Z.mod_add by lia. apply Z.mod_small. lia.
Qed.

(** The place of a transfer function is inside the row allocated for its
    mode. *)
Lemma transfer_index_bounds (ptr : transfers) (ppt_ic_size : list Z)
    (index_q index_md index_ic index_tt index_l : Z) :
  (0 <= index_q < ptr_q_size ptr)%Z ->
  (0 <= index_ic < rdi ppt_ic_size index_md)%Z ->
  (0 <= index_tt < rdi (ptr_tt_size ptr) index_md)%Z ->
  (0 <= index_l < rdi (ptr_l_size ptr) index_md)%Z ->
  (0 <= transfer_index ptr index_q index_md index_ic index_tt index_l
   < rdi ppt_ic_size index_md * rdi (ptr_tt_size ptr) index_md
     * rdi (ptr_l_size ptr) index_md * ptr_q_size ptr)%Z.
Proof.
  intros Hq Hic Htt Hl. unfold transfer_index.
  set (ic_size := rdi ppt_ic_size index_md) in *.
  set (tt_size := rdi (ptr_tt_size ptr) index_md) in *.
  set (l_size := rdi (ptr_l_size ptr) index_md) in *.
  set (q_size := ptr_q_size ptr) in *.
  assert (H1 : (0 <= index_ic * tt_size + index_tt <= ic_size * tt_size - 1)%Z) by nia.
  set (a := (index_ic * tt_size + index_tt)%Z) in *.
  assert (H2 : (0 <= a * l_size + index_l <= ic_size * tt_size * l_size - 1)%Z) by nia.
  set (b := (a * l_size + index_l)%Z) in *.
  nia.
Qed.

Section For_each_q_column.
Variable transfer_radial_function :
  transfer_workspace -> perturbs -> transfers -> R -> Z -> Z -> Z ->
  radial_function_type -> result (list R).
Variable transfer_sources :
  precision -> background -> perturbs -> transfers -> list R -> R -> Z -> Z -> Z ->
  list R -> list R -> list R -> Z -> result (list R * list R * list R * Z).
Variables (ppr : precision) (ppr_neglect : precision_neglect) (pba : background)
          (ppt : perturbs) (ptr : transfers).
Variables (ppt_ic_size ppt_tp_size : list Z) (ppt_k_size : Z)
          (ppt_sources : list (list (list R))).
Variable tp_of_tt : list (list Z).
Variables (index_q : Z) (tau_rec : R) (sources_spline : list (list (list R))).
Variables (HIS_l_size : Z) (pBIS_x_last : R).

Hypothesis Hq : (0 <= index_q < ptr_q_size ptr)%Z.

Let l_body :=
  for_each_q_l_body transfer_radial_function ppr ppr_neglect pba ppt ptr index_q tau_rec
    HIS_l_size pBIS_x_last.
Let tt_body :=
  for_each_q_tt_body transfer_radial_function transfer_sources ppr ppr_neglect pba ppt ptr
    ppt_tp_size ppt_k_size ppt_sources tp_of_tt index_q tau_rec sources_spline
    HIS_l_size pBIS_x_last.
Let ic_body :=
  for_each_q_ic_body transfer_radial_function transfer_sources ppr ppr_neglect pba ppt ptr
    ppt_tp_size ppt_k_size ppt_sources tp_of_tt index_q tau_rec sources_spline
    HIS_l_size pBIS_x_last.
Let md_body :=
  for_each_q_md_body transfer_radial_function transfer_sources ppr ppr_neglect pba ppt ptr
    ppt_ic_size ppt_tp_size ppt_k_size ppt_sources tp_of_tt index_q tau_rec
    sources_spline HIS_l_size pBIS_x_last.

Lemma transfer_index_column (index_md index_ic index_tt index_l : Z) :
  transfer_index ptr index_q index_md index_ic index_tt index_l
  = (((index_ic * rdi (ptr_tt_size ptr) index_md + index_tt)
      * rdi (ptr_l_size ptr) index_md + index_l) * ptr_q_size ptr + index_q)%Z.
Proof. reflexivity. Qed.

Lemma l_body_off_column t0 index_md index_ic index_tt index_l st st' :
  (0 <= index_ic)%Z -> (0 <= index_tt < rdi (ptr_tt_size ptr) index_md)%Z ->
  (0 <= index_l < rdi (ptr_l_size ptr) index_md)%Z ->
  same_off_column (ptr_q_size ptr) index_q t0 (fq_transfer st) ->
  l_body index_md index_ic index_tt index_l st = Ok st' ->
  same_off_column (ptr_q_size ptr) index_q t0 (fq_transfer st').
Proof.
  intros Hic Htt Hl Hst. unfold l_body, for_each_q_l_body. cbv zeta.
  rewrite transfer_index_column.
  assert (HX : (0 <= (index_ic * rdi (ptr_tt_size ptr) index_md + index_tt)
                     * rdi (ptr_l_size ptr) index_md + index_l)%Z).
  { assert (0 <= index_ic * rdi (ptr_tt_size ptr) index_md)%Z
      by (apply Z.mul_nonneg_nonneg; lia).
    assert (0 <= (index_ic * rdi (ptr_tt_size ptr) index_md + index_tt)
                 * rdi (ptr_l_size ptr) index_md)%Z
      by (apply Z.mul_nonneg_nonneg; lia).
    lia. }
  match goal with |- (if ?c then _ else _) = _ -> _ => destruct c end.
  - intros [= <-]. cbn [fq_transfer]. apply transfer_write_off_column; assumption.
  - match goal with |- bind ?r _ = _ -> _ => destruct r as [v| |] end; try discriminate.
    intros [= <-]. cbn [fq_transfer].
    apply transfer_write_off_column; assumption.
Qed.

Lemma tt_body_off_column t0 index_md index_ic index_tt s s' :
  (0 <= index_ic)%Z -> (0 <= index_tt < rdi (ptr_tt_size ptr) index_md)%Z ->
  same_off_column (ptr_q_size ptr) index_q t0 (fq_transfer (snd s)) ->
  tt_body index_md index_ic index_tt s = Ok s' ->
  same_off_column (ptr_q_size ptr) index_q t0 (fq_transfer (snd s')).
Proof.
  intros Hic Htt Hst. destruct s as [previous_type st].
  unfold tt_body, for_each_q_tt_body. cbv zeta.
  match goal with |- bind ?r _ = _ -> _ => destruct r as [interpolated| |] end;
    try discriminate.
  cbn [bind].
  match goal with |- bind ?r _ = _ -> _ => destruct r as [[[[sources t] w] n]| |] end;
    try discriminate.
  cbn [bind].
  destruct (transfer_radial_coordinates _ _ _ _ _ _ _) as [[chi csc] cot].
  match goal with |- bind ?r _ = _ -> _ => destruct r as [st1| |] eqn:E end;
    try discriminate.
  intros [= <-]. cbn [snd].
  refine (for_loop_inv _ (fun a => same_off_column (ptr_q_size ptr) index_q t0 (fq_transfer a))
            _ _ _ _ _ _ E).
  - intros i a a' Hi Ha Hb.
    apply (l_body_off_column t0 index_md index_ic index_tt i a a'); try assumption.
    lia.
  - exact Hst.
Qed.


Lemma same_off_column_refl t : same_off_column (ptr_q_size ptr) index_q t t.
Proof. split; [split|]; reflexivity. Qed.

Lemma ic_body_off_column t0 index_md index_ic st st' :
  (0 <= index_ic)%Z ->
  same_off_column (ptr_q_size ptr) index_q t0 (fq_transfer st) ->
  ic_body index_md index_ic st = Ok st' ->
  same_off_column (ptr_q_size ptr) index_q t0 (fq_transfer st').
Proof.
  intros Hic Hst. unfold ic_body, for_each_q_ic_body.
  match goal with |- bind ?r _ = _ -> _ => destruct r as [s1| |] eqn:E end;
    try discriminate.
  intros [= <-].
  refine (for_loop_inv _
            (fun a => same_off_column (ptr_q_size ptr) index_q t0 (fq_transfer (snd a)))
            _ _ _ _ _ _ E).
  - intros i a a' Hi Ha Hb.
    apply (tt_body_off_column t0 index_md index_ic i a a'); try assumption. lia.
  - exact Hst.
Qed.

(** X19: for an [index_q] of the grid, [transfer_compute_for_each_q] writes
    in the table of the transfer functions only in the column of [index_q]:
    when it succeeds the table has kept its shape and every entry whose
    position is not [index_q] modulo [q_size] is as it was, so that the
    threads of the loop over [index_q] never write the same entry.  The place
    of every transfer function of the column lies inside the row that
    [transfer_indices_of_transfers] allocates for its mode. *)
Theorem transfer_compute_for_each_q_column (st st' : for_each_q_state) :
  transfer_compute_for_each_q transfer_radial_function transfer_sources ppr ppr_neglect
    pba ppt ptr ppt_ic_size ppt_tp_size ppt_k_size ppt_sources tp_of_tt index_q tau_rec
    sources_spline HIS_l_size pBIS_x_last st = Ok st' ->
  same_off_column (ptr_q_size ptr) index_q (fq_transfer st) (fq_transfer st')
  /\ forall index_md index_ic index_tt index_l,
       (0 <= index_ic < rdi ppt_ic_size index_md)%Z ->
       (0 <= index_tt < rdi (ptr_tt_size ptr) index_md)%Z ->
       (0 <= index_l < rdi (ptr_l_size ptr) index_md)%Z ->
       let index := transfer_index ptr index_q index_md index_ic index_tt index_l in
       (0 <= index < rdi ppt_ic_size index_md * rdi (ptr_tt_size ptr) index_md
                     * rdi (ptr_l_size ptr) index_md * ptr_q_size ptr)%Z
       /\ (index mod ptr_q_size ptr = index_q)%Z.
Proof.
  intros Hrun. split.
  - unfold transfer_compute_for_each_q in Hrun.
    refine (for_loop_inv _
              (fun a => same_off_column (ptr_q_size ptr) index_q (fq_transfer st)
                          (fq_transfer a))
              _ _ _ _ _ _ Hrun).
    + intros index_md a a' Hmd Ha Hb. unfold for_each_q_md_body in Hb.
      refine (for_loop_inv _
                (fun a => same_off_column (ptr_q_size ptr) index_q (fq_transfer st)
                            (fq_transfer a))
                _ _ _ _ _ _ Hb).
      * intros i b b' Hi Hb1 Hb2.
        apply (ic_body_off_column (fq_transfer st) index_md i b b'); try assumption. lia.
      * exact Ha.
    + apply same_off_column_refl.
  - intros index_md index_ic index_tt index_l Hic Htt Hl index. subst index.
    split; [apply transfer_index_bounds; assumption|].
    rewrite transfer_index_column.
    rewrite Z.add_comm, Z.mod_add by lia. apply Z.mod_small. lia.
Qed.

End For_each_q_column.

Lemma result_rel_bind {A B : Type} (P : A -> A -> Prop) (Q : B -> B -> Prop)
    (r1 r2 : result A) (f g : A -> result B) :
  result_rel P r1 r2 ->
  (forall a b, P a b -> result_rel Q (f a) (g b)) ->
  result_rel Q (bind r1 f) (bind r2 g).
Proof.
  destruct r1, r2; simpl; intros H Hf; try contradiction; auto.
Qed.

Lemma result_rel_weaken {A : Type} (P Q : A -> A -> Prop) (r1 r2 : result A) :
  (forall a b, P a b -> Q a b) -> result_rel P r1 r2 -> result_rel Q r1 r2.
Proof.
  destruct r1, r2; simpl; intros H Hr; try contradiction; auto.
Qed.

(** Two runs of a loop whose turns keep a relation end alike. *)
Lemma for_loop_rel {St : Type} (body : Z -> St -> result St) (Rel : Z -> St -> St -> Prop)
    (n : nat) :
  forall first s1 s2,
    (forall i a b, (first <= i < first + Z.of_nat n)%Z -> Rel i a b ->
                   result_rel (Rel (i + 1)%Z) (body i a) (body i b)) ->
    Rel first s1 s2 ->
    result_rel (Rel (first + Z.of_nat n)%Z) (for_loop n first body s1) (for_loop n first body s2).
Proof.
  induction n as [|n IH]; intros first s1 s2 Hbody Hs.
  - simpl. rewrite Z.add_0_r. exact Hs.
  - cbn [for_loop].
    apply (result_rel_bind (Rel (first + 1)%Z)).
    + apply Hbody; [lia | exact Hs].
    + intros a b Hab.
      replace (first + Z.of_nat (S n))%Z with (first + 1 + Z.of_nat n)%Z by lia.
      apply IH; [|exact Hab]. intros i a' b' Hi. apply Hbody. lia.
Qed.

Lemma rd_transfer_write (t : list (list R)) (index_md index : Z) (v : R) (m : nat) (j : Z) :
  rd (nth m (transfer_write t index_md index v) []) j
  = if (Nat.eqb (Z.to_nat index_md) m && Nat.ltb (Z.to_nat index_md) (length t)
        && (Nat.eqb (Z.to_nat index) (Z.to_nat j)
            && Nat.ltb (Z.to_nat index) (length (nth (Z.to_nat index_md) t []))))%bool
    then v else rd (nth m t []) j.
Proof.
  unfold transfer_write, wr. rewrite nth_list_set.
  destruct (Nat.eqb (Z.to_nat index_md) m && Nat.ltb (Z.to_nat index_md) (length t))%bool eqn:E.
  - unfold rd. rewrite nth_list_set. cbn [andb].
    apply andb_true_iff in E. destruct E as [E _]. apply Nat.eqb_eq in E. subst m.
    reflexivity.
  - reflexivity.
Qed.

Lemma transfer_write_agree (D : Z -> Z -> Prop) (t1 t2 : list (list R))
    (index_md index : Z) (v : R) :
  (0 <= index_md)%Z -> (0 <= index)%Z ->
  same_shape t1 t2 -> agree_on D t1 t2 ->
  (Z.to_nat index_md < length t1)%nat ->
  (index < Z.of_nat (length (nth (Z.to_nat index_md) t1 [])))%Z ->
  agree_on (fun md j => D md j \/ (md = index_md /\ j = index))
    (transfer_write t1 index_md index v) (transfer_write t2 index_md index v).
Proof.
  intros Hmd Hi [Hs1 Hs2] Ha Hlen Hrow md j Hd.
  rewrite !rd_transfer_write. rewrite <- Hs1, <- Hs2.
  destruct (_ && _ && _)%bool eqn:E; [reflexivity|].
  destruct Hd as [Hd | [-> ->]]; [apply Ha; assumption|].
  exfalso. rewrite !Nat.eqb_refl in E. cbn [andb] in E.
  apply andb_false_iff in E. destruct E as [E | E]; apply Nat.ltb_ge in E; lia.
Qed.

Lemma fq_rel_weaken (B B' : Prop) (D D' : Z -> Z -> Prop) (a b : for_each_q_state) :
  (B' -> B) -> (forall md j, D' md j -> D md j) -> fq_rel B D a b -> fq_rel B' D' a b.
Proof.
  intros HB HD (H1 & H2 & H3 & H4 & H5 & H6 & H7).
  repeat split; try assumption; try apply H6.
  - intros H. apply H5, HB, H.
  - intros md j H. apply H7, HD, H.
Qed.

Lemma table_allocated_shape (ptr : transfers) (ppt_ic_size : list Z) (t t' : list (list R)) :
  same_shape t t' -> table_allocated ptr ppt_ic_size t -> table_allocated ptr ppt_ic_size t'.
Proof.
  intros [H1 H2] Ha md Hmd. destruct (Ha md Hmd) as [H3 H4].
  rewrite <- H1, <- H2. split; assumption.
Qed.

Section For_each_q_initialises.
Variable transfer_radial_function :
  transfer_workspace -> perturbs -> transfers -> R -> Z -> Z -> Z ->
  radial_function_type -> result (list R).
Variable transfer_sources :
  precision -> background -> perturbs -> transfers -> list R -> R -> Z -> Z -> Z ->
  list R -> list R -> list R -> Z -> result (list R * list R * list R * Z).
Variables (ppr : precision) (ppr_neglect : precision_neglect) (pba : background)
          (ppt : perturbs) (ptr : transfers).
Variables (ppt_ic_size ppt_tp_size : list Z) (ppt_k_size : Z)
          (ppt_sources : list (list (list R))).
Variable tp_of_tt : list (list Z).
Variables (index_q : Z) (tau_rec : R) (sources_spline : list (list (list R))).
Variables (HIS_l_size : Z) (pBIS_x_last : R).

Hypothesis Hq : (0 <= index_q < ptr_q_size ptr)%Z.
Hypothesis Htp :
  forall index_md index_tt,
    (0 <= index_md < ptr_md_size ptr)%Z ->
    (0 <= index_tt < rdi (ptr_tt_size ptr) index_md)%Z ->
    rdi (nth (Z.to_nat index_md) tp_of_tt []) index_tt <> (-1)%Z.

Let l_body :=
  for_each_q_l_body transfer_radial_function ppr ppr_neglect pba ppt ptr index_q tau_rec
    HIS_l_size pBIS_x_last.
Let tt_body :=
  for_each_q_tt_body transfer_radial_function transfer_sources ppr ppr_neglect pba ppt ptr
    ppt_tp_size ppt_k_size ppt_sources tp_of_tt index_q tau_rec sources_spline
    HIS_l_size pBIS_x_last.
Let ic_body :=
  for_each_q_ic_body transfer_radial_function transfer_sources ppr ppr_neglect pba ppt ptr
    ppt_tp_size ppt_k_size ppt_sources tp_of_tt index_q tau_rec sources_spline
    HIS_l_size pBIS_x_last.
Let md_body :=
  for_each_q_md_body transfer_radial_function transfer_sources ppr ppr_neglect pba ppt ptr
    ppt_ic_size ppt_tp_size ppt_k_size ppt_sources tp_of_tt index_q tau_rec
    sources_spline HIS_l_size pBIS_x_last.

Let before := written_before ptr ppt_ic_size index_q.
Let rel (B : Prop) (md ic tt l : Z) (a b : for_each_q_state) : Prop :=
  fq_rel B (before md ic tt l) a b /\ table_allocated ptr ppt_ic_size (fq_transfer a).

Lemma l_body_rel (B : Prop) (index_md index_ic index_tt index_l : Z) (a b : for_each_q_state) :
  (0 <= index_md < ptr_md_size ptr)%Z ->
  (0 <= index_ic < rdi ppt_ic_size index_md)%Z ->
  (0 <= index_tt < rdi (ptr_tt_size ptr) index_md)%Z ->
  (0 <= index_l < rdi (ptr_l_size ptr) index_md)%Z ->
  rel B index_md index_ic index_tt index_l a b ->
  result_rel (rel B index_md index_ic index_tt (index_l + 1))
    (l_body index_md index_ic index_tt index_l a)
    (l_body index_md index_ic index_tt index_l b).
Proof.
  intros Hmd Hic Htt Hl [(H1 & H2 & H3 & H4 & H5 & H6 & H7) Ha].
  pose proof (transfer_index_bounds ptr ppt_ic_size index_q index_md index_ic index_tt
                index_l Hq Hic Htt Hl) as Hb.
  destruct (Ha index_md Hmd) as [Ha1 Ha2].
  assert (Hw : forall ptw v,
             rel B index_md index_ic index_tt (index_l + 1)
               {| fq_ptw := ptw; fq_interpolated_sources := fq_interpolated_sources a;
                  fq_chi := fq_chi a; fq_cscKgen := fq_cscKgen a; fq_cotKgen := fq_cotKgen a;
                  fq_transfer :=
                    transfer_write (fq_transfer a) index_md
                      (transfer_index ptr index_q index_md index_ic index_tt index_l) v |}
               {| fq_ptw := ptw; fq_interpolated_sources := fq_interpolated_sources b;
                  fq_chi := fq_chi b; fq_cscKgen := fq_cscKgen b; fq_cotKgen := fq_cotKgen b;
                  fq_transfer :=
                    transfer_write (fq_transfer b) index_md
                      (transfer_index ptr index_q index_md index_ic index_tt index_l) v |}).
  { intros ptw v. split.
    - unfold fq_rel. cbn [fq_ptw fq_chi fq_cscKgen fq_cotKgen fq_interpolated_sources fq_transfer].
      repeat split; try assumption.
      + rewrite <- (proj1 (transfer_write_shape (fq_transfer a) _ _ _)).
        rewrite <- (proj1 (transfer_write_shape (fq_transfer b) _ _ _)). apply H6.
      + intros m. rewrite <- (proj2 (transfer_write_shape (fq_transfer a) _ _ _)).
        rewrite <- (proj2 (transfer_write_shape (fq_transfer b) _ _ _)). apply H6.
      + intros md j Hd.
        apply (transfer_write_agree (before index_md index_ic index_tt index_l));
          try assumption; try lia.
        destruct Hd as (ic & tt & l & Hd0 & Hd1 & Hd2 & Hd3 & Hd4 & Hd5).
        destruct (Z.eq_dec md index_md) as [-> | Hne]; [|left; exists ic, tt, l; intuition lia].
        destruct (Z.eq_dec ic index_ic) as [-> | Hne]; [|left; exists ic, tt, l; intuition lia].
        destruct (Z.eq_dec tt index_tt) as [-> | Hne]; [|left; exists index_ic, tt, l; intuition lia].
        destruct (Z.eq_dec l index_l) as [-> | Hne]; [|left; exists index_ic, index_tt, l; intuition lia].
        right. split; [reflexivity | assumption].
    - cbn [fq_transfer]. eapply table_allocated_shape; [apply transfer_write_shape | exact Ha]. }
  unfold l_body, for_each_q_l_body. cbv zeta. rewrite H1.
  match goal with |- result_rel _ (if ?c then _ else _) _ => destruct c end.
  - simpl. apply Hw.
  - match goal with |- result_rel _ (bind ?r _) _ => destruct r as [v| |] end;
      simpl; auto.
Qed.


Lemma rel_weaken (B B' : Prop) (md ic tt l md' ic' tt' l' : Z) (a b : for_each_q_state) :
  (B' -> B) ->
  (forall m j, before md' ic' tt' l' m j -> before md ic tt l m j) ->
  rel B md ic tt l a b -> rel B' md' ic' tt' l' a b.
Proof.
  intros HB HD [H Ha]. split; [|exact Ha]. eapply fq_rel_weaken; eassumption.
Qed.

Let rel_tt (index_md index_ic index_tt : Z) (s1 s2 : Z * for_each_q_state) : Prop :=
  fst s1 = fst s2
  /\ (index_tt = 0%Z -> fst s1 = (-1)%Z)
  /\ rel (0 < index_tt)%Z index_md index_ic index_tt 0 (snd s1) (snd s2).

Lemma tt_body_rel (index_md index_ic index_tt : Z) (s1 s2 : Z * for_each_q_state) :
  (0 <= index_md < ptr_md_size ptr)%Z ->
  (0 <= index_ic < rdi ppt_ic_size index_md)%Z ->
  (0 <= index_tt < rdi (ptr_tt_size ptr) index_md)%Z ->
  rel_tt index_md index_ic index_tt s1 s2 ->
  result_rel (rel_tt index_md index_ic (index_tt + 1))
    (tt_body index_md index_ic index_tt s1) (tt_body index_md index_ic index_tt s2).
Proof.
  intros Hmd Hic Htt. destruct s1 as [p a], s2 as [p' b]. unfold rel_tt. cbn [fst snd].
  intros (<- & Hp & [(H1 & H2 & H3 & H4 & H5 & H6 & H7) Ha]).
  unfold tt_body, for_each_q_tt_body. cbv zeta.
  pose proof (Htp index_md index_tt Hmd Htt) as Hne.
  set (tp := rdi (nth (Z.to_nat index_md) tp_of_tt []) index_tt) in *.
  assert (Hi : (if negb (tp =? p)%Z then
                  transfer_interpolate_sources ppt ptr ppt_k_size
                    (nth (Z.to_nat (index_ic * rdi ppt_tp_size index_md + tp))
                       (nth (Z.to_nat index_md) ppt_sources []) [])
                    (nth (Z.to_nat (index_ic * rdi ppt_tp_size index_md + tp))
                       (nth (Z.to_nat index_md) sources_spline []) [])
                    index_q index_md
                else Ok (fq_interpolated_sources b))
               = (if negb (tp =? p)%Z then
                    transfer_interpolate_sources ppt ptr ppt_k_size
                      (nth (Z.to_nat (index_ic * rdi ppt_tp_size index_md + tp))
                         (nth (Z.to_nat index_md) ppt_sources []) [])
                      (nth (Z.to_nat (index_ic * rdi ppt_tp_size index_md + tp))
                         (nth (Z.to_nat index_md) sources_spline []) [])
                      index_q index_md
                  else Ok (fq_interpolated_sources a))).
  { destruct (Z.eqb_spec tp p) as [E | E]; cbn [negb]; [|reflexivity].
    rewrite H5; [reflexivity|].
    destruct (Z.eq_dec index_tt 0) as [E0 | E0]; [|lia].
    exfalso. apply Hne. rewrite E. apply Hp, E0. }
  rewrite Hi. clear Hi.
  match goal with |- result_rel _ (bind ?r _) _ => destruct r as [interpolated| |] end;
    simpl; auto.
  rewrite H1.
  match goal with |- result_rel _ (bind ?r _) _ => destruct r as [[[[sources t] w] n]| |] end;
    simpl; auto.
  rewrite H2, H3, H4.
  destruct (transfer_radial_coordinates _ _ _ _ _ _ _) as [[chi csc] cot].
  eapply result_rel_bind.
  - apply (for_loop_rel (for_each_q_l_body _ _ _ _ _ _ _ _ _ _ index_md index_ic index_tt)
             (fun l => rel True index_md index_ic index_tt l)).
    + intros i x y Hi Hxy. apply l_body_rel; try assumption. lia.
    + split; [|exact Ha].
      unfold fq_rel. cbn [fq_ptw fq_chi fq_cscKgen fq_cotKgen fq_interpolated_sources fq_transfer].
      repeat split; try reflexivity; try apply H6. exact H7.
  - intros x y Hxy. simpl. unfold rel_tt. cbn [fst snd].
    split; [reflexivity|]. split; [lia|].
    revert Hxy. apply rel_weaken; [auto|].
    intros m j (ic & tt & l & Hd0 & Hd1 & Hd2 & Hd3 & Hd4 & Hd5).
    exists ic, tt, l. repeat split; try assumption; try lia.
    destruct Hd5 as [Hd5 | [-> Hd5]]; [left; exact Hd5|]. right. split; [reflexivity|].
    destruct Hd5 as [Hd5 | [-> Hd5]]; [left; exact Hd5|]. right. split; [reflexivity|].
    lia.
Qed.


Lemma ic_body_rel (B : Prop) (index_md index_ic : Z) (a b : for_each_q_state) :
  (0 <= index_md < ptr_md_size ptr)%Z ->
  (0 <= index_ic < rdi ppt_ic_size index_md)%Z ->
  rel B index_md index_ic 0 0 a b ->
  result_rel (rel False index_md (index_ic + 1) 0 0)
    (ic_body index_md index_ic a) (ic_body index_md index_ic b).
Proof.
  intros Hmd Hic Hab. unfold ic_body, for_each_q_ic_body.
  eapply result_rel_bind.
  - apply (for_loop_rel
             (for_each_q_tt_body _ _ _ _ _ _ _ _ _ _ _ _ _ _ _ _ index_md index_ic)
             (rel_tt index_md index_ic)).
    + intros i x y Hi Hxy. apply tt_body_rel; try assumption. lia.
    + unfold rel_tt. cbn [fst snd]. split; [reflexivity|]. split; [reflexivity|].
      revert Hab. apply rel_weaken; [lia | auto].
  - intros x y (_ & _ & Hxy). simpl. revert Hxy. apply rel_weaken; [contradiction|].
    intros m j (ic & tt & l & Hd0 & Hd1 & Hd2 & Hd3 & Hd4 & Hd5).
    exists ic, tt, l. repeat split; try assumption; try lia.
    destruct Hd5 as [Hd5 | [-> Hd5]]; [left; exact Hd5|]. right. split; [reflexivity|].
    lia.
Qed.

Lemma md_body_rel (B : Prop) (index_md : Z) (a b : for_each_q_state) :
  (0 <= index_md < ptr_md_size ptr)%Z ->
  rel B index_md 0 0 0 a b ->
  result_rel (rel False (index_md + 1) 0 0 0) (md_body index_md a) (md_body index_md b).
Proof.
  intros Hmd Hab. unfold md_body, for_each_q_md_body.
  eapply result_rel_weaken;
    [|apply (for_loop_rel
               (for_each_q_ic_body _ _ _ _ _ _ _ _ _ _ _ _ _ _ _ _ index_md)
               (fun ic => rel False index_md ic 0 0))].
  - intros x y. apply rel_weaken; [contradiction|].
    intros m j (ic & tt & l & Hd0 & Hd1 & Hd2 & Hd3 & Hd4 & Hd5).
    exists ic, tt, l. repeat split; try assumption; try lia.
    destruct (Z.eq_dec m index_md) as [-> | Hne]; [right; split; [reflexivity | left; lia] | left; lia].
  - intros i x y Hi Hxy. apply (ic_body_rel False); try assumption. lia.
  - revert Hab. apply rel_weaken; [contradiction | auto].
Qed.

(** X20: [transfer_compute_for_each_q] reads neither the table of the
    transfer functions nor the array of the interpolated sources before it
    writes them.  When no type has the source index [-1] and the rows of the
    table are allocated, two runs from states that differ only there fail
    alike or succeed alike, and then leave the same workspace and the same
    transfer function for every mode, initial condition, type and multipole
    at [index_q]: the whole column is written. *)
Theorem transfer_compute_for_each_q_initialises (st1 st2 : for_each_q_state) :
  fq_ptw st1 = fq_ptw st2 ->
  fq_chi st1 = fq_chi st2 ->
  fq_cscKgen st1 = fq_cscKgen st2 ->
  fq_cotKgen st1 = fq_cotKgen st2 ->
  same_shape (fq_transfer st1) (fq_transfer st2) ->
  table_allocated ptr ppt_ic_size (fq_transfer st1) ->
  let run :=
    transfer_compute_for_each_q transfer_radial_function transfer_sources ppr ppr_neglect
      pba ppt ptr ppt_ic_size ppt_tp_size ppt_k_size ppt_sources tp_of_tt index_q tau_rec
      sources_spline HIS_l_size pBIS_x_last in
  (forall msg, run st1 = Error msg -> run st2 = Error msg)
  /\ forall st1',
       run st1 = Ok st1' ->
       exists st2',
         run st2 = Ok st2'
         /\ fq_ptw st2' = fq_ptw st1'
         /\ forall index_md index_ic index_tt index_l,
              (0 <= index_md < ptr_md_size ptr)%Z ->
              (0 <= index_ic < rdi ppt_ic_size index_md)%Z ->
              (0 <= index_tt < rdi (ptr_tt_size ptr) index_md)%Z ->
              (0 <= index_l < rdi (ptr_l_size ptr) index_md)%Z ->
              rd (nth (Z.to_nat index_md) (fq_transfer st2') [])
                (transfer_index ptr index_q index_md index_ic index_tt index_l)
              = rd (nth (Z.to_nat index_md) (fq_transfer st1') [])
                  (transfer_index ptr index_q index_md index_ic index_tt index_l).
Proof.
  intros H1 H2 H3 H4 H5 H6 run.
  assert (Hrel : result_rel (rel False (0 + Z.of_nat (Z.to_nat (ptr_md_size ptr))) 0 0 0)
                   (run st1) (run st2)).
  { unfold run, transfer_compute_for_each_q.
    apply (for_loop_rel
             (for_each_q_md_body _ _ _ _ _ _ _ _ _ _ _ _ _ _ _ _ _)
             (fun md => rel False md 0 0 0)).
    - intros i x y Hi Hxy. apply (md_body_rel False); [lia | exact Hxy].
    - split; [|exact H6]. repeat split; try assumption; try apply H5; try contradiction.
      intros m j (ic & tt & l & Hd0 & Hd1 & Hd2 & Hd3 & Hd4 & Hd5). lia. }
  split.
  - intros msg E. rewrite E in Hrel. destruct (run st2); simpl in Hrel; try contradiction.
    congruence.
  - intros st1' E. rewrite E in Hrel. destruct (run st2) as [st2'| |]; simpl in Hrel;
      try contradiction.
    exists st2'. destruct Hrel as [(R1 & _ & _ & _ & _ & _ & R7) _].
    split; [reflexivity|]. split; [symmetry; exact R1|].
    intros index_md index_ic index_tt index_l Hmd Hic Htt Hl. symmetry. apply R7.
    exists index_ic, index_tt, index_l. repeat split; try assumption; try lia.
Qed.

End For_each_q_initialises.

(** A loop whose turns all succeed succeeds. *)
Lemma for_loop_ok {St : Type} (body : Z -> St -> result St) (n : nat) :
  forall first s,
    (forall i a, (first <= i < first + Z.of_nat n)%Z -> exists a', body i a = Ok a') ->
    exists s', for_loop n first body s = Ok s'.
Proof.
  induction n as [|n IH]; intros first s Hbody.
  - exists s. reflexivity.
  - cbn [for_loop]. destruct (Hbody first s ltac:(lia)) as [a Ha]. rewrite Ha. cbn [bind].
    apply IH. intros i b Hi. apply Hbody. lia.
Qed.

Section For_each_q_succeeds.
Variable transfer_radial_function :
  transfer_workspace -> perturbs -> transfers -> R -> Z -> Z -> Z ->
  radial_function_type -> result (list R).
Variable transfer_sources :
  precision -> background -> perturbs -> transfers -> list R -> R -> Z -> Z -> Z ->
  list R -> list R -> list R -> Z -> result (list R * list R * list R * Z).
Variables (ppr : precision) (ppr_neglect : precision_neglect) (pba : background)
          (ppt : perturbs) (ptr : transfers).
Variables (ppt_ic_size ppt_tp_size : list Z) (ppt_k_size : Z)
          (ppt_sources : list (list (list R))).
Variable tp_of_tt : list (list Z).
Variables (index_q : Z) (tau_rec : R) (sources_spline : list (list (list R))).
Variables (HIS_l_size : Z) (pBIS_x_last : R).

Hypothesis Hradial :
  forall ptw k index_l x_size radial_type,
  exists v, transfer_radial_function ptw ppt ptr k index_q index_l x_size radial_type = Ok v.
Hypothesis Hsources :
  forall interpolated index_md index_tt sources tau0_minus_tau w_trapz tau_size,
  exists r,
    transfer_sources ppr pba ppt ptr interpolated tau_rec index_q index_md index_tt
      sources tau0_minus_tau w_trapz tau_size = Ok r.
Hypothesis Hinterpolate :
  forall index_md sources source_spline,
  exists v,
    transfer_interpolate_sources ppt ptr ppt_k_size sources source_spline index_q index_md
    = Ok v.

Lemma transfer_integrate_ok ptw index_md index_tt l index_l k :
  exists v,
    transfer_integrate transfer_radial_function ppt ptr ptw index_q index_md index_tt
      l index_l k = Ok v.
Proof.
  unfold transfer_integrate. cbv zeta.
  destruct (Rleb _ _); [eexists; reflexivity|].
  destruct (ptw_tau_size ptw =? 1)%Z.
  - destruct (Hradial ptw k index_l 1%Z
                (transfer_select_radial_function ppt ptr index_md index_tt)) as [v Hv].
    rewrite Hv. eexists; reflexivity.
  - destruct (integrate_index_tau_max _ _) as [[iB i]|]; [|eexists; reflexivity].
    destruct (Hradial ptw k index_l (Z.of_nat i + 1)%Z
                (transfer_select_radial_function ppt ptr index_md index_tt)) as [v Hv].
    rewrite Hv. cbn [bind]. destruct (_ && _)%bool; eexists; reflexivity.
Qed.

Lemma transfer_compute_for_each_q_ok (st : for_each_q_state) :
  exists st',
    transfer_compute_for_each_q transfer_radial_function transfer_sources ppr ppr_neglect
      pba ppt ptr ppt_ic_size ppt_tp_size ppt_k_size ppt_sources tp_of_tt index_q tau_rec
      sources_spline HIS_l_size pBIS_x_last st = Ok st'.
Proof.
  unfold transfer_compute_for_each_q. apply for_loop_ok. intros index_md a _.
  unfold for_each_q_md_body. apply for_loop_ok. intros index_ic b _.
  unfold for_each_q_ic_body.
  match goal with |- exists _, bind ?r _ = _ => assert (H : exists s, r = Ok s) end.
  { apply for_loop_ok. intros index_tt [p c] _.
    unfold for_each_q_tt_body. cbv zeta.
    match goal with |- exists _, bind ?r _ = _ => assert (H : exists s, r = Ok s) end.
    { destruct (negb _); [apply Hinterpolate | eexists; reflexivity]. }
    destruct H as [interpolated ->]. cbn [bind].
    destruct (Hsources interpolated index_md index_tt (ptw_sources (fq_ptw c))
                (ptw_tau0_minus_tau (fq_ptw c)) (ptw_w_trapz (fq_ptw c))
                (ptw_tau_size (fq_ptw c))) as [[[[sources t] w] n] ->].
    cbn [bind].
    destruct (transfer_radial_coordinates _ _ _ _ _ _ _) as [[chi csc] cot].
    match goal with |- exists _, bind ?r _ = _ => assert (H : exists s, r = Ok s) end.
    { apply for_loop_ok. intros index_l d _.
      unfold for_each_q_l_body. cbv zeta.
      match goal with |- exists _, (if ?c then _ else _) = _ => destruct c end;
        [eexists; reflexivity|].
      match goal with |- exists _, bind ?r _ = _ => assert (H : exists s, r = Ok s) end.
      { unfold transfer_compute_for_each_l.
        destruct (_ <=? _)%Z; [eexists; reflexivity|].
        destruct (transfer_use_limber _ _ _ _ _ _ _ _); [eexists; reflexivity|].
        apply transfer_integrate_ok. }
      destruct H as [v ->]. eexists; reflexivity. }
    destruct H as [s ->]. eexists; reflexivity. }
  destruct H as [s ->]. eexists; reflexivity.
Qed.

End For_each_q_succeeds.


Lemma interpolate_three_k_ok (ptr : transfers) (index_q index_md : Z)
    (sources source_spline : list R) :
  exists v,
    transfer_interpolate_sources ppt_three_k ptr 3 sources source_spline index_q index_md
    = Ok v.
Proof.
  unfold transfer_interpolate_sources. cbv zeta.
  set (k_q := rd (nth (Z.to_nat index_md) (ptr_k ptr) []) index_q).
  assert (H : interpolate_index (Z.to_nat 3) (ppt_k ppt_three_k) 3 k_q 0 = 0%Z
              \/ interpolate_index (Z.to_nat 3) (ppt_k ppt_three_k) 3 k_q 0 = 1%Z
              \/ interpolate_index (Z.to_nat 3) (ppt_k ppt_three_k) 3 k_q 0 = 2%Z).
  { change (Z.to_nat 3) with 3%nat. cbn [interpolate_index].
    repeat (match goal with |- context [Rltb ?a ?b] => destruct (Rltb a b) end;
            cbn [andb Z.add Z.ltb Z.compare Pos.compare Pos.compare_cont Pos.add Pos.succ];
            auto). }
  destruct H as [-> | [-> | ->]];
    (rewrite (proj2 (Req_b_false _ 0));
     [cbn [class_test bind]; eexists; reflexivity
     | unfold rd; simpl; lra]).
Qed.

Lemma run_two_q_ok (st : for_each_q_state) : exists st', run_two_q st = Ok st'.
Proof.
  apply transfer_compute_for_each_q_ok.
  - intros. eexists; reflexivity.
  - intros. eexists; reflexivity.
  - intros. apply interpolate_three_k_ok.
Qed.

Lemma transfer_compute_for_each_q_column_witness :
  exists st',
    run_two_q (fq_start [repeat 7 12]) = Ok st'
    /\ same_off_column 2 1 [repeat 7 12] (fq_transfer st').
Proof.
  destruct (run_two_q_ok (fq_start [repeat 7 12])) as [st' E].
  exists st'. split; [exact E|].
  apply (transfer_compute_for_each_q_column
           transfer_radial_function_unit transfer_sources_copy
           ppr_default ppr_neglect_default pba_unit ppt_three_k ptr_two_q
           [1]%Z [3]%Z 3 [[repeat 1 6; repeat 1 6; repeat 1 6]]
           [[0; 1; 2]]%Z 1 280 [[repeat 0 6; repeat 0 6; repeat 0 6]]
           0 3000 ltac:(change (ptr_q_size ptr_two_q) with 2%Z; lia) (fq_start [repeat 7 12]) st' E).
Defined.

Lemma transfer_compute_for_each_q_initialises_witness :
  exists st1' st2',
    run_two_q (fq_start [repeat 7 12]) = Ok st1'
    /\ run_two_q
         {| fq_ptw := ptw_three; fq_interpolated_sources := [5; 5];
            fq_chi := [0; 0; 0]; fq_cscKgen := [0; 0; 0]; fq_cotKgen := [0; 0; 0];
            fq_transfer := [repeat 9 12] |} = Ok st2'
    /\ fq_ptw st2' = fq_ptw st1'
    /\ rd (nth 0 (fq_transfer st2') []) (transfer_index ptr_two_q 1 0 0 2 1)
       = rd (nth 0 (fq_transfer st1') []) (transfer_index ptr_two_q 1 0 0 2 1).
Proof.
  destruct (run_two_q_ok (fq_start [repeat 7 12])) as [st1' E].
  assert (Hq : (0 <= 1 < ptr_q_size ptr_two_q)%Z)
    by (change (ptr_q_size ptr_two_q) with 2%Z; lia).
  assert (Htp : forall index_md index_tt,
             (0 <= index_md < ptr_md_size ptr_two_q)%Z ->
             (0 <= index_tt < rdi (ptr_tt_size ptr_two_q) index_md)%Z ->
             rdi (nth (Z.to_nat index_md) [[0; 1; 2]]%Z []) index_tt <> (-1)%Z).
  { intros index_md index_tt Hmd. assert (index_md = 0%Z) as ->
      by (change (ptr_md_size ptr_two_q) with 1%Z in Hmd; lia).
    change (rdi (ptr_tt_size ptr_two_q) 0) with 3%Z. intros Htt.
    assert (index_tt = 0 \/ index_tt = 1 \/ index_tt = 2)%Z as [-> | [-> | ->]] by lia;
      intros Habs; cbv in Habs; discriminate Habs. }
  destruct (transfer_compute_for_each_q_initialises
              transfer_radial_function_unit transfer_sources_copy
              ppr_default ppr_neglect_default pba_unit ppt_three_k ptr_two_q
              [1]%Z [3]%Z 3 [[repeat 1 6; repeat 1 6; repeat 1 6]]
              [[0; 1; 2]]%Z 1 280 [[repeat 0 6; repeat 0 6; repeat 0 6]]
              0 3000 Hq Htp
              (fq_start [repeat 7 12])
              {| fq_ptw := ptw_three; fq_interpolated_sources := [5; 5];
                 fq_chi := [0; 0; 0]; fq_cscKgen := [0; 0; 0]; fq_cotKgen := [0; 0; 0];
                 fq_transfer := [repeat 9 12] |}
              eq_refl eq_refl eq_refl eq_refl) as [_ H].
  - split; [reflexivity|]. intros [|[|m]]; reflexivity.
  - intros index_md Hmd. assert (index_md = 0%Z) as ->
      by (change (ptr_md_size ptr_two_q) with 1%Z in Hmd; lia).
    change (ptr_q_size ptr_two_q) with 2%Z.
    change (rdi (ptr_tt_size ptr_two_q) 0) with 3%Z.
    change (rdi (ptr_l_size ptr_two_q) 0) with 2%Z.
    simpl. lia.
  - destruct (H st1' E) as (st2' & E2 & Hptw & Hcol).
    exists st1', st2'. split; [exact E|]. split; [exact E2|]. split; [exact Hptw|].
    apply (Hcol 0%Z 0%Z 2%Z 1%Z);
      change (ptr_md_size ptr_two_q) with 1%Z;
      change (rdi (ptr_tt_size ptr_two_q) 0) with 3%Z;
      change (rdi (ptr_l_size ptr_two_q) 0) with 2%Z; unfold rdi; simpl; lia.
Defined.

(** ** The grid of wavenumbers increases *)

Lemma nondecreasing_snoc (l : list R) (x : R) :
  nondecreasing l -> (l = [] \/ nth (length l - 1) l 0 <= x) -> nondecreasing (l ++ [x]).
Proof.
  intros Hl Hx i Hi. rewrite length_app in Hi. simpl in Hi.
  destruct (Nat.eq_dec (S i) (length l)) as [E|E].
  - rewrite (app_nth1 l [x]) by lia. rewrite (app_nth2 l [x]) by lia.
    replace (S i - length l)%nat with 0%nat by lia. simpl.
    destruct Hx as [-> | Hx]; [simpl in E; lia|].
    replace (length l - 1)%nat with i in Hx by lia. exact Hx.
  - rewrite !(app_nth1 l [x]) by lia. apply Hl. lia.
Qed.

Lemma adjacent_increasing (l : list R) :
  (forall i, (S i < length l)%nat -> nth i l 0 < nth (S i) l 0) ->
  forall i j, (i < j < length l)%nat -> nth i l 0 < nth j l 0.
Proof.
  intros H i j. induction j as [|j IH]; intros Hij; [lia|].
  destruct (Nat.eq_dec i j) as [<- | Hne]; [apply H; lia|].
  apply Rlt_trans with (nth j l 0); [apply IH; lia | apply H; lia].
Qed.

Lemma q_list_step_inv_flat ppr ptr q_period K sgnK st :
  (sgnK <= 0)%Z ->
  0 <= q_period * ppr_q_linstep ppr ->
  0 <= ppr_q_linstep ppr / q_logstep_spline ppr ptr ->
  0 < q_prev st /\ qs_q st <> [] /\ nondecreasing (qs_q st) ->
  let st' := q_list_step ppr ptr q_period K sgnK st in
  0 < q_prev st' /\ qs_q st' <> [] /\ nondecreasing (qs_q st').
Proof.
  intros Hs Hp Hl (Hq & Hne & Hn). cbv zeta.
  pose proof (q_blend_step_nonneg ppr ptr q_period Hp Hl (q_prev st) Hq) as Hb.
  pose proof (q_list_step_flat ppr ptr q_period K sgnK st Hs) as Hstep.
  split; [lra|]. split; [apply q_list_step_nonempty|].
  rewrite q_list_step_q. apply nondecreasing_snoc; [assumption|].
  right. rewrite <- q_prev_nth by assumption. lra.
Qed.

Lemma q_list_step_inv_closed ppr ptr q_period K sgnK st :
  sgnK = 1%Z -> 0 < K ->
  0 <= q_period * ppr_q_linstep ppr ->
  0 <= ppr_q_linstep ppr / q_logstep_spline ppr ptr ->
  closed_inv ppr K st /\ nondecreasing (qs_q st) ->
  let st' := q_list_step ppr ptr q_period K sgnK st in
  closed_inv ppr K st' /\ nondecreasing (qs_q st').
Proof.
  intros Hs HK Hp Hl (Hinv & Hn). cbv zeta.
  split; [apply closed_inv_step; assumption|].
  pose proof Hinv as ((Hne & _) & _).
  rewrite q_list_step_q. apply nondecreasing_snoc; [assumption|].
  right. rewrite <- q_prev_nth by assumption.
  destruct (Z.lt_ge_cases (qs_nu st) (overtone_threshold ppr)) as [Hnu | Hnu].
  - destruct (q_list_step_overtone ppr ptr q_period K sgnK Hs HK st (proj1 Hinv) Hnu)
      as (_ & _ & H & _). lra.
  - rewrite (q_list_step_smooth ppr ptr q_period K sgnK Hs st Hnu), q_prev_snoc.
    apply (next_smooth_ge ppr ptr q_period K); assumption.
Qed.

(** When it succeeds with non-negative steps from a positive [q_min],
    [transfer_get_q_list] leaves values of [q] that increase strictly. *)
Lemma transfer_get_q_list_lt
    (ppr : precision) (ppt : perturbs) (ptr ptr' : transfers) (q_period K : R) (sgnK : Z) :
  0 < fst (q_list_bounds ppt K sgnK) ->
  0 <= q_period * ppr_q_linstep ppr ->
  0 <= ppr_q_linstep ppr / q_logstep_spline ppr ptr ->
  (sgnK = 1%Z -> 0 < K) ->
  transfer_get_q_list ppr ppt ptr q_period K sgnK = Ok ptr' ->
  (2 <= ptr_q_size ptr')%Z
  /\ rd (ptr_q ptr') 0 = fst (q_list_bounds ppt K sgnK)
  /\ forall index_q index_q',
       (0 <= index_q < index_q')%Z -> (index_q' < ptr_q_size ptr')%Z ->
       rd (ptr_q ptr') index_q < rd (ptr_q ptr') index_q'.
Proof.
  intros Hmin Hp Hl HK Hrun.
  assert (Hfill : forall st,
             q_list_fill ppr ppt ptr q_period K sgnK = Ok st ->
             no_zero_step (qs_q st) /\ nondecreasing (qs_q st)).
  { intros st. rewrite q_list_fill_loop. intros Hloop.
    assert (Hinit : nondecreasing (qs_q (q_list_init (fst (q_list_bounds ppt K sgnK)))))
      by (intros i Hi; simpl in Hi; lia).
    assert (Hnz : no_zero_step (qs_q (q_list_init (fst (q_list_bounds ppt K sgnK)))))
      by (intros i Hi; simpl in Hi; lia).
    destruct (Z.le_gt_cases sgnK 0) as [Hflat | Hpos].
    - set (Inv := fun st : q_state =>
                    0 < q_prev st /\ qs_q st <> [] /\ nondecreasing (qs_q st)).
      assert (A1 : forall s, Inv s -> Inv (q_list_step ppr ptr q_period K sgnK s))
        by (intros s; apply q_list_step_inv_flat; assumption).
      assert (A2 : forall s, Inv s ->
                             q_prev (q_list_step ppr ptr q_period K sgnK s) = q_prev s ->
                             flat_frozen ppr ptr q_period s)
        by (intros s _; apply flat_frozen_of_zero_step; assumption).
      assert (A3 : forall s, flat_frozen ppr ptr q_period s ->
                             q_prev (q_list_step ppr ptr q_period K sgnK s) = q_prev s
                             /\ flat_frozen ppr ptr q_period
                                  (q_list_step ppr ptr q_period K sgnK s))
        by (intros s; apply flat_frozen_step; assumption).
      assert (A4 : Inv (q_list_init (fst (q_list_bounds ppt K sgnK)))).
      { split; [|split; [discriminate | exact Hinit]].
        unfold q_prev, q_index, rd. simpl. exact Hmin. }
      destruct (q_list_loop_no_zero_step ppr ptr q_period K sgnK Inv
                  (flat_frozen ppr ptr q_period) A1 A2 A3 _ _ _ _ _ A4
                  ltac:(discriminate) Hnz Hloop) as [H1 (_ & _ & H2)].
      split; assumption.
    - destruct (Z.eq_dec sgnK 1) as [H1 | Hn1].
      + specialize (HK H1).
        set (Inv := fun st : q_state => closed_inv ppr K st /\ nondecreasing (qs_q st)).
        assert (A1 : forall s, Inv s -> Inv (q_list_step ppr ptr q_period K sgnK s))
          by (intros s; apply q_list_step_inv_closed; assumption).
        assert (A2 : forall s, Inv s ->
                               q_prev (q_list_step ppr ptr q_period K sgnK s) = q_prev s ->
                               closed_stuck ppr q_period s)
          by (intros s [Hs _];
              apply (closed_stuck_of_zero_step ppr ptr q_period K sgnK); assumption).
        assert (A3 : forall s, closed_stuck ppr q_period s ->
                               q_prev (q_list_step ppr ptr q_period K sgnK s) = q_prev s
                               /\ closed_stuck ppr q_period
                                    (q_list_step ppr ptr q_period K sgnK s))
          by (intros s; apply closed_stuck_step; assumption).
        assert (A4 : Inv (q_list_init (fst (q_list_bounds ppt K sgnK)))).
        { split; [|exact Hinit].
          unfold q_list_bounds. rewrite H1. simpl fst. apply closed_inv_init. assumption. }
        destruct (q_list_loop_no_zero_step ppr ptr q_period K sgnK Inv
                    (closed_stuck ppr q_period) A1 A2 A3 _ _ _ _ _ A4
                    ltac:(discriminate) Hnz Hloop) as [H2 (_ & H3)].
        split; assumption.
      + exfalso. unfold q_list_bounds in Hmin.
        replace (sgnK =? 0)%Z with false in Hmin by (symmetry; apply Z.eqb_neq; lia).
        replace (sgnK =? -1)%Z with false in Hmin by (symmetry; apply Z.eqb_neq; lia).
        replace (sgnK =? 1)%Z with false in Hmin by (symmetry; apply Z.eqb_neq; lia).
        simpl in Hmin. lra. }
  unfold transfer_get_q_list in Hrun.
  destruct (q_list_fill ppr ppt ptr q_period K sgnK) as [st| |] eqn:E; simpl in Hrun;
    try discriminate.
  destruct (Hfill st eq_refl) as [Hnz Hnd].
  unfold class_test in Hrun.
  destruct (q_list_size (snd (q_list_bounds ppt K sgnK)) st <? 2)%Z eqn:E2; simpl in Hrun;
    [discriminate|].
  set (q_size := q_list_size (snd (q_list_bounds ppt K sgnK)) st) in *.
  assert (Hsize : (q_size <= q_index st)%Z).
  { unfold q_size, q_list_size. destruct (Rltb _ _); lia. }
  assert (Hptr : ptr_q ptr' = firstn (Z.to_nat q_size) (qs_q st) /\ ptr_q_size ptr' = q_size).
  { destruct (sgnK =? 0)%Z; injection Hrun as <-.
    - destruct (ptr_q_set ptr (firstn (Z.to_nat q_size) (qs_q st)) q_size 0) as (H1 & H2 & _).
      split; assumption.
    - match goal with |- context [set_ptr_index_q_flat_approximation ?i _] =>
        destruct (ptr_q_set ptr (firstn (Z.to_nat q_size) (qs_q st)) q_size i)
          as (_ & _ & H1 & H2)
      end.
      split; assumption. }
  destruct Hptr as [Hq Hs]. rewrite Hq, Hs.
  apply Z.ltb_ge in E2.
  split; [exact E2|]. split.
  { rewrite q_list_fill_loop in E. apply q_list_loop_exit in E.
    - destruct E as (_ & _ & _ & _ & H0). unfold rd, q_index in *.
      rewrite nth_firstn.
      replace (Z.to_nat 0 <? Z.to_nat q_size)%nat with true
        by (symmetry; apply Nat.ltb_lt; lia).
      exact H0.
    - discriminate.
    - intros i Hi. simpl in Hi. lia. }
  intros i j Hij Hj. unfold rd, q_index in *.
  rewrite !nth_firstn.
  replace (Z.to_nat i <? Z.to_nat q_size)%nat with true by (symmetry; apply Nat.ltb_lt; lia).
  replace (Z.to_nat j <? Z.to_nat q_size)%nat with true by (symmetry; apply Nat.ltb_lt; lia).
  apply adjacent_increasing; [|lia].
  intros n Hn. specialize (Hnz n Hn). specialize (Hnd n Hn). lra.
Qed.

(** X21: when [transfer_get_q_list] succeeds from a positive [q_min] with
    steps that are not negative ([q_period * q_linstep >= 0],
    [q_linstep / q_logstep_spline >= 0], and [K > 0] in closed space), the
    grid it leaves has at least two values, starts at [q_min], is positive
    and increases strictly, as the interpolation of
    [transfer_functions_at_q] in [q] requires. *)
Theorem transfer_get_q_list_increasing
    (ppr : precision) (ppt : perturbs) (ptr ptr' : transfers) (q_period K : R) (sgnK : Z) :
  0 < fst (q_list_bounds ppt K sgnK) ->
  0 <= q_period * ppr_q_linstep ppr ->
  0 <= ppr_q_linstep ppr / q_logstep_spline ppr ptr ->
  (sgnK = 1%Z -> 0 < K) ->
  transfer_get_q_list ppr ppt ptr q_period K sgnK = Ok ptr' ->
  (2 <= ptr_q_size ptr')%Z
  /\ rd (ptr_q ptr') 0 = fst (q_list_bounds ppt K sgnK)
  /\ (forall index_q, (0 <= index_q < ptr_q_size ptr')%Z -> 0 < rd (ptr_q ptr') index_q)
  /\ forall index_q index_q',
       (0 <= index_q < index_q')%Z -> (index_q' < ptr_q_size ptr')%Z ->
       rd (ptr_q ptr') index_q < rd (ptr_q ptr') index_q'.
Proof.
  intros Hmin Hp Hl HK Hrun.
  destruct (transfer_get_q_list_lt ppr ppt ptr ptr' q_period K sgnK Hmin Hp Hl HK Hrun)
    as (Hsize & H0 & Hlt).
  repeat split; try assumption; try lia.
  intros index_q Hq. destruct (Z.eq_dec index_q 0) as [-> | Hne]; [rewrite H0; exact Hmin|].
  apply Rlt_trans with (rd (ptr_q ptr') 0); [rewrite H0; exact Hmin|].
  apply Hlt; lia.
Qed.

Lemma transfer_get_q_list_increasing_witness :
  rd (ptr_q (set_ptr_q_size 3 (set_ptr_q [1; 5 / 3; 85 / 33] ptr_blank))) 0
  < rd (ptr_q (set_ptr_q_size 3 (set_ptr_q [1; 5 / 3; 85 / 33] ptr_blank))) 2.
Proof.
  apply (transfer_get_q_list_increasing ppr_round (ppt_with_k [1; 3]) ptr_blank
           _ 1 0 0).
  - unfold q_list_bounds, rd. simpl. lra.
  - simpl. lra.
  - unfold q_logstep_spline. simpl. rewrite Rpower_O by lra. lra.
  - intros H. discriminate H.
  - exact transfer_get_q_list_round.
  - lia.
  - simpl. lia.
Defined.



(** ** The number of sampled times and the sampling of a bin *)

Lemma trunc_ge (x : R) (n : Z) : (0 <= n)%Z -> IZR n <= x -> (n <= trunc x)%Z.
Proof.
  intros Hn Hx. assert (H0 : 0 <= x) by (apply IZR_le in Hn; lra).
  unfold trunc. destruct (Rle_dec 0 x); [|contradiction].
  destruct (base_Int_part x) as [H1 H2].
  assert (H : (n - 1 < Int_part x)%Z) by (apply lt_IZR; rewrite minus_IZR; lra).
  lia.
Qed.

(** X23: for a number-count type, the number of times that
    [transfer_source_tau_size] computes is accepted by
    [transfer_selection_sampling]: it is 1 when [tau_min == tau_max], where
    the sampling is the single time [tau_mean], and at least
    [(int)selection_sampling] otherwise, where the sampling has that many
    times.  For a galaxy-lensing type, [transfer_sources] samples the
    selection function at [(int)selection_sampling] times whenever the
    selection function is not a Dirac: if the window is degenerate all the
    same ([tau_min == tau_max], as for a zero width) and that number is not
    1, [transfer_selection_sampling] stops with its error for Dirac
    selection functions. *)
Theorem transfer_source_tau_size_sampling
    (background_tau_of_z : background -> R -> result R)
    (ppr : precision) (pba : background) (ppt : perturbs) (ptr : transfers)
    (tau_rec tau0 : R) (index_md index_tt previous : Z) :
  (_scalars_ ppt index_md = true -> _tensors_ ppt index_md = false ->
   tt_is_density ppt ptr index_tt = true -> tt_is_lensing ppt ptr index_tt = false ->
   forall tau_size,
     transfer_source_tau_size background_tau_of_z ppr pba ppt ptr tau_rec tau0
       index_md index_tt previous = Ok tau_size ->
     exists tau_min tau_mean tau_max,
       transfer_selection_times background_tau_of_z ppr pba ppt
         (index_tt - ptr_index_tt_density ptr) = Ok (tau_min, tau_mean, tau_max)
       /\ (tau_min = tau_max ->
           tau_size = 1%Z
           /\ transfer_selection_sampling background_tau_of_z ppr pba ppt
                (index_tt - ptr_index_tt_density ptr) tau_size
              = Ok [pba_conformal_age pba - tau_mean])
       /\ (tau_min <> tau_max -> 2 <= ppr_selection_sampling ppr ->
           (trunc (ppr_selection_sampling ppr) <= tau_size)%Z
           /\ (2 <= tau_size)%Z
           /\ exists t,
                transfer_selection_sampling background_tau_of_z ppr pba ppt
                  (index_tt - ptr_index_tt_density ptr) tau_size = Ok t
                /\ Z.of_nat (length t) = tau_size))
  /\ (forall bin tau tau_mean,
        ppt_selection ppt <> dirac ->
        transfer_selection_times background_tau_of_z ppr pba ppt bin = Ok (tau, tau_mean, tau) ->
        trunc (ppr_selection_sampling ppr) <> 1%Z ->
        transfer_selection_sampling background_tau_of_z ppr pba ppt bin
          (transfer_sources_tau_sources_size ppr ppt) = Error selection_sampling_error).
Proof.
  split.
  - intros Hs Ht Hd Hl tau_size. unfold transfer_source_tau_size.
    rewrite Hs, Ht, Hd, Hl. cbv zeta.
    destruct (transfer_selection_times background_tau_of_z ppr pba ppt
                (index_tt - ptr_index_tt_density ptr)) as [[[tau_min tau_mean] tau_max]| |] eqn:E;
      cbn [bind]; try discriminate.
    unfold transfer_selection_sampling. rewrite E. cbn [bind].
    destruct (Req_b tau_min tau_max) eqn:Eq.
    + cbn [bind]. intros [= <-]. apply Req_b_true in Eq.
      exists tau_min, tau_mean, tau_max. split; [reflexivity|].
      split; [intros _; split; reflexivity | intros Hne; contradiction].
    + cbn [bind]. intros [= <-]. apply Req_b_false in Eq.
      exists tau_min, tau_mean, tau_max. split; [reflexivity|].
      split; [intros Heq; contradiction|]. intros _ Hsel.
      match goal with |- context [MAX ?a ?b] => set (m := MAX a b) end.
      assert (H2 : (2 <= trunc (ppr_selection_sampling ppr))%Z)
        by (apply trunc_ge; [lia | exact Hsel]).
      assert (Hm : (trunc (ppr_selection_sampling ppr) <= trunc m)%Z).
      { apply trunc_ge; [lia|]. subst m.
        match goal with |- _ <= MAX ?a ?b => destruct (MAX_cases a b) as [[_ ->] | [H ->]] end;
          lra. }
      split; [exact Hm|]. split; [lia|].
      eexists. split; [reflexivity|]. rewrite length_map, length_seq. lia.
  - intros bin tau tau_mean Hsel Htimes Hn.
    unfold transfer_selection_sampling. rewrite Htimes. cbn [bind].
    rewrite (proj2 (Req_b_true tau tau) eq_refl).
    unfold transfer_sources_tau_sources_size.
    destruct (ppt_selection ppt); try contradiction; cbn [selection_eqb];
      unfold class_test;
      (replace (trunc (ppr_selection_sampling ppr) =? 1)%Z with false
         by (symmetry; apply Z.eqb_neq; exact Hn));
      reflexivity.
Qed.

Lemma transfer_source_tau_size_sampling_witness :
  transfer_selection_sampling background_tau_of_z_linear ppr_default pba_unit
    ppt_lensing_zero_width 0 (transfer_sources_tau_sources_size ppr_default
                                ppt_lensing_zero_width)
  = Error selection_sampling_error.
Proof.
  refine (proj2 (transfer_source_tau_size_sampling background_tau_of_z_linear ppr_default
                   pba_unit ppt_lensing_zero_width ptr_blank 280 14000 0 0 0)
            0%Z 13000 13000 _ _ _).
  - discriminate.
  - unfold transfer_selection_times, background_tau_of_z_linear, rd. simpl.
    replace (MAX (1 - 0 * 5) 0) with 1 by (unfold MAX; destruct (Rlt_dec 0 (1 - 0 * 5)); lra).
    replace (MAX 1 0) with 1 by (unfold MAX; destruct (Rlt_dec 0 1); lra).
    repeat f_equal; lra.
  - change (ppr_selection_sampling ppr_default) with (IZR 50). rewrite trunc_IZR. lia.
Defined.

(** ** [transfer_sources] and the size of the workspace *)

(** When the mode is a tensor mode, or a scalar mode and one of the tests on
    the type holds, [transfer_source_tau_size] does not read the previous
    content of its output. *)
Lemma transfer_source_tau_size_assigned
    (background_tau_of_z : background -> R -> result R)
    (ppr : precision) (pba : background) (ppt : perturbs) (ptr : transfers)
    (tau_rec tau0 : R) (index_md index_tt p1 p2 : Z) :
  _tensors_ ppt index_md = true
  \/ (_scalars_ ppt index_md = true /\ (1 <= scalar_type_tests ppt ptr index_tt)%Z) ->
  transfer_source_tau_size background_tau_of_z ppr pba ppt ptr tau_rec tau0
    index_md index_tt p1
  = transfer_source_tau_size background_tau_of_z ppr pba ppt ptr tau_rec tau0
      index_md index_tt p2.
Proof.
  intros H. unfold transfer_source_tau_size.
  destruct (_scalars_ ppt index_md) eqn:Es.
  - unfold scalar_type_tests in H. cbv zeta.
    destruct (ppt_has_cl_cmb_temperature ppt), (ppt_has_cl_cmb_polarization ppt),
      (index_tt =? ptr_index_tt_t0 ptr)%Z, (index_tt =? ptr_index_tt_t1 ptr)%Z,
      (index_tt =? ptr_index_tt_t2 ptr)%Z, (index_tt =? ptr_index_tt_e ptr)%Z,
      (tt_is_lcmb ppt ptr index_tt), (tt_is_density ppt ptr index_tt),
      (tt_is_lensing ppt ptr index_tt);
      cbn [andb orb b2z] in *; try reflexivity;
      destruct (_tensors_ ppt index_md); try reflexivity;
      destruct H as [H | [_ H]]; try discriminate H; lia.
  - destruct H as [H | [H _]]; [|discriminate H]. rewrite H. reflexivity.
Qed.

Lemma same_beyond_refl (n : Z) (a : list R) : same_beyond n a a.
Proof. split; reflexivity. Qed.

Lemma same_beyond_trans (n : Z) (a b c : list R) :
  same_beyond n a b -> same_beyond n b c -> same_beyond n a c.
Proof.
  intros [H1 H2] [H3 H4]. split; [congruence|].
  intros j Hj. rewrite H4, H2 by assumption. reflexivity.
Qed.

Lemma same_beyond_wr (n : Z) (a : list R) (i : Z) (v : R) :
  (0 <= i < n)%Z -> same_beyond n a (wr a i v).
Proof.
  intros Hi. unfold wr. split; [apply list_set_length|].
  intros j Hj. apply nth_list_set_neq. lia.
Qed.

Lemma same_beyond_array_fill (n first last : Z) (f : Z -> R) (a : list R) :
  (0 <= first)%Z -> (last <= n)%Z -> same_beyond n a (array_fill first last f a).
Proof.
  intros H1 H2. split; [apply array_fill_length; assumption|].
  intros j Hj. apply array_fill_out; [assumption | lia].
Qed.

Lemma fold_left_inv {A B : Type} (f : A -> B -> A) (P : A -> Prop) (l : list B) :
  forall a, (forall a b, In b l -> P a -> P (f a b)) -> P a -> P (fold_left f l a).
Proof.
  induction l as [|b l IH]; intros a Hf Ha; simpl; [exact Ha|].
  apply IH; [intros a' b' Hb; apply Hf; right; exact Hb|].
  apply Hf; [left; reflexivity | exact Ha].
Qed.

Section Sources_properties.

Variable background_at_tau : background -> R -> result (list R).
Variable background_tau_of_z : background -> R -> result R.
Variable array_trapezoidal_mweights : list R -> Z -> result (list R).
Variable array_interpolate_two : list R -> list R -> Z -> R -> result R.
Variables (ptr_lcmb_rescale ptr_lcmb_pivot ptr_lcmb_tilt : R) (pba_index_bg_Omega_m : Z).

Lemma transfer_selection_sampling_length ppr pba ppt bin tau_size t :
  transfer_selection_sampling background_tau_of_z ppr pba ppt bin tau_size = Ok t ->
  (Z.of_nat (length t) <= Z.max 0 tau_size)%Z.
Proof.
  unfold transfer_selection_sampling.
  destruct (transfer_selection_times _ _ _ _ _) as [[[tau_min tau_mean] tau_max]| |];
    cbn [bind]; try discriminate.
  destruct (Req_b tau_min tau_max).
  - unfold class_test. destruct (Z.eqb_spec tau_size 1) as [-> | Hne]; cbn [negb bind];
      [|discriminate].
    intros [= <-]. simpl. lia.
  - intros [= <-]. rewrite length_map, length_seq. lia.
Qed.

Lemma transfer_lensing_sampling_length ppr pba ppt bin tau0 tau_size t :
  transfer_lensing_sampling background_tau_of_z ppr pba ppt bin tau0 tau_size = Ok t ->
  (Z.of_nat (length t) <= Z.max 0 tau_size)%Z.
Proof.
  unfold transfer_lensing_sampling.
  destruct (transfer_selection_times _ _ _ _ _) as [[[tau_min tau_mean] tau_max]| |];
    cbn [bind]; try discriminate.
  intros [= <-]. rewrite length_map, length_seq. lia.
Qed.

Lemma same_beyond_array_store (n : Z) (values a : list R) :
  (Z.of_nat (length values) <= Z.max 0 n)%Z ->
  same_beyond n a (array_store values a).
Proof.
  intros H. unfold array_store.
  destruct (Z.le_gt_cases 0 n) as [Hn | Hn].
  - apply same_beyond_array_fill; lia.
  - assert (length values = 0%nat) as -> by lia. apply same_beyond_refl.
Qed.

Lemma transfer_source_resample_beyond ppt tau0_minus_tau tau_size tau0 interpolated
    sources sources' :
  transfer_source_resample array_interpolate_two ppt tau0_minus_tau tau_size tau0
    interpolated sources = Ok sources' ->
  same_beyond tau_size sources sources'.
Proof.
  unfold transfer_source_resample. intros H.
  refine (for_loop_inv _ (fun a => same_beyond tau_size sources a) _ _ _ _ _ _ H).
  - intros i a a' Hi Ha. destruct (array_interpolate_two _ _ _ _); cbn [bind]; try discriminate.
    intros [= <-]. eapply same_beyond_trans; [exact Ha|]. apply same_beyond_wr. lia.
  - apply same_beyond_refl.
Qed.

Lemma transfer_sources_lcmb_beyond pba ppt ptr interpolated tau_rec index_q index_md
    sources tau0_minus_tau tau_size :
  let r :=
    transfer_sources_lcmb ptr_lcmb_rescale ptr_lcmb_pivot ptr_lcmb_tilt pba ppt ptr
      interpolated tau_rec index_q index_md sources tau0_minus_tau tau_size in
  same_beyond tau_size sources (fst r) /\ same_beyond tau_size tau0_minus_tau (snd r).
Proof.
  cbv zeta. unfold transfer_sources_lcmb. cbv zeta.
  apply (fold_left_inv _
           (fun st => same_beyond tau_size sources (fst st)
                      /\ same_beyond tau_size tau0_minus_tau (snd st))).
  - intros [s t] i Hi [Hs Ht]. apply in_seq in Hi. cbn [fst snd] in *.
    split; (eapply same_beyond_trans; [eassumption|]; apply same_beyond_wr; lia).
  - split; apply same_beyond_refl.
Qed.


Lemma transfer_sources_density_beyond ppr pba ppt ptr interpolated index_q index_md index_tt
    sources tau0_minus_tau w_trapz tau_size sources' tau0_minus_tau' w_trapz' :
  transfer_sources_density background_at_tau background_tau_of_z array_trapezoidal_mweights
    array_interpolate_two pba_index_bg_Omega_m ppr pba ppt ptr interpolated
    index_q index_md index_tt sources tau0_minus_tau w_trapz tau_size
  = Ok (sources', tau0_minus_tau', w_trapz') ->
  same_beyond tau_size sources sources' /\ same_beyond tau_size tau0_minus_tau tau0_minus_tau'.
Proof.
  unfold transfer_sources_density. cbv zeta.
  destruct (transfer_selection_sampling _ _ _ _ _ _) as [sampling| |] eqn:E1; cbn [bind];
    try discriminate.
  destruct (transfer_source_resample _ _ _ _ _ _ _) as [sources1| |] eqn:E2; cbn [bind];
    try discriminate.
  destruct (array_trapezoidal_mweights _ _) as [weights| |]; cbn [bind]; try discriminate.
  destruct (transfer_selection_compute _ _ _ _ _ _ _ _ _) as [selection| |]; cbn [bind];
    try discriminate.
  match goal with |- bind ?r _ = _ -> _ => destruct r as [sources2| |] eqn:E3 end;
    cbn [bind]; try discriminate.
  intros [= <- <- <-]. split.
  - apply transfer_source_resample_beyond in E2.
    eapply same_beyond_trans; [exact E2|].
    refine (for_loop_inv _ (fun a => same_beyond tau_size sources1 a) _ _ _ _ _ _ E3).
    + intros i a a' Hi Ha. destruct (background_at_tau _ _); cbn [bind]; try discriminate.
      intros [= <-]. eapply same_beyond_trans; [exact Ha|]. apply same_beyond_wr. lia.
    + apply same_beyond_refl.
  - apply same_beyond_array_store. eapply transfer_selection_sampling_length. exact E1.
Qed.

Lemma transfer_sources_lensing_beyond ppr pba ppt ptr interpolated index_tt
    sources tau0_minus_tau w_trapz tau_size sources' tau0_minus_tau' w_trapz' :
  transfer_sources_lensing background_at_tau background_tau_of_z array_trapezoidal_mweights
    array_interpolate_two ppr pba ppt ptr interpolated index_tt
    sources tau0_minus_tau w_trapz tau_size
  = Ok (sources', tau0_minus_tau', w_trapz') ->
  same_beyond tau_size sources sources' /\ same_beyond tau_size tau0_minus_tau tau0_minus_tau'.
Proof.
  unfold transfer_sources_lensing. cbv zeta.
  destruct (transfer_selection_sampling _ _ _ _ _ _) as [t_ls| |]; cbn [bind];
    try discriminate.
  destruct (array_trapezoidal_mweights t_ls _) as [w_ls| |]; cbn [bind]; try discriminate.
  destruct (transfer_selection_compute _ _ _ _ _ _ _ _ _) as [selection| |]; cbn [bind];
    try discriminate.
  destruct (transfer_lensing_sampling _ _ _ _ _ _ _) as [sampling| |] eqn:E1; cbn [bind];
    try discriminate.
  destruct (transfer_source_resample _ _ _ _ _ _ _) as [sources1| |] eqn:E2; cbn [bind];
    try discriminate.
  destruct (array_trapezoidal_mweights (array_store _ _) _) as [weights| |]; cbn [bind];
    try discriminate.
  intros [= <- <- <-]. split.
  - apply transfer_source_resample_beyond in E2.
    eapply same_beyond_trans; [exact E2|]. apply same_beyond_array_fill; lia.
  - apply same_beyond_array_store. eapply transfer_lensing_sampling_length. exact E1.
Qed.

Let sources_run :=
  transfer_sources background_at_tau background_tau_of_z array_trapezoidal_mweights
    array_interpolate_two ptr_lcmb_rescale ptr_lcmb_pivot ptr_lcmb_tilt pba_index_bg_Omega_m.

(** [transfer_sources] writes in [sources] and [tau0_minus_tau] below
    [*tau_size_out] only. *)
Lemma transfer_sources_beyond ppr pba ppt ptr interpolated tau_rec index_q index_md index_tt
    sources tau0_minus_tau w_trapz tau_size sources' tau0_minus_tau' w_trapz' tau_size_out :
  sources_run ppr pba ppt ptr interpolated tau_rec index_q index_md index_tt
    sources tau0_minus_tau w_trapz tau_size
  = Ok (sources', tau0_minus_tau', w_trapz', tau_size_out) ->
  same_beyond tau_size_out sources sources'
  /\ same_beyond tau_size_out tau0_minus_tau tau0_minus_tau'.
Proof.
  unfold sources_run, transfer_sources. cbv zeta.
  destruct (_scalars_ ppt index_md
            && (tt_is_lcmb ppt ptr index_tt || tt_is_density ppt ptr index_tt
                || tt_is_lensing ppt ptr index_tt))%bool.
  - destruct (transfer_source_tau_size _ _ _ _ _ _ _ _ _ _) as [n| |]; cbn [bind];
      try discriminate.
    destruct (_scalars_ ppt index_md);
      [|intros [= <- <- <- <-]; split; apply same_beyond_refl].
    match goal with |- bind ?r _ = _ -> _ => destruct r as [[[s1 t1] w1]| |] eqn:E1 end;
      cbn [bind]; try discriminate.
    match goal with |- bind ?r _ = _ -> _ => destruct r as [[[s2 t2] w2]| |] eqn:E2 end;
      cbn [bind]; try discriminate.
    match goal with |- bind ?r _ = _ -> _ => destruct r as [[[s3 t3] w3]| |] eqn:E3 end;
      cbn [bind]; try discriminate.
    intros [= <- <- <- <-].
    assert (H1 : same_beyond n sources s1 /\ same_beyond n tau0_minus_tau t1).
    { destruct (tt_is_lcmb ppt ptr index_tt).
      - pose proof (transfer_sources_lcmb_beyond pba ppt ptr interpolated tau_rec index_q
                      index_md sources tau0_minus_tau n) as Hl. cbv zeta in Hl.
        destruct (transfer_sources_lcmb _ _ _ _ _ _ _ _ _ _ _ _ _) as [sl tl].
        cbn [fst snd] in Hl.
        destruct (array_trapezoidal_mweights _ _); cbn [bind] in E1; try discriminate.
        injection E1 as <- <- <-. exact Hl.
      - injection E1 as <- <- <-. split; apply same_beyond_refl. }
    assert (H2 : same_beyond n s1 s2 /\ same_beyond n t1 t2).
    { destruct (tt_is_density ppt ptr index_tt).
      - eapply transfer_sources_density_beyond. exact E2.
      - injection E2 as <- <- <-. split; apply same_beyond_refl. }
    assert (H3 : same_beyond n s2 s3 /\ same_beyond n t2 t3).
    { destruct (tt_is_lensing ppt ptr index_tt).
      - eapply transfer_sources_lensing_beyond. exact E3.
      - injection E3 as <- <- <-. split; apply same_beyond_refl. }
    split; (eapply same_beyond_trans; [|apply H3]);
      (eapply same_beyond_trans; [apply H1 | apply H2]).
  - destruct (array_trapezoidal_mweights _ _); cbn [bind]; try discriminate.
    intros [= <- <- <- <-]. split; apply same_beyond_array_fill; lia.
Qed.

(** When the mode is a tensor mode, or a scalar mode and one of the tests on
    the type holds, the number of times that [transfer_sources] returns is
    the one that [transfer_source_tau_size] computes. *)
Lemma transfer_sources_tau_size_out ppr pba ppt ptr interpolated tau_rec index_q index_md
    index_tt sources tau0_minus_tau w_trapz tau_size sources' tau0_minus_tau' w_trapz'
    tau_size_out previous :
  _tensors_ ppt index_md = true
  \/ (_scalars_ ppt index_md = true /\ (1 <= scalar_type_tests ppt ptr index_tt)%Z) ->
  sources_run ppr pba ppt ptr interpolated tau_rec index_q index_md index_tt
    sources tau0_minus_tau w_trapz tau_size
  = Ok (sources', tau0_minus_tau', w_trapz', tau_size_out) ->
  transfer_source_tau_size background_tau_of_z ppr pba ppt ptr tau_rec (pba_conformal_age pba)
    index_md index_tt previous = Ok tau_size_out.
Proof.
  intros Ha. unfold sources_run, transfer_sources. cbv zeta.
  destruct (_scalars_ ppt index_md
            && (tt_is_lcmb ppt ptr index_tt || tt_is_density ppt ptr index_tt
                || tt_is_lensing ppt ptr index_tt))%bool eqn:Er.
  - rewrite (transfer_source_tau_size_assigned background_tau_of_z ppr pba ppt ptr tau_rec
               (pba_conformal_age pba) index_md index_tt previous tau_size Ha).
    destruct (transfer_source_tau_size _ _ _ _ _ _ _ _ _ _) as [n| |]; cbn [bind];
      try discriminate.
    destruct (_scalars_ ppt index_md); [|intros [= <- <- <- <-]; reflexivity].
    match goal with |- bind ?r _ = _ -> _ => destruct r as [[[s1 t1] w1]| |] end;
      cbn [bind]; try discriminate.
    match goal with |- bind ?r _ = _ -> _ => destruct r as [[[s2 t2] w2]| |] end;
      cbn [bind]; try discriminate.
    match goal with |- bind ?r _ = _ -> _ => destruct r as [[[s3 t3] w3]| |] end;
      cbn [bind]; try discriminate.
    intros [= <- <- <- <-]. reflexivity.
  - destruct (array_trapezoidal_mweights _ _); cbn [bind]; try discriminate.
    intros [= <- <- <- <-].
    unfold transfer_source_tau_size. unfold scalar_type_tests in Ha.
    destruct (_scalars_ ppt index_md) eqn:Es.
    + cbn [andb] in Er. apply orb_false_iff in Er. destruct Er as [Er E3].
      apply orb_false_iff in Er. destruct Er as [E1 E2].
      rewrite E1, E2, E3 in *. cbv zeta.
      destruct (ppt_has_cl_cmb_temperature ppt), (ppt_has_cl_cmb_polarization ppt),
        (index_tt =? ptr_index_tt_t0 ptr)%Z, (index_tt =? ptr_index_tt_t1 ptr)%Z,
        (index_tt =? ptr_index_tt_t2 ptr)%Z, (index_tt =? ptr_index_tt_e ptr)%Z;
        cbn [andb orb b2z bind] in *;
        destruct (_tensors_ ppt index_md); try reflexivity;
        destruct Ha as [Ha | [_ Ha]]; try discriminate Ha; lia.
    + destruct Ha as [Ha | [Ha _]]; [|discriminate Ha]. rewrite Ha. reflexivity.
Qed.


(** X24: with the type indices handed out by
    [transfer_indices_of_transfers] and no vector modes, the arrays of the
    workspace are large enough for [transfer_sources]: for every type of a
    scalar or tensor mode, the number of times it returns is at most the
    [tau_size_max] of [transfer_source_tau_size_max], with which
    [transfer_workspace_init] allocates them, and [sources] and
    [tau0_minus_tau] are written below that number only, their other
    entries and their lengths being kept. *)
Theorem transfer_sources_within_workspace
    (ppr : precision) (pba : background) (ppt : perturbs) (ptr0 : transfers)
    (interpolated_sources : list R) (tau_rec : R) (index_q index_md index_tt : Z)
    (sources tau0_minus_tau w_trapz : list R) (tau_size tau_size_max : Z)
    (sources' tau0_minus_tau' w_trapz' : list R) (tau_size_out : Z) :
  let ptr := transfer_indices_of_transfers_types ppt ptr0 in
  ppt_has_vectors ppt = false ->
  (0 <= ppt_selection_num ppt)%Z ->
  (ppt_has_tensors ppt = true ->
   (0 <= ppt_index_md_tensors ppt)%Z
   /\ ppt_index_md_tensors ppt <> ppt_index_md_scalars ppt) ->
  _scalars_ ppt index_md = true \/ _tensors_ ppt index_md = true ->
  (0 <= index_md < ptr_md_size ptr)%Z ->
  (0 <= index_tt < rdi (ptr_tt_size ptr) index_md)%Z ->
  transfer_source_tau_size_max background_tau_of_z ppr pba ppt ptr tau_rec
    (pba_conformal_age pba) = Ok tau_size_max ->
  sources_run ppr pba ppt ptr interpolated_sources tau_rec index_q index_md index_tt
    sources tau0_minus_tau w_trapz tau_size
  = Ok (sources', tau0_minus_tau', w_trapz', tau_size_out) ->
  (tau_size_out <= tau_size_max)%Z
  /\ same_beyond tau_size_out sources sources'
  /\ same_beyond tau_size_out tau0_minus_tau tau0_minus_tau'.
Proof.
  intros ptr Hv Hnum Ht Hmode Hmd Htt Hmax Hrun.
  split; [|eapply transfer_sources_beyond; exact Hrun].
  assert (Ha : _tensors_ ppt index_md = true
               \/ (_scalars_ ppt index_md = true
                   /\ (1 <= scalar_type_tests ppt ptr index_tt)%Z)).
  { destruct (_tensors_ ppt index_md) eqn:Et; [left; reflexivity|].
    destruct Hmode as [Hs | Hs]; [|discriminate Hs]. right. split; [exact Hs|].
    unfold _scalars_ in Hs. apply andb_true_iff in Hs. destruct Hs as [Hs Hi].
    apply Z.eqb_eq in Hi. subst index_md.
    destruct (transfer_indices_layout ppt ptr0 Hs Hv) as (_ & _ & _ & _ & _ & _ & _ & Hsize).
    cbv zeta in Hsize. fold ptr in Hsize.
    unfold ptr in Htt. rewrite tt_size_scalars in Htt; try assumption; [|lia].
    unfold ptr. rewrite scalar_type_tests_layout by assumption.
    replace (0 <=? index_tt)%Z with true by (symmetry; apply Z.leb_le; lia).
    replace (index_tt <? scalar_type_count ppt)%Z with true
      by (symmetry; apply Z.ltb_lt; lia).
    simpl. lia. }
  unfold transfer_source_tau_size_max in Hmax.
  destruct (tau_size_max_md_loop _ _ _ _ _ _ _ _ _ _) as [st| |] eqn:E; cbn [bind] in Hmax;
    try discriminate.
  injection Hmax as <-.
  destruct (tau_size_max_md_loop_spec background_tau_of_z ppr pba ppt ptr tau_rec
              (pba_conformal_age pba) _ 0%Z _ _ (Z.le_refl 0) E) as (_ & Hall & _).
  destruct (Hall index_md index_tt ltac:(lia) Htt) as (n & [previous Hn] & Hle).
  rewrite (transfer_sources_tau_size_out ppr pba ppt ptr interpolated_sources tau_rec
             index_q index_md index_tt sources tau0_minus_tau w_trapz tau_size
             sources' tau0_minus_tau' w_trapz' tau_size_out previous Ha Hrun) in Hn.
  injection Hn as ->. exact Hle.
Qed.

(** X25: for a mode that is neither scalar nor tensor (a vector mode),
    [transfer_source_tau_size] leaves the number of times as it was, so that
    with such modes only [transfer_source_tau_size_max] returns 0, while
    [transfer_sources] returns [ppt->tau_size] and copies that many
    interpolated sources into [sources]. *)
Theorem transfer_sources_vector_mode
    (ppr : precision) (pba : background) (ppt : perturbs) (ptr : transfers)
    (tau_rec tau0 : R) :
  (forall index_md,
      (0 <= index_md < ptr_md_size ptr)%Z ->
      _scalars_ ppt index_md = false /\ _tensors_ ppt index_md = false) ->
  transfer_source_tau_size_max background_tau_of_z ppr pba ppt ptr tau_rec tau0 = Ok 0%Z
  /\ forall index_md index_tt index_q interpolated_sources sources tau0_minus_tau w_trapz
            tau_size sources' tau0_minus_tau' w_trapz' tau_size_out,
       (0 <= index_md < ptr_md_size ptr)%Z ->
       sources_run ppr pba ppt ptr interpolated_sources tau_rec index_q index_md index_tt
         sources tau0_minus_tau w_trapz tau_size
       = Ok (sources', tau0_minus_tau', w_trapz', tau_size_out) ->
       tau_size_out = ppt_tau_size ppt
       /\ forall index_tau,
            (0 <= index_tau < ppt_tau_size ppt)%Z ->
            (index_tau < Z.of_nat (length sources))%Z ->
            rd sources' index_tau = rd interpolated_sources index_tau.
Proof.
  intros Hmodes. split.
  - unfold transfer_source_tau_size_max.
    assert (Htt : forall n index_md index_tt,
               (0 <= index_md < ptr_md_size ptr)%Z ->
               tau_size_max_tt_loop background_tau_of_z ppr pba ppt ptr tau_rec tau0 n
                 index_md index_tt (0%Z, 0%Z) = Ok (0%Z, 0%Z)).
    { induction n as [|n IH]; intros index_md index_tt Hmd; [reflexivity|].
      cbn [tau_size_max_tt_loop]. unfold transfer_source_tau_size.
      destruct (Hmodes index_md Hmd) as [-> ->]. cbn [bind snd fst].
      change (MAXi 0 0) with 0%Z. apply IH. exact Hmd. }
    assert (Hmd : forall n index_md,
               (0 <= index_md)%Z -> (index_md + Z.of_nat n <= ptr_md_size ptr)%Z ->
               tau_size_max_md_loop background_tau_of_z ppr pba ppt ptr tau_rec tau0 n
                 index_md (0%Z, 0%Z) = Ok (0%Z, 0%Z)).
    { induction n as [|n IH]; intros index_md H0 Hn; [reflexivity|].
      cbn [tau_size_max_md_loop]. rewrite Htt by lia. cbn [bind]. apply IH; lia. }
    destruct (Z.le_gt_cases 0 (ptr_md_size ptr)) as [Hsize | Hsize].
    + rewrite Hmd by lia. reflexivity.
    + replace (Z.to_nat (ptr_md_size ptr)) with 0%nat by lia. reflexivity.
  - intros index_md index_tt index_q interpolated sources tau0_minus_tau w_trapz tau_size
      sources' tau0_minus_tau' w_trapz' tau_size_out Hmd.
    unfold sources_run, transfer_sources. cbv zeta.
    destruct (Hmodes index_md Hmd) as [-> _]. cbn [andb].
    destruct (array_trapezoidal_mweights _ _); cbn [bind]; try discriminate.
    intros [= <- <- <- <-]. split; [reflexivity|].
    intros index_tau Hi Hlen. apply rd_array_fill_in; lia.
Qed.

End Sources_properties.

Lemma transfer_sources_within_workspace_witness :
  exists sources' tau0_minus_tau' w_trapz' tau_size_out,
    transfer_sources background_at_tau_unit background_tau_of_z_linear
      array_trapezoidal_mweights_unit array_interpolate_two_first 1 1 1 2
      ppr_default pba_unit ppt_three_k ptr_three_k [3; 4] 280 0 0 1
      [0; 0; 9] [0; 0; 9] [0; 0; 9] 0
    = Ok (sources', tau0_minus_tau', w_trapz', tau_size_out)
    /\ (tau_size_out <= 2)%Z
    /\ same_beyond tau_size_out [0; 0; 9] sources'.
Proof.
  do 4 eexists.
  assert (Hrun : transfer_sources background_at_tau_unit background_tau_of_z_linear
                   array_trapezoidal_mweights_unit array_interpolate_two_first 1 1 1 2
                   ppr_default pba_unit ppt_three_k ptr_three_k [3; 4] 280 0 0 1
                   [0; 0; 9] [0; 0; 9] [0; 0; 9] 0
                 = Ok ([3; 4; 9], [14000 - 100; 14000 - 200; 9], [1; 1; 9], 2%Z))
    by reflexivity.
  split; [exact Hrun|].
  destruct (transfer_sources_within_workspace background_at_tau_unit
              background_tau_of_z_linear array_trapezoidal_mweights_unit
              array_interpolate_two_first 1 1 1 2
              ppr_default pba_unit ppt_three_k ptr_blank [3; 4] 280 0 0 1
              [0; 0; 9] [0; 0; 9] [0; 0; 9] 0 2
              [3; 4; 9] [14000 - 100; 14000 - 200; 9] [1; 1; 9] 2) as (H1 & H2 & _).
  - reflexivity.
  - simpl. lia.
  - intros H. discriminate H.
  - left. reflexivity.
  - split; [lia | reflexivity].
  - split; [lia | reflexivity].
  - reflexivity.
  - exact Hrun.
  - split; assumption.
Defined.

Lemma transfer_sources_vector_mode_witness :
  transfer_source_tau_size_max background_tau_of_z_linear ppr_default pba_unit
    ppt_vectors_only (transfer_indices_of_transfers_types ppt_vectors_only ptr_blank)
    280 14000 = Ok 0%Z.
Proof.
  apply (transfer_sources_vector_mode background_at_tau_unit background_tau_of_z_linear
           array_trapezoidal_mweights_unit array_interpolate_two_first 1 1 1 2
           ppr_default pba_unit ppt_vectors_only
           (transfer_indices_of_transfers_types ppt_vectors_only ptr_blank) 280 14000).
  intros index_md _. split; reflexivity.
Defined.

(** ** The tables of closed space *)

(** X26: in closed space, on a grid that starts at [3 sqrt(K)] and
    increases (as [transfer_get_q_list] leaves it), every table of
    [transfer_update_HIS] is built for an integer [nu = (int)(q/sqrt(K)+0.2)]
    of at least 3: the test [nu <= 0] cannot fail, and with multipoles that
    start at 2 the loop that lowers [l_size_max], which has no bound of its
    own, stops inside the list with at least one multipole below [nu]. *)
Theorem transfer_update_HIS_closed
    (ptr : transfers) (ptw : transfer_workspace) (K : R) (index_q : Z) (nu : R) :
  0 < K ->
  ptw_sgnK ptw = 1%Z ->
  ptw_K ptw = K ->
  rd (ptr_q ptr) 0 = 3 * sqrt K ->
  (forall i j, (0 <= i < j)%Z -> (j < ptr_q_size ptr)%Z -> rd (ptr_q ptr) i < rd (ptr_q ptr) j) ->
  (0 <= index_q < ptr_q_size ptr)%Z ->
  rdi (ptr_l ptr) 0 = 2%Z ->
  (1 <= ptr_l_size_max ptr)%Z ->
  transfer_update_HIS_nu ptr ptw index_q = Ok (Some nu) ->
  nu = IZR (trunc (rd (ptr_q ptr) index_q / sqrt K + 0.2))
  /\ 3 <= nu
  /\ Rleb nu 0 = false
  /\ let kept :=
       update_HIS_l_size_max (Z.to_nat (ptr_l_size_max ptr)) (ptr_l ptr) nu
         (ptr_l_size_max ptr) in
     (1 <= kept <= ptr_l_size_max ptr)%Z
     /\ IZR (rdi (ptr_l ptr) (kept - 1)) < nu
     /\ forall index_l, (kept <= index_l < ptr_l_size_max ptr)%Z ->
                        nu <= IZR (rdi (ptr_l ptr) index_l).
Proof.
  intros HK Hs HKw H0 Hinc Hq Hl Hsize Hrun.
  pose proof (sqrt_lt_R0 K HK) as Hsqrt.
  assert (Hge : 3 * sqrt K <= rd (ptr_q ptr) index_q).
  { destruct (Z.eq_dec index_q 0) as [-> | Hne]; [lra|].
    rewrite <- H0. left. apply Hinc; lia. }
  assert (Hnu : 3 <= rd (ptr_q ptr) index_q / sqrt K).
  { apply (Rmult_le_reg_r (sqrt K)); [exact Hsqrt|].
    unfold Rdiv. rewrite Rmult_assoc, Rinv_l by lra. lra. }
  assert (Hint : (3 <= trunc (rd (ptr_q ptr) index_q / sqrt K + 0.2))%Z)
    by (apply trunc_ge; [lia | lra]).
  unfold transfer_update_HIS_nu in Hrun. rewrite Hs, HKw in Hrun.
  cbn [Z.eqb negb andb] in Hrun.
  destruct (index_q <? ptr_index_q_flat_approximation ptr)%Z; [|discriminate Hrun].
  replace (1 * K) with K in Hrun by lra.
  destruct (class_test _ _); cbn [bind] in Hrun; try discriminate Hrun.
  injection Hrun as <-.
  assert (H3 : 3 <= IZR (trunc (rd (ptr_q ptr) index_q / sqrt K + 0.2)))
    by (apply IZR_le in Hint; exact Hint).
  split; [reflexivity|]. split; [exact H3|]. split; [apply Rleb_false; lra|].
  cbv zeta.
  destruct (update_HIS_l_size_max_loop (ptr_l ptr)
              (IZR (trunc (rd (ptr_q ptr) index_q / sqrt K + 0.2)))
              ltac:(rewrite Hl; lra) (Z.to_nat (ptr_l_size_max ptr)) (ptr_l_size_max ptr)
              Hsize ltac:(lia)) as (G1 & G2 & G3 & _).
  repeat split; try assumption; lia.
Qed.

Lemma transfer_update_HIS_closed_witness :
  3 <= 4
  /\ (1 <= update_HIS_l_size_max 5 [2; 3; 4; 5; 6]%Z 4 5 <= 5)%Z.
Proof.
  assert (Hrun : transfer_update_HIS_nu ptr_closed_grid ptw_closed 1 = Ok (Some 4)).
  { apply (transfer_update_HIS_nu_cases ptr_closed_grid ptw_closed 1 4);
      try reflexivity; try lia.
    unfold rd; simpl. rewrite sqrt_1. lra. }
  destruct (transfer_update_HIS_closed ptr_closed_grid ptw_closed 1 1 4)
    as (_ & H3 & _ & H1 & _); try reflexivity; try lra; try lia; try exact Hrun.
  - unfold rd; simpl. rewrite sqrt_1. lra.
  - intros i j Hij Hj. change (ptr_q_size ptr_closed_grid) with 3%Z in Hj.
    assert ((i = 0 /\ j = 1) \/ (i = 0 /\ j = 2) \/ (i = 1 /\ j = 2))%Z
      as [[-> ->] | [[-> ->] | [-> ->]]] by lia; unfold rd; simpl; lra.
  - change (ptr_q_size ptr_closed_grid) with 3%Z. lia.
  - change (ptr_l_size_max ptr_closed_grid) with 5%Z. lia.
  - split; [exact H3 | exact H1].
Defined.

(** ** The multipoles of an open table *)

Section Get_lmax_range.

Variable get_xmin_generic : Z -> Z -> R -> R -> R -> result R.
Variables (sgnK : Z) (nu : R) (lvec : list Z) (lsize : Z) (phiminabs xmax xtol : R).
Variable x_nonzero : Z -> R.
Hypothesis get_xmin_ok :
  forall l, get_xmin_generic sgnK l nu xtol phiminabs = Ok (x_nonzero l).

(** With at least two multipoles, [transfer_get_lmax] returns two indices
    of the list when it is given two. *)
Lemma transfer_get_lmax_range (fuel : nat) (index_l_left index_l_right : Z) :
  (2 <= lsize)%Z ->
  (0 <= index_l_left <= lsize - 1)%Z ->
  (0 <= index_l_right <= lsize - 1)%Z ->
  (lsize <= Z.of_nat fuel)%Z ->
  exists l r,
    transfer_get_lmax get_xmin_generic sgnK nu lvec lsize phiminabs xmax xtol fuel
      index_l_left index_l_right = Ok (l, r)
    /\ (0 <= l <= lsize - 1)%Z /\ (0 <= r <= lsize - 1)%Z.
Proof.
  intros Hsize Hl Hr Hfuel. unfold transfer_get_lmax. rewrite !get_xmin_ok. cbn [bind].
  destruct (Rleb xmax (x_nonzero (rdi lvec 0))) eqn:E0.
  { exists index_l_left, (MAXi (lsize - 1) 1). split; [reflexivity|].
    unfold MAXi. destruct (1 <? lsize - 1)%Z; lia. }
  destruct (Rltb (x_nonzero (rdi lvec (lsize - 1))) xmax) eqn:E1.
  { exists (MAXi 0 (lsize - 2)), index_l_right. split; [reflexivity|].
    unfold MAXi. destruct (lsize - 2 <? 0)%Z eqn:E; [apply Z.ltb_lt in E|]; lia. }
  apply Rleb_false in E0. apply Rltb_false in E1.
  destruct (lmax_hunt_left_spec get_xmin_generic sgnK nu lvec lsize phiminabs xmax xtol
              x_nonzero get_xmin_ok fuel E0 1%Z index_l_left index_l_right false
              ltac:(lia) Hl ltac:(lia) ltac:(discriminate))
    as (l1 & r1 & c & Hrun1 & Hl1 & Hx1 & Hct & Hcf).
  rewrite Hrun1. cbn [bind].
  assert (Hhunt : exists l2 r2,
             (if negb c
              then lmax_hunt_right get_xmin_generic sgnK nu lvec lsize phiminabs xmax xtol
                     fuel 1 l1 r1
              else Ok (l1, r1)) = Ok (l2, r2)
             /\ (0 <= l2 <= lsize - 1)%Z /\ (0 <= r2 <= lsize - 1)%Z
             /\ x_nonzero (rdi lvec l2) <= xmax <= x_nonzero (rdi lvec r2)).
  { destruct c; cbn [negb].
    - destruct (Hct eq_refl) as (Hlt & Hr1 & Hx1').
      exists l1, r1. repeat split; try lia; assumption.
    - destruct (Hcf eq_refl) as (_ & -> & ->).
      destruct (lmax_hunt_right_spec get_xmin_generic sgnK nu lvec lsize phiminabs xmax
                  xtol x_nonzero get_xmin_ok fuel E1 1%Z index_l_left index_l_right
                  ltac:(lia) Hl Hr ltac:(lia) Hx1)
        as (l2 & r2 & Hrun2 & Hl2 & Hr2 & Hx2 & _).
      exists l2, r2. split; [exact Hrun2|]. repeat split; try lia; try apply Hx2. }
  destruct Hhunt as (l2 & r2 & Hrun2 & Hl2 & Hr2 & Hx2).
  rewrite Hrun2. cbn [bind].
  destruct (lmax_bisect_spec get_xmin_generic sgnK nu lvec lsize phiminabs xmax xtol
              x_nonzero get_xmin_ok fuel l2 r2 ltac:(lia) ltac:(lia) ltac:(lia) Hx2)
    as (l & r & Hrun & H1' & H2' & H3' & _ & H5' & H6').
  exists l, r. split; [exact Hrun|].
  destruct (Z_lt_le_dec l2 r2) as [Hlt | Hge]; [specialize (H5' Hlt); lia|].
  destruct (H6' ltac:(lia)) as [-> ->]. lia.
Qed.

End Get_lmax_range.

(** X27: in open space, when the two [get_xmin] functions succeed,
    [transfer_update_HIS] hands to [hyperspherical_HIS_create] a number of
    multipoles between 1 and [ptr->l_size_max], as soon as the list has two
    multipoles (a number of turns above its size is enough for the searches).
    With a single multipole the number is 2, one more than the list, when
    [x_nonzero] of one of the two functions reaches [xmax] there, and 1
    otherwise. *)
Theorem transfer_update_HIS_open
    (get_xmin_from_approx get_xmin_from_Airy : Z -> Z -> R -> R -> R -> result R)
    (sgnK : Z) (nu : R) (l : list Z) (l_size_max : Z) (phiminabs xmax xtol : R)
    (x_approx x_Airy : Z -> R) (fuel : nat) :
  (forall m, get_xmin_from_approx sgnK m nu xtol phiminabs = Ok (x_approx m)) ->
  (forall m, get_xmin_from_Airy sgnK m nu xtol phiminabs = Ok (x_Airy m)) ->
  (l_size_max <= Z.of_nat fuel)%Z ->
  let run :=
    update_HIS_l_size_max_open get_xmin_from_approx get_xmin_from_Airy sgnK nu l l_size_max
      phiminabs xmax xtol fuel in
  ((2 <= l_size_max)%Z -> exists n, run = Ok n /\ (1 <= n <= l_size_max)%Z)
  /\ (l_size_max = 1%Z ->
      (xmax <= x_approx (rdi l 0) \/ xmax <= x_Airy (rdi l 0) -> run = Ok 2%Z)
      /\ (x_approx (rdi l 0) < xmax -> x_Airy (rdi l 0) < xmax -> run = Ok 1%Z)).
Proof.
  intros Happrox HAiry Hfuel run. subst run. unfold update_HIS_l_size_max_open. split.
  - intros Hsize.
    destruct (transfer_get_lmax_range get_xmin_from_approx sgnK nu l l_size_max phiminabs
                xmax xtol x_approx Happrox fuel 0 (l_size_max - 1) Hsize ltac:(lia)
                ltac:(lia) Hfuel) as (l1 & r1 & Hrun1 & Hl1 & Hr1).
    rewrite Hrun1. cbn [bind].
    destruct (transfer_get_lmax_range get_xmin_from_Airy sgnK nu l l_size_max phiminabs
                xmax xtol x_Airy HAiry fuel l1 r1 Hsize Hl1 Hr1 Hfuel)
      as (l2 & r2 & Hrun2 & Hl2 & Hr2).
    rewrite Hrun2. cbn [bind]. exists (r2 + 1)%Z. split; [reflexivity | lia].
  - intros ->. unfold transfer_get_lmax. rewrite !Happrox, !HAiry. cbn [bind].
    change (1 - 1)%Z with 0%Z. change (MAXi 0 1) with 1%Z. change (MAXi 0 (1 - 2)) with 0%Z.
    split.
    + intros Hreach.
      destruct (Rleb xmax (x_approx (rdi l 0))) eqn:Ea; cbn [bind].
      * destruct (Rleb xmax (x_Airy (rdi l 0))) eqn:EA; cbn [bind]; [reflexivity|].
        apply Rleb_false in EA. apply Rltb_true in EA. rewrite EA. reflexivity.
      * apply Rleb_false in Ea.
        destruct Hreach as [Habs | HA]; [lra|].
        apply Rltb_true in Ea. rewrite Ea. cbn [bind].
        apply Rleb_true in HA. rewrite HA. reflexivity.
    + intros Ha HA.
      replace (Rleb xmax (x_approx (rdi l 0))) with false by (symmetry; apply Rleb_false; lra).
      apply Rltb_true in Ha. rewrite Ha. cbn [bind].
      replace (Rleb xmax (x_Airy (rdi l 0))) with false by (symmetry; apply Rleb_false; lra).
      apply Rltb_true in HA. rewrite HA. reflexivity.
Qed.

(** Eight multipoles from 2 to 9 and [xmax = 5.5], with [x_nonzero = l] then
    [x_nonzero = l + 1]. *)
Lemma transfer_update_HIS_open_witness :
  exists n,
    update_HIS_l_size_max_open get_xmin_linear get_xmin_linear_shifted (-1) 10
      [2; 3; 4; 5; 6; 7; 8; 9]%Z 8 0.1 5.5 0.01 8 = Ok n
    /\ (1 <= n <= 8)%Z.
Proof.
  destruct (transfer_update_HIS_open get_xmin_linear get_xmin_linear_shifted (-1) 10
              [2; 3; 4; 5; 6; 7; 8; 9]%Z 8 0.1 5.5 0.01 IZR (fun m => IZR m + 1) 8%nat
              (fun m => eq_refl) (fun m => eq_refl) ltac:(lia)) as [Hmany _].
  apply Hmany. lia.
Defined.
